(** * Tealish: a verification development for the AST nodes of the compiler

    The definitions follow [tealish/nodes.py]: Python [str] values are
    [string]s, regular expressions are abstract syntax run by a
    backtracking matcher with the priorities of Python's [re] module, the
    compiler, the writer and the scope are explicit state, and the three
    passes (build, [process], [write_teal]) are functions on that state. *)

From Stdlib Require Import String Ascii List ZArith Lia Bool Arith.
From Equations.Prop Require Import Equations Logic.
Import ListNotations.

Local Open Scope string_scope.
Local Open Scope list_scope.

(** List append where strings are appended too. *)
Notation "l1 +++ l2" := (@List.app _ l1 l2)
  (at level 60, right associativity, only parsing).

(** ** Python strings *)

Module PyStr.

(** The double quote character. *)
Definition dquote : ascii := "034"%char.

Definition Q : string := String dquote EmptyString.

(** [str.isspace] on a single character of the Latin-1 range. *)
Definition is_space (c : ascii) : bool :=
  let n := nat_of_ascii c in
  (((9 <=? n) && (n <=? 13)) || ((28 <=? n) && (n <=? 32))
   || (n =? 133) || (n =? 160))%nat.

Fixpoint lstrip (s : string) : string :=
  match s with
  | EmptyString => EmptyString
  | String c s' => if is_space c then lstrip s' else s
  end.

Fixpoint rstrip (s : string) : string :=
  match s with
  | EmptyString => EmptyString
  | String c s' =>
      match rstrip s' with
      | EmptyString => if is_space c then EmptyString else String c EmptyString
      | r => String c r
      end
  end.

(** [s.strip()] *)
Definition strip (s : string) : string := rstrip (lstrip s).

(** [s[:i]] *)
Fixpoint take (i : nat) (s : string) : string :=
  match i, s with
  | S i', String c s' => String c (take i' s')
  | _, _ => EmptyString
  end.

(** [s[i:]] *)
Fixpoint drop (i : nat) (s : string) : string :=
  match i, s with
  | S i', String _ s' => drop i' s'
  | _, _ => s
  end.

(** [s.startswith(p)] *)
Fixpoint startswith (s p : string) {struct p} : bool :=
  match p with
  | EmptyString => true
  | String c p' =>
      match s with
      | String x s' => Ascii.eqb x c && startswith s' p'
      | EmptyString => false
      end
  end.

(** [sep.join(l)] *)
Fixpoint join (sep : string) (l : list string) : string :=
  match l with
  | [] => EmptyString
  | [x] => x
  | x :: l' => x ++ sep ++ join sep l'
  end.

(** [str(n)] for a non-negative integer. *)
Definition digit_char (n : nat) : ascii := ascii_of_nat (48 + n).

Fixpoint str_nat_fuel (fuel n : nat) (acc : string) : string :=
  match fuel with
  | 0 => acc
  | S fuel' =>
      let acc' := String (digit_char (n mod 10)) acc in
      if (n <? 10)%nat then acc' else str_nat_fuel fuel' (n / 10) acc'
  end.

Definition str_nat (n : nat) : string := str_nat_fuel (S n) n EmptyString.

(** [str(z)] for an integer. *)
Definition str_Z (z : Z) : string :=
  match z with
  | Zneg _ => String "-" (str_nat (Z.abs_nat z))
  | _ => str_nat (Z.abs_nat z)
  end.

(** [s.split(",")] *)
Fixpoint split_commas (s : string) : list string :=
  match s with
  | EmptyString => [EmptyString]
  | String c s' =>
      if Ascii.eqb c ","%char then EmptyString :: split_commas s'
      else match split_commas s' with
           | p :: ps => String c p :: ps
           | [] => [String c EmptyString]
           end
  end.

End PyStr.

Import PyStr.

(** ** The labels of the conditionals: [l{N}_end], [l{N}_for], [l{N}_while] *)

Definition end_label (conditional_index : nat) : string :=
  "l" ++ str_nat conditional_index ++ "_end".

Definition for_label (conditional_index : nat) : string :=
  "l" ++ str_nat conditional_index ++ "_for".

Definition while_label (conditional_index : nat) : string :=
  "l" ++ str_nat conditional_index ++ "_while".

(** ** Regular expressions

    The patterns of the node classes are run by [re.match]: the match is
    anchored at the start of the line, alternatives are tried from left to
    right, greedy repetitions try the longest first and lazy ones the
    shortest first, and the first overall success wins. *)

Module Re.

Inductive re : Type :=
| Eps                                  (* the empty pattern *)
| Chr (c : ascii)                      (* a literal character *)
| Cls (p : ascii -> bool)              (* a character class, [.], [\d] *)
| Seq (a b : re)                       (* ab *)
| Alt (a b : re)                       (* a|b *)
| Star (greedy : bool) (a : re)        (* a* and a*? *)
| Grp (name : string) (a : re)         (* (?P<name>a) *)
| Eos.                                 (* $ *)

(** The named groups that took part in the match ([groupdict()]; a group
    that is absent here is [None] there). *)
Definition groups := list (string * string).

Fixpoint get (name : string) (g : groups) : option string :=
  match g with
  | [] => None
  | (n, v) :: g' => if String.eqb n name then Some v else get name g'
  end.

(** The rounds of a repetition: [step] matches the repeated pattern
    once, and a round that consumes nothing is not taken. *)
Fixpoint star_loop {R : Type} (greedy : bool)
  (step : string -> groups -> (string -> groups -> option R) -> option R)
  (k : string -> groups -> option R) (fuel : nat) (s : string) (g : groups)
  : option R :=
  match fuel with
  | 0 => k s g
  | S fuel' =>
      let more :=
        step s g
          (fun s' g' =>
             if (String.length s' <? String.length s)%nat
             then star_loop greedy step k fuel' s' g' else None) in
      if greedy then
        match more with Some res => Some res | None => k s g end
      else
        match k s g with Some res => Some res | None => more end
  end.

Fixpoint run {R : Type} (r : re) (s : string) (g : groups)
  (k : string -> groups -> option R) {struct r} : option R :=
  match r with
  | Eps => k s g
  | Chr c =>
      match s with
      | String x s' => if Ascii.eqb x c then k s' g else None
      | EmptyString => None
      end
  | Cls p =>
      match s with
      | String x s' => if p x then k s' g else None
      | EmptyString => None
      end
  | Seq a b => run a s g (fun s' g' => run b s' g' k)
  | Alt a b =>
      match run a s g k with
      | Some res => Some res
      | None => run b s g k
      end
  | Star greedy a => star_loop greedy (run a) k (String.length s) s g
  | Grp name a =>
      run a s g
        (fun s' g' =>
           k s' ((name, take (String.length s - String.length s') s) :: g'))
  | Eos =>
      match s with
      | EmptyString => k s g
      | String x EmptyString => if Ascii.eqb x "010"%char then k s g else None
      | _ => None
      end
  end.

(** [re.match(pattern, line)] and its [groupdict()]. *)
Definition re_match (r : re) (line : string) : option groups :=
  run r line [] (fun _ g => Some g).

(** [re.match(pattern, s)], with what follows the match. *)
Definition match_prefix (r : re) (s : string) : option (groups * string) :=
  run r s [] (fun rest g => Some (g, rest)).

(** [re.findall(pattern, s)], the groups of every match: the matches
    are looked for from left to right and do not overlap. *)
Fixpoint findall (fuel : nat) (r : re) (s : string) : list groups :=
  match fuel with
  | 0 => []
  | S fuel' =>
      match match_prefix r s with
      | Some (g, rest) =>
          g :: (if (String.length rest <? String.length s)%nat
                then findall fuel' r rest
                else match s with
                     | EmptyString => []
                     | String _ s' => findall fuel' r s'
                     end)
      | None =>
          match s with
          | EmptyString => []
          | String _ s' => findall fuel' r s'
          end
      end
  end.

(** Pattern syntax. *)
Fixpoint lit (s : string) : re :=
  match s with
  | EmptyString => Eps
  | String c EmptyString => Chr c
  | String c s' => Seq (Chr c) (lit s')
  end.

Definition opt (a : re) : re := Alt a Eps.               (* a? *)
Definition plus (a : re) : re := Seq a (Star true a).    (* a+ *)
Definition star (a : re) : re := Star true a.            (* a* *)
Definition lazy (a : re) : re := Star false a.           (* a*? *)

Fixpoint seq (l : list re) : re :=
  match l with
  | [] => Eps
  | [a] => a
  | a :: l' => Seq a (seq l')
  end.

Definition in_range (lo hi c : ascii) : bool :=
  ((nat_of_ascii lo <=? nat_of_ascii c)
   && (nat_of_ascii c <=? nat_of_ascii hi))%nat.

Definition is_lower c := in_range "a" "z" c.
Definition is_upper c := in_range "A" "Z" c.
Definition is_digit c := in_range "0" "9" c.
Definition is_underscore c := Ascii.eqb c "_"%char.

(** The characters of ASCII.  A pattern with [\d] is modelled on lines
    of these characters, where [\d] is [[0-9]]; on other lines [\d] of
    a [str] pattern also matches the decimal digits of other scripts. *)
Definition is_ascii (c : ascii) : bool := (nat_of_ascii c <? 128)%nat.

Definition dot : re := Cls (fun c => negb (Ascii.eqb c "010"%char)).  (* . *)
Definition d : re := Cls is_digit.                      (* \d on ASCII, [0-9] *)
Definition lower : re := Cls is_lower.                                 (* [a-z] *)
Definition upper : re := Cls is_upper.                                 (* [A-Z] *)
Definition alpha : re := Cls (fun c => is_upper c || is_lower c).      (* [A-Za-z] *)
Definition lower_ : re := Cls (fun c => is_lower c || is_underscore c). (* [a-z_] *)
Definition word : re :=                                                (* [a-zA-Z0-9_] *)
  Cls (fun c => is_lower c || is_upper c || is_digit c || is_underscore c).

End Re.

(** ** [split_return_args] *)

Module SplitReturnArgs.

(** The [for i in range(len(s))] loop of [split_return_args], started at
    index [i] on the suffix [s[i:]] with the current values of the two
    local variables; the result is the index at which the function
    returns from inside the loop, if it does. *)
Fixpoint scan (rest : string) (i : nat) (parentheses : Z) (quotes : bool)
  : option nat :=
  match rest with
  | EmptyString => None
  | String c rest' =>
      let quotes := if Ascii.eqb c dquote then negb quotes else quotes in
      if negb quotes then
        let parentheses :=
          if Ascii.eqb c "("%char then (parentheses + 1)%Z else parentheses in
        let parentheses :=
          if Ascii.eqb c ")"%char then (parentheses - 1)%Z else parentheses in
        if (parentheses =? 0)%Z && Ascii.eqb c ","%char then Some i
        else scan rest' (S i) parentheses quotes
      else scan rest' (S i) parentheses quotes
  end.

Lemma scan_bounds rest : forall i p q j,
  scan rest i p q = Some j -> i <= j < i + String.length rest.
Proof.
  induction rest as [|c rest IH]; simpl; intros i p q j H; [discriminate|].
  destruct (negb (if Ascii.eqb c dquote then negb q else q)).
  - destruct (_ && _).
    + inversion H; subst; lia.
    + apply IH in H; lia.
  - apply IH in H; lia.
Qed.

Lemma length_lstrip s : String.length (lstrip s) <= String.length s.
Proof.
  induction s as [|c s IH]; simpl; [lia|].
  destruct (is_space c); simpl; lia.
Qed.

Lemma length_rstrip s : String.length (rstrip s) <= String.length s.
Proof.
  induction s as [|c s IH]; simpl; [lia|].
  destruct (rstrip s); simpl in *; [destruct (is_space c); simpl; lia | lia].
Qed.

Lemma length_strip s : String.length (strip s) <= String.length s.
Proof.
  unfold strip. pose proof (length_rstrip (lstrip s)).
  pose proof (length_lstrip s). lia.
Qed.

Lemma length_drop i s : String.length (drop i s) = String.length s - i.
Proof.
  revert s; induction i as [|i IH]; intros [|c s]; simpl; auto.
Qed.

(** [split_return_args(s)]: the recursive call is on the stripped
    remainder, which is shorter than [s]. *)
Equations? split_return_args (s : string) : list string
  by wf (String.length s) lt :=
  split_return_args s with inspect (scan s 0 0%Z false) := {
    | exist _ (Some i) _ =>
        strip (take i s) :: split_return_args (strip (drop (i + 1) s))
    | exist _ None _ => [s]
    }.
Proof.
  apply scan_bounds in e.
  pose proof (length_strip (drop (i + 1) s)) as Hs.
  rewrite length_drop in Hs. lia.
Qed.

(** *** The separators of the loop, in one pass

    The two local variables of the loop, read as a position of the
    whole argument string: [depth] is the signed count of the
    parentheses met outside quotes, opening ones minus closing ones,
    and [in_quotes] tells whether the number of double quotes met is
    odd.  A backslash is a character like any other. *)
Record position := { depth : Z; in_quotes : bool }.

Definition start : position := {| depth := 0; in_quotes := false |}.

Definition advance (st : position) (c : ascii) : position :=
  let q := xorb (in_quotes st) (Ascii.eqb c dquote) in
  let d :=
    if q then depth st
    else (depth st + (if Ascii.eqb c "("%char then 1 else 0)
                   - (if Ascii.eqb c ")"%char then 1 else 0))%Z in
  {| depth := d; in_quotes := q |}.

(** The test of the loop: a comma where the count is zero and the
    number of double quotes met is even. *)
Definition separates (st : position) (c : ascii) : bool :=
  Ascii.eqb c ","%char && negb (in_quotes st) && (depth st =? 0)%Z.

Fixpoint split_at_separators (st : position) (s : string) : list string :=
  match s with
  | EmptyString => [EmptyString]
  | String c s' =>
      let st' := advance st c in
      if separates st' c then EmptyString :: split_at_separators st' s'
      else
        match split_at_separators st' s' with
        | p :: ps => String c p :: ps
        | [] => [String c EmptyString]
        end
  end.

Definition top_level_pieces (s : string) : list string :=
  split_at_separators start s.

(** *** The separators by string literals and nesting depth

    The other reading, with which the loop is compared: a comma
    separates two return expressions when it stands outside every
    string literal and inside no parentheses.  A string literal runs
    from a double quote to the next double quote that no backslash
    escapes, as [ast.literal_eval] reads it in [LiteralBytes.type]; the
    nesting depth is the number of parentheses that are open, and a
    closing parenthesis with none open closes nothing. *)
Definition backslash : ascii := "092"%char.

Inductive quoting : Type :=
| Outside      (* in no literal *)
| Inside       (* in a literal *)
| Escaped.     (* in a literal, after a backslash *)

Record nesting := { open_parentheses : nat; quoting_at : quoting }.

Definition outermost : nesting :=
  {| open_parentheses := 0; quoting_at := Outside |}.

(** The place after the character [c], from the place before it. *)
Definition enter (n : nesting) (c : ascii) : nesting :=
  match quoting_at n with
  | Outside =>
      if Ascii.eqb c dquote then
        {| open_parentheses := open_parentheses n; quoting_at := Inside |}
      else if Ascii.eqb c "("%char then
        {| open_parentheses := S (open_parentheses n); quoting_at := Outside |}
      else if Ascii.eqb c ")"%char then
        {| open_parentheses := pred (open_parentheses n);
           quoting_at := Outside |}
      else n
  | Inside =>
      {| open_parentheses := open_parentheses n;
         quoting_at := if Ascii.eqb c dquote then Outside
                       else if Ascii.eqb c backslash then Escaped
                       else Inside |}
  | Escaped =>
      {| open_parentheses := open_parentheses n; quoting_at := Inside |}
  end.

(** A comma at nesting depth zero outside every string literal. *)
Definition at_top_level (n : nesting) (c : ascii) : bool :=
  Ascii.eqb c ","%char
  && match quoting_at n with Outside => true | _ => false end
  && (open_parentheses n =? 0)%nat.

Fixpoint split_at_top_level (n : nesting) (s : string) : list string :=
  match s with
  | EmptyString => [EmptyString]
  | String c s' =>
      if at_top_level n c then EmptyString :: split_at_top_level (enter n c) s'
      else
        match split_at_top_level (enter n c) s' with
        | p :: ps => String c p :: ps
        | [] => [String c EmptyString]
        end
  end.

Definition return_expressions (s : string) : list string :=
  split_at_top_level outermost s.

(** The strings on which the two readings cannot differ: no double
    quote is escaped in a literal, and no closing parenthesis stands
    where none is open. *)
Fixpoint plain_from (n : nesting) (s : string) : bool :=
  match s with
  | EmptyString => true
  | String c s' =>
      negb (match quoting_at n with
            | Escaped => Ascii.eqb c dquote
            | Outside => Ascii.eqb c ")"%char && (open_parentheses n =? 0)%nat
            | Inside => false
            end)
      && plain_from (enter n c) s'
  end.

Definition plain (s : string) : bool := plain_from outermost s.

End SplitReturnArgs.

(** ** The type registry *)

Module Types.

(** Modelled from the spec: the type values of [types.py] (section 3,
    "Types"); [UIntType] is a subclass of [IntType], [BigIntType] and
    [AddrType] are subclasses of [BytesType], a box type wraps the struct
    type whose layout it shares. *)
#[warnings="-register-all"]
Inductive TealishType : Type :=
| IntType
| UIntType (size : nat)
| BytesType (size : option nat)
| BigIntType (size : option nat)
| AddrType (size : option nat)
| AnyType
| StructType (name : string) (fields : list (string * (nat * nat * TealishType)))
    (size : nat)
| BoxType (struct : TealishType).

Record StructField := {
  offset : nat;
  field_size : nat;
  tealish_type : TealishType;
}.

(** [isinstance(t, IntType)] *)
Definition is_IntType (t : TealishType) : bool :=
  match t with IntType | UIntType _ => true | _ => false end.

(** [isinstance(t, UIntType)] *)
Definition is_UIntType (t : TealishType) : bool :=
  match t with UIntType _ => true | _ => false end.

(** [isinstance(t, BytesType)] *)
Definition is_BytesType (t : TealishType) : bool :=
  match t with
  | BytesType _ | BigIntType _ | AddrType _ => true
  | _ => false
  end.

(** [isinstance(t, StructType)] *)
Definition is_StructType (t : TealishType) : bool :=
  match t with StructType _ _ _ => true | _ => false end.

(** [isinstance(t, BoxType)] *)
Definition is_BoxType (t : TealishType) : bool :=
  match t with BoxType _ => true | _ => false end.

(** [t.size]; [None] for a byte string of unknown length. *)
Fixpoint size (t : TealishType) : option nat :=
  match t with
  | IntType => Some 8
  | UIntType n => Some n
  | BytesType n | BigIntType n | AddrType n => n
  | AnyType => None
  | StructType _ _ n => Some n
  | BoxType s => size s
  end.

(** [t.fields[name]] of a struct or box type. *)
Fixpoint assoc {A} (name : string) (l : list (string * A)) : option A :=
  match l with
  | [] => None
  | (n, v) :: l' => if String.eqb n name then Some v else assoc name l'
  end.

Fixpoint field (t : TealishType) (name : string) : option StructField :=
  match t with
  | StructType _ fields _ =>
      match assoc name fields with
      | Some (o, n, ty) =>
          Some {| offset := o; field_size := n; tealish_type := ty |}
      | None => None
      end
  | BoxType s => field s name
  | _ => None
  end.

(** [f"{n}"] for an optional integer. *)
Definition str_size (n : option nat) : string :=
  match n with Some n => str_nat n | None => "None" end.

End Types.

Import Types.

(** ** [tealish_builtins.py] *)

Module Builtins.

Inductive AVMType := any | bytes | int | none.

(** The [constants] table; the values are all integers. *)
Definition constants : list (string * (AVMType * nat)) :=
  [ ("NoOp", (int, 0)); ("OptIn", (int, 1)); ("CloseOut", (int, 2));
    ("ClearState", (int, 3)); ("UpdateApplication", (int, 4));
    ("DeleteApplication", (int, 5)); ("Pay", (int, 1)); ("Acfg", (int, 3));
    ("Axfer", (int, 4)); ("Afrz", (int, 5)); ("Appl", (int, 6)) ].

Record Var := {
  name : string;
  tealish_type : TealishType;
  scratch_slot : nat;
}.

End Builtins.

Import Builtins.

(** ** Expressions

    The expression parser is outside this module; an expression node is
    what the three passes see of it: its source text ([tealish()]), the
    outcome of its [process()] (a compile error, or the type it leaves in
    [type]) and the lines its [write_teal] emits. *)

(** The value of [expression.type] after [process()]: a type, or the
    list of the types of the values of a call. *)
Inductive ExprType :=
| One (t : TealishType)
| Many (ts : list TealishType).

Record Expression := {
  e_tealish : string;
  e_process : string + ExprType;     (* the message of a compile error, or [type] *)
  e_teal : list string;
}.

(** ** The writer and the compiler *)

Module TealWriter.

(** Modelled from the spec: the writer of section 2, item 7, "a
    line-buffered emitter with an indentation level".  A line is kept
    with the level it was written at. *)
Record t := {
  level : nat;
  output : list (nat * string);
}.

Definition empty : t := {| level := 0; output := [] |}.

(** [writer.write(node, "text")] *)
Definition write_str (w : t) (text : string) : t :=
  {| level := level w; output := output w ++ [(level w, text)] |}.

Definition write_strs (w : t) (texts : list string) : t :=
  fold_left write_str texts w.

(** [writer.write(node, expression)] *)
Definition write_expr (w : t) (e : Expression) : t :=
  write_strs w (e_teal e).

(** [writer.write(node, expression, one_line=True)] and
    [writer.write(node, [teal, ...])] *)
Definition write_one_line (w : t) (texts : list string) : t :=
  write_str w (join "; " texts).

Definition set_level (w : t) (n : nat) : t :=
  {| level := n; output := output w |}.

(** The text of the lines, without the levels. *)
Definition texts (w : t) : list string := map snd (output w).

End TealWriter.

Module TealishCompiler.

(** Modelled from the spec: the compiler driver of section 2, item 6,
    reduced to the state the nodes read and write. *)
Record t := {
  source_lines : list string;
  line_no : nat;
  conditional_count : nat;
  max_slot : nat;
  use_inner_txns_macro : option bool;
}.

End TealishCompiler.

(** ** The nodes

    One constructor per node class.  Every node carries the line it was
    built from; the attributes that [process] sets are present from the
    start and empty until then.  [IfStatement.if_then], [.elifs] and
    [.else_], [Switch.options] and [.else_], [Router.routes] and
    [DecoratedFunc.decorators] and [.func] hold the same objects as
    [child_nodes], in the same order, and are read off [child_nodes]. *)

Record Src := { line_no : nat; line : string }.

Definition src_line_no (s : Src) : nat := line_no s.

Module Scope.

(** Modelled from the spec: the scope of section 3, "Scope", with the
    allocation of section 4.4: a scope hands out the slots of its range
    in increasing order, and a nested scope starts at the next free
    slot of its parent. *)
Record t := {
  name : string;
  slot_range : nat * nat;
  vars : list (string * Var);
  consts : list (string * (ExprType * string));
}.

Definition get_var (sc : t) (n : string) : option Var := assoc n (vars sc).

Definition next_slot (sc : t) : nat := fst (slot_range sc) + List.length (vars sc).

Definition declare_var (sc : t) (v : Var) : t :=
  {| name := name sc; slot_range := slot_range sc;
     vars := vars sc ++ [(Builtins.name v, v)]; consts := consts sc |}.

Definition del_var (sc : t) (n : string) : t :=
  {| name := name sc; slot_range := slot_range sc;
     vars := filter (fun nv => negb (String.eqb (fst nv) n)) (vars sc);
     consts := consts sc |}.

Definition declare_const (sc : t) (n : string) (c : ExprType * string) : t :=
  {| name := name sc; slot_range := slot_range sc; vars := vars sc;
     consts := consts sc ++ [(n, c)] |}.

Definition nested (parent : t) (n : string) : t :=
  {| name := n; slot_range := (next_slot parent, snd (slot_range parent));
     vars := []; consts := [] |}.

Definition root : t :=
  {| name := ""; slot_range := (0, 255); vars := []; consts := [] |}.

End Scope.

Record FuncAttrs := {
  f_name : string;
  f_args : list (string * string);            (* args.args: (name, type name) *)
  f_returns : list TealishType;
  f_label : string;
  f_vars : list (string * Var);
  f_attributes : list (string * list (string * string));
}.

Record StructOrBoxAttrs := {
  sb_name : string;
  sb_field_name : string;
  sb_expression : option Expression;
  sb_var : option Var;
  sb_offset : nat;
  sb_size : nat;
  sb_data_type : option TealishType;
}.

Record BoxAttrs := {
  bx_struct_name : string;
  bx_name : string;
  bx_method : option string;
  bx_key : Expression;
  bx_box_size : nat;
  bx_var : option Var;
}.

#[warnings="-register-all"]
Inductive Node : Type :=
| Program (src : Src) (current_scope : Scope.t) (child_nodes : list Node)
| TealVersion (src : Src) (version : string)
| Comment (src : Src) (comment : string)
| Blank (src : Src)
| Const (src : Src) (tealish_type name literal : string) (literal_type : ExprType)
| Jump (src : Src) (block_name : string)
| Exit (src : Src) (expression : Expression)
| FunctionCallStatement (src : Src) (expression : Expression)
| Assert (src : Src) (arg : Expression) (message : option string)
| VarDeclaration (src : Src) (type_name name : string)
    (expression : option Expression) (var : option Var)
| Assignment (src : Src) (names : string) (expression : Expression)
    (name_nodes : option (list (string * option nat)))
| Block (src : Src) (name label : string) (child_nodes : list Node)
| SwitchOption (src : Src) (expression : Expression) (block_name : string)
| SwitchElse (src : Src) (block_name : string)
| Switch (src : Src) (expression : Expression) (child_nodes : list Node)
| Route (src : Src) (name : string) (arg_expressions : list Expression)
| Router (src : Src) (child_nodes : list Node)
| TealLine (src : Src)
| Teal (src : Src) (child_nodes : list Node)
| InnerTxnFieldSetter (src : Src) (field_name : string) (index : option string)
    (expression : Expression)
| InnerTxn (src : Src) (child_nodes : list Node)
| InnerGroup (src : Src) (child_nodes : list Node)
| IfThen (src : Src) (label next_label : string) (child_nodes : list Node)
| Elif (src : Src) (modifier : option string) (condition : Expression)
    (label next_label : string) (child_nodes : list Node)
| Else (src : Src) (label next_label : string) (child_nodes : list Node)
| IfStatement (src : Src) (modifier : option string) (condition : Expression)
    (conditional_index : nat) (next_label : string) (child_nodes : list Node)
| Break (src : Src) (parent_loop_end_label : string)
| WhileStatement (src : Src) (modifier : option string) (condition : Expression)
    (conditional_index : nat) (child_nodes : list Node)
| ForStatement (src : Src) (var_name : string) (start end_ : Expression)
    (conditional_index : nat) (var : option Var) (child_nodes : list Node)
| For_Statement (src : Src) (start end_ : Expression) (conditional_index : nat)
    (child_nodes : list Node)
| Func (src : Src) (attrs : FuncAttrs) (child_nodes : list Node)
| Return (src : Src) (args : string) (args_expressions : list Expression)
    (func_returns : list TealishType)
| Decorator (src : Src) (name params : string)
| DecoratedFunc (src : Src) (child_nodes : list Node)
| StructFieldDefinition (src : Src) (field_name data_type : string)
| StructDefinition (src : Src) (name : string) (child_nodes : list Node)
| StructOrBoxAssignment (src : Src) (attrs : StructOrBoxAttrs)
| BoxDeclaration (src : Src) (attrs : BoxAttrs).

(** The class of a node and [isinstance]. *)
Inductive NodeClass :=
| CProgram | CTealVersion | CComment | CBlank | CConst | CJump | CExit
| CFunctionCallStatement | CAssert | CVarDeclaration | CAssignment | CBlock
| CSwitchOption | CSwitchElse | CSwitch | CRoute | CRouter | CTealLine | CTeal
| CInnerTxnFieldSetter | CInnerTxn | CInnerGroup | CIfThen | CElif | CElse
| CIfStatement | CBreak | CWhileStatement | CForStatement | CFor_Statement
| CFunc | CReturn | CDecorator | CDecoratedFunc | CStructFieldDefinition
| CStructDefinition | CStructOrBoxAssignment | CBoxDeclaration.

Definition class_of (n : Node) : NodeClass :=
  match n with
  | Program _ _ _ => CProgram | TealVersion _ _ => CTealVersion
  | Comment _ _ => CComment | Blank _ => CBlank | Const _ _ _ _ _ => CConst
  | Jump _ _ => CJump | Exit _ _ => CExit
  | FunctionCallStatement _ _ => CFunctionCallStatement
  | Assert _ _ _ => CAssert | VarDeclaration _ _ _ _ _ => CVarDeclaration
  | Assignment _ _ _ _ => CAssignment | Block _ _ _ _ => CBlock
  | SwitchOption _ _ _ => CSwitchOption | SwitchElse _ _ => CSwitchElse
  | Switch _ _ _ => CSwitch | Route _ _ _ => CRoute | Router _ _ => CRouter
  | TealLine _ => CTealLine | Teal _ _ => CTeal
  | InnerTxnFieldSetter _ _ _ _ => CInnerTxnFieldSetter
  | InnerTxn _ _ => CInnerTxn | InnerGroup _ _ => CInnerGroup
  | IfThen _ _ _ _ => CIfThen | Elif _ _ _ _ _ _ => CElif
  | Else _ _ _ _ => CElse | IfStatement _ _ _ _ _ _ => CIfStatement
  | Break _ _ => CBreak | WhileStatement _ _ _ _ _ => CWhileStatement
  | ForStatement _ _ _ _ _ _ _ => CForStatement
  | For_Statement _ _ _ _ _ => CFor_Statement
  | Func _ _ _ => CFunc | Return _ _ _ _ => CReturn
  | Decorator _ _ _ => CDecorator | DecoratedFunc _ _ => CDecoratedFunc
  | StructFieldDefinition _ _ _ => CStructFieldDefinition
  | StructDefinition _ _ _ => CStructDefinition
  | StructOrBoxAssignment _ _ => CStructOrBoxAssignment
  | BoxDeclaration _ _ => CBoxDeclaration
  end.

Definition NodeClass_eqb (a b : NodeClass) : bool :=
  match a, b with
  | CProgram, CProgram | CTealVersion, CTealVersion | CComment, CComment
  | CBlank, CBlank | CConst, CConst | CJump, CJump | CExit, CExit
  | CFunctionCallStatement, CFunctionCallStatement | CAssert, CAssert
  | CVarDeclaration, CVarDeclaration | CAssignment, CAssignment
  | CBlock, CBlock | CSwitchOption, CSwitchOption | CSwitchElse, CSwitchElse
  | CSwitch, CSwitch | CRoute, CRoute | CRouter, CRouter
  | CTealLine, CTealLine | CTeal, CTeal
  | CInnerTxnFieldSetter, CInnerTxnFieldSetter | CInnerTxn, CInnerTxn
  | CInnerGroup, CInnerGroup | CIfThen, CIfThen | CElif, CElif | CElse, CElse
  | CIfStatement, CIfStatement | CBreak, CBreak
  | CWhileStatement, CWhileStatement | CForStatement, CForStatement
  | CFor_Statement, CFor_Statement | CFunc, CFunc | CReturn, CReturn
  | CDecorator, CDecorator | CDecoratedFunc, CDecoratedFunc
  | CStructFieldDefinition, CStructFieldDefinition
  | CStructDefinition, CStructDefinition
  | CStructOrBoxAssignment, CStructOrBoxAssignment
  | CBoxDeclaration, CBoxDeclaration => true
  | _, _ => false
  end.

(** [repr(n)], the name of the class. *)
Definition class_name (c : NodeClass) : string :=
  match c with
  | CProgram => "Program" | CTealVersion => "TealVersion"
  | CComment => "Comment" | CBlank => "Blank" | CConst => "Const"
  | CJump => "Jump" | CExit => "Exit"
  | CFunctionCallStatement => "FunctionCallStatement" | CAssert => "Assert"
  | CVarDeclaration => "VarDeclaration" | CAssignment => "Assignment"
  | CBlock => "Block" | CSwitchOption => "SwitchOption"
  | CSwitchElse => "SwitchElse" | CSwitch => "Switch" | CRoute => "Route"
  | CRouter => "Router" | CTealLine => "TealLine" | CTeal => "Teal"
  | CInnerTxnFieldSetter => "InnerTxnFieldSetter" | CInnerTxn => "InnerTxn"
  | CInnerGroup => "InnerGroup" | CIfThen => "IfThen" | CElif => "Elif"
  | CElse => "Else" | CIfStatement => "IfStatement" | CBreak => "Break"
  | CWhileStatement => "WhileStatement" | CForStatement => "ForStatement"
  | CFor_Statement => "For_Statement" | CFunc => "Func" | CReturn => "Return"
  | CDecorator => "Decorator" | CDecoratedFunc => "DecoratedFunc"
  | CStructFieldDefinition => "StructFieldDefinition"
  | CStructDefinition => "StructDefinition"
  | CStructOrBoxAssignment => "StructOrBoxAssignment"
  | CBoxDeclaration => "BoxDeclaration"
  end.

(** [isinstance(n, (C1, ..., Ck))] for leaf classes; no class listed in a
    test of this module has a subclass among the node classes but
    [LiteralBytes], which is not a statement. *)
Definition isinstance (n : Node) (classes : list NodeClass) : bool :=
  existsb (NodeClass_eqb (class_of n)) classes.

Definition src_of (n : Node) : Src :=
  match n with
  | Program s _ _ | TealVersion s _ | Comment s _ | Blank s | Const s _ _ _ _
  | Jump s _ | Exit s _ | FunctionCallStatement s _ | Assert s _ _
  | VarDeclaration s _ _ _ _ | Assignment s _ _ _ | Block s _ _ _
  | SwitchOption s _ _ | SwitchElse s _ | Switch s _ _ | Route s _ _
  | Router s _ | TealLine s | Teal s _ | InnerTxnFieldSetter s _ _ _
  | InnerTxn s _ | InnerGroup s _ | IfThen s _ _ _ | Elif s _ _ _ _ _
  | Else s _ _ _ | IfStatement s _ _ _ _ _ | Break s _
  | WhileStatement s _ _ _ _ | ForStatement s _ _ _ _ _ _
  | For_Statement s _ _ _ _ | Func s _ _ | Return s _ _ _ | Decorator s _ _
  | DecoratedFunc s _ | StructFieldDefinition s _ _ | StructDefinition s _ _
  | StructOrBoxAssignment s _ | BoxDeclaration s _ => s
  end.

(** ** Errors *)

Inductive Error :=
| ParseError (message : string)
| CompileError (message : string)
| PythonError (name : string)       (* KeyError, AttributeError, ... *)
| OutOfFuel.                        (* the bound on the recursion was too low *)

(** ** The patterns of the node classes *)

Module Patterns.
Import Re.

Local Open Scope string_scope.

Definition cls (p : ascii -> bool) : re := Cls p.
Definition chr (c : string) : re := lit c.

(** [A-Za-z] [a-zA-Z0-9_]* *)
Definition alpha_word : re := Seq alpha (star word).
(** [a-z] [a-zA-Z0-9_]* *)
Definition lower_word : re := Seq lower (star word).
(** [A-Z] [a-zA-Z0-9_]* *)
Definition upper_word : re := Seq upper (star word).
(** ((?P<modifier>not) )? *)
Definition modifier : re := opt (Seq (Grp "modifier" (lit "not")) (chr " ")).
(** \[[0-9]+\] *)
Definition brackets : re := seq [chr "["; plus d; chr "]"].
(** \s *)
Definition space : re := Cls is_space.
(** [A-Z-a-z0-9_] *)
Definition word_dash : re :=
  Cls (fun c => is_upper c || Ascii.eqb c "-"%char || is_lower c
                || is_digit c || is_underscore c).
(** [a-fA-F0-9] *)
Definition hex : re :=
  Cls (fun c => in_range "a" "f" c || in_range "A" "F" c || is_digit c).

Definition TealVersion : re :=
  seq [lit "#pragma version "; Grp "version" (plus d); Eos].

Definition Comment : re := seq [chr "#"; Grp "comment" (star dot); Eos].

(** The word boundaries of the source pattern hold wherever the rest of
    the pattern matches: before each type name stands the space after
    [const], and after it the space before the name. *)
Definition Const : re :=
  seq [ lit "const ";
        Grp "tealish_type"
          (Alt (lit "int") (Alt (lit "bytes") (Alt (lit "bigint") (lit "addr"))));
        chr " "; Grp "name" (Seq upper (star word)); lit " = ";
        Grp "literal" (star dot); Eos ].

Definition LiteralInt : re :=
  seq [Grp "value" (plus (Cls (fun c => is_digit c || is_underscore c))); Eos].

Definition LiteralBytes : re :=
  seq [Grp "value" (seq [Chr dquote; plus dot; Chr dquote]); Eos].

Definition LiteralHex : re :=
  seq [Grp "value" (seq [lit "0x"; plus hex]); Eos].

Definition Name : re := seq [Grp "value" (Seq lower_ (star word)); Eos].

Definition Jump : re := seq [lit "jump "; Grp "block_name" (star dot); Eos].

Definition Exit : re :=
  seq [lit "exit("; Grp "expression" (star dot); chr ")"; Eos].

Definition FunctionCallStatement : re :=
  seq [Grp "expression" (seq [plus word; chr "("; star dot; chr ")"]); Eos].

Definition Assert : re :=
  seq [ lit "assert("; Grp "arg" (lazy dot);
        opt (seq [lit ", "; Chr dquote; Grp "message" (lazy dot); Chr dquote]);
        chr ")"; Eos ].

Definition VarDeclaration : re :=
  seq [ Grp "type_name" (Seq alpha_word (opt brackets)); chr " ";
        Grp "name" lower_word;
        opt (Seq (lit " = ") (Grp "expression" (star dot))); Eos ].

Definition Assignment : re :=
  seq [ Grp "names"
          (plus (seq [lower_; star word; opt (chr ","); star space]));
        lit " = "; Grp "expression" (star dot); Eos ].

Definition Block : re := seq [lit "block "; Grp "name" (plus word); chr ":"; Eos].

Definition SwitchOption : re :=
  seq [Grp "expression" (star dot); lit ": "; Grp "block_name" (star dot)].

Definition SwitchElse : re := seq [lit "else: "; Grp "block_name" (star dot)].

Definition Switch : re :=
  seq [lit "switch "; Grp "expression" (star dot); chr ":"; Eos].

Definition Route : re := Grp "name" (star dot).

Definition Router : re := seq [lit "router:"; Eos].

Definition InnerTxnFieldSetter : re :=
  seq [ Grp "field_name" (lazy dot);
        opt (seq [chr "["; Grp "index" (Seq d (opt d)); chr "]"]);
        lit ": "; Grp "expression" (star dot) ].

Definition Elif : re :=
  seq [lit "elif "; modifier; Grp "condition" (star dot); chr ":"].

Definition Else : re := lit "else:".

Definition IfStatement : re :=
  seq [lit "if "; modifier; Grp "condition" (star dot); chr ":"; Eos].

Definition Break : re := seq [lit "break"; Eos].

Definition WhileStatement : re :=
  seq [lit "while "; modifier; Grp "condition" (star dot); chr ":"; Eos].

Definition ForStatement : re :=
  seq [ lit "for "; Grp "var_name" (Seq lower_ (star word)); lit " in ";
        Grp "start" (plus word); chr ":"; Grp "end" (plus word); chr ":"; Eos ].

Definition For_Statement : re :=
  seq [ lit "for _ in "; Grp "start" (plus word); chr ":";
        Grp "end" (plus word); chr ":"; Eos ].

(** [arg_pattern] of [ArgsList] *)
Definition arg_pattern : re :=
  seq [ Grp "arg_name"
          (Seq lower (star (Cls (fun c => is_lower c || is_underscore c
                                          || is_digit c))));
        lit ": ";
        Grp "arg_type"
          (seq [ alpha;
                 star (Cls (fun c => is_upper c || is_lower c
                                     || is_underscore c || is_digit c
                                     || Ascii.eqb c "<"%char
                                     || Ascii.eqb c ">"%char));
                 opt (seq [chr "["; plus d; chr "]"]) ]) ].

Definition ArgsList : re :=
  Grp "args" (star (Seq arg_pattern (opt (lit ", ")))).

Definition Func : re :=
  seq [ lit "func "; Grp "name" (plus word); chr "("; Grp "args" (star dot);
        chr ")"; Grp "return_type" (star dot); chr ":"; Eos ].

Definition Return : re :=
  seq [lit "return"; opt (chr " "); opt (Grp "args" (lazy dot)); Eos].

Definition Decorator : re :=
  seq [ chr "@"; Grp "name" lower_word; chr "("; Grp "params" (star dot);
        chr ")"; Eos ].

(** The pattern of [DecoratedFunc.set_func] *)
Definition key_value : re :=
  seq [Grp "key" (star dot); chr "="; Grp "value" (star dot)].

Definition StructFieldDefinition : re :=
  seq [ Grp "field_name" (Seq lower (star word_dash)); lit ": ";
        Grp "data_type" (seq [alpha; plus word_dash; opt brackets]) ].

Definition StructDefinition : re :=
  seq [lit "struct "; Grp "name" upper_word; chr ":"; Eos].

Definition StructOrBoxAssignment : re :=
  seq [ Grp "name" lower_word; dot; Grp "field_name" lower_word;
        opt (Seq (lit " = ") (Grp "expression" (star dot))); Eos ].

Definition BoxDeclaration : re :=
  seq [ lit "box<"; Grp "struct_name" upper_word; lit "> ";
        Grp "name" lower_word; lit " = ";
        opt (Grp "method" (Alt (lit "Open") (lit "Create")));
        lit "Box("; Grp "key" (star dot); chr ")"; Eos ].

(** The tests of [LineStatement.consume] *)
Definition looks_like_VarDeclaration : re :=
  seq [ alpha_word; opt brackets; chr " "; plus word;
        opt (Seq (lit " = ") (star dot)) ].

Definition looks_like_StructOrBoxAssignment : re :=
  seq [lower_word; chr "."; lower_word; lit " = "; star dot].

Definition looks_like_FunctionCallStatement : re :=
  seq [plus word; chr "("; star dot; chr ")"].

End Patterns.

(** ** The build pass: [consume] *)

Module Build.

Local Open Scope string_scope.

(** The state of the first pass is the compiler: its lines, its line
    number and its count of conditionals. *)
Definition B (A : Type) : Type :=
  TealishCompiler.t -> Error + (A * TealishCompiler.t).

Definition ret {A} (x : A) : B A := fun c => inr (x, c).
Definition raise {A} (e : Error) : B A := fun _ => inl e.
Definition bind {A C} (m : B A) (f : A -> B C) : B C :=
  fun c => match m c with inl e => inl e | inr (x, c') => f x c' end.

Notation "x <- m ;; k" := (bind m (fun x => k))
  (at level 61, m at next level, right associativity).
Notation "m ;;; k" := (bind m (fun _ => k))
  (at level 61, right associativity).

Fixpoint mapB {A C} (f : A -> B C) (l : list A) : B (list C) :=
  match l with
  | [] => ret []
  | x :: l' => y <- f x ;; ys <- mapB f l' ;; ret (y :: ys)
  end.

(** Modelled from the spec: the line reader of section 2, item 3;
    [peek()] is the next line, or [None] after the last one, and
    [consume_line()] moves past it, so that [line_no] is the number of
    the line consumed last. *)
Definition peek : B (option string) :=
  fun c =>
    inr (nth_error (TealishCompiler.source_lines c) (TealishCompiler.line_no c),
         c).

Definition consume_line : B (option string) :=
  fun c =>
    match nth_error (TealishCompiler.source_lines c)
            (TealishCompiler.line_no c) with
    | None => inr (None, c)
    | Some l =>
        inr (Some l,
             {| TealishCompiler.source_lines := TealishCompiler.source_lines c;
                TealishCompiler.line_no := S (TealishCompiler.line_no c);
                TealishCompiler.conditional_count :=
                  TealishCompiler.conditional_count c;
                TealishCompiler.max_slot := TealishCompiler.max_slot c;
                TealishCompiler.use_inner_txns_macro :=
                  TealishCompiler.use_inner_txns_macro c |})
    end.

(** A line used as a string: a method call on [None], and [re.match] on
    [None], raise.  The one error stands for both: the method call
    raises [AttributeError], [re.match] raises [TypeError]. *)
Definition the_line (l : option string) : B string :=
  match l with
  | Some l => ret l
  | None => raise (PythonError "AttributeError")
  end.

Definition current_line_no : B nat :=
  fun c => inr (TealishCompiler.line_no c, c).

(** [compiler.conditional_count], then [compiler.conditional_count += 1] *)
Definition next_conditional : B nat :=
  fun c =>
    inr (TealishCompiler.conditional_count c,
         {| TealishCompiler.source_lines := TealishCompiler.source_lines c;
            TealishCompiler.line_no := TealishCompiler.line_no c;
            TealishCompiler.conditional_count :=
              S (TealishCompiler.conditional_count c);
            TealishCompiler.max_slot := TealishCompiler.max_slot c;
            TealishCompiler.use_inner_txns_macro :=
              TealishCompiler.use_inner_txns_macro c |}).

(** The ancestors of the node being built, from its parent to the
    program, with what [find_parent] is asked for, and the name of the
    current scope. *)
Inductive Parent :=
| PProgram
| PFunc (returns : list TealishType)
| PWhile (end_label : string)
| PInnerGroup
| POther.

Record Ctx := {
  ancestors : list Parent;
  scope_name : string;
}.

Definition inside (p : Parent) (ctx : Ctx) : Ctx :=
  {| ancestors := p :: ancestors ctx; scope_name := scope_name ctx |}.

(** Modelled from the spec: a new scope is named after its parent. *)
Definition inside_scope (p : Parent) (n : string) (ctx : Ctx) : Ctx :=
  {| ancestors := p :: ancestors ctx;
     scope_name :=
       match scope_name ctx with
       | EmptyString => n
       | parent => parent ++ "__" ++ n
       end |}.

(** [self.find_parent(Func)] *)
Fixpoint find_parent_Func (l : list Parent) : option (list TealishType) :=
  match l with
  | [] => None
  | PFunc returns :: _ => Some returns
  | _ :: l' => find_parent_Func l'
  end.

(** [self.find_parent(WhileStatement)] *)
Fixpoint find_parent_While (l : list Parent) : option string :=
  match l with
  | [] => None
  | PWhile end_label :: _ => Some end_label
  | _ :: l' => find_parent_While l'
  end.

(** The class hierarchy: [issubclass(c, Statement)] and
    [issubclass(c, InlineStatement)]. *)
Definition is_InlineStatement (c : NodeClass) : bool :=
  match c with
  | CProgram | CBlock | CSwitchOption | CSwitchElse | CRoute | CTealLine
  | CIfThen | CElif | CElse | CDecorator => false
  | _ => true
  end.

Definition is_Statement (c : NodeClass) : bool :=
  is_InlineStatement c || NodeClass_eqb c CBlock.

(** [self.add_child(node)] checks the class of the child.  The message
    is shortened: the source also names the child and the parent, and
    gives the line number of the parent. *)
Definition add_child (allowed : NodeClass -> bool) (n : Node) : B unit :=
  if allowed (class_of n) then ret tt
  else
    fun c =>
      inl (ParseError ("Unexpected child node at line "
                       ++ str_nat (TealishCompiler.line_no c) ++ "!")).

(** [Node.__init__]: the line must match the pattern of the class.
    The message is shortened: the source also writes the pattern and
    the name of the class before the line. *)
Definition init (pattern : Re.re) (l : string) : B (Src * Re.groups) :=
  n <- current_line_no ;;
  match Re.re_match pattern l with
  | None => raise (ParseError ("Pattern does not match for line " ++ Q ++ l ++ Q))
  | Some g => ret ({| line_no := n; line := l |}, g)
  end.

Definition group (g : Re.groups) (name : string) : string :=
  match Re.get name g with Some v => v | None => EmptyString end.

(** [is_exit_statement(node)] *)
Definition is_exit_statement (n : Node) : bool :=
  isinstance n [CExit; CSwitch; CJump; CRouter].

(** [s.replace(" ", "")] *)
Fixpoint remove_spaces (s : string) : string :=
  match s with
  | EmptyString => EmptyString
  | String c s' =>
      if Ascii.eqb c " "%char then remove_spaces s'
      else String c (remove_spaces s')
  end.

(** [needle in s] *)
Fixpoint contains (s needle : string) : bool :=
  startswith s needle
  || match s with
     | EmptyString => false
     | String _ s' => contains s' needle
     end.

Section WithEnv.

Variable parse_expression : string -> option Expression.
Variable get_type_instance : string -> option TealishType.
Variable literal_type : string -> ExprType.      (* Literal.type() *)

(** [GenericExpression.parse], called from [Node.__init__], which adds
    the line number to the message of what it catches.  [Return_init]
    uses it as well, for the direct call of [Return.__init__], where
    the source adds no line number to the message. *)
Definition parse_expr (raw : string) : B Expression :=
  match parse_expression raw with
  | Some e => ret e
  | None =>
      n <- current_line_no ;;
      raise (ParseError ("Cannot parse " ++ Q ++ raw ++ Q
                         ++ " as Expression at line " ++ str_nat n))
  end.

Definition parse_optional_expr (raw : option string) : B (option Expression) :=
  match raw with
  | Some raw => e <- parse_expr raw ;; ret (Some e)
  | None => ret None
  end.

Definition type_instance (type_name : string) : B TealishType :=
  match get_type_instance type_name with
  | Some t => ret t
  | None =>
      n <- current_line_no ;;
      raise (ParseError (type_name ++ " Line " ++ str_nat n))
  end.

(** *** Line statements *)

Definition TealVersion_init (l : string) : B Node :=
  sg <- init Patterns.TealVersion l ;;
  ret (TealVersion (fst sg) (group (snd sg) "version")).

Definition Comment_init (l : string) : B Node :=
  sg <- init Patterns.Comment l ;;
  ret (Comment (fst sg) (group (snd sg) "comment")).

Definition Blank_init (l : string) : B Node :=
  sg <- init Re.Eps l ;; ret (Blank (fst sg)).

Definition Const_init (l : string) : B Node :=
  sg <- init Patterns.Const l ;;
  let literal := group (snd sg) "literal" in
  match Re.re_match Patterns.LiteralInt literal,
        Re.re_match Patterns.LiteralBytes literal,
        Re.re_match Patterns.LiteralHex literal with
  | None, None, None =>
      n <- current_line_no ;;
      raise (ParseError ("Cannot parse " ++ Q ++ literal ++ Q
                         ++ " as Literal at line " ++ str_nat n))
  | _, _, _ =>
      ret (Const (fst sg) (group (snd sg) "tealish_type")
             (group (snd sg) "name") literal (literal_type literal))
  end.

Definition Jump_init (l : string) : B Node :=
  sg <- init Patterns.Jump l ;;
  ret (Jump (fst sg) (group (snd sg) "block_name")).

Definition Exit_init (l : string) : B Node :=
  sg <- init Patterns.Exit l ;;
  e <- parse_expr (group (snd sg) "expression") ;;
  ret (Exit (fst sg) e).

Definition FunctionCallStatement_init (l : string) : B Node :=
  sg <- init Patterns.FunctionCallStatement l ;;
  e <- parse_expr (group (snd sg) "expression") ;;
  ret (FunctionCallStatement (fst sg) e).

Definition Assert_init (l : string) : B Node :=
  sg <- init Patterns.Assert l ;;
  e <- parse_expr (group (snd sg) "arg") ;;
  ret (Assert (fst sg) e (Re.get "message" (snd sg))).

Definition VarDeclaration_init (l : string) : B Node :=
  sg <- init Patterns.VarDeclaration l ;;
  e <- parse_optional_expr (Re.get "expression" (snd sg)) ;;
  ret (VarDeclaration (fst sg) (group (snd sg) "type_name")
         (group (snd sg) "name") e None).

Definition Assignment_init (l : string) : B Node :=
  sg <- init Patterns.Assignment l ;;
  e <- parse_expr (group (snd sg) "expression") ;;
  ret (Assignment (fst sg) (group (snd sg) "names") e None).

Definition BoxDeclaration_init (l : string) : B Node :=
  sg <- init Patterns.BoxDeclaration l ;;
  key <- parse_expr (group (snd sg) "key") ;;
  ret (BoxDeclaration (fst sg)
         {| bx_struct_name := group (snd sg) "struct_name";
            bx_name := group (snd sg) "name";
            bx_method := Re.get "method" (snd sg);
            bx_key := key; bx_box_size := 0; bx_var := None |}).

Definition StructOrBoxAssignment_init (l : string) : B Node :=
  sg <- init Patterns.StructOrBoxAssignment l ;;
  e <- parse_optional_expr (Re.get "expression" (snd sg)) ;;
  ret (StructOrBoxAssignment (fst sg)
         {| sb_name := group (snd sg) "name";
            sb_field_name := group (snd sg) "field_name";
            sb_expression := e; sb_var := None; sb_offset := 0;
            sb_size := 0; sb_data_type := None |}).

(** [Break.__init__]: the statement must be inside a [while]. *)
Definition Break_init (ctx : Ctx) (l : string) : B Node :=
  sg <- init Patterns.Break l ;;
  match find_parent_While (ancestors ctx) with
  | Some end_label => ret (Break (fst sg) end_label)
  | None =>
      raise (ParseError
               (Q ++ "break" ++ Q
                ++ " should only be used in a while loop! Line "
                ++ str_nat (src_line_no (fst sg))))
  end.

(** [Return.__init__]: the statement must be inside a function, its
    arguments are split into expressions, and there must be as many
    of them as the function has return types. *)
Definition Return_init (ctx : Ctx) (l : string) : B Node :=
  sg <- init Patterns.Return l ;;
  match find_parent_Func (ancestors ctx) with
  | None =>
      raise (ParseError
               (Q ++ "return" ++ Q
                ++ " should only be used in a function! Line "
                ++ str_nat (src_line_no (fst sg))))
  | Some returns =>
      let args := group (snd sg) "args" in
      args_expressions <-
        match args with
        | EmptyString => ret []
        | _ =>
            mapB (fun a => parse_expr (strip a))
              (SplitReturnArgs.split_return_args args)
        end ;;
      if negb (List.length args_expressions =? List.length returns)%nat
      then
        raise (ParseError ("Incorrect number of returns. Line "
                           ++ str_nat (src_line_no (fst sg))))
      else ret (Return (fst sg) args args_expressions returns)
  end.

(** [LineStatement.consume] *)
Definition matches (pattern : Re.re) (l : string) : bool :=
  match Re.re_match pattern l with Some _ => true | None => false end.

Definition LineStatement_consume (ctx : Ctx) : B Node :=
  l <- consume_line ;;
  l <- the_line l ;;
  if startswith l "#pragma" then
    n <- current_line_no ;;
    if negb (n =? 1)%nat then
      raise (ParseError
               ("Teal version must be specified in the first line of the program: "
                ++ Q ++ l ++ Q ++ " at " ++ str_nat n ++ "."))
    else TealVersion_init l
  else if startswith l "#" then Comment_init l
  else if String.eqb l "" then Blank_init l
  else if startswith l "const " then Const_init l
  else if startswith l "jump " then Jump_init l
  else if startswith l "return" then Return_init ctx l
  else if startswith l "break" then Break_init ctx l
  else if matches Patterns.looks_like_VarDeclaration l then
    VarDeclaration_init l
  else if startswith l "box<" then BoxDeclaration_init l
  else if matches Patterns.looks_like_StructOrBoxAssignment l then
    StructOrBoxAssignment_init l
  else if contains l " = " then Assignment_init l
  else if startswith l "exit(" then Exit_init l
  else if startswith l "assert(" then Assert_init l
  else if matches Patterns.looks_like_FunctionCallStatement l then
    FunctionCallStatement_init l
  else
    n <- current_line_no ;;
    raise (ParseError ("Unexpected line statement: " ++ Q ++ l ++ Q
                       ++ " at " ++ str_nat n ++ ".")).

(** *** Compound statements

    [Statement_consume] is [Statement.consume] as the loops below call
    it; a loop runs for at most [fuel] rounds. *)
Section Loops.

Variable Statement_consume : Ctx -> B Node.

Definition peek_is (l : string) : B bool :=
  p <- peek ;;
  ret match p with Some p => String.eqb p l | None => false end.

Definition peek_startswith (prefixes : list string) : B bool :=
  p <- peek ;;
  p <- the_line p ;;
  ret (existsb (startswith p) prefixes).

Definition consume_str : B string := l <- consume_line ;; the_line l.

(** The loop of [Program.consume]. *)
Fixpoint Program_loop (fuel : nat) (ctx : Ctx)
  (expect_struct_definition : bool) (exit_statement : option Node)
  (child_nodes : list Node) : B (list Node) :=
  match fuel with
  | 0 => raise OutOfFuel
  | S fuel' =>
      p <- peek ;;
      match p with
      | None => ret child_nodes
      | Some _ =>
          n <- Statement_consume ctx ;;
          if negb expect_struct_definition
             && isinstance n [CStructDefinition] then
            raise (ParseError
                     ("Unexpected Struct definition at line "
                      ++ str_nat (line_no (src_of n)) ++ "."
                      ++ "Struct definitions should be at the top of the file and "
                      ++ "only be preceeded by comments."))
          else
            let expect_struct_definition :=
              if negb (isinstance n [CTealVersion; CBlank; CComment;
                                     CStructDefinition])
              then false else expect_struct_definition in
            match exit_statement with
            | Some e =>
                if negb (isinstance n [CFunc; CDecoratedFunc; CBlock;
                                       CComment; CBlank])
                then
                  raise (ParseError
                           ("Unexpected statement at line "
                            ++ str_nat (line_no (src_of n)) ++ "."
                            ++ " Only Block and Function definitions should occure after a "
                            ++ class_name (class_of e) ++ "."))
                else ret tt
            | None =>
                if isinstance n [CFunc; CDecoratedFunc; CBlock] then
                  raise (ParseError
                           ("Unexpected " ++ class_name (class_of n)
                            ++ " definition at line "
                            ++ str_nat (line_no (src_of n)) ++ ". "
                            ++ "Block and Function definitions must occur after an exit statement (e.g Exit, switch, jump, router)."))
                else ret tt
            end ;;;
            let exit_statement :=
              if is_exit_statement n then Some n else exit_statement in
            add_child is_Statement n ;;;
            Program_loop fuel' ctx expect_struct_definition exit_statement
              (child_nodes +++ [n])
      end
  end.

(** [Program.consume] *)
Definition Program_consume (fuel : nat) : B Node :=
  sg <- init Re.Eps "" ;;
  cs <- Program_loop fuel {| ancestors := [PProgram]; scope_name := "" |}
          true None [] ;;
  ret (Program (fst sg) Scope.root cs).

(** The loop of [Block.consume]. *)
Fixpoint Block_loop (fuel : nat) (ctx : Ctx) (exit_statement : option Node)
  (child_nodes : list Node) : B (list Node) :=
  match fuel with
  | 0 => raise OutOfFuel
  | S fuel' =>
      at_end <- peek_is "end" ;;
      if at_end then
        consume_line ;;;
        match exit_statement with
        | None =>
            n <- current_line_no ;;
            raise (ParseError
                     ("Unexpected end of block at line " ++ str_nat n ++ "."
                      ++ " Blocks must end with an exit statement (e.g. exit, switch, jump)"))
        | Some _ => ret child_nodes
        end
      else
        n <- Statement_consume ctx ;;
        match exit_statement with
        | Some e =>
            if negb (isinstance n [CFunc; CBlock; CComment; CBlank]) then
              raise (ParseError
                       ("Unexpected statement at line "
                        ++ str_nat (line_no (src_of n)) ++ "."
                        ++ " Only Block and Function definitions should occure after a "
                        ++ class_name (class_of e) ++ "."))
            else ret tt
        | None =>
            if isinstance n [CFunc; CBlock] then
              raise (ParseError
                       ("Unexpected " ++ class_name (class_of n)
                        ++ " definition at line "
                        ++ str_nat (line_no (src_of n)) ++ ". "
                        ++ "Block and Function definitions must occur after an exit statement (e.g. exit, switch, jump)."))
            else ret tt
        end ;;;
        let exit_statement :=
          if is_exit_statement n then Some n else exit_statement in
        add_child is_Statement n ;;;
        Block_loop fuel' ctx exit_statement (child_nodes +++ [n])
  end.

(** [Block.consume] *)
Definition Block_consume (fuel : nat) (ctx : Ctx) : B Node :=
  l <- consume_str ;;
  sg <- init Patterns.Block l ;;
  let name := group (snd sg) "name" in
  let label :=
    scope_name ctx
    ++ (match scope_name ctx with EmptyString => "" | _ => "__" end)
    ++ name in
  cs <- Block_loop fuel (inside_scope POther name ctx) None [] ;;
  ret (Block (fst sg) name label cs).

(** A loop that consumes the statements of a body up to [end]. *)
Fixpoint body_loop (fuel : nat) (ctx : Ctx) (allowed : NodeClass -> bool)
  (child_nodes : list Node) : B (list Node) :=
  match fuel with
  | 0 => raise OutOfFuel
  | S fuel' =>
      at_end <- peek_is "end" ;;
      if at_end then consume_line ;;; ret child_nodes
      else
        n <- Statement_consume ctx ;;
        add_child allowed n ;;;
        body_loop fuel' ctx allowed (child_nodes +++ [n])
  end.

(** A loop that consumes the statements of a branch up to a line
    that starts with one of the [stops], which it leaves. *)
Fixpoint branch_loop (fuel : nat) (ctx : Ctx) (stops : list string)
  (child_nodes : list Node) : B (list Node) :=
  match fuel with
  | 0 => raise OutOfFuel
  | S fuel' =>
      stop <- peek_startswith stops ;;
      if stop then ret child_nodes
      else
        n <- Statement_consume ctx ;;
        add_child is_InlineStatement n ;;;
        branch_loop fuel' ctx stops (child_nodes +++ [n])
  end.

(** [Switch.consume] *)
Fixpoint Switch_loop (fuel : nat) (child_nodes : list Node)
  : B (list Node) :=
  match fuel with
  | 0 => raise OutOfFuel
  | S fuel' =>
      at_end <- peek_is "end" ;;
      if at_end then consume_line ;;; ret child_nodes
      else
        is_else <- peek_startswith ["else:"] ;;
        l <- consume_str ;;
        if is_else then
          sg <- init Patterns.SwitchElse l ;;
          Switch_loop fuel'
            (child_nodes
             +++ [SwitchElse (fst sg) (group (snd sg) "block_name")])
        else
          sg <- init Patterns.SwitchOption l ;;
          e <- parse_expr (group (snd sg) "expression") ;;
          Switch_loop fuel'
            (child_nodes
             +++ [SwitchOption (fst sg) e (group (snd sg) "block_name")])
  end.

Definition Switch_consume (fuel : nat) : B Node :=
  l <- consume_str ;;
  sg <- init Patterns.Switch l ;;
  e <- parse_expr (group (snd sg) "expression") ;;
  cs <- Switch_loop fuel [] ;;
  ret (Switch (fst sg) e cs).

(** [Router.consume] *)
Fixpoint Router_loop (fuel : nat) (child_nodes : list Node)
  : B (list Node) :=
  match fuel with
  | 0 => raise OutOfFuel
  | S fuel' =>
      at_end <- peek_is "end" ;;
      if at_end then consume_line ;;; ret child_nodes
      else
        l <- consume_str ;;
        sg <- init Patterns.Route l ;;
        Router_loop fuel'
          (child_nodes +++ [Route (fst sg) (group (snd sg) "name") []])
  end.

Definition Router_consume (fuel : nat) : B Node :=
  l <- consume_str ;;
  sg <- init Patterns.Router l ;;
  cs <- Router_loop fuel [] ;;
  ret (Router (fst sg) cs).

(** [Teal.consume] *)
Fixpoint Teal_loop (fuel : nat) (child_nodes : list Node) : B (list Node) :=
  match fuel with
  | 0 => raise OutOfFuel
  | S fuel' =>
      at_end <- peek_is "end" ;;
      if at_end then consume_line ;;; ret child_nodes
      else
        l <- consume_str ;;
        sg <- init Re.Eps l ;;
        Teal_loop fuel' (child_nodes +++ [TealLine (fst sg)])
  end.

Definition Teal_consume (fuel : nat) : B Node :=
  l <- consume_str ;;
  sg <- init Re.Eps l ;;
  cs <- Teal_loop fuel [] ;;
  ret (Teal (fst sg) cs).

(** [InnerTxn.consume] *)
Definition InnerTxnFieldSetter_init (l : string) : B Node :=
  sg <- init Patterns.InnerTxnFieldSetter l ;;
  e <- parse_expr (group (snd sg) "expression") ;;
  ret (InnerTxnFieldSetter (fst sg) (group (snd sg) "field_name")
         (Re.get "index" (snd sg)) e).

Fixpoint InnerTxn_loop (fuel : nat) (child_nodes : list Node)
  : B (list Node) :=
  match fuel with
  | 0 => raise OutOfFuel
  | S fuel' =>
      at_end <- peek_is "end" ;;
      if at_end then consume_line ;;; ret child_nodes
      else
        is_comment <- peek_startswith ["#"] ;;
        l <- consume_str ;;
        if is_comment then InnerTxn_loop fuel' child_nodes
        else
          n <- InnerTxnFieldSetter_init l ;;
          InnerTxn_loop fuel' (child_nodes +++ [n])
  end.

Definition InnerTxn_consume (fuel : nat) : B Node :=
  l <- consume_str ;;
  sg <- init Re.Eps l ;;
  cs <- InnerTxn_loop fuel [] ;;
  ret (InnerTxn (fst sg) cs).

(** [InnerGroup.consume] *)
Fixpoint InnerGroup_loop (fuel : nat) (ctx : Ctx) (child_nodes : list Node)
  : B (list Node) :=
  match fuel with
  | 0 => raise OutOfFuel
  | S fuel' =>
      at_end <- peek_startswith ["end"] ;;
      if at_end then consume_line ;;; ret child_nodes
      else
        n <- Statement_consume ctx ;;
        add_child is_Statement n ;;;
        InnerGroup_loop fuel' ctx (child_nodes +++ [n])
  end.

Definition InnerGroup_consume (fuel : nat) (ctx : Ctx) : B Node :=
  l <- consume_str ;;
  sg <- init Re.Eps l ;;
  cs <- InnerGroup_loop fuel (inside PInnerGroup ctx) [] ;;
  ret (InnerGroup (fst sg) cs).

(** [IfThen.consume], [Elif.consume] and [Else.consume] *)
Definition IfThen_consume (fuel : nat) (ctx : Ctx) : B Node :=
  sg <- init Re.Eps "" ;;
  cs <- branch_loop fuel (inside POther ctx) ["end"; "elif"; "else:"] [] ;;
  ret (IfThen (fst sg) "" "" cs).

Definition Elif_consume (fuel : nat) (ctx : Ctx) : B Node :=
  l <- consume_str ;;
  sg <- init Patterns.Elif l ;;
  e <- parse_expr (group (snd sg) "condition") ;;
  cs <- branch_loop fuel (inside POther ctx) ["end"; "elif"; "else:"] [] ;;
  ret (Elif (fst sg) (Re.get "modifier" (snd sg)) e "" "" cs).

Definition Else_consume (fuel : nat) (ctx : Ctx) : B Node :=
  l <- consume_str ;;
  sg <- init Patterns.Else l ;;
  cs <- branch_loop fuel (inside POther ctx) ["end"] [] ;;
  ret (Else (fst sg) "" "" cs).

(** [node.label = ...] *)
Definition set_label (n : Node) (l : string) : Node :=
  match n with
  | IfThen s _ next cs => IfThen s l next cs
  | Elif s modifier condition _ next cs => Elif s modifier condition l next cs
  | Else s _ next cs => Else s l next cs
  | _ => n
  end.

Definition count_class (c : NodeClass) (l : list Node) : nat :=
  List.length (filter (fun n => NodeClass_eqb (class_of n) c) l).

(** [IfStatement.add_if_then], [add_elif] and [add_else] *)
Definition add_if_then (child_nodes : list Node) (node : Node) : list Node :=
  child_nodes +++ [set_label node ""].

Definition add_elif (conditional_index : nat) (child_nodes : list Node)
  (node : Node) : list Node :=
  let i := count_class CElif child_nodes in
  child_nodes
  +++ [set_label node
         ("l" ++ str_nat conditional_index ++ "_elif_" ++ str_nat i)].

Definition add_else (conditional_index : nat) (child_nodes : list Node)
  (node : Node) : list Node :=
  child_nodes
  +++ [set_label node ("l" ++ str_nat conditional_index ++ "_else")].

(** The loop of [IfStatement.consume]; a line that is neither [end]
    nor the start of a branch is looked at again and again. *)
Fixpoint IfStatement_loop (fuel : nat) (ctx : Ctx) (conditional_index : nat)
  (child_nodes : list Node) : B (list Node) :=
  match fuel with
  | 0 => raise OutOfFuel
  | S fuel' =>
      at_end <- peek_is "end" ;;
      if at_end then consume_line ;;; ret child_nodes
      else
        is_elif <- peek_startswith ["elif "] ;;
        if is_elif then
          n <- Elif_consume fuel' ctx ;;
          IfStatement_loop fuel' ctx conditional_index
            (add_elif conditional_index child_nodes n)
        else
          is_else <- peek_startswith ["else:"] ;;
          if is_else then
            n <- Else_consume fuel' ctx ;;
            IfStatement_loop fuel' ctx conditional_index
              (add_else conditional_index child_nodes n)
          else IfStatement_loop fuel' ctx conditional_index child_nodes
  end.

(** [IfStatement.consume] *)
Definition IfStatement_consume (fuel : nat) (ctx : Ctx) : B Node :=
  l <- consume_str ;;
  sg <- init Patterns.IfStatement l ;;
  condition <- parse_expr (group (snd sg) "condition") ;;
  conditional_index <- next_conditional ;;
  let ctx := inside POther ctx in
  if_then <- IfThen_consume fuel ctx ;;
  cs <- IfStatement_loop fuel ctx conditional_index
          (add_if_then [] if_then) ;;
  ret (IfStatement (fst sg) (Re.get "modifier" (snd sg)) condition
         conditional_index "" cs).

(** [WhileStatement.consume], [ForStatement.consume] and
    [For_Statement.consume] *)
Definition WhileStatement_consume (fuel : nat) (ctx : Ctx) : B Node :=
  l <- consume_str ;;
  sg <- init Patterns.WhileStatement l ;;
  condition <- parse_expr (group (snd sg) "condition") ;;
  idx <- next_conditional ;;
  cs <- body_loop fuel
          (inside_scope (PWhile (end_label idx))
             ("while__" ++ str_nat idx) ctx)
          is_InlineStatement [] ;;
  ret (WhileStatement (fst sg) (Re.get "modifier" (snd sg)) condition idx cs).

Definition ForStatement_consume (fuel : nat) (ctx : Ctx) : B Node :=
  l <- consume_str ;;
  sg <- init Patterns.ForStatement l ;;
  start <- parse_expr (group (snd sg) "start") ;;
  end_ <- parse_expr (group (snd sg) "end") ;;
  idx <- next_conditional ;;
  cs <- body_loop fuel (inside_scope POther ("for__" ++ str_nat idx) ctx)
          is_InlineStatement [] ;;
  ret (ForStatement (fst sg) (group (snd sg) "var_name") start end_ idx
         None cs).

Definition For_Statement_consume (fuel : nat) (ctx : Ctx) : B Node :=
  l <- consume_str ;;
  sg <- init Patterns.For_Statement l ;;
  start <- parse_expr (group (snd sg) "start") ;;
  end_ <- parse_expr (group (snd sg) "end") ;;
  idx <- next_conditional ;;
  cs <- body_loop fuel (inside_scope POther ("for__" ++ str_nat idx) ctx)
          is_InlineStatement [] ;;
  ret (For_Statement (fst sg) start end_ idx cs).

(** [Func.__init__] and [Func.consume] *)
Definition Func_consume (fuel : nat) (ctx : Ctx) : B Node :=
  l <- consume_str ;;
  sg <- init Patterns.Func l ;;
  let name := group (snd sg) "name" in
  let raw_args := group (snd sg) "args" in
  init Patterns.ArgsList raw_args ;;;
  let args :=
    map (fun g => (group g "arg_name", group g "arg_type"))
      (Re.findall (S (String.length raw_args)) Patterns.arg_pattern
         raw_args) in
  mapB (fun a : string * string => type_instance (snd a)) args ;;;
  let label := scope_name ctx ++ "__func__" ++ name in
  returns <-
    mapB type_instance
      (filter (fun t => negb (String.eqb t ""))
         (split_commas
            (remove_spaces (group (snd sg) "return_type")))) ;;
  cs <- body_loop fuel (inside_scope (PFunc returns) ("func__" ++ name) ctx)
          is_InlineStatement [] ;;
  match rev (filter (fun n => negb (isinstance n [CFunc; CComment; CBlank]))
               cs) with
  | Return _ _ _ _ :: _ =>
      ret (Func (fst sg)
             {| f_name := name; f_args := args; f_returns := returns;
                f_label := label; f_vars := []; f_attributes := [] |}
             cs)
  | _ =>
      n <- current_line_no ;;
      raise (ParseError
               ("func must end with a return statement at line "
                ++ str_nat n ++ "!"))
  end.

(** [DecoratedFunc.consume]; [set_func] gives the function the
    attributes its decorators name. *)
Definition Decorator_consume : B Node :=
  l <- consume_str ;;
  sg <- init Patterns.Decorator l ;;
  ret (Decorator (fst sg) (group (snd sg) "name") (group (snd sg) "params")).

Definition set_attribute (attributes : list (string * list (string * string)))
  (decorator : Node) : list (string * list (string * string)) :=
  match decorator with
  | Decorator _ name params =>
      (name,
       match Re.re_match Patterns.key_value params with
       | Some g => [(group g "key", group g "value")]
       | None => []
       end) :: attributes
  | _ => attributes
  end.

Definition set_func (decorators : list Node) (func : Node) : Node :=
  match func with
  | Func s a cs =>
      Func s
        {| f_name := f_name a; f_args := f_args a;
           f_returns := f_returns a; f_label := f_label a;
           f_vars := f_vars a;
           f_attributes := fold_left set_attribute decorators (f_attributes a) |}
        cs
  | _ => func
  end.

Fixpoint DecoratedFunc_loop (fuel : nat) (ctx : Ctx) (decorators : list Node)
  : B (list Node) :=
  match fuel with
  | 0 => raise OutOfFuel
  | S fuel' =>
      is_func <- peek_startswith ["func "] ;;
      if is_func then
        f <- Func_consume fuel' (inside POther ctx) ;;
        ret (decorators +++ [set_func decorators f])
      else
        is_decorator <- peek_startswith ["@"] ;;
        if is_decorator then
          d <- Decorator_consume ;;
          DecoratedFunc_loop fuel' ctx (decorators +++ [d])
        else DecoratedFunc_loop fuel' ctx decorators
  end.

Definition DecoratedFunc_consume (fuel : nat) (ctx : Ctx) : B Node :=
  sg <- init Re.Eps "" ;;
  cs <- DecoratedFunc_loop fuel ctx [] ;;
  ret (DecoratedFunc (fst sg) cs).

(** [StructDefinition.consume] *)
Fixpoint StructDefinition_loop (fuel : nat) (child_nodes : list Node)
  : B (list Node) :=
  match fuel with
  | 0 => raise OutOfFuel
  | S fuel' =>
      at_end <- peek_is "end" ;;
      if at_end then consume_line ;;; ret child_nodes
      else
        is_comment <- peek_startswith ["#"] ;;
        l <- consume_str ;;
        if is_comment then StructDefinition_loop fuel' child_nodes
        else
          sg <- init Patterns.StructFieldDefinition l ;;
          StructDefinition_loop fuel'
            (child_nodes
             +++ [StructFieldDefinition (fst sg)
                    (group (snd sg) "field_name")
                    (group (snd sg) "data_type")])
  end.

Definition StructDefinition_consume (fuel : nat) (ctx : Ctx) : B Node :=
  l <- consume_str ;;
  sg <- init Patterns.StructDefinition l ;;
  match ancestors ctx with
  | PProgram :: _ =>
      cs <- StructDefinition_loop fuel [] ;;
      mapB (fun f => match f with
                     | StructFieldDefinition _ _ data_type =>
                         match get_type_instance data_type with
                         | Some _ => ret tt
                         | None => raise (PythonError "KeyError")
                         end
                     | _ => ret tt
                     end) cs ;;;
      ret (StructDefinition (fst sg) (group (snd sg) "name") cs)
  | _ =>
      raise (ParseError
               ("Unexpected StructDefinition definition at line "
                ++ str_nat (line_no (fst sg)) ++ ". "
                ++ "StructDefinition definitions should be at the top of the file "
                ++ "and only be preceeded by comments."))
  end.

(** The dispatch of [Statement.consume] on the start of the next
    line. *)
Definition Statement_dispatch (fuel : nat) (ctx : Ctx) : B Node :=
  l <- peek ;;
  l <- the_line l ;;
  if startswith l "block " then Block_consume fuel ctx
  else if startswith l "switch " then Switch_consume fuel
  else if startswith l "func " then Func_consume fuel ctx
  else if startswith l "@" then DecoratedFunc_consume fuel ctx
  else if startswith l "if " then IfStatement_consume fuel ctx
  else if startswith l "while " then WhileStatement_consume fuel ctx
  else if startswith l "for _" then For_Statement_consume fuel ctx
  else if startswith l "for " then ForStatement_consume fuel ctx
  else if startswith l "teal:" then Teal_consume fuel
  else if startswith l "inner_group:" then InnerGroup_consume fuel ctx
  else if startswith l "inner_txn:" then InnerTxn_consume fuel
  else if startswith l "struct " then StructDefinition_consume fuel ctx
  else if startswith l "router:" then Router_consume fuel
  else LineStatement_consume ctx.

End Loops.

(** [Statement.consume]: the depth of the nesting and the number of
    rounds of every loop are bounded by [fuel]. *)
Fixpoint Statement_consume (fuel : nat) (ctx : Ctx) : B Node :=
  match fuel with
  | 0 => raise OutOfFuel
  | S fuel' => Statement_dispatch (Statement_consume fuel') fuel' ctx
  end.

(** The build pass on the lines of a program. *)
Definition start (source_lines : list string) : TealishCompiler.t :=
  {| TealishCompiler.source_lines := source_lines;
     TealishCompiler.line_no := 0;
     TealishCompiler.conditional_count := 0;
     TealishCompiler.max_slot := 0;
     TealishCompiler.use_inner_txns_macro := None |}.

Definition build (source_lines : list string) : Error + Node :=
  let fuel := S (S (List.length source_lines)) in
  match Program_consume (Statement_consume fuel) fuel (start source_lines) with
  | inl e => inl e
  | inr (n, _) => inr n
  end.

End WithEnv.

End Build.

(** ** Code generation: [write_teal] *)

Module Gen.

Local Open Scope string_scope.

(** The state of the third pass: the compiler (its macro flag is written
    by [InnerTxn.write_teal]) and the writer. *)
Record state := {
  compiler : TealishCompiler.t;
  writer : TealWriter.t;
}.

(** An emitting action; [None] is a Python exception. *)
Definition W := state -> option state.

Definition andThen (a b : W) : W :=
  fun st => match a st with Some st' => b st' | None => None end.

Definition skip : W := fun st => Some st.
Definition raise : W := fun _ => None.

Fixpoint sequence (l : list W) : W :=
  match l with
  | [] => skip
  | a :: l' => andThen a (sequence l')
  end.

Definition on_writer (f : TealWriter.t -> TealWriter.t) : W :=
  fun st => Some {| compiler := compiler st; writer := f (writer st) |}.

(** [writer.write(self, "text")] *)
Definition write (text : string) : W :=
  on_writer (fun w => TealWriter.write_str w text).

(** [writer.write(self, expression)] *)
Definition write_expr (e : Expression) : W :=
  on_writer (fun w => TealWriter.write_expr w e).

(** [writer.write(self, expression, one_line=True)] *)
Definition write_expr_one_line (e : Expression) : W :=
  on_writer (fun w => TealWriter.write_one_line w (e_teal e)).

(** [writer.write(self, [teal, ...])] *)
Definition write_list (l : list string) : W :=
  on_writer (fun w => TealWriter.write_one_line w l).

(** [writer.level += 1] and [writer.level -= 1] *)
Definition level_up : W :=
  on_writer (fun w => TealWriter.set_level w (TealWriter.level w + 1)).
Definition level_down : W :=
  on_writer (fun w => TealWriter.set_level w (TealWriter.level w - 1)).

Definition set_macro (b : option bool) : W :=
  fun st =>
    let c := compiler st in
    Some {| compiler :=
              {| TealishCompiler.source_lines := TealishCompiler.source_lines c;
                 TealishCompiler.line_no := TealishCompiler.line_no c;
                 TealishCompiler.conditional_count :=
                   TealishCompiler.conditional_count c;
                 TealishCompiler.max_slot := TealishCompiler.max_slot c;
                 TealishCompiler.use_inner_txns_macro := b |};
            writer := writer st |}.

(** [if self.compiler.use_inner_txns_macro:] *)
Definition if_macro (a b : W) : W :=
  fun st =>
    match TealishCompiler.use_inner_txns_macro (compiler st) with
    | Some true => a st
    | _ => b st
    end.

(** [f"// tl:{self.line_no}: {self.line}"] *)
Definition tl (src : Src) : string :=
  "// tl:" ++ str_nat (line_no src) ++ ": " ++ line src.

Definition is_not (modifier : option string) : bool :=
  match modifier with Some m => String.eqb m "not" | None => false end.


(** The children of a node with their own [write_teal]. *)
Definition written := list (Node * W).

Definition write_children (cs : written) : W := sequence (map snd cs).

Definition of_class (c : NodeClass) (cs : written) : written :=
  filter (fun nw => NodeClass_eqb (class_of (fst nw)) c) cs.

Section WithScope.

(** Lookups through the scope chain of a node, and the rendering of a
    type; the scope and the types are outside this module. *)
Variable get_block : Src -> string -> option string.   (* the block's label *)
Variable lookup_func : Src -> string -> option FuncAttrs.
Variable type_name : TealishType -> string.            (* t.name *)
Variable type_str : TealishType -> string.             (* str(t) *)

Definition Jump_write_teal (src : Src) (block_name : string) : W :=
  andThen (write (tl src))
    match get_block src block_name with
    | Some label => write ("b " ++ label)
    | None => raise
    end.

Definition Switch_write_teal (src : Src) (expression : Expression)
  (child_nodes : list Node) : W :=
  let option_teal (n : Node) : W :=
    match n with
    | SwitchOption _ e block_name =>
        sequence
          [ write_expr expression; write_expr e; write "==";
            match get_block src block_name with
            | Some label => write ("bnz " ++ label)
            | None => raise
            end ]
    | _ => skip
    end in
  let else_ :=
    last (map Some (filter (fun n => NodeClass_eqb (class_of n) CSwitchElse)
                      child_nodes)) None in
  sequence
    [ write (tl src);
      sequence (map option_teal child_nodes);
      match else_ with
      | Some (SwitchElse _ block_name) =>
          match get_block src block_name with
          | Some label => write ("b " ++ label ++ " // else")
          | None => raise
          end
      | _ => write "err // unexpected value"
      end ].

(** The body of the [for i, route in enumerate(self.routes)] loop of
    [Router.write_teal]. *)
Definition Router_write_route (src : Src) (route : Node) : W :=
  match route with
  | Route _ name arg_expressions =>
      match lookup_func src name with
      | None => raise
      | Some func =>
          match assoc "public" (f_attributes func) with
          | None => raise
          | Some public =>
              let oc :=
                match assoc "OnCompletion" public with
                | Some v => v
                | None => "NoOp"
                end in
              sequence
                [ write ("route_" ++ name ++ ":");
                  level_up;
                  (if String.eqb oc "CreateApplication" then
                     write "txn ApplicationID; pushint 0; ==; assert // ApplicationID == 0"
                   else
                     match assoc oc constants with
                     | Some (_, v) =>
                         write ("txn OnCompletion; pushint " ++ str_nat v
                                ++ "; ==; assert // assert OnCompletion == "
                                ++ oc)
                     | None => raise
                     end);
                  sequence (map write_expr_one_line arg_expressions);
                  write ("callsub " ++ f_label func);
                  (let returns := f_returns func in
                   if Nat.eqb (List.length returns) 0 then skip
                   else
                       sequence
                         [ write ("// return "
                                  ++ join ", " (map type_name returns));
                           sequence
                             (map (fun ir : nat * TealishType =>
                                     let (i, r) := ir in
                                     andThen
                                       (if (0 <? i)%nat then
                                          write ("uncover " ++ str_nat i
                                                 ++ " // " ++ type_name r)
                                        else
                                          write ("// uncover " ++ str_nat i
                                                 ++ " " ++ type_name r))
                                       (if is_IntType r then write "itob"
                                        else skip))
                                (combine (seq 0 (List.length returns))
                                   returns));
                           sequence
                             (repeat (write "concat")
                                (List.length returns - 1));
                           write "pushbytes 0x151f7c75; swap; concat; log // arc4 return log" ]);
                  write "pushint 1; return";
                  level_down ]
          end
      end
  | _ => raise
  end.

Definition Router_write_teal (src : Src) (routes : list Node) : W :=
  let name_of (r : Node) :=
    match r with Route _ name _ => name | _ => EmptyString end in
  sequence
    [ write (tl src);
      sequence
        (map (fun r => write ("pushbytes " ++ Q ++ name_of r ++ Q)) routes);
      write "txna ApplicationArgs 0";
      write ("match " ++ join " " (map (fun r => "route_" ++ name_of r) routes));
      write "err // unexpected value";
      sequence (map (Router_write_route src) routes) ].

Definition TealVersion_write_teal (version : string) : W :=
  write ("#pragma version " ++ version).

Definition Comment_write_teal (comment : string) : W :=
  write ("//" ++ comment).

Definition Blank_write_teal : W := write "".

Definition Const_write_teal (name literal : string) : W :=
  write ("#define " ++ name ++ " " ++ literal).

Definition Exit_write_teal (src : Src) (expression : Expression) : W :=
  sequence [ write (tl src); write_expr expression; write "return" ].

Definition FunctionCallStatement_write_teal (src : Src)
  (expression : Expression) : W :=
  sequence [ write (tl src); write_expr expression ].

Definition Assert_write_teal (src : Src) (arg : Expression)
  (message : option string) : W :=
  sequence
    [ write (tl src); write_expr arg;
      match message with
      | Some (String c m) => write ("assert // " ++ String c m)
      | _ => write "assert"
      end ].

Definition VarDeclaration_write_teal (src : Src) (name : string)
  (expression : option Expression) (var : option Var) : W :=
  match var with
  | None => raise
  | Some var =>
      andThen
        (write (tl src ++ " [slot " ++ str_nat (scratch_slot var) ++ "]"))
        match expression with
        | Some e =>
            andThen (write_expr e)
              (write ("store " ++ str_nat (scratch_slot var) ++ " // " ++ name))
        | None => skip
        end
  end.

Definition Assignment_write_teal (src : Src) (expression : Expression)
  (name_nodes : option (list (string * option nat))) : W :=
  match name_nodes with
  | None => raise
  | Some name_nodes =>
      sequence
        [ write (tl src); write_expr expression;
          sequence
            (map (fun name : string * option nat =>
                    if String.eqb (fst name) "_" then
                      write "pop // discarding value for _"
                    else
                      write ("store " ++ str_size (snd name) ++ " // "
                             ++ fst name))
               name_nodes) ]
  end.

Definition Block_write_teal (name label : string) (cs : written) : W :=
  sequence
    [ write ("// block " ++ name); write (label ++ ":"); level_up;
      write_children cs; level_down ].

Definition TealLine_write_teal (src : Src) : W := write (line src).

Definition Teal_write_teal (cs : written) : W := write_children cs.

Definition InnerTxnFieldSetter_write_teal (src : Src) (field_name : string)
  (expression : Expression) : W :=
  sequence
    [ write (tl src); write_expr expression;
      write ("itxn_field " ++ field_name) ].

Definition InnerTxn_write_teal (src : Src) (cs : written) : W :=
  sequence
    [ set_macro (Some false);
      write (tl src);
      if_macro
        (sequence
           [ write "callsub _itxn_begin"; level_up; write_children cs;
             level_down; write "callsub _itxn_submit";
             write "// end inner_txn" ])
        (sequence
           [ write "itxn_begin"; level_up; write_children cs; level_down;
             write "itxn_submit"; write "// end inner_txn" ]) ].

Definition InnerGroup_write_teal (src : Src) (cs : written) : W :=
  sequence
    [ write (tl src); write "callsub _itxn_group_begin"; level_up;
      write_children cs; write "callsub _itxn_group_submit"; level_down;
      write "// end inner_group" ].

Definition IfThen_write_teal (cs : written) : W :=
  sequence [ write "// then:"; level_up; write_children cs; level_down ].

Definition Elif_write_teal (modifier : option string)
  (condition : Expression) (next_label : string) (cs : written) : W :=
  sequence
    [ write_expr condition;
      (if is_not modifier then write ("bnz " ++ next_label)
       else write ("bz " ++ next_label));
      level_up; write_children cs; level_down ].

Definition Else_write_teal (cs : written) : W := write_children cs.

Definition label_of (n : Node) : string :=
  match n with
  | IfThen _ label _ _ | Elif _ _ _ label _ _ | Else _ label _ _ => label
  | _ => EmptyString
  end.

Definition IfStatement_write_teal (src : Src) (modifier : option string)
  (condition : Expression) (conditional_index : nat) (next_label : string)
  (cs : written) : W :=
  let if_then := last (map Some (of_class CIfThen cs)) None in
  let elifs := of_class CElif cs in
  let else_ := last (map Some (of_class CElse cs)) None in
  let has_else := match else_ with Some _ => true | None => false end in
  let b_end :=
    sequence
      [ level_up; write ("b " ++ end_label conditional_index); level_down ] in
  sequence
    [ write (tl src);
      write_expr condition;
      (if is_not modifier then write ("bnz " ++ next_label)
       else write ("bz " ++ next_label));
      match if_then with Some (_, w) => w | None => raise end;
      (if negb (Nat.eqb (List.length elifs) 0) || has_else then b_end
       else skip);
      sequence
        (map (fun inw : nat * (Node * W) =>
                let '(i, (n, w)) := inw in
                sequence
                  [ write (label_of n ++ ":");
                    write (tl (src_of n));
                    level_up;
                    w;
                    (if negb (Z.eqb (Z.of_nat i)
                                (Z.of_nat (List.length elifs) - 1))
                        || has_else
                     then b_end else skip);
                    level_down ])
           (combine (seq 0 (List.length elifs)) elifs));
      match else_ with
      | Some (n, w) =>
          sequence
            [ write (label_of n ++ ":"); write (tl (src_of n)); level_up;
              w; level_down ]
      | None => skip
      end;
      write (end_label conditional_index ++ ":") ].

Definition Break_write_teal (src : Src) (parent_loop_end_label : string)
  : W :=
  sequence [ write (tl src); write ("b " ++ parent_loop_end_label) ].

Definition WhileStatement_write_teal (src : Src) (modifier : option string)
  (condition : Expression) (conditional_index : nat) (cs : written) : W :=
  let start_label := while_label conditional_index in
  let end_label := end_label conditional_index in
  sequence
    [ write (tl src); write (start_label ++ ":"); level_up;
      write_expr condition;
      (if is_not modifier then write ("bnz " ++ end_label)
       else write ("bz " ++ end_label));
      write_children cs;
      write ("b " ++ start_label); write (end_label ++ ":"); level_down ].

Definition ForStatement_write_teal (src : Src) (start end_ : Expression)
  (conditional_index : nat) (var : option Var) (cs : written) : W :=
  let start_label := for_label conditional_index in
  let end_label := end_label conditional_index in
  match var with
  | None => raise
  | Some var =>
      let slot := str_nat (scratch_slot var) ++ " // " ++ Builtins.name var in
      sequence
        [ write (tl src); level_up; write_expr start;
          write ("store " ++ slot); write (start_label ++ ":");
          write ("load " ++ slot); write_expr end_; write "==";
          write ("bnz " ++ end_label);
          write_children cs;
          write ("load " ++ slot); write "pushint 1"; write "+";
          write ("store " ++ slot); write ("b " ++ start_label);
          write (end_label ++ ":"); level_down ]
  end.

Definition For_Statement_write_teal (src : Src) (start end_ : Expression)
  (conditional_index : nat) (cs : written) : W :=
  let start_label := for_label conditional_index in
  let end_label := end_label conditional_index in
  sequence
    [ write (tl src); level_up; write_expr start; write "dup";
      write (start_label ++ ":"); write_expr end_; write "==";
      write ("bnz " ++ end_label);
      write_children cs;
      write "pushint 1"; write "+"; write "dup";
      write ("b " ++ start_label); write "pop";
      write (end_label ++ ":"); level_down ].

Definition Func_write_teal (src : Src) (attrs : FuncAttrs) (cs : written)
  : W :=
  sequence
    [ write (tl src); write (f_label attrs ++ ":"); level_up;
      sequence
        (map (fun arg : string * string =>
                match assoc (fst arg) (f_vars attrs) with
                | Some var =>
                    write ("store " ++ str_nat (scratch_slot var) ++ " // "
                           ++ fst arg ++ " ["
                           ++ type_str (Builtins.tealish_type var) ++ "]")
                | None => raise
                end)
           (rev (f_args attrs)));
      write_children cs; level_down ].

Definition Return_write_teal (src : Src) (args : string)
  (args_expressions : list Expression) : W :=
  sequence
    [ write (tl src);
      match args with
      | EmptyString => skip
      | _ => sequence (map write_expr (rev args_expressions))
      end;
      write "retsub" ].

Definition Decorator_write_teal (src : Src) : W := write (tl src).

Definition DecoratedFunc_write_teal (cs : written) : W :=
  match last (map Some (of_class CFunc cs)) None with
  | Some (_, w) => w
  | None => raise
  end.

(** The one-line setter shared by the two branches of
    [StructOrBoxAssignment.write_teal]. *)
Definition itob_teal (data_type : option TealishType) : list string :=
  match data_type with
  | Some t =>
      if is_IntType t then
        "itob" ::
          (if is_UIntType t then
             match size t with
             | Some n =>
                 [ "extract " ++ str_Z (8 - Z.of_nat n) ++ " " ++ str_nat n ]
             | None => []
             end
           else [])
      else []
  | None => []
  end.

Definition StructOrBoxAssignment_write_teal (src : Src)
  (a : StructOrBoxAttrs) : W :=
  match sb_var a, sb_expression a with
  | None, _ | _, None => raise
  | Some var, Some expression =>
      let slot := str_nat (scratch_slot var) in
      if is_StructType (Builtins.tealish_type var) then
        sequence
          [ write (tl src ++ " [slot " ++ slot ++ "]");
            write_expr expression;
            write_list
              (List.app (itob_teal (sb_data_type a))
                 [ "load " ++ slot; "swap";
                   "replace " ++ str_nat (sb_offset a); "store " ++ slot;
                   "// set " ++ sb_name a ++ "." ++ sb_field_name a ]) ]
      else if is_BoxType (Builtins.tealish_type var) then
        sequence
          [ write (tl src);
            write_expr expression;
            write_list
              (List.app (itob_teal (sb_data_type a))
                 [ "load " ++ slot; "pushint " ++ str_nat (sb_offset a);
                   "uncover 2"; "box_replace";
                   "// boxset " ++ sb_name a ++ "." ++ sb_field_name a ]) ]
      else skip
  end.

Definition BoxDeclaration_write_teal (src : Src) (a : BoxAttrs) : W :=
  match bx_var a with
  | None => raise
  | Some var =>
      let method_is (m : string) :=
        match bx_method a with Some m' => String.eqb m' m | None => false end in
      let box_size := str_nat (bx_box_size a) in
      sequence
        [ write (tl src ++ " [slot " ++ str_nat (scratch_slot var) ++ "]");
          write_expr (bx_key a);
          (if method_is "Open" then
             write ("dup; box_len; assert; pushint " ++ box_size
                    ++ "; ==; assert // len(box) == " ++ bx_struct_name a
                    ++ ".size")
           else if method_is "Create" then
             write ("dup; pushint " ++ box_size
                    ++ "; box_create; assert // create & assert created")
           else if method_is "OpenOrCreate" then
             write ("dup; pushint " ++ box_size
                    ++ "; box_create; pop // create if didn't already exist")
           else skip);
          write ("store " ++ str_nat (scratch_slot var) ++ " // box:"
                 ++ bx_name a) ]
  end.

(** The lines of the macro text of [Program.write_teal], as
    [teal.splitlines()] yields them with the indentation of the first
    label cut off. *)
Definition inner_txns_macro (slot : string) : list string :=
  [ "";
    "_itxn_group_begin:";
    "  load " ++ slot ++ "; !; assert // ensure no group active";
    "  int 1; store " ++ slot ++ "; retsub // set group flag";
    "";
    "_itxn_begin:";
    "  load " ++ slot;
    "  switch _itxn_begin__0 _itxn_begin__1 _itxn_begin__2";
    "  err";
    "  _itxn_begin__0: itxn_begin; retsub // no group";
    "  _itxn_begin__1: itxn_begin; int 2; store " ++ slot
      ++ "; retsub // start first txn of group";
    "  _itxn_begin__2: itxn_next; retsub // start next txn of group";
    "";
    "_itxn_submit:";
    "  load " ++ slot;
    "  bz _itxn_submit__0";
    "  retsub // in a group, don't submit";
    "  _itxn_submit__0: itxn_submit; retsub // no group, submit";
    "";
    "_itxn_group_submit:";
    "  itxn_submit";
    "  int 0; store " ++ slot ++ "; retsub // set group flag to 0";
    "" ].

Definition Program_write_teal (current_scope : Scope.t) (cs : written) : W :=
  andThen (write_children cs)
    (if_macro
       (match Scope.get_var current_scope "inner_group_flag" with
        | Some var =>
            sequence (map write (inner_txns_macro (str_nat (scratch_slot var))))
        | None => raise
        end)
       skip).

(** [n.write_teal(writer)], which is also [writer.write(self, n)] for a
    node [n]. *)
Fixpoint write_teal (n : Node) : W :=
  let kids := map (fun c => (c, write_teal c)) in
  match n with
  | Program _ sc cs => Program_write_teal sc (kids cs)
  | TealVersion _ version => TealVersion_write_teal version
  | Comment _ comment => Comment_write_teal comment
  | Blank _ => Blank_write_teal
  | Const _ _ name literal _ => Const_write_teal name literal
  | Jump src block_name => Jump_write_teal src block_name
  | Exit src e => Exit_write_teal src e
  | FunctionCallStatement src e => FunctionCallStatement_write_teal src e
  | Assert src arg message => Assert_write_teal src arg message
  | VarDeclaration src _ name e var => VarDeclaration_write_teal src name e var
  | Assignment src _ e name_nodes => Assignment_write_teal src e name_nodes
  | Block _ name label cs => Block_write_teal name label (kids cs)
  | Switch src e cs => Switch_write_teal src e cs
  | Router src cs => Router_write_teal src cs
  | TealLine src => TealLine_write_teal src
  | Teal _ cs => Teal_write_teal (kids cs)
  | InnerTxnFieldSetter src field_name _ e =>
      InnerTxnFieldSetter_write_teal src field_name e
  | InnerTxn src cs => InnerTxn_write_teal src (kids cs)
  | InnerGroup src cs => InnerGroup_write_teal src (kids cs)
  | IfThen _ _ _ cs => IfThen_write_teal (kids cs)
  | Elif _ modifier condition _ next_label cs =>
      Elif_write_teal modifier condition next_label (kids cs)
  | Else _ _ _ cs => Else_write_teal (kids cs)
  | IfStatement src modifier condition idx next_label cs =>
      IfStatement_write_teal src modifier condition idx next_label (kids cs)
  | Break src l => Break_write_teal src l
  | WhileStatement src modifier condition idx cs =>
      WhileStatement_write_teal src modifier condition idx (kids cs)
  | ForStatement src _ start end_ idx var cs =>
      ForStatement_write_teal src start end_ idx var (kids cs)
  | For_Statement src start end_ idx cs =>
      For_Statement_write_teal src start end_ idx (kids cs)
  | Func src attrs cs => Func_write_teal src attrs (kids cs)
  | Return src args es _ => Return_write_teal src args es
  | Decorator src _ _ => Decorator_write_teal src
  | DecoratedFunc _ cs => DecoratedFunc_write_teal (kids cs)
  | StructFieldDefinition _ _ _ => skip
  | StructDefinition _ _ _ => skip
  | StructOrBoxAssignment src a => StructOrBoxAssignment_write_teal src a
  | BoxDeclaration src a => BoxDeclaration_write_teal src a
  (* these classes define no [write_teal] of their own *)
  | SwitchOption _ _ _ | SwitchElse _ _ | Route _ _ _ => raise
  end.

End WithScope.

End Gen.

(** ** Semantic analysis: [process] *)

Module Process.

Local Open Scope string_scope.

(** The state of the second pass: the compiler, the scopes from the
    current one to the root, and [compiler.error_messages]. *)
Record state := {
  compiler : TealishCompiler.t;
  scopes : list Scope.t;
  error_messages : list (nat * string);
}.

Definition M (A : Type) : Type := state -> Error + (A * state).

Definition ret {A} (x : A) : M A := fun st => inr (x, st).
Definition raise {A} (e : Error) : M A := fun _ => inl e.
Definition bind {A B} (m : M A) (f : A -> M B) : M B :=
  fun st => match m st with inl e => inl e | inr (x, st') => f x st' end.

Notation "x <- m ;; k" := (bind m (fun x => k))
  (at level 61, m at next level, right associativity).
Notation "m ;;; k" := (bind m (fun _ => k))
  (at level 61, right associativity).

Fixpoint mapM {A B} (f : A -> M B) (l : list A) : M (list B) :=
  match l with
  | [] => ret []
  | x :: l' => y <- f x ;; ys <- mapM f l' ;; ret (y :: ys)
  end.

(** Running the actions of a list in order. *)
Fixpoint runM {A} (l : list (M A)) : M (list A) :=
  match l with
  | [] => ret []
  | m :: l' => y <- m ;; ys <- runM l' ;; ret (y :: ys)
  end.

Definition nl : string := String "010"%char EmptyString.

Definition set_compiler (f : TealishCompiler.t -> TealishCompiler.t) : M unit :=
  fun st => inr (tt, {| compiler := f (compiler st); scopes := scopes st;
                        error_messages := error_messages st |}).

Definition with_max_slot (n : nat) (c : TealishCompiler.t) : TealishCompiler.t :=
  {| TealishCompiler.source_lines := TealishCompiler.source_lines c;
     TealishCompiler.line_no := TealishCompiler.line_no c;
     TealishCompiler.conditional_count := TealishCompiler.conditional_count c;
     TealishCompiler.max_slot := n;
     TealishCompiler.use_inner_txns_macro :=
       TealishCompiler.use_inner_txns_macro c |}.

Definition with_macro (b : option bool) (c : TealishCompiler.t)
  : TealishCompiler.t :=
  {| TealishCompiler.source_lines := TealishCompiler.source_lines c;
     TealishCompiler.line_no := TealishCompiler.line_no c;
     TealishCompiler.conditional_count := TealishCompiler.conditional_count c;
     TealishCompiler.max_slot := TealishCompiler.max_slot c;
     TealishCompiler.use_inner_txns_macro := b |}.

(** [expression.process()], with the type it leaves. *)
Definition process_expr (e : Expression) : M ExprType :=
  match e_process e with
  | inr t => ret t
  | inl message => raise (CompileError message)
  end.

(** Modelled from the spec: [get_var] of the base node, a lookup that
    walks the scopes to the root. *)
Fixpoint lookup_var (scopes : list Scope.t) (n : string) : option Var :=
  match scopes with
  | [] => None
  | sc :: rest =>
      match Scope.get_var sc n with
      | Some v => Some v
      | None => lookup_var rest n
      end
  end.

Definition get_var (n : string) : M (option Var) :=
  fun st => inr (lookup_var (scopes st) n, st).

(** Modelled from the spec: [declare_scratch_var] of the base node
    declares the variable in the current scope, at the given slot or at
    the next free one, and keeps [compiler.max_slot] the maximum. *)
Definition declare_scratch_var_at (n : string) (t : TealishType)
  (slot : option nat) : M Var :=
  fun st =>
    match scopes st with
    | [] => inl (PythonError "AttributeError")
    | sc :: rest =>
        let slot :=
          match slot with Some k => k | None => Scope.next_slot sc end in
        let v := {| Builtins.name := n; Builtins.tealish_type := t;
                    scratch_slot := slot |} in
        inr (v, {| compiler :=
                     with_max_slot
                       (Nat.max (TealishCompiler.max_slot (compiler st)) slot)
                       (compiler st);
                   scopes := Scope.declare_var sc v :: rest;
                   error_messages := error_messages st |})
    end.

Definition del_var (n : string) : M unit :=
  fun st =>
    match scopes st with
    | [] => inl (PythonError "AttributeError")
    | sc :: rest =>
        inr (tt, {| compiler := compiler st;
                    scopes := Scope.del_var sc n :: rest;
                    error_messages := error_messages st |})
    end.

Definition declare_const (n : string) (c : ExprType * string) : M unit :=
  fun st =>
    match scopes st with
    | [] => inl (PythonError "AttributeError")
    | sc :: rest =>
        inr (tt, {| compiler := compiler st;
                    scopes := Scope.declare_const sc n c :: rest;
                    error_messages := error_messages st |})
    end.

(** The nodes of a block, a function or a loop are processed in the
    scope the node made for itself when it was built. *)
Definition in_scope {A} (n : string) (m : M A) : M A :=
  fun st =>
    match scopes st with
    | [] => inl (PythonError "AttributeError")
    | sc :: rest =>
        match m {| compiler := compiler st;
                   scopes := Scope.nested sc n :: sc :: rest;
                   error_messages := error_messages st |} with
        | inl e => inl e
        | inr (x, st') =>
            inr (x, {| compiler := compiler st'; scopes := tl (scopes st');
                       error_messages := error_messages st' |})
        end
    end.

(** [int(s)] for a string of decimal digits. *)
Definition int_of_digits (s : string) : nat :=
  fold_left (fun acc c => 10 * acc + (nat_of_ascii c - 48))
    (list_ascii_of_string s) 0.

(** [isinstance(n, IfThen) or isinstance(n, Elif) or isinstance(n, Else)] *)
Definition is_branch (n : Node) : bool := isinstance n [CIfThen; CElif; CElse].

(** [n.next_label = l] *)
Definition set_next_label (n : Node) (l : string) : Node :=
  match n with
  | IfThen s label _ cs => IfThen s label l cs
  | Elif s modifier condition label _ cs => Elif s modifier condition label l cs
  | Else s label _ cs => Else s label l cs
  | _ => n
  end.

Definition next_label_of (n : Node) : string :=
  match n with
  | IfThen _ _ l _ | Elif _ _ _ _ l _ | Else _ _ l _ => l
  | _ => EmptyString
  end.

(** The first loop of [IfStatement.process]: every branch but the last
    gets the label of the branch after it. *)
Fixpoint link_branches (cs : list Node) : list Node :=
  match cs with
  | a :: ((b :: _) as rest) =>
      (if is_branch a && is_branch b
       then set_next_label a (Gen.label_of b) else a)
      :: link_branches rest
  | _ => cs
  end.

(** [self.child_nodes[-1].next_label = self.end_label] *)
Fixpoint close_last (cs : list Node) (end_label : string) : list Node :=
  match cs with
  | [] => []
  | [a] => [if is_branch a then set_next_label a end_label else a]
  | a :: rest => a :: close_last rest end_label
  end.

(** The labels [IfStatement.process] assigns: the branches with their
    [next_label], and the [next_label] of the statement. *)
Definition IfStatement_labels (conditional_index : nat) (next_label : string)
  (child_nodes : list Node) : list Node * string :=
  let end_label := end_label conditional_index in
  let linked := link_branches child_nodes in
  let next_label :=
    if (1 <? List.length child_nodes)%nat then
      match nth_error child_nodes 1 with
      | Some next_node =>
          if is_branch next_node then Gen.label_of next_node else next_label
      | None => next_label
      end
    else end_label in
  (close_last linked end_label, next_label).

(** [has_child_node]: modelled from the spec ("if the program contains
    an [InnerGroup]") as a search through the descendants. *)
Fixpoint has_child_node (c : NodeClass) (n : Node) {struct n} : bool :=
  let any :=
    existsb (fun k => NodeClass_eqb (class_of k) c || has_child_node c k) in
  match n with
  | Program _ _ cs | Block _ _ _ cs | Switch _ _ cs | Router _ cs
  | Teal _ cs | InnerTxn _ cs | InnerGroup _ cs | IfThen _ _ _ cs
  | Elif _ _ _ _ _ cs | Else _ _ _ cs | IfStatement _ _ _ _ _ cs
  | WhileStatement _ _ _ _ cs | ForStatement _ _ _ _ _ _ cs
  | For_Statement _ _ _ _ cs | Func _ _ cs | DecoratedFunc _ cs
  | StructDefinition _ _ cs => any cs
  | _ => false
  end.

Section WithEnv.

(** What [process] uses of the type registry, of the function table
    of the scope and of the expression parser. *)
Variable get_type_instance : string -> option TealishType.
Variable get_struct : string -> option TealishType.
Variable can_hold : TealishType -> ExprType -> bool.
Variable can_hold_with_cast : TealishType -> ExprType -> bool.
Variable type_str : TealishType -> string.         (* f"{t}" *)
Variable expr_type_str : ExprType -> string.       (* f"{expression.type}" *)
Variable lookup_func : Src -> string -> option FuncAttrs.
Variable parse_expression : string -> option Expression.

(** [self.declare_scratch_var(name, type_name)] *)
Definition declare_scratch_var (n type_name : string) : M Var :=
  match get_type_instance type_name with
  | Some t => declare_scratch_var_at n t None
  | None => raise (PythonError "KeyError")
  end.

(** The children of a node with their own [process]. *)
Definition processed := list (Node * M Node).

Definition process_children (cs : processed) : M (list Node) :=
  runM (map snd cs).

Definition Const_process (src : Src) (tealish_type name literal : string)
  (literal_type : ExprType) : M Node :=
  match get_type_instance tealish_type with
  | None =>
      raise (CompileError ("Unknown type " ++ Q ++ tealish_type ++ Q))
  | Some t =>
      if negb (can_hold t literal_type) then
        raise (CompileError ("Incorrect type " ++ expr_type_str literal_type
                             ++ " for const " ++ type_str t))
      else
        declare_const name (literal_type, literal) ;;;
        ret (Const src tealish_type name literal literal_type)
  end.

Definition Exit_process (src : Src) (expression : Expression) : M Node :=
  process_expr expression ;;; ret (Exit src expression).

Definition FunctionCallStatement_process (src : Src)
  (expression : Expression) : M Node :=
  t <- process_expr expression ;;
  match t with
  | Many [] => ret (FunctionCallStatement src expression)
  | _ =>
      raise (CompileError ("Unconsumed return values ("
                           ++ expr_type_str t ++ ")"))
  end.

Definition Assert_process (src : Src) (arg : Expression)
  (message : option string) : M Node :=
  t <- process_expr arg ;;
  let ok :=
    match t with
    | One t => is_IntType t || match t with AnyType => true | _ => false end
    | Many _ => false
    end in
  if negb ok then
    raise (CompileError ("Incorrect type for assert. Expected int, got "
                         ++ expr_type_str t ++ " at line "
                         ++ str_nat (line_no src) ++ "."))
  else
    (fun st =>
       inr (Assert src arg message,
            match message with
            | Some (String c m) =>
                {| compiler := compiler st; scopes := scopes st;
                   error_messages :=
                     (line_no src, String c m) :: error_messages st |}
            | _ => st
            end)).

Definition VarDeclaration_process (src : Src) (type_name name : string)
  (expression : option Expression) : M Node :=
  var <- declare_scratch_var name type_name ;;
  match expression with
  | None => ret (VarDeclaration src type_name name expression (Some var))
  | Some e =>
      t <- process_expr e ;;
      if negb (can_hold (Builtins.tealish_type var) t) then
        let message :=
          "Incorrect type for assignment. Expected " ++ type_name
          ++ ", got " ++ expr_type_str t ++ " at line "
          ++ str_nat (line_no src) ++ "." in
        let message :=
          if can_hold_with_cast (Builtins.tealish_type var) t then
            let message :=
              message ++ nl ++ "Perhaps Cast or padding is required? " in
            let message := message ++ nl ++ "- " ++ line src in
            let message :=
              message ++ nl ++ "+ " ++ type_name ++ " " ++ name
              ++ " = Cast(" ++ e_tealish e ++ ", " ++ type_name ++ ")" in
            if negb (is_StructType (Builtins.tealish_type var)
                     || is_IntType (Builtins.tealish_type var))
            then
              message ++ nl ++ "+ " ++ type_name ++ " " ++ name
              ++ " = Rpad(" ++ e_tealish e ++ ", "
              ++ str_size (size (Builtins.tealish_type var)) ++ ")"
            else message
          else message in
        raise (CompileError message)
      else ret (VarDeclaration src type_name name expression (Some var))
  end.

Definition Assignment_process (src : Src) (names : string)
  (expression : Expression) : M Node :=
  t <- process_expr expression ;;
  let incoming_types :=
    match t with Many ts => map One ts | One _ => [t] end in
  let names_ := map strip (split_commas names) in
  if existsb (fun n =>
                match Re.re_match
                        (Re.seq [Re.Grp "value"
                                   (Re.Seq Re.lower_ (Re.star Re.word));
                                 Re.Eos]) n with
                | Some _ => false
                | None => true
                end) names_
  then raise (ParseError "Pattern does not match for Name")
  else if negb (List.length incoming_types =? List.length names_)%nat then
    raise (CompileError
             ("Incorrect number of names (" ++ str_nat (List.length names_)
              ++ ") for values (" ++ str_nat (List.length incoming_types)
              ++ ") in assignment"))
  else
    name_nodes <-
      mapM (fun nt : string * ExprType =>
              let (n, ty) := nt in
              if String.eqb n "_" then ret (n, None)
              else
                var <- get_var n ;;
                match var with
                | None =>
                    raise (CompileError
                             ("Var " ++ Q ++ n ++ Q
                              ++ " not declared in current scope"))
                | Some var =>
                    if negb (can_hold (Builtins.tealish_type var) ty) then
                      raise (CompileError
                               ("Incorrect type for assignment. Expected "
                                ++ type_str (Builtins.tealish_type var)
                                ++ ", got " ++ expr_type_str ty))
                    else ret (n, Some (scratch_slot var))
                end)
        (combine names_ incoming_types) ;;
    ret (Assignment src names expression (Some name_nodes)).

Definition Block_process (src : Src) (name label : string) (cs : processed)
  : M Node :=
  cs' <- in_scope name (process_children cs) ;;
  ret (Block src name label cs').

Definition Switch_process (src : Src) (expression : Expression)
  (child_nodes : list Node) : M Node :=
  process_expr expression ;;;
  mapM (fun n => match n with
                 | SwitchOption _ e _ => process_expr e ;;; ret tt
                 | _ => ret tt
                 end) child_nodes ;;;
  ret (Switch src expression child_nodes).

(** The body of the loop of [Route.process] over the arguments of the
    function: the local variable [line] keeps its value from one
    round to the next. *)
Definition Route_arg_line (a : nat) (type_name : string)
  (line : option string) : M string :=
  match get_type_instance type_name with
  | None => raise (PythonError "KeyError")
  | Some arg_type =>
      let arg := "Txn.ApplicationArgs[" ++ str_nat a ++ "]" in
      if String.eqb type_name "bytes" then ret arg
      else if String.eqb type_name "int" then
        ret ("FromBytes(" ++ arg ++ ", " ++ type_name ++ ")")
      else if is_IntType arg_type
              && negb (match size arg_type with
                       | Some 8 => true
                       | _ => false
                       end) then
        ret ("Cast(btoi(" ++ arg ++ "), " ++ type_name ++ ")")
      else if is_BytesType arg_type then
        ret ("Cast(" ++ arg ++ ", " ++ type_name ++ ")")
      else
        match line with
        | Some l => ret l
        | None => raise (PythonError "UnboundLocalError")
        end
  end.

Fixpoint Route_args (i : nat) (args : list (string * string))
  (line : option string) : M (list Expression) :=
  match args with
  | [] => ret []
  | (_, type_name) :: args' =>
      l <- Route_arg_line (i + 1) type_name line ;;
      match parse_expression l with
      | None =>
          raise (ParseError ("Cannot parse " ++ Q ++ l ++ Q ++ " as Expression"))
      | Some e =>
          process_expr e ;;;
          es <- Route_args (S i) args' (Some l) ;;
          ret (e :: es)
      end
  end.

Definition Route_process (router : Src) (src : Src) (name : string) : M Node :=
  match lookup_func router name with
  | None => raise (PythonError "KeyError")
  | Some func =>
      match assoc "public" (f_attributes func) with
      | None => raise (CompileError (name ++ " is not a public function"))
      | Some _ =>
          es <- Route_args 0 (f_args func) None ;;
          ret (Route src name es)
      end
  end.

Definition Router_process (src : Src) (cs : processed) : M Node :=
  cs' <- process_children cs ;;
  ret (Router src cs').

(** [InnerTxn.process]: the setters with an index are collected by
    field name, each index being the number of setters of its field
    seen so far; the expressions of the others are processed at once,
    those of the collected ones at the end, field by field. *)
Definition array_fields := list (string * list Node).

Fixpoint append_field (fields : array_fields) (name : string) (n : Node)
  : array_fields :=
  match fields with
  | [] => [(name, [n])]
  | (k, ns) :: fields' =>
      if String.eqb k name then (k, ns +++ [n]) :: fields'
      else (k, ns) :: append_field fields' name n
  end.

Definition field_count (fields : array_fields) (name : string) : nat :=
  match assoc name fields with Some ns => List.length ns | None => 0 end.

Fixpoint InnerTxn_collect (child_nodes : list Node) (fields : array_fields)
  : M array_fields :=
  match child_nodes with
  | [] => ret fields
  | node :: rest =>
      match node with
      | InnerTxnFieldSetter _ field_name (Some index) _ =>
          let index := int_of_digits index in
          let n := field_count fields field_name in
          if (n =? index)%nat then
            InnerTxn_collect rest (append_field fields field_name node)
          else
            fun st =>
              inl (ParseError
                     ("Inccorrect field array index " ++ str_nat index
                      ++ " (expected " ++ str_nat n ++ ") at line "
                      ++ str_nat (TealishCompiler.line_no (compiler st))
                      ++ "!"))
      | InnerTxnFieldSetter _ _ None expression =>
          process_expr expression ;;; InnerTxn_collect rest fields
      | _ => raise (PythonError "AttributeError")
      end
  end.

Definition InnerTxn_process (src : Src) (child_nodes : list Node) : M Node :=
  fields <- InnerTxn_collect child_nodes [] ;;
  mapM (fun n => match n with
                 | InnerTxnFieldSetter _ _ _ e => process_expr e ;;; ret tt
                 | _ => ret tt
                 end)
    (flat_map snd fields) ;;;
  ret (InnerTxn src child_nodes).

Definition InnerGroup_process (src : Src) (cs : processed) : M Node :=
  cs' <- process_children cs ;;
  ret (InnerGroup src cs').

Definition IfThen_process (src : Src) (label next_label : string)
  (cs : processed) : M Node :=
  cs' <- process_children cs ;;
  ret (IfThen src label next_label cs').

Definition Elif_process (src : Src) (modifier : option string)
  (condition : Expression) (label next_label : string) (cs : processed)
  : M Node :=
  process_expr condition ;;;
  process_expr condition ;;;
  cs' <- process_children cs ;;
  ret (Elif src modifier condition label next_label cs').

Definition Else_process (src : Src) (label next_label : string)
  (cs : processed) : M Node :=
  cs' <- process_children cs ;;
  ret (Else src label next_label cs').

(** [IfStatement.process]: the labels, then the condition, then
    [if_then], the [elifs] and [else_].  These are children, and their
    [process] keeps the labels they were given. *)
Definition position_of_last (c : NodeClass) (cs : processed) : option nat :=
  last (map Some
          (map fst
             (filter (fun x : nat * (Node * M Node) =>
                        NodeClass_eqb (class_of (fst (snd x))) c)
                (combine (seq 0 (List.length cs)) cs)))) None.

Definition is_position (p : option nat) (i : nat) : bool :=
  match p with Some j => (i =? j)%nat | None => false end.

(** The [process] of the children chosen by [sel], in order. *)
Definition process_selected (sel : nat -> Node -> bool) (cs : processed)
  : M (list (option Node)) :=
  runM (map (fun x : nat * (Node * M Node) =>
               let '(i, (n, m)) := x in
               if sel i n then n' <- m ;; ret (Some n') else ret None)
          (combine (seq 0 (List.length cs)) cs)).

Fixpoint merge_processed (labelled : list Node)
  (r1 r2 r3 : list (option Node)) : list Node :=
  match labelled, r1, r2, r3 with
  | n :: labelled', a :: r1', b :: r2', c :: r3' =>
      let n' :=
        match a, b, c with
        | Some n', _, _ | None, Some n', _ | None, None, Some n' =>
            set_next_label n' (next_label_of n)
        | None, None, None => n
        end in
      n' :: merge_processed labelled' r1' r2' r3'
  | _, _, _, _ => labelled
  end.

Definition IfStatement_process (src : Src) (modifier : option string)
  (condition : Expression) (conditional_index : nat) (next_label : string)
  (cs : processed) : M Node :=
  match cs with
  | [] => raise (PythonError "IndexError")
  | _ =>
      let (labelled, next_label) :=
        IfStatement_labels conditional_index next_label (map fst cs) in
      let if_then := position_of_last CIfThen cs in
      let else_ := position_of_last CElse cs in
      process_expr condition ;;;
      r1 <- process_selected (fun i _ => is_position if_then i) cs ;;
      r2 <- process_selected
              (fun _ n => NodeClass_eqb (class_of n) CElif) cs ;;
      r3 <- process_selected (fun i _ => is_position else_ i) cs ;;
      ret (IfStatement src modifier condition conditional_index next_label
             (merge_processed labelled r1 r2 r3))
  end.

Definition WhileStatement_process (src : Src) (modifier : option string)
  (condition : Expression) (conditional_index : nat) (cs : processed)
  : M Node :=
  cs' <- in_scope ("while__" ++ str_nat conditional_index)
           (process_expr condition ;;;
            process_expr condition ;;;
            process_children cs) ;;
  ret (WhileStatement src modifier condition conditional_index cs').

Definition ForStatement_process (src : Src) (var_name : string)
  (start end_ : Expression) (conditional_index : nat) (cs : processed)
  : M Node :=
  r <- in_scope ("for__" ++ str_nat conditional_index)
         (var <- declare_scratch_var var_name "int" ;;
          process_expr start ;;;
          process_expr end_ ;;;
          cs' <- process_children cs ;;
          del_var var_name ;;;
          ret (var, cs')) ;;
  ret (ForStatement src var_name start end_ conditional_index
         (Some (fst r)) (snd r)).

Definition For_Statement_process (src : Src) (start end_ : Expression)
  (conditional_index : nat) (cs : processed) : M Node :=
  cs' <- in_scope ("for__" ++ str_nat conditional_index)
           (process_expr start ;;;
            process_expr end_ ;;;
            process_children cs) ;;
  ret (For_Statement src start end_ conditional_index cs').

Definition with_vars (a : FuncAttrs) (vars : list (string * Var)) : FuncAttrs :=
  {| f_name := f_name a; f_args := f_args a; f_returns := f_returns a;
     f_label := f_label a; f_vars := vars; f_attributes := f_attributes a |}.

Definition Func_process (src : Src) (attrs : FuncAttrs) (cs : processed)
  : M Node :=
  r <- in_scope ("func__" ++ f_name attrs)
         (vars <-
            mapM (fun arg : string * string =>
                    var <- declare_scratch_var (fst arg) (snd arg) ;;
                    ret (fst arg, var))
              (rev (f_args attrs)) ;;
          cs' <- process_children cs ;;
          ret (rev vars +++ f_vars attrs, cs')) ;;
  ret (Func src (with_vars attrs (fst r)) (snd r)).

(** The second loop of [Return.process]. *)
Fixpoint Return_check (returns : list TealishType) (types : list ExprType)
  : M unit :=
  match returns with
  | [] => ret tt
  | r :: returns' =>
      match types with
      | [] => raise (PythonError "IndexError")
      | t :: types' =>
          if negb (can_hold r t) then
            raise (CompileError
                     ("Incorrect type for return value. Expected "
                      ++ type_str r ++ ", got " ++ expr_type_str t))
          else Return_check returns' types'
      end
  end.

Definition Return_process (src : Src) (args : string)
  (args_expressions : list Expression) (func_returns : list TealishType)
  : M Node :=
  types <- mapM process_expr (rev args_expressions) ;;
  Return_check func_returns (rev types) ;;;
  ret (Return src args args_expressions func_returns).

Definition DecoratedFunc_process (src : Src) (cs : processed) : M Node :=
  cs' <- process_children cs ;;
  ret (DecoratedFunc src cs').

Definition StructDefinition_process (src : Src) (name : string)
  (cs : processed) : M Node :=
  cs' <- process_children cs ;;
  ret (StructDefinition src name cs').

Definition StructOrBoxAssignment_process (src : Src) (a : StructOrBoxAttrs)
  : M Node :=
  var <- get_var (sb_name a) ;;
  match var with
  | None =>
      raise (CompileError
               ("Could not find struct with name: " ++ sb_name a))
  | Some var =>
      let t := Builtins.tealish_type var in
      if negb (is_StructType t || is_BoxType t) then
        raise (CompileError (sb_name a ++ " is not a struct or Box reference"))
      else
        match field t (sb_field_name a) with
        | None => raise (PythonError "KeyError")
        | Some struct_field =>
            let data_type := Types.tealish_type struct_field in
            expression <-
              match sb_expression a with
              | Some e => ret e
              | None => raise (PythonError "AttributeError")
              end ;;
            et <- process_expr expression ;;
            if negb (can_hold data_type et) then
              let message :=
                "Incorrect type for struct field assignment. Expected "
                ++ type_str data_type ++ ", got " ++ expr_type_str et
                ++ " at line " ++ str_nat (line_no src) ++ "." in
              let message :=
                if can_hold_with_cast data_type et then
                  let message :=
                    message ++ nl ++ "Perhaps Cast or padding is required? " in
                  let message := message ++ nl ++ "- " ++ line src in
                  let message :=
                    message ++ nl ++ "+ " ++ sb_name a ++ "."
                    ++ sb_field_name a ++ " = Cast("
                    ++ e_tealish expression ++ ", "
                    ++ type_str data_type ++ ")" in
                  if negb (is_StructType data_type || is_IntType data_type)
                  then
                    message ++ nl ++ "+ " ++ sb_name a ++ "."
                    ++ sb_field_name a ++ " = Rpad("
                    ++ e_tealish expression ++ ", "
                    ++ str_size (size data_type) ++ ")"
                  else message
                else message in
              raise (CompileError message)
            else
              ret (StructOrBoxAssignment src
                     {| sb_name := sb_name a;
                        sb_field_name := sb_field_name a;
                        sb_expression := sb_expression a;
                        sb_var := Some var;
                        sb_offset := offset struct_field;
                        sb_size := field_size struct_field;
                        sb_data_type := Some data_type |})
        end
  end.

Definition BoxDeclaration_process (src : Src) (a : BoxAttrs) : M Node :=
  match get_struct (bx_struct_name a) with
  | None => raise (PythonError "KeyError")
  | Some struct =>
      var <- declare_scratch_var (bx_name a)
               ("box<" ++ bx_struct_name a ++ ">") ;;
      t <- process_expr (bx_key a) ;;
      if negb (can_hold (BytesType None) t) then
        raise (CompileError
                 ("Incorrect type for box key. Expected bytes, got "
                  ++ expr_type_str t))
      else
        ret (BoxDeclaration src
               {| bx_struct_name := bx_struct_name a; bx_name := bx_name a;
                  bx_method := bx_method a; bx_key := bx_key a;
                  bx_box_size :=
                    match size struct with Some n => n | None => 0 end;
                  bx_var := Some var |})
  end.

(** [Program.process]: the children, then the inner-transaction macro
    is turned on when it was not set and the program has an inner
    group, and, when it is on, the variable [inner_group_flag] is
    declared in the program's scope, one slot above [max_slot]. *)
Definition Program_process (src : Src) (child_nodes : list Node)
  (cs : processed) : M Node :=
  cs' <- process_children cs ;;
  (fun st =>
     let c := compiler st in
     let c :=
       match TealishCompiler.use_inner_txns_macro c with
       | None =>
           if has_child_node CInnerGroup
                (Program src Scope.root child_nodes)
           then with_macro (Some true) c else c
       | Some _ => c
       end in
     let st := {| compiler := c; scopes := scopes st;
                  error_messages := error_messages st |} in
     match TealishCompiler.use_inner_txns_macro c with
     | Some true =>
         match declare_scratch_var_at "inner_group_flag" IntType
                 (Some (TealishCompiler.max_slot c + 1)) st with
         | inl e => inl e
         | inr (_, st') =>
             inr (Program src (hd Scope.root (scopes st')) cs', st')
         end
     | _ => inr (Program src (hd Scope.root (scopes st)) cs', st)
     end).

(** [n.process()] *)
Fixpoint process (parent : Src) (n : Node) {struct n} : M Node :=
  let kids := fun s => map (fun c => (c, process s c)) in
  match n with
  | Program src _ cs => Program_process src cs (kids src cs)
  | Const src tealish_type name literal literal_type =>
      Const_process src tealish_type name literal literal_type
  | Exit src e => Exit_process src e
  | FunctionCallStatement src e => FunctionCallStatement_process src e
  | Assert src arg message => Assert_process src arg message
  | VarDeclaration src type_name name e _ =>
      VarDeclaration_process src type_name name e
  | Assignment src names e _ => Assignment_process src names e
  | Block src name label cs => Block_process src name label (kids src cs)
  | Switch src e cs => Switch_process src e cs
  | Route src name _ => Route_process parent src name
  | Router src cs => Router_process src (kids src cs)
  | InnerTxn src cs => InnerTxn_process src cs
  | InnerGroup src cs => InnerGroup_process src (kids src cs)
  | IfThen src label next_label cs =>
      IfThen_process src label next_label (kids src cs)
  | Elif src modifier condition label next_label cs =>
      Elif_process src modifier condition label next_label (kids src cs)
  | Else src label next_label cs =>
      Else_process src label next_label (kids src cs)
  | IfStatement src modifier condition idx next_label cs =>
      IfStatement_process src modifier condition idx next_label (kids src cs)
  | WhileStatement src modifier condition idx cs =>
      WhileStatement_process src modifier condition idx (kids src cs)
  | ForStatement src var_name start end_ idx _ cs =>
      ForStatement_process src var_name start end_ idx (kids src cs)
  | For_Statement src start end_ idx cs =>
      For_Statement_process src start end_ idx (kids src cs)
  | Func src attrs cs => Func_process src attrs (kids src cs)
  | Return src args es returns => Return_process src args es returns
  | DecoratedFunc src cs => DecoratedFunc_process src (kids src cs)
  | StructDefinition src name cs =>
      StructDefinition_process src name (kids src cs)
  | StructOrBoxAssignment src a => StructOrBoxAssignment_process src a
  | BoxDeclaration src a => BoxDeclaration_process src a
  (* these classes keep the [process] of the base node, which does
     nothing *)
  | TealVersion _ _ | Comment _ _ | Blank _ | Jump _ _ | SwitchOption _ _ _
  | SwitchElse _ _ | TealLine _ | Teal _ _ | InnerTxnFieldSetter _ _ _ _
  | Break _ _ | Decorator _ _ _ | StructFieldDefinition _ _ _ => ret n
  end.

End WithEnv.

End Process.

(** ** Control flow of emitted lines

    The reading of the branch opcodes the generator uses: [b L] continues
    at the line [L:], [bz L] and [bnz L] continue there or at the next
    line, [return], [retsub] and [err] end the run, and every other line
    continues at the next one. *)

Module Flow.

Local Open Scope string_scope.

(** The first word of the operand of a branch line. *)
Fixpoint first_word (s : string) : string :=
  match s with
  | EmptyString => EmptyString
  | String c s' =>
      if Ascii.eqb c " "%char then EmptyString else String c (first_word s')
  end.

Inductive kind :=
| Jump (target : string)          (* b L *)
| CondJump (target : string)      (* bz L, bnz L *)
| Stop                            (* return, retsub, err *)
| Next.

Definition kind_of (text : string) : kind :=
  if startswith text "b " then Jump (first_word (drop 2 text))
  else if startswith text "bz " then CondJump (first_word (drop 3 text))
  else if startswith text "bnz " then CondJump (first_word (drop 4 text))
  else if String.eqb (first_word text) "return" then Stop
  else if String.eqb (first_word text) "retsub" then Stop
  else if String.eqb (first_word text) "err" then Stop
  else Next.

(** The index of the line [L:]. *)
Fixpoint find_label (prog : list string) (l : string) (i : nat) : option nat :=
  match prog with
  | [] => None
  | t :: prog' =>
      if String.eqb t (l ++ ":") then Some i else find_label prog' l (S i)
  end.

Definition successors (prog : list string) (pc : nat) : list nat :=
  match nth_error prog pc with
  | None => []
  | Some text =>
      match kind_of text with
      | Jump l =>
          match find_label prog l 0 with Some j => [j] | None => [] end
      | CondJump l =>
          match find_label prog l 0 with
          | Some j => [S pc; j]
          | None => [S pc]
          end
      | Stop => []
      | Next => [S pc]
      end
  end.

Definition mem (n : nat) (l : list nat) : bool := existsb (Nat.eqb n) l.

(** The lines reached from the lines [todo], [seen] being reached
    already; every round visits a new line. *)
Fixpoint reach (fuel : nat) (prog : list string) (todo seen : list nat)
  : list nat :=
  match fuel with
  | 0 => seen
  | S fuel' =>
      match todo with
      | [] => seen
      | pc :: todo' =>
          if mem pc seen || negb (pc <? List.length prog)%nat
          then reach fuel' prog todo' seen
          else reach fuel' prog (successors prog pc ++ todo')%list (pc :: seen)
      end
  end.

(** The lines a run that enters at the first line can execute. *)
Definition reachable (prog : list string) : list nat :=
  reach (3 * S (List.length prog)) prog [0] [].

End Flow.

(** ** A stand-in for what lies outside the module

    The concrete runs below need an expression parser and a type
    registry; these are the simplest ones: a string of digits is an
    integer literal, any other non-empty text an expression of type
    [any] whose code is one line, and the registry knows [int], [bytes]
    and a struct [Item]. *)

Module Standin.

Local Open Scope string_scope.

Definition all_digits (s : string) : bool :=
  forallb Re.is_digit (list_ascii_of_string s).

Definition parse_expression (s : string) : option Expression :=
  match s with
  | EmptyString => None
  | _ =>
      if all_digits s then
        Some {| e_tealish := s; e_process := inr (One IntType);
                e_teal := ["pushint " ++ s] |}
      else
        Some {| e_tealish := s; e_process := inr (One AnyType);
                e_teal := ["// " ++ s] |}
  end.

Definition Item : TealishType :=
  StructType "Item" [("id", (0, 8, IntType)); ("name", (8, 10, BytesType (Some 10)))]
    18.

Definition get_type_instance (n : string) : option TealishType :=
  if String.eqb n "int" then Some IntType
  else if String.eqb n "uint8" then Some (UIntType 1)
  else if String.eqb n "bytes" then Some (BytesType None)
  else if String.eqb n "bytes[10]" then Some (BytesType (Some 10))
  else if String.eqb n "Item" then Some Item
  else if String.eqb n "box<Item>" then Some (BoxType Item)
  else None.

Definition get_struct (n : string) : option TealishType :=
  if String.eqb n "Item" then Some Item else None.

Definition literal_type (s : string) : ExprType :=
  if all_digits s then One IntType else One (BytesType None).

Fixpoint type_str (t : TealishType) : string :=
  match t with
  | IntType => "int"
  | UIntType n => "uint" ++ str_nat (8 * n)
  | BytesType None => "bytes"
  | BytesType (Some n) => "bytes[" ++ str_nat n ++ "]"
  | BigIntType _ => "bigint"
  | AddrType _ => "addr"
  | AnyType => "any"
  | StructType n _ _ => n
  | BoxType s => "box<" ++ type_str s ++ ">"
  end.

Definition expr_type_str (t : ExprType) : string :=
  match t with
  | One t => type_str t
  | Many ts => "[" ++ join ", " (map type_str ts) ++ "]"
  end.

(** Modelled from the spec: [can_hold] of section 3: reflexive, [any]
    on either side, an [int] holds every integer, a sized byte string
    holds the shorter ones. *)
Definition can_hold (t : TealishType) (e : ExprType) : bool :=
  match e with
  | Many _ => false
  | One s =>
      match t, s with
      | AnyType, _ | _, AnyType => true
      | IntType, (IntType | UIntType _) => true
      | UIntType n, UIntType m => (m <=? n)%nat
      | BytesType None, (BytesType _ | BigIntType _ | AddrType _) => true
      | BytesType (Some k), BytesType (Some j) => (j <=? k)%nat
      | StructType n _ _, StructType m _ _ => String.eqb n m
      | _, _ => false
      end
  end.

(** A cast changes the width of an integer or the length of a byte
    string, not the kind of the value. *)
Definition can_hold_with_cast (t : TealishType) (e : ExprType) : bool :=
  match e with
  | Many _ => false
  | One s =>
      (is_IntType t && is_IntType s)
      || ((is_BytesType t || is_StructType t)
          && (is_BytesType s || is_StructType s))
  end.

Definition build := Build.build parse_expression get_type_instance literal_type.

(** Modelled from the spec: the three passes of a compilation, in
    order, on one compiler: the build pass on the lines, [process] on
    the program in the root scope, [write_teal] on an empty writer;
    the result is the text of the lines written.  No block and no
    function is looked up by name here. *)
Definition compile (source_lines : list string) : Error + list string :=
  let fuel := S (S (List.length source_lines)) in
  match Build.Program_consume
          (Build.Statement_consume parse_expression get_type_instance
             literal_type fuel)
          fuel (Build.start source_lines) with
  | inl e => inl e
  | inr (program, c) =>
      match Process.process get_type_instance get_struct can_hold
              can_hold_with_cast type_str expr_type_str (fun _ _ => None)
              parse_expression (src_of program) program
              {| Process.compiler := c; Process.scopes := [Scope.root];
                 Process.error_messages := [] |} with
      | inl e => inl e
      | inr (program, st) =>
          match Gen.write_teal (fun _ _ => None) (fun _ _ => None) type_str
                  type_str program
                  {| Gen.compiler := Process.compiler st;
                     Gen.writer := TealWriter.empty |} with
          | None => inl (PythonError "AttributeError")
          | Some st' => inr (TealWriter.texts (Gen.writer st'))
          end
      end
  end.

End Standin.

(** * Properties *)

(** ** Strings *)

Module StrFacts.

Local Open Scope string_scope.

Lemma append_nil_r s : s ++ "" = s.
Proof. induction s; simpl; congruence. Qed.

Lemma append_assoc a b c : (a ++ b) ++ c = a ++ b ++ c.
Proof. induction a; simpl; congruence. Qed.

Lemma length_append a b : String.length (a ++ b) = String.length a + String.length b.
Proof. induction a; simpl; congruence. Qed.

Lemma take_append a b : take (String.length a) (a ++ b) = a.
Proof. induction a; simpl; [destruct b|]; congruence. Qed.

Lemma drop_append a b : drop (String.length a) (a ++ b) = b.
Proof. induction a; simpl; [destruct b|]; congruence. Qed.

Lemma take_prefix a b :
  take (String.length (a ++ b) - String.length b) (a ++ b) = a.
Proof.
  rewrite length_append. replace (String.length a + String.length b - String.length b)
    with (String.length a) by lia. apply take_append.
Qed.

Lemma append_inv_head a b c : a ++ b = a ++ c -> b = c.
Proof. induction a; simpl; intros H; [assumption|]. inversion H. auto. Qed.

End StrFacts.

(** ** The matcher is sound

    What a pattern matches is in its language, and what a named group
    holds is in the language of the group. *)

Module ReFacts.
Import Re StrFacts.

Local Open Scope string_scope.

Inductive lang : re -> string -> Prop :=
| L_Eps : lang Eps ""
| L_Chr c : lang (Chr c) (String c "")
| L_Cls p c : p c = true -> lang (Cls p) (String c "")
| L_Seq a b u v : lang a u -> lang b v -> lang (Seq a b) (u ++ v)
| L_Alt_l a b u : lang a u -> lang (Alt a b) u
| L_Alt_r a b u : lang b u -> lang (Alt a b) u
| L_Star_nil greedy a : lang (Star greedy a) ""
| L_Star_app greedy a u v :
    lang a u -> lang (Star greedy a) v -> lang (Star greedy a) (u ++ v)
| L_Grp name a u : lang a u -> lang (Grp name a) u
| L_Eos : lang Eos "".

(** [captured r name v]: [r] has a group [name] whose language has [v]. *)
Fixpoint captured (r : re) (name v : string) : Prop :=
  match r with
  | Seq a b | Alt a b => captured a name v \/ captured b name v
  | Star _ a => captured a name v
  | Grp n a => (n = name /\ lang a v) \/ captured a name v
  | _ => False
  end.

Definition all_captured (r : re) (added : groups) : Prop :=
  Forall (fun nv => captured r (fst nv) (snd nv)) added.

(** [sound r] : a successful run of [r] consumed a word of its language
    and called its continuation with the groups it added. *)
Definition sound_step {R}
  (step : string -> groups -> (string -> groups -> option R) -> option R)
  (r : re) : Prop :=
  forall s g k res,
    step s g k = Some res ->
    exists pre s' added,
      s = pre ++ s' /\ lang r pre /\ all_captured r added
      /\ k s' (added ++ g)%list = Some res.

Lemma star_loop_sound {R} greedy a :
  sound_step (R := R) (run a) a ->
  forall fuel s g (k : string -> groups -> option R) res,
    star_loop greedy (run a) k fuel s g = Some res ->
    exists pre s' added,
      s = pre ++ s' /\ lang (Star greedy a) pre
      /\ all_captured (Star greedy a) added
      /\ k s' (added ++ g)%list = Some res.
Proof.
  intros Ha. induction fuel as [|fuel IH]; intros s g k res H.
  - exists "", s, []. simpl in *. repeat split; auto using L_Star_nil.
    constructor.
  - cbn [star_loop] in H.
    assert (Hnil : k s g = Some res ->
                   exists pre s' added,
                     s = pre ++ s' /\ lang (Star greedy a) pre
                     /\ all_captured (Star greedy a) added
                     /\ k s' (added ++ g)%list = Some res).
    { intros Hk. exists "", s, []. repeat split; auto using L_Star_nil.
      constructor. }
    assert (Hmore :
              run a s g
                (fun s' g' =>
                   if (String.length s' <? String.length s)%nat
                   then star_loop greedy (run a) k fuel s' g' else None)
              = Some res ->
              exists pre s' added,
                s = pre ++ s' /\ lang (Star greedy a) pre
                /\ all_captured (Star greedy a) added
                /\ k s' (added ++ g)%list = Some res).
    { intros Hm. apply Ha in Hm as (u & s1 & add1 & -> & Hu & Hc1 & Hm).
      destruct (String.length s1 <? String.length (u ++ s1))%nat;
        [|discriminate].
      apply IH in Hm as (v & s2 & add2 & -> & Hv & Hc2 & Hm).
      exists (u ++ v), s2, (add2 ++ add1)%list.
      rewrite append_assoc, <- app_assoc.
      repeat split; auto using L_Star_app.
      apply Forall_app. split; assumption. }
    destruct greedy.
    + destruct (run a s g _) eqn:E; [inversion H; subst; auto | auto].
    + destruct (k s g) eqn:E; [inversion H; subst; auto | auto].
Qed.

Lemma captured_weaken_l a b added :
  all_captured a added -> all_captured (Seq a b) added.
Proof. apply Forall_impl. intros [n v]; simpl; auto. Qed.

Lemma captured_weaken_r a b added :
  all_captured b added -> all_captured (Seq a b) added.
Proof. apply Forall_impl. intros [n v]; simpl; auto. Qed.

Theorem run_sound {R} (r : re) : sound_step (R := R) (run r) r.
Proof.
  induction r as [| c | p | a IHa b IHb | a IHa b IHb | greedy a IHa
                  | name a IHa |]; intros s g k res H; cbn [run] in H.
  - exists "", s, []. repeat split; auto using L_Eps. constructor.
  - destruct s as [|x s]; [discriminate|].
    destruct (Ascii.eqb x c) eqn:E; [|discriminate].
    apply Ascii.eqb_eq in E; subst x.
    exists (String c ""), s, []. repeat split; auto using L_Chr. constructor.
  - destruct s as [|x s]; [discriminate|].
    destruct (p x) eqn:E; [|discriminate].
    exists (String x ""), s, []. repeat split; auto using L_Cls. constructor.
  - apply IHa in H as (u & s1 & add1 & -> & Hu & Hc1 & H).
    apply IHb in H as (v & s2 & add2 & -> & Hv & Hc2 & H).
    exists (u ++ v), s2, (add2 ++ add1)%list.
    rewrite append_assoc, <- app_assoc. repeat split; auto using L_Seq.
    apply Forall_app.
    split; [now apply captured_weaken_r | now apply captured_weaken_l].
  - destruct (run a s g k) eqn:E.
    + inversion H; subst. apply IHa in E as (u & s1 & add & -> & Hu & Hc & E).
      exists u, s1, add. repeat split; auto using L_Alt_l.
      eapply Forall_impl; [|exact Hc]. intros [n v]; simpl; auto.
    + apply IHb in H as (u & s1 & add & -> & Hu & Hc & H).
      exists u, s1, add. repeat split; auto using L_Alt_r.
      eapply Forall_impl; [|exact Hc]. intros [n v]; simpl; auto.
  - eapply star_loop_sound; eauto.
  - apply IHa in H as (u & s1 & add & -> & Hu & Hc & H).
    rewrite take_prefix in H.
    exists u, s1, ((name, u) :: add). repeat split; auto using L_Grp.
    constructor; [simpl; auto|].
    eapply Forall_impl; [|exact Hc]. intros [n v]; simpl; auto.
  - exists "", s, []. simpl.
    assert (k s g = Some res).
    { destruct s as [|x [|y s]]; try discriminate; auto.
      destruct (Ascii.eqb x "010"%char); [auto | discriminate]. }
    repeat split; auto using L_Eos. constructor.
Qed.

Lemma get_app_captured r added name v :
  all_captured r added -> get name (added ++ [])%list = Some v ->
  captured r name v.
Proof.
  rewrite app_nil_r. induction 1 as [|[n w] added Hx _ IH]; simpl;
    [discriminate|].
  destruct (String.eqb n name) eqn:E.
  - apply String.eqb_eq in E. subst n. intros H. inversion H; subst. exact Hx.
  - exact IH.
Qed.

(** What [re.match] returns: the line starts with a word of the
    pattern, and every group holds a word of its own pattern. *)
Corollary re_match_sound r line g :
  re_match r line = Some g ->
  (exists pre rest, line = pre ++ rest /\ lang r pre)
  /\ forall name v, get name g = Some v -> captured r name v.
Proof.
  unfold re_match. intros H.
  apply run_sound in H as (pre & rest & added & -> & Hl & Hc & H).
  inversion H; subst g. split; [eauto|].
  intros name v Hg. eapply get_app_captured; eauto.
Qed.

(** *** Inversion of the language of a pattern *)

Lemma lang_Eps u : lang Eps u -> u = "".
Proof. now inversion 1. Qed.

Lemma lang_Chr c u : lang (Chr c) u -> u = String c "".
Proof. now inversion 1. Qed.

Lemma lang_Cls p u : lang (Cls p) u -> exists c, u = String c "" /\ p c = true.
Proof. inversion 1; eauto. Qed.

Lemma lang_Seq a b w :
  lang (Seq a b) w -> exists u v, w = u ++ v /\ lang a u /\ lang b v.
Proof. inversion 1; eauto. Qed.

Lemma lang_Alt a b w : lang (Alt a b) w -> lang a w \/ lang b w.
Proof. inversion 1; auto. Qed.

Lemma lang_Grp name a w : lang (Grp name a) w -> lang a w.
Proof. now inversion 1. Qed.

Lemma lang_Eos w : lang Eos w -> w = "".
Proof. now inversion 1. Qed.

Lemma lang_opt a w : lang (opt a) w -> lang a w \/ w = "".
Proof.
  intros H. apply lang_Alt in H as [H|H]; [auto|]. apply lang_Eps in H. auto.
Qed.

Lemma lang_lit s : forall u, lang (lit s) u -> u = s.
Proof.
  induction s as [|c s IH]; intros u H; simpl in H.
  - now apply lang_Eps.
  - destruct s as [|c' s].
    + now apply lang_Chr.
    + apply lang_Seq in H as (a & b & -> & Ha & Hb).
      apply lang_Chr in Ha. apply IH in Hb. now subst.
Qed.

(** Every character of a string satisfies [p]. *)
Fixpoint all (p : ascii -> bool) (s : string) : bool :=
  match s with
  | EmptyString => true
  | String c s' => p c && all p s'
  end.

Lemma all_append p a b : all p (a ++ b) = all p a && all p b.
Proof. induction a; simpl; [reflexivity|]. now rewrite IHa, andb_assoc. Qed.

Lemma lang_star_Cls greedy p w : lang (Star greedy (Cls p)) w -> all p w = true.
Proof.
  intros H. remember (Star greedy (Cls p)) as r eqn:E.
  induction H; try discriminate; [reflexivity|].
  inversion E; subst. apply lang_Cls in H as (c & -> & Hc).
  simpl. rewrite Hc. auto.
Qed.

Lemma lang_plus_Cls p w :
  lang (plus (Cls p)) w -> all p w = true /\ w <> "".
Proof.
  intros H. apply lang_Seq in H as (u & v & -> & Hu & Hv).
  apply lang_Cls in Hu as (c & -> & Hc). apply lang_star_Cls in Hv.
  simpl. rewrite Hc, Hv. split; [reflexivity | discriminate].
Qed.

(** *** Repetitions of a character class *)

Lemma all_weaken (p q : ascii -> bool) s :
  (forall c, p c = true -> q c = true) -> all p s = true -> all q s = true.
Proof.
  intros Hpq. induction s as [|c s IH]; simpl; [reflexivity|].
  intros H. apply andb_prop in H as [Hc H]. now rewrite (Hpq _ Hc), IH.
Qed.

Definition is_word (c : ascii) : bool :=
  is_lower c || is_upper c || is_digit c || is_underscore c.

Definition not_newline (c : ascii) : bool := negb (Ascii.eqb c "010"%char).

Lemma word_is_plain c :
  is_word c = true ->
  Ascii.eqb c "["%char = false /\ Ascii.eqb c ":"%char = false
  /\ Ascii.eqb c "]"%char = false /\ not_newline c = true.
Proof.
  destruct c as [[] [] [] [] [] [] [] []]; vm_compute; intros H;
    try discriminate; auto.
Qed.

Lemma digit_is_word c : is_digit c = true -> is_word c = true.
Proof.
  unfold is_word. intros ->. now rewrite orb_true_r.
Qed.

(** The rounds of a lazy repetition of a character class: the
    continuation is tried first, then one more character is taken. *)
Lemma lazy_loop_step {R} p (k : string -> groups -> option R) fuel s g :
  String.length s <= fuel ->
  star_loop false (run (Cls p)) k fuel s g =
    match k s g with
    | Some res => Some res
    | None =>
        match s with
        | String c s' =>
            if p c then star_loop false (run (Cls p)) k (fuel - 1) s' g else None
        | EmptyString => None
        end
    end.
Proof.
  intros Hf. destruct fuel as [|fuel].
  - destruct s; [|simpl in Hf; lia]. simpl. destruct (k "" g); reflexivity.
  - cbn [star_loop run]. destruct (k s g); [reflexivity|].
    destruct s as [|c s]; [reflexivity|].
    destruct (p c); [|reflexivity].
    replace (String.length s <? String.length (String c s))%nat with true
      by (symmetry; apply Nat.ltb_lt; simpl; lia).
    replace (S fuel - 1) with fuel by lia. reflexivity.
Qed.

(** A lazy repetition stops at the first place where the continuation
    succeeds. *)
Lemma lazy_loop_first {R} p (k : string -> groups -> option R) g res :
  forall pre rest fuel,
    String.length (pre ++ rest) <= fuel ->
    all p pre = true ->
    (forall a c b, pre = a ++ String c b -> k (String c b ++ rest) g = None) ->
    k rest g = Some res ->
    star_loop false (run (Cls p)) k fuel (pre ++ rest) g = Some res.
Proof.
  induction pre as [|c pre IH]; intros rest fuel Hf Hall Hfail Hk.
  - cbn [append] in *. rewrite lazy_loop_step by assumption. now rewrite Hk.
  - simpl in Hall. apply andb_prop in Hall as [Hc Hall].
    rewrite lazy_loop_step by assumption.
    rewrite (Hfail "" c pre eq_refl). cbn [append]. rewrite Hc.
    apply IH; auto.
    + simpl in Hf. lia.
    + intros a c' b E. apply (Hfail (String c a) c' b). simpl. now rewrite E.
Qed.

(** A greedy repetition of a character class takes every character of
    a string of the class. *)
Lemma greedy_loop_all {R} p (k : string -> groups -> option R) g res :
  forall s fuel,
    String.length s <= fuel -> all p s = true -> k "" g = Some res ->
    star_loop true (run (Cls p)) k fuel s g = Some res.
Proof.
  induction s as [|c s IH]; intros fuel Hf Hall Hk.
  - destruct fuel; simpl; now rewrite ?Hk.
  - simpl in Hall. apply andb_prop in Hall as [Hc Hall].
    destruct fuel as [|fuel]; [simpl in Hf; lia|].
    cbn [star_loop run]. rewrite Hc.
    replace (String.length s <? String.length (String c s))%nat with true
      by (symmetry; apply Nat.ltb_lt; simpl; lia).
    rewrite IH; auto. simpl in Hf. lia.
Qed.


(** The equations of [run]. *)
Lemma run_Seq {R} a b s g (k : string -> groups -> option R) :
  run (Seq a b) s g k = run a s g (fun s' g' => run b s' g' k).
Proof. reflexivity. Qed.


Lemma run_Grp {R} n a s g (k : string -> groups -> option R) :
  run (Grp n a) s g k =
    run a s g
      (fun s' g' => k s' ((n, take (String.length s - String.length s') s) :: g')).
Proof. reflexivity. Qed.


End ReFacts.

(** ** [split_return_args] *)

Module SplitReturnArgsFacts.
Import SplitReturnArgs.

Lemma split_at_separators_cons st s :
  exists p ps, split_at_separators st s = p :: ps.
Proof.
  destruct s as [|c s]; simpl; [eauto|].
  destruct (separates _ _); [eauto|].
  destruct (split_at_separators _ s); eauto.
Qed.

Lemma split_at_separators_step st c s :
  split_at_separators st (String c s) =
    if separates (advance st c) c
    then EmptyString :: split_at_separators (advance st c) s
    else match split_at_separators (advance st c) s with
         | p :: ps => String c p :: ps
         | [] => [String c EmptyString]
         end.
Proof. reflexivity. Qed.

Lemma is_space_plain c :
  is_space c = true ->
  Ascii.eqb c dquote = false /\ Ascii.eqb c "("%char = false
  /\ Ascii.eqb c ")"%char = false /\ Ascii.eqb c ","%char = false.
Proof.
  intros H. repeat split; apply Ascii.eqb_neq; intros ->; discriminate H.
Qed.

Lemma advance_space st c : is_space c = true -> advance st c = st.
Proof.
  intros H. apply is_space_plain in H as (Hq & Ho & Hc & _).
  destruct st as [d q]. unfold advance; simpl. rewrite Hq, Ho, Hc.
  rewrite xorb_false_r. destruct q; f_equal; lia.
Qed.

Lemma separates_space st c : is_space c = true -> separates st c = false.
Proof.
  intros H. apply is_space_plain in H as (_ & _ & _ & Hc).
  unfold separates. now rewrite Hc.
Qed.

(** The loop variables of [scan] are the position reached in the string. *)
Lemma scan_step c rest i p q :
  scan (String c rest) i p q =
    let st := advance {| depth := p; in_quotes := q |} c in
    if separates st c then Some i
    else scan rest (S i) (depth st) (in_quotes st).
Proof.
  simpl. unfold advance, separates; simpl.
  destruct (Ascii.eqb c dquote) eqn:Hq, (Ascii.eqb c "("%char) eqn:Ho,
    (Ascii.eqb c ")"%char) eqn:Hc, (Ascii.eqb c ","%char) eqn:Hs, q; simpl;
    rewrite ?Z.add_0_r, ?Z.sub_0_r, ?andb_false_r, ?andb_true_r;
    try reflexivity;
    repeat match goal with
           | H : Ascii.eqb c _ = true |- _ => apply Ascii.eqb_eq in H; subst c
           end; try discriminate.
Qed.

Lemma scan_none rest : forall i st,
  scan rest i (depth st) (in_quotes st) = None ->
  split_at_separators st rest = [rest].
Proof.
  induction rest as [|c rest IH]; intros i [d q] H; [reflexivity|].
  simpl depth in H; simpl in_quotes in H.
  rewrite scan_step in H. cbn zeta in H.
  cbn [split_at_separators].
  destruct (separates _ c); [discriminate|].
  apply IH in H. rewrite H. reflexivity.
Qed.

Lemma separates_start st c : separates st c = true -> st = start.
Proof.
  destruct st as [d q]. unfold separates; simpl.
  intros H. apply andb_prop in H as [H Hd]. apply andb_prop in H as [_ Hq].
  apply Z.eqb_eq in Hd. destruct q; [discriminate|]. now subst.
Qed.

Lemma scan_some rest : forall i st j,
  scan rest i (depth st) (in_quotes st) = Some j ->
  split_at_separators st rest =
    take (j - i) rest :: split_at_separators start (drop (j - i + 1) rest).
Proof.
  induction rest as [|c rest IH]; intros i [d q] j H; [discriminate|].
  simpl depth in H; simpl in_quotes in H.
  pose proof (scan_bounds _ _ _ _ _ H) as Hb.
  rewrite scan_step in H. cbn zeta in H.
  cbn [split_at_separators].
  destruct (separates _ c) eqn:Hs.
  - inversion H; subst j. rewrite Nat.sub_diag. simpl.
    now rewrite (separates_start _ _ Hs).
  - pose proof (scan_bounds _ _ _ _ _ H) as Hb'.
    apply IH in H. rewrite H.
    replace (j - i) with (S (j - S i)) by lia. reflexivity.
Qed.

Lemma rstrip_cons c s :
  rstrip (String c s) =
    match rstrip s with
    | EmptyString => if is_space c then EmptyString else String c EmptyString
    | r => String c r
    end.
Proof. reflexivity. Qed.

Lemma lstrip_rstrip s : rstrip (lstrip s) = lstrip (rstrip s).
Proof.
  induction s as [|c s IH]; [reflexivity|].
  rewrite rstrip_cons. cbn [lstrip].
  destruct (is_space c) eqn:Hc.
  - rewrite IH. destruct (rstrip s); [reflexivity|]. simpl. now rewrite Hc.
  - rewrite rstrip_cons. rewrite Hc.
    destruct (rstrip s); simpl; now rewrite Hc.
Qed.

Lemma lstrip_idem s : lstrip (lstrip s) = lstrip s.
Proof.
  induction s as [|c s IH]; [reflexivity|]. simpl.
  destruct (is_space c) eqn:Hc; [exact IH|]. simpl. now rewrite Hc.
Qed.

Lemma rstrip_idem s : rstrip (rstrip s) = rstrip s.
Proof.
  induction s as [|c s IH]; [reflexivity|].
  rewrite rstrip_cons.
  destruct (rstrip s) as [|c' r] eqn:Hr.
  - destruct (is_space c) eqn:Hc; [reflexivity|]. simpl. now rewrite Hc.
  - rewrite rstrip_cons, IH. reflexivity.
Qed.

Lemma strip_idem s : strip (strip s) = strip s.
Proof.
  unfold strip. rewrite <- (lstrip_rstrip (lstrip s)).
  now rewrite lstrip_idem, rstrip_idem.
Qed.

Lemma split_lstrip s :
  map lstrip (split_at_separators start (lstrip s))
  = map lstrip (split_at_separators start s).
Proof.
  induction s as [|c s IH]; [reflexivity|].
  cbn [lstrip]. destruct (is_space c) eqn:Hc; [|reflexivity].
  cbn [split_at_separators].
  rewrite advance_space, separates_space by assumption.
  rewrite IH.
  destruct (split_at_separators_cons start s) as (p & ps & ->).
  simpl. now rewrite Hc.
Qed.

Lemma split_rstrip s : forall st,
  map rstrip (split_at_separators st (rstrip s))
  = map rstrip (split_at_separators st s).
Proof.
  induction s as [|c s IH]; intros st; [reflexivity|].
  rewrite rstrip_cons.
  destruct (rstrip s) as [|c' r] eqn:Hr.
  - destruct (is_space c) eqn:Hc.
    + cbn [split_at_separators].
      rewrite advance_space, separates_space by assumption.
      specialize (IH st).
      destruct (split_at_separators_cons st s) as (p & ps & E).
      rewrite E in *. simpl in IH. inversion IH as [[Hp Hps]].
      simpl. rewrite <- Hp. now rewrite Hc, <- Hps.
    + cbn [split_at_separators].
      specialize (IH (advance st c)).
      destruct (separates (advance st c) c).
      * simpl in *. now rewrite <- IH.
      * destruct (split_at_separators_cons (advance st c) s) as (p & ps & E).
        rewrite E in *. simpl in IH. inversion IH as [[Hp Hps]].
        simpl. rewrite <- Hp. now rewrite Hc, <- Hps.
  - rewrite !(split_at_separators_step st c).
    specialize (IH (advance st c)).
    destruct (separates (advance st c) c).
    + cbn [map]. now rewrite IH.
    + destruct (split_at_separators_cons (advance st c) (String c' r))
        as (p1 & ps1 & E1).
      destruct (split_at_separators_cons (advance st c) s) as (p2 & ps2 & E2).
      rewrite E1, E2 in *. simpl in IH. inversion IH as [[Hp Hps]].
      cbn [map]. rewrite !rstrip_cons, Hp, Hps. reflexivity.
Qed.

Lemma map_strip_split_strip s :
  map strip (split_at_separators start (strip s))
  = map strip (split_at_separators start s).
Proof.
  assert (Hl : forall l, map strip l = map rstrip (map lstrip l)).
  { intros l. rewrite map_map. reflexivity. }
  assert (Hr : forall l, map strip l = map lstrip (map rstrip l)).
  { intros l. rewrite map_map. apply map_ext. intros a. apply lstrip_rstrip. }
  unfold strip at 2. rewrite Hr, split_rstrip, <- Hr.
  rewrite Hl, split_lstrip, <- Hl. reflexivity.
Qed.

(** The recursive calls on the stripped remainders find the separators
    of one pass over the whole string. *)
Lemma split_return_args_one_pass s :
  map strip (split_return_args s) = map strip (top_level_pieces s).
Proof.
  unfold top_level_pieces.
  funelim (split_return_args s).
  - rewrite (scan_some s 0 start i e).
    rewrite Nat.sub_0_r. cbn [map]. rewrite strip_idem, H.
    now rewrite map_strip_split_strip.
  - rewrite (scan_none s 0 start e). reflexivity.
Qed.

(** *** The loop and the string literals

    The variables of the loop say where the string is in terms of
    literals and nesting, as long as no double quote was escaped and no
    closing parenthesis stood where none was open. *)
Definition agree (st : position) (n : nesting) : Prop :=
  depth st = Z.of_nat (open_parentheses n)
  /\ in_quotes st = match quoting_at n with Outside => false | _ => true end.

Lemma agree_start : agree start outermost.
Proof. split; reflexivity. Qed.

Ltac which_character c :=
  repeat match goal with
         | |- context [Ascii.eqb c ?x] =>
             let E := fresh "E" in
             destruct (Ascii.eqb c x) eqn:E;
             [apply Ascii.eqb_eq in E; subst c; cbn [Ascii.eqb Bool.eqb]|]
         end.

Lemma agree_step st n c s :
  agree st n ->
  plain_from n (String c s) = true ->
  agree (advance st c) (enter n c)
  /\ separates (advance st c) c = at_top_level n c
  /\ plain_from (enter n c) s = true.
Proof.
  destruct st as [d q], n as [o l]. unfold agree.
  cbn [depth in_quotes open_parentheses quoting_at]. intros [Hd Hl] Hplain.
  cbn [plain_from quoting_at open_parentheses] in Hplain.
  apply andb_prop in Hplain as [Hhere Hplain].
  split; [|split; [|exact Hplain]]; clear Hplain; subst d q; revert Hhere;
    unfold advance, separates, enter, at_top_level, dquote, backslash;
    cbn [depth in_quotes open_parentheses quoting_at];
    destruct l; which_character c;
    cbn [xorb negb andb open_parentheses quoting_at];
    intros Hhere; try discriminate Hhere;
    try (split; [lia | reflexivity]); try reflexivity;
    destruct o; try discriminate Hhere; try (split; [lia | reflexivity]);
    reflexivity.
Qed.

Lemma split_at_top_level_agrees s : forall st n,
  agree st n -> plain_from n s = true ->
  split_at_separators st s = split_at_top_level n s.
Proof.
  induction s as [|c s IH]; intros st n Hagree Hplain; [reflexivity|].
  destruct (agree_step st n c s Hagree Hplain) as (Hnext & Hsep & Hrest).
  cbn [split_at_separators split_at_top_level].
  rewrite Hsep, (IH _ _ Hnext Hrest). reflexivity.
Qed.

(** C9, as far as it holds.  The results of [split_return_args],
    stripped as [Return.__init__] strips them, are the stripped pieces
    between the commas at which the signed count of parentheses is zero
    and the number of double quotes met is even.  On every string in
    which no double quote is escaped inside a literal and no closing
    parenthesis stands where none is open, these are the commas at
    nesting depth zero outside string literals: there a comma inside
    parentheses or inside a string literal separates nothing, and
    [f(a, b), "x,y"] has exactly two expressions. *)
Theorem split_return_args_top_level_commas :
  (forall s, map strip (split_return_args s) = map strip (top_level_pieces s))
  /\ (forall s, plain s = true ->
        map strip (split_return_args s) = map strip (return_expressions s))
  /\ split_return_args ("f(a, b), " ++ Q ++ "x,y" ++ Q)
     = ["f(a, b)"; (Q ++ "x,y" ++ Q)%string].
Proof.
  split; [exact split_return_args_one_pass|]. split; [|reflexivity].
  intros s Hplain. rewrite split_return_args_one_pass.
  unfold top_level_pieces, return_expressions.
  now rewrite (split_at_top_level_agrees s start outermost agree_start Hplain).
Qed.

(** [f(a, b), "x,y"]: one comma in parentheses, one in a literal. *)
Lemma split_return_args_top_level_commas_witness :
  map strip (split_return_args ("f(a, b), " ++ Q ++ "x,y" ++ Q))
  = map strip (return_expressions ("f(a, b), " ++ Q ++ "x,y" ++ Q))
  /\ return_expressions ("f(a, b), " ++ Q ++ "x,y" ++ Q)
     = ["f(a, b)"; (" " ++ Q ++ "x,y" ++ Q)%string].
Proof.
  split; [|reflexivity].
  apply (proj1 (proj2 split_return_args_top_level_commas)). reflexivity.
Defined.

(** C9, where it fails.  Take the literal written as a double quote,
    [a], a backslash, a double quote, a comma, [b] and a double quote:
    the pattern of [LiteralBytes] matches it as a whole, the comma in
    it follows an escaped double quote, and it is one return
    expression.  [split_return_args] cuts it at this comma in two.  In
    [a), (b, c] the second comma stands in parentheses, and
    [split_return_args] cuts there, where its count of parentheses is
    back at zero. *)
Theorem split_return_args_splits_inside_literal :
  let s := (Q ++ "a\" ++ Q ++ ",b" ++ Q)%string in
  Re.re_match Patterns.LiteralBytes s = Some [("value"%string, s)]
  /\ return_expressions s = [s]
  /\ split_return_args s = [(Q ++ "a\" ++ Q)%string; ("b" ++ Q)%string]
  /\ return_expressions "a), (b, c" = ["a)"%string; " (b, c"%string]
  /\ split_return_args "a), (b, c" = ["a), (b"%string; "c"%string].
Proof. repeat split; reflexivity. Qed.

End SplitReturnArgsFacts.

(** ** What an emitting action appends *)

Module GenFacts.
Import Gen.

Local Open Scope string_scope.

(** [emits w st l st']: run from [st], the action [w] succeeds, ends in
    [st'] and has appended the lines [l] (with their levels) to the
    writer's output. *)
Definition emits (w : W) (st : state) (l : list (nat * string)) (st' : state)
  : Prop :=
  w st = Some st'
  /\ TealWriter.output (writer st') = (TealWriter.output (writer st) ++ l)%list.

(** An action that can only append to the output. *)
Definition appends (w : W) : Prop :=
  forall st st', w st = Some st' -> exists l, emits w st l st'.

Lemma emits_texts w st l st' :
  emits w st l st' ->
  TealWriter.texts (writer st')
  = (TealWriter.texts (writer st) ++ map snd l)%list.
Proof.
  intros [_ H]. unfold TealWriter.texts. now rewrite H, map_app.
Qed.

Lemma emits_fun w st l1 l2 st1 st2 :
  emits w st l1 st1 -> emits w st l2 st2 -> l1 = l2 /\ st1 = st2.
Proof.
  intros [H1 E1] [H2 E2]. rewrite H1 in H2. inversion H2; subst st2.
  rewrite E1 in E2. apply app_inv_head in E2. auto.
Qed.

Lemma emits_skip st : emits skip st [] st.
Proof. split; [reflexivity | now rewrite app_nil_r]. Qed.

Lemma emits_write text st :
  exists st',
    emits (write text) st [(TealWriter.level (writer st), text)] st'
    /\ compiler st' = compiler st
    /\ TealWriter.level (writer st') = TealWriter.level (writer st).
Proof. eexists; repeat split. Qed.

Lemma fold_write_str texts : forall w,
  TealWriter.output (fold_left TealWriter.write_str texts w)
  = (TealWriter.output w
     ++ map (fun t => (TealWriter.level w, t)) texts)%list
  /\ TealWriter.level (fold_left TealWriter.write_str texts w)
     = TealWriter.level w.
Proof.
  induction texts as [|t texts IH]; intros w; simpl.
  - now rewrite app_nil_r.
  - destruct (IH (TealWriter.write_str w t)) as [E L]. rewrite E, L.
    simpl. now rewrite <- app_assoc.
Qed.

Lemma emits_write_expr e st :
  exists st',
    emits (write_expr e) st
      (map (fun t => (TealWriter.level (writer st), t)) (e_teal e)) st'
    /\ compiler st' = compiler st
    /\ TealWriter.level (writer st') = TealWriter.level (writer st).
Proof.
  eexists; repeat split; simpl;
    unfold TealWriter.write_expr, TealWriter.write_strs;
    apply fold_write_str.
Qed.

Lemma emits_andThen a b st l1 st1 l2 st2 :
  emits a st l1 st1 -> emits b st1 l2 st2 ->
  emits (andThen a b) st (l1 ++ l2) st2.
Proof.
  intros [Ha Ea] [Hb Eb]. split.
  - unfold andThen. now rewrite Ha.
  - now rewrite Eb, Ea, app_assoc.
Qed.

Lemma andThen_inv a b st st2 :
  andThen a b st = Some st2 -> exists st1, a st = Some st1 /\ b st1 = Some st2.
Proof.
  unfold andThen. destruct (a st) as [st1|]; [eauto | discriminate].
Qed.

Lemma appends_andThen a b : appends a -> appends b -> appends (andThen a b).
Proof.
  intros Ha Hb st st2 H. pose proof H as H0.
  apply andThen_inv in H as (st1 & H1 & H2).
  destruct (Ha _ _ H1) as [l1 E1], (Hb _ _ H2) as [l2 E2].
  exists (l1 ++ l2)%list. eapply emits_andThen; eauto.
Qed.

Lemma appends_skip : appends skip.
Proof. intros st st' H. inversion H; subst. exists []. apply emits_skip. Qed.

Lemma appends_raise : appends raise.
Proof. intros st st' H. discriminate. Qed.

Lemma appends_sequence l : Forall appends l -> appends (sequence l).
Proof.
  induction 1; simpl; [apply appends_skip | now apply appends_andThen].
Qed.

Lemma appends_on_writer f :
  (forall w, exists l, TealWriter.output (f w) = (TealWriter.output w ++ l)%list) ->
  appends (on_writer f).
Proof.
  intros Hf st st' H. inversion H; subst st'; clear H.
  destruct (Hf (writer st)) as [l E]. exists l. split; [reflexivity | exact E].
Qed.

Lemma appends_write text : appends (write text).
Proof. apply appends_on_writer. intros w. eexists. reflexivity. Qed.

Lemma appends_write_expr e : appends (write_expr e).
Proof.
  apply appends_on_writer. intros w. eexists.
  unfold TealWriter.write_expr, TealWriter.write_strs. apply fold_write_str.
Qed.

Lemma appends_write_one_line l : appends (write_list l).
Proof. apply appends_on_writer. intros w. eexists. reflexivity. Qed.

Lemma appends_write_expr_one_line e : appends (write_expr_one_line e).
Proof. apply appends_on_writer. intros w. eexists. reflexivity. Qed.

Lemma appends_level_up : appends level_up.
Proof.
  apply appends_on_writer. intros w. exists []. simpl. now rewrite app_nil_r.
Qed.

Lemma appends_level_down : appends level_down.
Proof.
  apply appends_on_writer. intros w. exists []. simpl. now rewrite app_nil_r.
Qed.

Lemma appends_set_macro b : appends (set_macro b).
Proof.
  intros st st' H. inversion H; subst st'; clear H. exists [].
  split; [reflexivity | simpl; now rewrite app_nil_r].
Qed.

Lemma appends_if_macro a b : appends a -> appends b -> appends (if_macro a b).
Proof.
  intros Ha Hb st st' H. unfold emits. pose proof H as H0.
  unfold if_macro in H.
  destruct (TealishCompiler.use_inner_txns_macro (compiler st)) as [[|]|].
  - destruct (Ha _ _ H) as [l [_ E]]. exists l. now split.
  - destruct (Hb _ _ H) as [l [_ E]]. exists l. now split.
  - destruct (Hb _ _ H) as [l [_ E]]. exists l. now split.
Qed.

Lemma appends_ext (a : W) (b : W) :
  (forall st, b st = a st) -> appends a -> appends b.
Proof.
  intros E Ha st st' H. rewrite E in H. destruct (Ha _ _ H) as [l [_ El]].
  exists l. split; [now rewrite E | exact El].
Qed.

Definition all_append (cs : written) : Prop :=
  Forall (fun nw => appends (snd nw)) cs.

Lemma appends_write_children cs : all_append cs -> appends (write_children cs).
Proof.
  intros H. apply appends_sequence. apply Forall_map.
  eapply Forall_impl; [|exact H]. auto.
Qed.

Lemma all_append_of_class c cs : all_append cs -> all_append (of_class c cs).
Proof.
  unfold all_append, of_class. rewrite !Forall_forall. intros H x Hx.
  apply filter_In in Hx as [Hx _]. auto.
Qed.

Lemma last_Some_In {A} (l : list A) x : last (map Some l) None = Some x -> In x l.
Proof.
  induction l as [|a l IH]; simpl; [discriminate|].
  destruct l as [|b l]; simpl in *.
  - intros H. inversion H. auto.
  - intros H. right. apply IH. exact H.
Qed.

Lemma appends_last cs x w :
  all_append cs -> last (map Some cs) None = Some (x, w) -> appends w.
Proof.
  intros H E. apply last_Some_In in E. unfold all_append in H.
  rewrite Forall_forall in H. apply (H _ E).
Qed.

Lemma Forall_map_intro {A B} (P : B -> Prop) (f : A -> B) l :
  (forall x, P (f x)) -> Forall P (map f l).
Proof. intros H. induction l; constructor; auto. Qed.

Lemma appends_Router_write_route lookup_func type_name src route :
  appends (Router_write_route lookup_func type_name src route).
Proof.
  unfold Router_write_route.
  repeat match goal with
    | |- appends skip => apply appends_skip
    | |- appends raise => apply appends_raise
    | |- appends (write _) => apply appends_write
    | |- appends (write_expr_one_line _) => apply appends_write_expr_one_line
    | |- appends level_up => apply appends_level_up
    | |- appends level_down => apply appends_level_down
    | |- appends (andThen _ _) => apply appends_andThen
    | |- appends (sequence _) => apply appends_sequence
    | |- Forall _ [] => constructor
    | |- Forall _ (_ :: _) => constructor
    | |- Forall _ (map _ _) => apply Forall_map_intro; intros ?; cbv beta
    | |- Forall _ (repeat _ _) =>
        apply Forall_forall; intros ? ?H; apply repeat_spec in H; subst
    | |- appends (let _ := _ in _) => progress cbv zeta
    | |- appends (match ?x with _ => _ end) => destruct x
    | |- appends (let (_, _) := ?x in _) => destruct x
    end.
Qed.

Ltac appends_step :=
  match goal with
  | |- appends skip => apply appends_skip
  | |- appends raise => apply appends_raise
  | |- appends (write _) => apply appends_write
  | |- appends (write_expr _) => apply appends_write_expr
  | |- appends (write_list _) => apply appends_write_one_line
  | |- appends (write_expr_one_line _) => apply appends_write_expr_one_line
  | |- appends level_up => apply appends_level_up
  | |- appends level_down => apply appends_level_down
  | |- appends (set_macro _) => apply appends_set_macro
  | |- appends (write_children _) => apply appends_write_children; assumption
  | |- appends (andThen _ _) => apply appends_andThen
  | |- appends (if_macro _ _) => apply appends_if_macro
  | |- appends (sequence _) => apply appends_sequence
  | |- Forall _ [] => constructor
  | |- Forall _ (_ :: _) => constructor
  | |- Forall _ (map _ _) => apply Forall_map_intro; intros ?; cbv beta
  | |- appends (Router_write_route _ _ _ _) => apply appends_Router_write_route
  | |- Forall _ (repeat _ _) =>
      apply Forall_forall; intros ? ?H; apply repeat_spec in H; subst
  | |- appends (let _ := _ in _) => progress cbv zeta
  | |- appends (match ?x with _ => _ end) => destruct x
  | |- appends (let (_, _) := ?x in _) => destruct x
  | H : appends ?w |- appends ?w => exact H
  end.

Ltac appends_auto := repeat appends_step.

Section WithScope.

Variable get_block : Src -> string -> option string.
Variable lookup_func : Src -> string -> option FuncAttrs.
Variable type_name : TealishType -> string.
Variable type_str : TealishType -> string.

Local Abbreviation write_teal := (write_teal get_block lookup_func type_name type_str).

Lemma appends_IfStatement src modifier condition idx next_label cs :
  all_append cs ->
  appends (IfStatement_write_teal src modifier condition idx next_label cs).
Proof.
  intros H. unfold IfStatement_write_teal.
  pose proof (all_append_of_class CIfThen _ H) as Hthen.
  pose proof (all_append_of_class CElif _ H) as Helif.
  pose proof (all_append_of_class CElse _ H) as Helse.
  apply appends_sequence.
  repeat match goal with |- Forall _ (_ :: _) => constructor end;
    try solve [appends_auto].
  - destruct (last (map Some (of_class CIfThen cs)) None) as [[n w]|] eqn:E;
      [exact (appends_last _ _ _ Hthen E) | apply appends_raise].
  - apply appends_sequence, Forall_map, Forall_forall.
    intros [i [n w]] Hin. apply in_combine_r in Hin.
    unfold all_append in Helif. rewrite Forall_forall in Helif.
    pose proof (Helif _ Hin) as Hw. simpl in Hw. appends_auto.
  - destruct (last (map Some (of_class CElse cs)) None) as [[n w]|] eqn:E;
      [|apply appends_skip].
    pose proof (appends_last _ _ _ Helse E). appends_auto.
Qed.

Lemma appends_DecoratedFunc cs :
  all_append cs -> appends (DecoratedFunc_write_teal cs).
Proof.
  intros H. unfold DecoratedFunc_write_teal.
  destruct (last (map Some (of_class CFunc cs)) None) as [[n w]|] eqn:E;
    [|apply appends_raise].
  eapply appends_last; [apply all_append_of_class|]; eauto.
Qed.

(** Every node's [write_teal] only appends to the writer's output. *)
Lemma write_teal_appends : forall n, appends (write_teal n).
Proof.
  fix IH 1. intros n.
  assert (kids : forall cs,
             all_append (map (fun c => (c, write_teal c)) cs)).
  { intros cs. induction cs as [|c cs IHcs]; constructor; auto.
    simpl. apply IH. }
  destruct n; cbn [Gen.write_teal];
    try pose proof (kids child_nodes);
    try match goal with
      | |- appends (IfStatement_write_teal _ _ _ _ _ _) =>
          now apply appends_IfStatement
      | |- appends (DecoratedFunc_write_teal _) =>
          now apply appends_DecoratedFunc
      end;
    unfold Program_write_teal, TealVersion_write_teal, Comment_write_teal,
      Blank_write_teal, Const_write_teal, Jump_write_teal, Exit_write_teal,
      FunctionCallStatement_write_teal, Assert_write_teal,
      VarDeclaration_write_teal, Assignment_write_teal, Block_write_teal,
      Switch_write_teal, Router_write_teal, TealLine_write_teal,
      Teal_write_teal, InnerTxnFieldSetter_write_teal, InnerTxn_write_teal,
      InnerGroup_write_teal, IfThen_write_teal, Elif_write_teal,
      Else_write_teal, Break_write_teal, WhileStatement_write_teal,
      ForStatement_write_teal, For_Statement_write_teal, Func_write_teal,
      Return_write_teal, Decorator_write_teal,
      StructOrBoxAssignment_write_teal, BoxDeclaration_write_teal;
    repeat appends_step.
Qed.

End WithScope.

(** *** The text of the emitted lines *)

Definition texts_of (st : state) : list string := TealWriter.texts (writer st).

Lemma write_texts t st st' :
  write t st = Some st' -> texts_of st' = (texts_of st ++ [t])%list.
Proof.
  intros H. inversion H; subst st'. unfold texts_of, TealWriter.texts. simpl.
  now rewrite map_app.
Qed.

Lemma write_expr_texts e st st' :
  write_expr e st = Some st' -> texts_of st' = (texts_of st ++ e_teal e)%list.
Proof.
  intros H. destruct (emits_write_expr e st) as (st1 & Hem & _).
  pose proof (emits_texts _ _ _ _ Hem) as E. destruct Hem as [H1 _].
  rewrite H in H1. inversion H1; subst st1. unfold texts_of. rewrite E.
  now rewrite map_map, map_id.
Qed.

Lemma write_list_texts l st st' :
  write_list l st = Some st' -> texts_of st' = (texts_of st ++ [join "; " l])%list.
Proof.
  intros H. inversion H; subst st'. unfold texts_of, TealWriter.texts. simpl.
  now rewrite map_app.
Qed.

Lemma write_expr_one_line_texts e st st' :
  write_expr_one_line e st = Some st' ->
  texts_of st' = (texts_of st ++ [join "; " (e_teal e)])%list.
Proof.
  intros H. inversion H; subst st'. unfold texts_of, TealWriter.texts. simpl.
  now rewrite map_app.
Qed.

Lemma level_up_texts st st' : level_up st = Some st' -> texts_of st' = texts_of st.
Proof. intros H. now inversion H. Qed.

Lemma level_down_texts st st' :
  level_down st = Some st' -> texts_of st' = texts_of st.
Proof. intros H. now inversion H. Qed.

Lemma set_macro_texts b st st' :
  set_macro b st = Some st' -> texts_of st' = texts_of st.
Proof. intros H. now inversion H. Qed.

Lemma skip_texts st st' : skip st = Some st' -> texts_of st' = texts_of st.
Proof. intros H. now inversion H. Qed.

Lemma appends_texts w st st' :
  appends w -> w st = Some st' ->
  exists l, texts_of st' = (texts_of st ++ l)%list.
Proof.
  intros Hw H. destruct (Hw _ _ H) as [l Hl]. exists (map snd l).
  exact (emits_texts _ _ _ _ Hl).
Qed.

(** Splitting a successful run of a sequence into the runs of its
    steps, and each step into the text it adds. *)
Ltac seq_inv H :=
  repeat
    match type of H with
    | sequence (_ :: _) _ = Some _ => cbn [sequence] in H
    | sequence [] _ = Some _ => apply skip_texts in H
    | andThen _ _ _ = Some _ =>
        let st := fresh "st" in
        let E := fresh "E" in
        apply andThen_inv in H as (st & E & H)
    end.

Ltac step_texts :=
  repeat
    match goal with
    | H : write _ _ = Some _ |- _ => apply write_texts in H
    | H : write_expr _ _ = Some _ |- _ => apply write_expr_texts in H
    | H : write_list _ _ = Some _ |- _ => apply write_list_texts in H
    | H : write_expr_one_line _ _ = Some _ |- _ =>
        apply write_expr_one_line_texts in H
    | H : level_up _ = Some _ |- _ => apply level_up_texts in H
    | H : level_down _ = Some _ |- _ => apply level_down_texts in H
    | H : set_macro _ _ = Some _ |- _ => apply set_macro_texts in H
    | H : skip _ = Some _ |- _ => apply skip_texts in H
    end.

Ltac chain_texts :=
  repeat
    match goal with
    | H : texts_of ?st = _ |- context [texts_of ?st] => rewrite H; clear H
    end;
  repeat rewrite <- app_assoc; cbn [app].

Section Layout.

Variable get_block : Src -> string -> option string.
Variable lookup_func : Src -> string -> option FuncAttrs.
Variable type_name : TealishType -> string.
Variable type_str : TealishType -> string.

Local Abbreviation write_teal :=
  (write_teal get_block lookup_func type_name type_str).

Lemma kids_append cs : all_append (map (fun c => (c, write_teal c)) cs).
Proof.
  induction cs; constructor; auto. apply write_teal_appends.
Qed.

(** The lines of an unnamed [for] loop: the [pop] stands between the
    back branch and the end label. *)
Lemma For_Statement_layout src start end_ idx cs st st' :
  write_teal (For_Statement src start end_ idx cs) st = Some st' ->
  exists body,
    texts_of st' =
      (texts_of st
       ++ [tl src] ++ e_teal start
       ++ ["dup"; (for_label idx ++ ":")%string] ++ e_teal end_
       ++ ["=="; ("bnz " ++ end_label idx)%string]
       ++ body
       ++ ["pushint 1"; "+"; "dup"; ("b " ++ for_label idx)%string; "pop";
           (end_label idx ++ ":")%string])%list.
Proof.
  cbn [Gen.write_teal]. unfold For_Statement_write_teal. intros H.
  seq_inv H.
  match goal with
  | H : write_children _ _ = Some _ |- _ =>
      apply (appends_texts _ _ _ (appends_write_children _ (kids_append cs)))
        in H as [body Hbody]
  end.
  step_texts. exists body. chain_texts. reflexivity.
Qed.

End Layout.

End GenFacts.

(** ** The unnamed [for] loop *)

Module For_StatementFacts.
Import Gen GenFacts.

Local Open Scope string_scope.

Definition int_literal (n : nat) : Expression :=
  {| e_tealish := str_nat n; e_process := inr (One (UIntType 8));
     e_teal := ["pushint " ++ str_nat n] |}.

(** [for _ in 0:3:] with the body [assert(1)]. *)
Definition loop : Node :=
  For_Statement {| line_no := 1; line := "for _ in 0:3:" |}
    (int_literal 0) (int_literal 3) 0
    [ Assert {| line_no := 2; line := "assert(1)" |} (int_literal 1) None ].

Definition start_state : state :=
  {| compiler :=
       {| TealishCompiler.source_lines := [];
          TealishCompiler.line_no := 0;
          TealishCompiler.conditional_count := 1;
          TealishCompiler.max_slot := 0;
          TealishCompiler.use_inner_txns_macro := None |};
     writer := TealWriter.empty |}.

Definition loop_teal : list string :=
  [ "// tl:1: for _ in 0:3:"; "pushint 0"; "dup"; "l0_for:"; "pushint 3";
    "=="; "bnz l0_end"; "// tl:2: assert(1)"; "pushint 1"; "assert";
    "pushint 1"; "+"; "dup"; "b l0_for"; "pop"; "l0_end:" ].

Lemma find_label_spec prog l : forall i j,
  Flow.find_label prog l i = Some j ->
  i <= j /\ nth_error prog (j - i) = Some (l ++ ":").
Proof.
  induction prog as [|t prog IH]; simpl; intros i j H; [discriminate|].
  destruct (String.eqb t (l ++ ":")) eqn:E.
  - inversion H; subst j. rewrite Nat.sub_diag. apply String.eqb_eq in E.
    subst t. split; [lia | reflexivity].
  - apply IH in H as [Hle Hn]. split; [lia|].
    replace (j - i) with (S (j - S i)) by lia. exact Hn.
Qed.

Lemma pop_is_no_label l : "pop" <> l ++ ":".
Proof.
  destruct l as [|a [|b [|c [|d l]]]]; simpl; discriminate.
Qed.

(** A [pop] that follows an unconditional branch is the successor of no
    line. *)
Lemma pop_after_branch_has_no_predecessor prog p target :
  nth_error prog p = Some ("b " ++ target) ->
  nth_error prog (S p) = Some "pop" ->
  forall pc, ~ In (S p) (Flow.successors prog pc).
Proof.
  intros Hb Hpop pc Hin. unfold Flow.successors in Hin.
  destruct (nth_error prog pc) as [text|] eqn:Hpc; [|contradiction].
  assert (Hlabel : forall l, Flow.find_label prog l 0 = Some (S p) -> False).
  { intros l H. apply find_label_spec in H as [_ H].
    rewrite Nat.sub_0_r, Hpop in H. inversion H as [E].
    exact (pop_is_no_label _ E). }
  assert (Hnext : S pc = S p -> Flow.kind_of text = Flow.Jump (Flow.first_word target)).
  { intros E. inversion E; subst pc. rewrite Hb in Hpc. inversion Hpc; subst text.
    reflexivity. }
  destruct (Flow.kind_of text) eqn:K.
  - destruct (Flow.find_label prog target0 0) eqn:F; [|contradiction].
    destruct Hin as [E|[]]. subst n. eauto.
  - destruct (Flow.find_label prog target0 0) eqn:F.
    + destruct Hin as [E|[E|[]]]; [apply Hnext in E; discriminate|].
      subst n. eauto.
    + destruct Hin as [E|[]]. apply Hnext in E; discriminate.
  - contradiction.
  - destruct Hin as [E|[]]. apply Hnext in E; discriminate.
Qed.

(** In the code of every unnamed [for] loop, whatever follows it in the
    program, the [pop] is the successor of no line. *)
Lemma For_Statement_pop_has_no_predecessor
  get_block lookup_func type_name type_str src start end_ idx cs st st' :
  write_teal get_block lookup_func type_name type_str
    (For_Statement src start end_ idx cs) st = Some st' ->
  forall rest pc,
    let prog := (texts_of st' ++ rest)%list in
    let p := List.length (texts_of st') - 2 in
    nth_error prog p = Some "pop" /\ ~ In p (Flow.successors prog pc).
Proof.
  intros H rest pc prog p.
  apply For_Statement_layout in H as [body H].
  set (pre := (texts_of st ++ [tl src] ++ e_teal start
               ++ ["dup"; (for_label idx ++ ":")%string] ++ e_teal end_
               ++ ["=="; ("bnz " ++ end_label idx)%string] ++ body
               ++ ["pushint 1"; "+"; "dup"])%list).
  assert (E : prog = (pre ++ [("b " ++ for_label idx)%string; "pop";
                              (end_label idx ++ ":")%string]
                      ++ rest)%list).
  { unfold prog, pre. rewrite H. repeat rewrite <- app_assoc. reflexivity. }
  assert (Hp : p = S (List.length pre)).
  { unfold p, pre. rewrite H. repeat rewrite length_app. simpl. lia. }
  assert (Hb : nth_error prog (List.length pre) = Some ("b " ++ for_label idx)).
  { rewrite E. rewrite nth_error_app2 by lia. now rewrite Nat.sub_diag. }
  assert (Hpop : nth_error prog (S (List.length pre)) = Some "pop").
  { rewrite E. rewrite nth_error_app2 by lia.
    replace (S (List.length pre) - List.length pre) with 1 by lia. reflexivity. }
  rewrite Hp. split; [exact Hpop|].
  eapply pop_after_branch_has_no_predecessor; eauto.
Qed.

(** C4. The code of [for _ in A:B:] keeps the counter on the stack with
    [dup], but the [pop] that should drop it at the loop exit is written
    after the unconditional back branch and before the end label: for
    [for _ in 0:3:] the exit branch [bnz l0_end] continues at the line
    [l0_end:], which is reached, and no run reaches the [pop]. *)
Theorem For_Statement_pop_is_never_executed :
  forall get_block lookup_func type_name type_str,
    option_map texts_of
      (write_teal get_block lookup_func type_name type_str loop start_state)
    = Some loop_teal
    /\ nth_error loop_teal 13 = Some "b l0_for"
    /\ nth_error loop_teal 14 = Some "pop"
    /\ nth_error loop_teal 15 = Some "l0_end:"
    /\ Flow.successors loop_teal 6 = [7; 15]
    /\ Flow.mem 15 (Flow.reachable loop_teal) = true
    /\ Flow.mem 14 (Flow.reachable loop_teal) = false.
Proof. intros. repeat split; vm_compute; reflexivity. Qed.

End For_StatementFacts.

(** ** The router *)

Module RouterFacts.
Import Gen GenFacts.

Local Open Scope string_scope.

(** The lines that encode the return values of a routed function: for
    the value at position [i], [uncover i] when [i > 0] (a comment line
    for the first, which is on top already) and [itob] when it is an
    integer; [concat] once less than there are values; the lines that
    put the tag [0x151f7c75] in front and log the result. *)
Definition uncover_lines (type_name : TealishType -> string)
  (ir : nat * TealishType) : list string :=
  (if (fst ir =? 0)%nat
   then ["// uncover 0 " ++ type_name (snd ir)]
   else ["uncover " ++ str_nat (fst ir) ++ " // " ++ type_name (snd ir)])
  +++ (if is_IntType (snd ir) then ["itob"] else []).

Definition return_lines (type_name : TealishType -> string)
  (returns : list TealishType) : list string :=
  ["// return " ++ join ", " (map type_name returns)]
  +++ flat_map (uncover_lines type_name)
        (combine (seq 0 (List.length returns)) returns)
  +++ repeat "concat" (List.length returns - 1)
  +++ ["pushbytes 0x151f7c75; swap; concat; log // arc4 return log"].

Lemma sequence_map_texts {A} (f : A -> W) (g : A -> list string) l :
  (forall x st st', f x st = Some st' ->
                    texts_of st' = (texts_of st ++ g x)%list) ->
  forall st st', sequence (map f l) st = Some st' ->
                 texts_of st' = (texts_of st ++ flat_map g l)%list.
Proof.
  intros Hf. induction l as [|x l IH]; simpl; intros st st' H.
  - apply skip_texts in H. now rewrite app_nil_r.
  - apply andThen_inv in H as (st1 & H1 & H2).
    apply Hf in H1. apply IH in H2. rewrite H2, H1.
    now rewrite <- app_assoc.
Qed.

Lemma sequence_repeat_texts t n : forall st st',
  sequence (repeat (write t) n) st = Some st' ->
  texts_of st' = (texts_of st ++ repeat t n)%list.
Proof.
  induction n as [|n IH]; simpl; intros st st' H.
  - apply skip_texts in H. now rewrite app_nil_r.
  - apply andThen_inv in H as (st1 & H1 & H2).
    apply write_texts in H1. apply IH in H2. rewrite H2, H1.
    now rewrite <- app_assoc.
Qed.

(** A step of a sequence runs between two states of the run, and the
    final text extends what the step leaves. *)
Lemma sequence_nth (l : list W) : Forall appends l ->
  forall i w st st',
    sequence l st = Some st' -> nth_error l i = Some w ->
    exists st1 st2 after,
      w st1 = Some st2 /\ texts_of st' = (texts_of st2 ++ after)%list.
Proof.
  induction 1 as [|a l Ha Hl IH]; intros i w st st' H Hn.
  - destruct i; discriminate.
  - simpl in H. apply andThen_inv in H as (st1 & H1 & H2).
    destruct i as [|i]; simpl in Hn.
    + inversion Hn; subst a.
      destruct (appends_texts _ _ _ (appends_sequence _ Hl) H2) as [after E].
      eauto.
    + eapply IH; eauto.
Qed.

Section WithScope.

Variable get_block : Src -> string -> option string.
Variable lookup_func : Src -> string -> option FuncAttrs.
Variable type_name : TealishType -> string.
Variable type_str : TealishType -> string.

(** The lines of one route, from its [callsub] on. *)
Lemma Router_write_route_layout src rsrc name args st st' :
  Router_write_route lookup_func type_name src (Route rsrc name args) st
  = Some st' ->
  exists func before,
    lookup_func src name = Some func
    /\ texts_of st' =
         before +++ ["callsub " ++ f_label func]
         +++ (if (List.length (f_returns func) =? 0)%nat then []
              else return_lines type_name (f_returns func))
         +++ ["pushint 1; return"].
Proof.
  unfold Router_write_route.
  destruct (lookup_func src name) as [func|]; [|discriminate].
  destruct (assoc "public" (f_attributes func)) as [public|]; [|discriminate].
  intros H. exists func. cbn [sequence] in H.
  apply andThen_inv in H as (s1 & Hlabel & H).
  apply andThen_inv in H as (s2 & Hup & H).
  apply andThen_inv in H as (s3 & Hoc & H).
  apply andThen_inv in H as (s4 & Hargs & H).
  apply andThen_inv in H as (s5 & Hcall & H).
  apply andThen_inv in H as (s6 & Hret & H).
  apply andThen_inv in H as (s7 & Hone & H).
  apply andThen_inv in H as (s8 & Hdown & H).
  apply (sequence_map_texts _ (fun e => [join "; " (e_teal e)])) in Hargs;
    [|intros; now apply write_expr_one_line_texts].
  assert (Hoc' : exists t, texts_of s3 = texts_of s2 +++ [t]).
  { destruct (String.eqb _ "CreateApplication").
    - step_texts. eauto.
    - destruct (assoc _ constants) as [[? ?]|]; [|discriminate].
      step_texts. eauto. }
  clear Hoc. destruct Hoc' as [toc Hoc].
  cbv zeta in Hret.
  destruct (List.length (f_returns func) =? 0)%nat eqn:Hlen.
  - step_texts.
    exists (texts_of st +++ ["route_" ++ name ++ ":"; toc]
            +++ flat_map (fun e => [join "; " (e_teal e)]) args).
    split; [reflexivity|]. chain_texts. reflexivity.
  - cbn [sequence] in Hret.
    apply andThen_inv in Hret as (r1 & Hcomment & Hret).
    apply andThen_inv in Hret as (r2 & Huncover & Hret).
    apply andThen_inv in Hret as (r3 & Hconcat & Hret).
    apply andThen_inv in Hret as (r4 & Hlog & Hret).
    apply sequence_repeat_texts in Hconcat.
    apply (sequence_map_texts _ (uncover_lines type_name)) in Huncover.
    + step_texts.
      exists (texts_of st +++ ["route_" ++ name ++ ":"; toc]
              +++ flat_map (fun e => [join "; " (e_teal e)]) args).
      split; [reflexivity|]. unfold return_lines. chain_texts.
      reflexivity.
    + intros [i r] sa sb Hs. unfold uncover_lines. cbn [fst snd].
      apply andThen_inv in Hs as (sc & Hs1 & Hs2).
      destruct i as [|i]; cbn [Nat.eqb Nat.ltb Nat.leb] in *;
        destruct (is_IntType r); step_texts; chain_texts; reflexivity.
Qed.

(** C5. For every route of a router whose function has one or more
    return values, the code of the router has, after the [callsub] to
    the function's label: for each value [uncover i] (for the values
    after the first) and [itob] (for the integers), [concat] once less
    than there are values, the line that puts the tag [0x151f7c75] in
    front of the bytes and logs them, and then [pushint 1; return]. *)
Theorem Router_return_encoding src routes st st' i rsrc name args func :
  write_teal get_block lookup_func type_name type_str (Router src routes) st
  = Some st' ->
  nth_error routes i = Some (Route rsrc name args) ->
  lookup_func src name = Some func ->
  f_returns func <> [] ->
  exists before after,
    texts_of st' =
      before +++ ["callsub " ++ f_label func]
      +++ return_lines type_name (f_returns func)
      +++ ["pushint 1; return"]
      +++ after.
Proof.
  cbn [Gen.write_teal]. unfold Router_write_teal.
  intros H Hi Hf Hr. cbn [sequence] in H.
  do 5 (apply andThen_inv in H as (? & _ & H)).
  apply andThen_inv in H as (s1 & H & H0).
  assert (Hall : Forall appends
                   (map (Router_write_route lookup_func type_name src) routes)).
  { apply Forall_map_intro. intros r. apply appends_Router_write_route. }
  destruct (sequence_nth _ Hall i _ _ _ H (map_nth_error _ _ _ Hi))
    as (sa & sb & after & Hrun & Hafter).
  apply Router_write_route_layout in Hrun as (func' & before & Hf' & Hrun).
  rewrite Hf in Hf'. inversion Hf'; subst func'.
  destruct (List.length (f_returns func) =? 0)%nat eqn:Hlen.
  { apply Nat.eqb_eq in Hlen. destruct (f_returns func); [congruence|].
    discriminate. }
  inversion H0; subst s1.
  exists before, after. rewrite Hafter, Hrun.
  repeat rewrite <- app_assoc. reflexivity.
Qed.

End WithScope.

(** A router with the route [foo]; [foo] is public and returns an
    integer, a byte string and a second integer. *)
Definition foo : FuncAttrs :=
  {| f_name := "foo"; f_args := [];
     f_returns := [IntType; BytesType None; UIntType 2];
     f_label := "__func__foo"; f_vars := [];
     f_attributes := [("public", [("OnCompletion", "NoOp")])] |}.

Definition router_src : Src := {| line_no := 3; line := "router:" |}.
Definition route_src : Src := {| line_no := 4; line := "foo" |}.

Definition router : Node := Router router_src [Route route_src "foo" []].

Definition lookup (_ : Src) (name : string) : option FuncAttrs :=
  if String.eqb name "foo" then Some foo else None.

Definition name_of_type (t : TealishType) : string :=
  match t with
  | IntType => "int"
  | UIntType n => "uint" ++ str_nat (8 * n)
  | BytesType _ => "bytes"
  | _ => "any"
  end.

Definition router_state : option state :=
  write_teal (fun _ _ => None) lookup name_of_type name_of_type router
    For_StatementFacts.start_state.

Example return_lines_foo :
  return_lines name_of_type (f_returns foo)
  = [ "// return int, bytes, uint16"; "// uncover 0 int"; "itob";
      "uncover 1 // bytes"; "uncover 2 // uint16"; "itob";
      "concat"; "concat";
      "pushbytes 0x151f7c75; swap; concat; log // arc4 return log" ].
Proof. vm_compute. reflexivity. Qed.

Example router_teal :
  option_map texts_of router_state
  = Some
      [ "// tl:3: router:"; "pushbytes " ++ Q ++ "foo" ++ Q;
        "txna ApplicationArgs 0"; "match route_foo"; "err // unexpected value";
        "route_foo:";
        "txn OnCompletion; pushint 0; ==; assert // assert OnCompletion == NoOp";
        "callsub __func__foo";
        "// return int, bytes, uint16"; "// uncover 0 int"; "itob";
        "uncover 1 // bytes"; "uncover 2 // uint16"; "itob";
        "concat"; "concat";
        "pushbytes 0x151f7c75; swap; concat; log // arc4 return log";
        "pushint 1; return" ].
Proof. vm_compute. reflexivity. Qed.

Lemma Router_return_encoding_witness :
  exists st',
    write_teal (fun _ _ => None) lookup name_of_type name_of_type
      (Router router_src [Route route_src "foo" []])
      For_StatementFacts.start_state = Some st'
    /\ exists before after, texts_of st' =
         before +++ ["callsub " ++ f_label foo]
         +++ return_lines name_of_type (f_returns foo)
         +++ ["pushint 1; return"]
         +++ after.
Proof.
  destruct (write_teal (fun _ _ => None) lookup name_of_type name_of_type
              (Router router_src [Route route_src "foo" []])
              For_StatementFacts.start_state) as [st'|] eqn:E;
    [|vm_compute in E; discriminate].
  exists st'. split; [reflexivity|].
  apply (Router_return_encoding _ _ _ _ _ _ _ _ 0 route_src "foo" [] foo E);
    [reflexivity | reflexivity | discriminate].
Defined.

End RouterFacts.

(** ** Box declarations *)

Module BoxDeclarationFacts.
Import Re ReFacts StrFacts Gen GenFacts.

Local Open Scope string_scope.

(** Whatever the line, the method of a box declaration that matched is
    [Open] or [Create]. *)
Lemma BoxDeclaration_never_OpenOrCreate line g :
  re_match Patterns.BoxDeclaration line = Some g ->
  get "method" g <> Some "OpenOrCreate".
Proof.
  intros H Hm. apply re_match_sound in H as [_ H]. apply H in Hm.
  simpl in Hm.
  repeat match goal with
         | H : _ \/ _ |- _ => destruct H as [H|H]
         | H : _ /\ _ |- _ => destruct H as [? H]
         | H : False |- _ => contradiction
         end; try discriminate.
  match goal with
  | H : lang (Alt _ _) _ |- _ =>
      apply lang_Alt in H as [H|H];
      [apply (lang_lit "Open") in H | apply (lang_lit "Create") in H];
      discriminate
  end.
Qed.

Lemma BoxDeclaration_method line g m :
  re_match Patterns.BoxDeclaration line = Some g ->
  get "method" g = Some m -> m = "Open" \/ m = "Create".
Proof.
  intros H Hm. apply re_match_sound in H as [_ H]. apply H in Hm.
  simpl in Hm.
  repeat match goal with
         | H : _ \/ _ |- _ => destruct H as [H|H]
         | H : _ /\ _ |- _ => destruct H as [? H]
         | H : False |- _ => contradiction
         end; try discriminate.
  match goal with
  | H : lang (Alt _ _) m |- _ =>
      apply lang_Alt in H as [H|H];
      [left; exact (lang_lit "Open" _ H) | right; exact (lang_lit "Create" _ H)]
  end.
Qed.

Definition open_or_create : string :=
  "box<Item> item1 = OpenOrCreateBox(" ++ Q ++ "a" ++ Q ++ ")".

Definition declaration (method : option string) : Node :=
  BoxDeclaration {| line_no := 1; line := "box<Item> item1 = ..." |}
    {| bx_struct_name := "Item"; bx_name := "item1"; bx_method := method;
       bx_key := {| e_tealish := "a"; e_process := inr (One (BytesType (Some 1)));
                    e_teal := ["pushbytes a"] |};
       bx_box_size := 18;
       bx_var := Some {| Builtins.name := "item1";
                         Builtins.tealish_type := BoxType Standin.Item;
                         scratch_slot := 0 |} |}.

(** C8. The pattern of [BoxDeclaration] has the methods [Open] and
    [Create] only: the line [box<Item> item1 = OpenOrCreateBox("a")]
    does not match it and the build pass stops with a parse error,
    while the same line with [OpenBox], [CreateBox] or [Box] is built.
    The branch of [write_teal] for [OpenOrCreate], which emits
    [box_create] and [pop], is there, but no built node reaches it. *)
Theorem BoxDeclaration_rejects_OpenOrCreate :
  re_match Patterns.BoxDeclaration open_or_create = None
  /\ Standin.build [open_or_create]
     = inl (ParseError ("Pattern does not match for line "
                        ++ Q ++ open_or_create ++ Q))
  /\ (exists n,
        Standin.build ["box<Item> item1 = OpenBox(" ++ Q ++ "a" ++ Q ++ ")"]
        = inr n)
  /\ (exists n,
        Standin.build ["box<Item> item1 = CreateBox(" ++ Q ++ "a" ++ Q ++ ")"]
        = inr n)
  /\ (exists n,
        Standin.build ["box<Item> item1 = Box(" ++ Q ++ "a" ++ Q ++ ")"]
        = inr n)
  /\ (forall get_block lookup_func type_name type_str,
        option_map texts_of
          (write_teal get_block lookup_func type_name type_str
             (declaration (Some "OpenOrCreate"))
             For_StatementFacts.start_state)
        = Some [ "// tl:1: box<Item> item1 = ... [slot 0]"; "pushbytes a";
                 "dup; pushint 18; box_create; pop // create if didn't already exist";
                 "store 0 // box:item1" ]).
Proof.
  split; [vm_compute; reflexivity|].
  split; [vm_compute; reflexivity|].
  split; [eexists; vm_compute; reflexivity|].
  split; [eexists; vm_compute; reflexivity|].
  split; [eexists; vm_compute; reflexivity|].
  intros. vm_compute. reflexivity.
Qed.

End BoxDeclarationFacts.

(** ** Field setters of inner transactions *)

Module InnerTxnFacts.
Import Re ReFacts StrFacts Gen GenFacts.

Local Open Scope string_scope.

(** What follows the field name in the pattern of a setter: the index
    in brackets, if any, the colon and the expression. *)
Definition bracket : re :=
  Re.seq [Patterns.chr "["; Grp "index" (Seq d (opt d)); Patterns.chr "]"].

Definition setter_tail : re :=
  Seq (lit ": ") (Grp "expression" (star dot)).

Definition after_field_name : re := Seq (opt bracket) setter_tail.

Lemma InnerTxnFieldSetter_pattern :
  Patterns.InnerTxnFieldSetter = Seq (Grp "field_name" (lazy dot)) after_field_name.
Proof. reflexivity. Qed.

Lemma after_field_name_word {R} c s g (k : string -> groups -> option R) :
  is_word c = true \/ c = "]"%char ->
  run after_field_name (String c s) g k = None.
Proof.
  intros H.
  assert (E : Ascii.eqb c "["%char = false /\ Ascii.eqb c ":"%char = false).
  { destruct H as [H| ->]; [|split; reflexivity].
    apply word_is_plain in H. tauto. }
  destruct E as [E1 E2]. cbn. now rewrite E1, E2.
Qed.

Lemma after_field_name_three_digits {R} d1 d2 d3 s g
  (k : string -> groups -> option R) :
  is_digit d1 = true -> is_digit d2 = true -> is_digit d3 = true ->
  run after_field_name (String "[" (String d1 (String d2 (String d3 s)))) g k
  = None.
Proof.
  intros H1 H2 H3.
  pose proof (word_is_plain _ (digit_is_word _ H2)) as (_ & _ & E2 & _).
  pose proof (word_is_plain _ (digit_is_word _ H3)) as (_ & _ & E3 & _).
  cbn. rewrite H1, H2, E2, E3. reflexivity.
Qed.

Lemma setter_tail_colon expr g :
  all not_newline expr = true ->
  run setter_tail (": " ++ expr) g (fun _ g' => Some g')
  = Some (("expression", expr) :: g).
Proof.
  intros H. cbn [setter_tail run lit append Ascii.eqb Bool.eqb].
  change (run (star dot) expr g) with
    (fun k : string -> groups -> option groups =>
       star_loop true (run (Cls not_newline)) k (String.length expr) expr g).
  cbv beta.
  rewrite greedy_loop_all with (res := ("expression", expr) :: g); auto.
  cbn [String.length]. rewrite Nat.sub_0_r. f_equal. f_equal. f_equal.
  rewrite <- (append_nil_r expr) at 2. apply take_append.
Qed.

Lemma after_field_name_colon expr g :
  all not_newline expr = true ->
  run after_field_name (": " ++ expr) g (fun _ g' => Some g')
  = Some (("expression", expr) :: g).
Proof.
  intros H. rewrite <- (setter_tail_colon expr g H).
  reflexivity.
Qed.

Lemma after_field_name_one_digit {R} d1 s g
  (k : string -> groups -> option R) res :
  is_digit d1 = true ->
  run setter_tail s (("index", String d1 "") :: g) k = Some res ->
  run after_field_name (String "[" (String d1 (String "]" s))) g k = Some res.
Proof.
  intros H1 Hk.
  cbn [after_field_name bracket run opt Re.seq Patterns.chr lit Ascii.eqb
       Bool.eqb String.length d].
  fold (is_digit d1). rewrite H1.
  replace (S (S (String.length s)) - S (String.length s)) with 1 by lia.
  cbn [take]. now rewrite Hk.
Qed.

Lemma after_field_name_two_digits {R} d1 d2 s g
  (k : string -> groups -> option R) res :
  is_digit d1 = true -> is_digit d2 = true ->
  run setter_tail s (("index", String d1 (String d2 "")) :: g) k = Some res ->
  run after_field_name (String "[" (String d1 (String d2 (String "]" s)))) g k
  = Some res.
Proof.
  intros H1 H2 Hk.
  cbn [after_field_name bracket run opt Re.seq Patterns.chr lit Ascii.eqb
       Bool.eqb String.length d].
  fold (is_digit d1). fold (is_digit d2). rewrite H1, H2.
  replace (S (S (S (String.length s))) - S (String.length s)) with 2 by lia.
  cbn [take]. now rewrite Hk.
Qed.

Lemma digits_suffix digits : forall a c b,
  digits ++ "]" = a ++ String c b -> all is_digit digits = true ->
  is_word c = true \/ c = "]"%char.
Proof.
  induction digits as [|x digits IH]; intros a c b E H.
  - destruct a as [|y a]; simpl in E.
    + inversion E. now right.
    + inversion E. destruct a; discriminate.
  - simpl in H. apply andb_prop in H as [Hx H].
    destruct a as [|y a]; simpl in E; inversion E; subst.
    + left. now apply digit_is_word.
    + eauto.
Qed.

(** The places of a name followed by an index in brackets: a character
    of the name, the opening bracket, a digit or the closing bracket. *)
Lemma name_suffix digits : forall fname a c b,
  fname ++ "[" ++ digits ++ "]" = a ++ String c b ->
  all is_word fname = true -> all is_digit digits = true ->
  (is_word c = true \/ c = "]"%char)
  \/ String c b = "[" ++ digits ++ "]".
Proof.
  induction fname as [|x fname IH]; intros a c b E Hn Hd.
  - destruct a as [|y a]; simpl in E.
    + right. now rewrite <- E.
    + left. inversion E. eapply digits_suffix; eauto.
  - simpl in Hn. apply andb_prop in Hn as [Hx Hn].
    destruct a as [|y a]; simpl in E; inversion E; subst.
    + now left; left.
    + eauto.
Qed.

(** ** An index of three digits or more is part of the field name *)
Lemma InnerTxnFieldSetter_long_index fname digits expr :
  all is_word fname = true ->
  all is_digit digits = true ->
  3 <= String.length digits ->
  all not_newline expr = true ->
  re_match Patterns.InnerTxnFieldSetter
    (fname ++ "[" ++ digits ++ "]: " ++ expr)
  = Some [("expression", expr); ("field_name", fname ++ "[" ++ digits ++ "]")].
Proof.
  intros Hn Hd Hlen He.
  set (pre := fname ++ "[" ++ digits ++ "]").
  set (rest := ": " ++ expr).
  assert (Eline : fname ++ "[" ++ digits ++ "]: " ++ expr = pre ++ rest).
  { unfold pre, rest. rewrite !append_assoc. reflexivity. }
  rewrite Eline, InnerTxnFieldSetter_pattern. unfold re_match.
  cbn [run]. unfold lazy.
  change (run (Star false dot) (pre ++ rest) []) with
    (fun k : string -> groups -> option groups =>
       star_loop false (run (Cls not_newline)) k
         (String.length (pre ++ rest)) (pre ++ rest) []).
  cbv beta.
  apply lazy_loop_first.
  - apply Nat.le_refl.
  - assert (Hn' : all not_newline fname = true).
    { apply (all_weaken is_word); [|assumption].
      intros c Hc. now apply word_is_plain in Hc. }
    assert (Hd' : all not_newline digits = true).
    { apply (all_weaken is_digit); [|assumption].
      intros c Hc. apply digit_is_word in Hc. now apply word_is_plain in Hc. }
    unfold pre. rewrite !ReFacts.all_append, Hn', Hd'. reflexivity.
  - intros a c b E.
    destruct (name_suffix _ _ _ _ _ E Hn Hd) as [Hc|Hb].
    + cbn [append]. now apply after_field_name_word.
    + rewrite Hb.
      destruct digits as [|d1 [|d2 [|d3 ds]]]; simpl in Hlen; try lia.
      simpl in Hd.
      apply andb_prop in Hd as [H1 Hd]. apply andb_prop in Hd as [H2 Hd].
      apply andb_prop in Hd as [H3 Hd].
      cbn [append]. now apply after_field_name_three_digits.
  - unfold rest at 1. rewrite after_field_name_colon by assumption.
    do 4 f_equal. rewrite length_append.
    replace (String.length pre + String.length rest - String.length rest)
      with (String.length pre) by lia.
    apply take_append.
Qed.

(** ** An index that is captured has one or two digits *)
Lemma InnerTxnFieldSetter_short_index line g i :
  re_match Patterns.InnerTxnFieldSetter line = Some g ->
  get "index" g = Some i ->
  all is_digit i = true /\ (String.length i = 1 \/ String.length i = 2).
Proof.
  intros H Hi. apply re_match_sound in H as [_ H]. apply H in Hi.
  simpl in Hi.
  repeat match goal with
         | H : _ \/ _ |- _ => destruct H as [H|H]
         | H : _ /\ _ |- _ => destruct H as [? H]
         | H : False |- _ => contradiction
         end; try discriminate.
  match goal with
  | H : lang (Seq _ _) i |- _ =>
      apply lang_Seq in H as (u & v & -> & Hu & Hv)
  end.
  apply lang_Cls in Hu as (c & -> & Hc).
  apply lang_opt in Hv as [Hv| ->].
  - apply lang_Cls in Hv as (c' & -> & Hc'). simpl.
    unfold d in *. fold (is_digit c) in Hc. fold (is_digit c') in Hc'.
    rewrite Hc, Hc'. auto.
  - simpl. fold (is_digit c) in Hc. rewrite Hc. auto.
Qed.

(** ** An index of one or two digits is captured *)
Lemma InnerTxnFieldSetter_array_index fname digits expr :
  all is_word fname = true ->
  all is_digit digits = true ->
  String.length digits = 1 \/ String.length digits = 2 ->
  all not_newline expr = true ->
  re_match Patterns.InnerTxnFieldSetter
    (fname ++ "[" ++ digits ++ "]: " ++ expr)
  = Some [("expression", expr); ("index", digits); ("field_name", fname)].
Proof.
  intros Hn Hd Hlen He.
  set (rest := "[" ++ digits ++ "]: " ++ expr).
  rewrite InnerTxnFieldSetter_pattern. unfold re_match.
  cbn [run]. unfold lazy.
  change (run (Star false dot) (fname ++ rest) []) with
    (fun k : string -> groups -> option groups =>
       star_loop false (run (Cls not_newline)) k
         (String.length (fname ++ rest)) (fname ++ rest) []).
  cbv beta.
  apply lazy_loop_first.
  - apply Nat.le_refl.
  - apply (all_weaken is_word); [|assumption].
    intros c Hc. now apply word_is_plain in Hc.
  - intros a c b E. cbn [append]. apply after_field_name_word. left.
    clear - E Hn. revert a E Hn.
    induction fname as [|x fname IH]; intros a E Hn.
    + destruct a; discriminate.
    + simpl in Hn. apply andb_prop in Hn as [Hx Hn].
      destruct a as [|y a]; simpl in E; inversion E; subst; eauto.
  - rewrite length_append.
    replace (String.length fname + String.length rest - String.length rest)
      with (String.length fname) by lia.
    rewrite take_append. unfold rest.
    destruct digits as [|d1 [|d2 [|d3 ds]]]; simpl in Hlen;
      try (destruct Hlen; discriminate).
    + simpl in Hd. rewrite andb_true_r in Hd.
      apply after_field_name_one_digit; [assumption|].
      now apply setter_tail_colon.
    + simpl in Hd. rewrite andb_true_r in Hd.
      apply andb_prop in Hd as [H1 H2].
      apply after_field_name_two_digits; [assumption..|].
      now apply setter_tail_colon.
Qed.

(** ** The check of the indices *)

Definition setter_index (n : Node) : option nat :=
  match n with
  | InnerTxnFieldSetter _ _ (Some i) _ => Some (Process.int_of_digits i)
  | _ => None
  end.

(** The setters of a field carry the indices 0, 1, 2, ... in order. *)
Definition counted_from_zero (ns : list Node) : Prop :=
  map setter_index ns = map Some (List.seq 0 (List.length ns)).

Lemma append_field_counted fields f node :
  Forall counted_from_zero (map snd fields) ->
  setter_index node = Some (Process.field_count fields f) ->
  Forall counted_from_zero (map snd (Process.append_field fields f node)).
Proof.
  unfold Process.field_count.
  induction fields as [|[k ns] fields IH]; simpl; intros Hall Hn.
  - constructor; [|constructor]. unfold counted_from_zero. simpl. now rewrite Hn.
  - inversion Hall as [|? ? Hns Hrest]; subst.
    destruct (String.eqb k f); simpl.
    + constructor; [|assumption]. unfold counted_from_zero in *.
      rewrite map_app, List.length_app, List.seq_app, map_app, Hns. simpl.
      now rewrite Hn.
    + constructor; auto.
Qed.

Lemma InnerTxn_collect_counted cs : forall fields st fields' st',
  Forall counted_from_zero (map snd fields) ->
  Process.InnerTxn_collect cs fields st = inr (fields', st') ->
  Forall counted_from_zero (map snd fields').
Proof.
  induction cs as [|node cs IH]; intros fields st fields' st' Hall H.
  - inversion H; now subst.
  - cbn [Process.InnerTxn_collect] in H.
    destruct node; try discriminate.
    destruct index as [i|].
    + cbv zeta in H.
      destruct (Nat.eqb_spec (Process.field_count fields field_name)
                  (Process.int_of_digits i)) as [E|E]; [|discriminate].
      eapply IH; [|exact H]. apply append_field_counted; auto.
      simpl. now rewrite E.
    + unfold Process.bind in H.
      destruct (Process.process_expr expression st) as [e|[t st1]];
        [discriminate|]. eauto.
Qed.

(** *** The index that is expected

    The setters of the field [f] that carry an index, and their number
    among the setters that stand before a setter. *)
Definition indexed_setter_of (f : string) (n : Node) : bool :=
  match n with
  | InnerTxnFieldSetter _ f' (Some _) _ => String.eqb f' f
  | _ => false
  end.

Definition setters_before (f : string) (before : list Node) : nat :=
  List.length (filter (indexed_setter_of f) before).

Lemma field_count_append_field fields f g node :
  Process.field_count (Process.append_field fields f node) g
  = Process.field_count fields g + (if String.eqb f g then 1 else 0).
Proof.
  unfold Process.field_count.
  induction fields as [|[k ns] fields IH]; cbn [Process.append_field assoc].
  - destruct (String.eqb f g); reflexivity.
  - destruct (String.eqb_spec k f) as [->|Hkf]; cbn [assoc].
    + destruct (String.eqb f g); [|lia].
      rewrite List.length_app. reflexivity.
    + destruct (String.eqb_spec k g) as [->|Hkg]; [|exact IH].
      destruct (String.eqb_spec f g) as [->|_]; [congruence|lia].
Qed.

(** What [array_fields] holds for a field is what was counted. *)
Lemma InnerTxn_collect_count cs : forall fields st fields' st' f,
  Process.InnerTxn_collect cs fields st = inr (fields', st') ->
  Process.field_count fields' f
  = Process.field_count fields f + setters_before f cs.
Proof.
  unfold setters_before.
  induction cs as [|node cs IH]; intros fields st fields' st' f H.
  - inversion H; subst. cbn. lia.
  - cbn [Process.InnerTxn_collect] in H.
    destruct node; try discriminate.
    destruct index as [i|]; cbn [filter indexed_setter_of].
    + cbv zeta in H.
      destruct (Nat.eqb_spec (Process.field_count fields field_name)
                  (Process.int_of_digits i)) as [E|E]; [|discriminate].
      rewrite (IH _ _ _ _ f H), field_count_append_field.
      destruct (String.eqb field_name f); cbn [List.length]; lia.
    + unfold Process.bind in H.
      destruct (Process.process_expr expression st) as [e|[t st1]];
        [discriminate|]. eauto.
Qed.

Lemma InnerTxn_collect_app a : forall b fields st,
  Process.InnerTxn_collect (a +++ b) fields st
  = match Process.InnerTxn_collect a fields st with
    | inl e => inl e
    | inr (fields', st') => Process.InnerTxn_collect b fields' st'
    end.
Proof.
  induction a as [|node a IH]; intros b fields st; [reflexivity|].
  cbn [app Process.InnerTxn_collect].
  destruct node; try reflexivity.
  destruct index as [i|].
  - cbv zeta. destruct (_ =? _)%nat; [apply IH | reflexivity].
  - unfold Process.bind.
    destruct (Process.process_expr expression st) as [e|[t st1]];
      [reflexivity | apply IH].
Qed.

(** A setter whose index is not the number of the indexed setters of
    its field before it is refused, whatever follows it. *)
Lemma InnerTxn_collect_refuses before s f i e rest st fields st1 :
  Process.InnerTxn_collect before [] st = inr (fields, st1) ->
  Process.int_of_digits i <> setters_before f before ->
  Process.InnerTxn_collect
    (before +++ InnerTxnFieldSetter s f (Some i) e :: rest) [] st
  = inl (ParseError
           ("Inccorrect field array index " ++ str_nat (Process.int_of_digits i)
            ++ " (expected " ++ str_nat (setters_before f before)
            ++ ") at line "
            ++ str_nat (TealishCompiler.line_no (Process.compiler st1))
            ++ "!")).
Proof.
  intros Hbefore Hindex. rewrite InnerTxn_collect_app, Hbefore.
  cbn [Process.InnerTxn_collect]. cbv zeta.
  rewrite (InnerTxn_collect_count _ _ _ _ _ f Hbefore).
  change (Process.field_count [] f) with 0. cbn [Nat.add].
  destruct (Nat.eqb_spec (setters_before f before) (Process.int_of_digits i));
    [congruence | reflexivity].
Qed.

(** A setter whose index is this number is taken. *)
Lemma InnerTxn_collect_takes before s f i e st fields st1 :
  Process.InnerTxn_collect before [] st = inr (fields, st1) ->
  Process.int_of_digits i = setters_before f before ->
  Process.InnerTxn_collect
    (before +++ [InnerTxnFieldSetter s f (Some i) e]) [] st
  = inr (Process.append_field fields f (InnerTxnFieldSetter s f (Some i) e),
         st1).
Proof.
  intros Hbefore Hindex. rewrite InnerTxn_collect_app, Hbefore.
  cbn [Process.InnerTxn_collect]. cbv zeta.
  rewrite (InnerTxn_collect_count _ _ _ _ _ f Hbefore).
  change (Process.field_count [] f) with 0. cbn [Nat.add].
  rewrite Hindex, Nat.eqb_refl. reflexivity.
Qed.

(** *** The value of an index

    [int] of one or two digits is the number below 100 that [str]
    writes with these digits, or with the second of them after [0]. *)
Lemma digit_cases c :
  is_digit c = true ->
  In c ["0"; "1"; "2"; "3"; "4"; "5"; "6"; "7"; "8"; "9"]%char.
Proof.
  destruct c as [[] [] [] [] [] [] [] []]; intros H;
    try discriminate H; cbn; tauto.
Qed.

Lemma int_of_short_index i :
  all is_digit i = true ->
  String.length i = 1 \/ String.length i = 2 ->
  exists n, n < 100 /\ Process.int_of_digits i = n
            /\ (i = str_nat n \/ i = "0" ++ str_nat n).
Proof.
  intros Hd Hlen.
  destruct i as [|d1 [|d2 [|d3 ds]]]; cbn [String.length] in Hlen;
    try (destruct Hlen; discriminate).
  - cbn [all] in Hd. rewrite andb_true_r in Hd.
    apply digit_cases in Hd. cbn [In] in Hd.
    repeat (destruct Hd as [<-|Hd];
            [eexists; split; [|split; [reflexivity|left; reflexivity]];
             cbn; lia|]).
    contradiction.
  - cbn [all] in Hd. rewrite andb_true_r in Hd.
    apply andb_prop in Hd as [H1 H2].
    apply digit_cases in H1, H2. cbn [In] in H1, H2.
    repeat (destruct H1 as [<-|H1]; [|]); try contradiction;
      repeat (destruct H2 as [<-|H2];
              [eexists; split;
               [|split; [reflexivity
                        |first [left; reflexivity | right; reflexivity]]];
               cbn; lia|]);
      contradiction.
Qed.

Section Claim.

Variable parse_expression : string -> option Expression.
Variable get_block : Src -> string -> option string.
Variable lookup_func : Src -> string -> option FuncAttrs.
Variable type_name : TealishType -> string.
Variable type_str : TealishType -> string.

(** C10. A field setter of an inner transaction is an array setter
    when, and on a line of ASCII characters only when, the index in
    brackets has one or two decimal digits.  The index of an array
    setter is read as a decimal number and checked to count from 0
    within its field: [InnerTxn.process] takes the setter when the
    index is the number of the indexed setters of its field before it,
    and raises [Inccorrect field array index] otherwise.  A line
    [Field[NNN]: expr] with three digits or more still matches the
    pattern: the brackets and the digits are part of the field name,
    the index is [None], [InnerTxn.process] checks no index for it and
    [write_teal] writes [itxn_field Field[NNN]]. *)
Theorem InnerTxnFieldSetter_index_digits (fname digits expr : string)
  (e : Expression) (c : TealishCompiler.t) :
  all is_word fname = true ->
  all is_digit digits = true ->
  3 <= String.length digits ->
  all not_newline expr = true ->
  parse_expression expr = Some e ->
  let line := fname ++ "[" ++ digits ++ "]: " ++ expr in
  let src := {| line_no := TealishCompiler.line_no c; line := line |} in
  let node := InnerTxnFieldSetter src (fname ++ "[" ++ digits ++ "]") None e in
  (* only an index of one or two digits is captured *)
  (forall l g i,
      all is_ascii l = true ->
      re_match Patterns.InnerTxnFieldSetter l = Some g ->
      get "index" g = Some i ->
      all is_digit i = true /\ (String.length i = 1 \/ String.length i = 2))
  (* an index of one or two digits is captured, and read as a number *)
  /\ (forall i,
         all is_digit i = true ->
         String.length i = 1 \/ String.length i = 2 ->
         Build.InnerTxnFieldSetter_init parse_expression
           (fname ++ "[" ++ i ++ "]: " ++ expr) c
         = inr (InnerTxnFieldSetter
                  {| line_no := TealishCompiler.line_no c;
                     line := fname ++ "[" ++ i ++ "]: " ++ expr |}
                  fname (Some i) e, c)
         /\ exists n, n < 100 /\ Process.int_of_digits i = n
                      /\ (i = str_nat n \/ i = "0" ++ str_nat n))
  (* an index that is captured is checked: after setters that were
     taken, a setter with another index than their number is refused *)
  /\ (forall before s f i e' rest st fields st1,
         Process.InnerTxn_collect before [] st = inr (fields, st1) ->
         Process.int_of_digits i <> setters_before f before ->
         forall src',
           Process.InnerTxn_process src'
             (before +++ InnerTxnFieldSetter s f (Some i) e' :: rest) st
           = inl (ParseError
                    ("Inccorrect field array index "
                     ++ str_nat (Process.int_of_digits i)
                     ++ " (expected " ++ str_nat (setters_before f before)
                     ++ ") at line "
                     ++ str_nat (TealishCompiler.line_no (Process.compiler st1))
                     ++ "!")))
  (* and a setter with this number is taken *)
  /\ (forall before s f i e' st fields st1,
         Process.InnerTxn_collect before [] st = inr (fields, st1) ->
         Process.int_of_digits i = setters_before f before ->
         Process.InnerTxn_collect
           (before +++ [InnerTxnFieldSetter s f (Some i) e']) [] st
         = inr (Process.append_field fields f
                  (InnerTxnFieldSetter s f (Some i) e'), st1))
  (* so the indices that are taken count from 0 within each field *)
  /\ (forall cs st fields st',
         Process.InnerTxn_collect cs [] st = inr (fields, st') ->
         Forall counted_from_zero (map snd fields))
  (* the line with the long index is a setter without index *)
  /\ Build.InnerTxnFieldSetter_init parse_expression line c = inr (node, c)
  (* whose index is not checked *)
  /\ (forall rest fields,
         Process.InnerTxn_collect (node :: rest) fields
         = Process.bind (Process.process_expr e)
             (fun _ => Process.InnerTxn_collect rest fields))
  (* and whose field name is written with the brackets *)
  /\ (forall st, exists st',
         Gen.write_teal get_block lookup_func type_name type_str node st
         = Some st'
         /\ texts_of st' =
              (texts_of st +++ [Gen.tl src] +++ e_teal e
               +++ ["itxn_field " ++ fname ++ "[" ++ digits ++ "]"])).
Proof.
  intros Hn Hd Hlen He Hparse line src node.
  split; [|split; [|split; [|split; [|split; [|split; [|split]]]]]].
  - intros l g i _. apply InnerTxnFieldSetter_short_index.
  - intros i Hi Hshort. split; [|now apply int_of_short_index].
    unfold Build.InnerTxnFieldSetter_init, Build.init, Build.bind,
      Build.current_line_no.
    rewrite (InnerTxnFieldSetter_array_index fname i expr Hn Hi Hshort He).
    unfold Build.ret, Build.parse_expr, Build.group. cbn [fst snd get].
    cbn [String.eqb Ascii.eqb Bool.eqb]. rewrite Hparse. reflexivity.
  - intros before s f i e' rest st fields st1 Hbefore Hindex src'.
    unfold Process.InnerTxn_process, Process.bind.
    now rewrite (InnerTxn_collect_refuses before s f i e' rest st fields st1
                   Hbefore Hindex).
  - intros before s f i e' st fields st1.
    apply InnerTxn_collect_takes.
  - intros cs st fields st' H.
    eapply InnerTxn_collect_counted; [|exact H]. constructor.
  - unfold Build.InnerTxnFieldSetter_init, Build.init, Build.bind,
      Build.current_line_no.
    unfold line at 1.
    rewrite (InnerTxnFieldSetter_long_index fname digits expr Hn Hd Hlen He).
    unfold Build.ret, Build.parse_expr, Build.group. cbn [fst snd get].
    cbn [String.eqb Ascii.eqb Bool.eqb]. rewrite Hparse. reflexivity.
  - reflexivity.
  - intros st. unfold node. cbn [Gen.write_teal].
    unfold InnerTxnFieldSetter_write_teal.
    match goal with
    | |- exists st', ?w st = Some st' /\ _ =>
        destruct (w st) as [st'|] eqn:E
    end.
    + exists st'. split; [reflexivity|].
      seq_inv E. step_texts. chain_texts. reflexivity.
    + exfalso. cbn in E. discriminate.
Qed.

End Claim.

Definition seven : Expression :=
  {| e_tealish := "7"; e_process := inr (One IntType);
     e_teal := ["pushint 7"] |}.

Definition no_setter_yet : Process.state :=
  {| Process.compiler := For_StatementFacts.start_state.(compiler);
     Process.scopes := [];
     Process.error_messages := [] |}.

(** [Accounts[100]: 7]: the field name is [Accounts[100]].
    [Accounts[1]: 7] is an array setter, and as the first setter of
    [Accounts] it is refused. *)
Lemma InnerTxnFieldSetter_index_digits_witness :
  Build.InnerTxnFieldSetter_init Standin.parse_expression "Accounts[100]: 7"
    For_StatementFacts.start_state.(compiler)
  = inr (InnerTxnFieldSetter
           {| line_no := 0; line := "Accounts[100]: 7" |}
           "Accounts[100]" None seven,
         For_StatementFacts.start_state.(compiler))
  /\ Build.InnerTxnFieldSetter_init Standin.parse_expression "Accounts[1]: 7"
       For_StatementFacts.start_state.(compiler)
     = inr (InnerTxnFieldSetter
              {| line_no := 0; line := "Accounts[1]: 7" |}
              "Accounts" (Some "1") seven,
            For_StatementFacts.start_state.(compiler))
  /\ Process.InnerTxn_process {| line_no := 0; line := "inner_txn:" |}
       [InnerTxnFieldSetter {| line_no := 0; line := "Accounts[1]: 7" |}
          "Accounts" (Some "1") seven]
       no_setter_yet
     = inl (ParseError
              "Inccorrect field array index 1 (expected 0) at line 0!").
Proof.
  pose proof (InnerTxnFieldSetter_index_digits Standin.parse_expression
                (fun _ _ => None) (fun _ _ => None) (fun _ => "")
                (fun _ => "") "Accounts" "100" "7" seven
                For_StatementFacts.start_state.(compiler)) as H.
  cbv zeta in H.
  destruct H as (_ & Hshort & Hrefused & _ & _ & Hlong & _);
    try solve [reflexivity | simpl; lia].
  split; [exact Hlong|]. split.
  - exact (proj1 (Hshort "1" eq_refl (or_introl eq_refl))).
  - exact (Hrefused [] {| line_no := 0; line := "Accounts[1]: 7" |}
             "Accounts" "1" seven [] no_setter_yet [] no_setter_yet
             eq_refl ltac:(discriminate)
             {| line_no := 0; line := "inner_txn:" |}).
Defined.

End InnerTxnFacts.

(** ** The messages of the type checks of assignments *)

Module TypeCheckFacts.
Import Process StrFacts.

Local Open Scope string_scope.

(** [f"\n+ {lhs} = Cast({e}, {t})"] *)
Definition cast_suggestion (lhs e t : string) : string :=
  nl ++ "+ " ++ lhs ++ " = Cast(" ++ e ++ ", " ++ t ++ ")".

(** [f"\n+ {lhs} = Rpad({e}, {t.size})"] *)
Definition rpad_suggestion (lhs e : string) (t : TealishType) : string :=
  nl ++ "+ " ++ lhs ++ " = Rpad(" ++ e ++ ", " ++ str_size (size t) ++ ")".

(** The padding is suggested for a destination that is neither a
    struct nor an integer. *)
Definition padding (lhs e : string) (t : TealishType) : string :=
  if is_StructType t || is_IntType t then "" else rpad_suggestion lhs e t.

(** [f"\nPerhaps Cast or padding is required? \n- {self.line}"] *)
Definition perhaps (src : Src) : string :=
  nl ++ "Perhaps Cast or padding is required? " ++ nl ++ "- " ++ line src.

Section WithEnv.

Variable get_type_instance : string -> option TealishType.
Variable get_struct : string -> option TealishType.
Variable can_hold : TealishType -> ExprType -> bool.
Variable can_hold_with_cast : TealishType -> ExprType -> bool.
Variable type_str : TealishType -> string.
Variable expr_type_str : ExprType -> string.

Lemma process_expr_ok e t st :
  e_process e = inr t -> process_expr e st = inr (t, st).
Proof. unfold process_expr. now intros ->. Qed.

(** C7. When the type check of a [VarDeclaration] or of a
    [StructOrBoxAssignment] fails ([can_hold] is false) and
    [can_hold_with_cast] holds for the type of the expression, the
    [CompileError] that is raised carries the [Cast(...)] suggestion,
    followed by the [Rpad(..., size)] suggestion exactly when the
    destination is neither an integer type nor a struct type. *)
Theorem type_mismatch_suggests_cast (src : Src) (e : Expression)
  (t : ExprType) (dest : TealishType) :
  e_process e = inr t ->
  can_hold dest t = false ->
  can_hold_with_cast dest t = true ->
  (forall type_name name st,
      get_type_instance type_name = Some dest ->
      scopes st <> [] ->
      VarDeclaration_process get_type_instance can_hold can_hold_with_cast
        expr_type_str src type_name name (Some e) st
      = inl (CompileError
               (("Incorrect type for assignment. Expected " ++ type_name
                 ++ ", got " ++ expr_type_str t ++ " at line "
                 ++ str_nat (line_no src) ++ ".")
                ++ perhaps src
                ++ cast_suggestion (type_name ++ " " ++ name) (e_tealish e)
                     type_name
                ++ padding (type_name ++ " " ++ name) (e_tealish e) dest)))
  /\ (forall a var struct_field st,
         lookup_var (scopes st) (sb_name a) = Some var ->
         is_StructType (Builtins.tealish_type var)
         || is_BoxType (Builtins.tealish_type var) = true ->
         field (Builtins.tealish_type var) (sb_field_name a)
         = Some struct_field ->
         Types.tealish_type struct_field = dest ->
         sb_expression a = Some e ->
         StructOrBoxAssignment_process can_hold can_hold_with_cast type_str
           expr_type_str src a st
         = inl (CompileError
                  (("Incorrect type for struct field assignment. Expected "
                    ++ type_str dest ++ ", got " ++ expr_type_str t
                    ++ " at line " ++ str_nat (line_no src) ++ ".")
                   ++ perhaps src
                   ++ cast_suggestion (sb_name a ++ "." ++ sb_field_name a)
                        (e_tealish e) (type_str dest)
                   ++ padding (sb_name a ++ "." ++ sb_field_name a)
                        (e_tealish e) dest))).
Proof.
  intros Hproc Hhold Hcast. split.
  - intros type_name name st Htype Hsc.
    unfold VarDeclaration_process, declare_scratch_var, bind.
    rewrite Htype. unfold declare_scratch_var_at.
    destruct (scopes st) as [|sc rest] eqn:Esc; [contradiction|].
    rewrite (process_expr_ok _ _ _ Hproc). cbn [Builtins.tealish_type].
    rewrite Hhold, Hcast. cbn [negb]. unfold raise. do 2 f_equal.
    unfold padding, perhaps, cast_suggestion, rpad_suggestion.
    destruct (is_StructType dest || is_IntType dest); cbn [negb];
      rewrite ?append_nil_r, ?append_assoc; reflexivity.
  - intros a var struct_field st Hvar Hkind Hfield Hdest He.
    unfold StructOrBoxAssignment_process, bind, get_var.
    rewrite Hvar, Hkind, Hfield, He. cbn [negb]. unfold ret.
    rewrite (process_expr_ok _ _ _ Hproc). rewrite Hdest, Hhold, Hcast.
    cbn [negb]. unfold raise. do 2 f_equal.
    unfold padding, perhaps, cast_suggestion, rpad_suggestion.
    destruct (is_StructType dest || is_IntType dest); cbn [negb];
      rewrite ?append_nil_r, ?append_assoc; reflexivity.
Qed.

End WithEnv.

(** A byte string of unknown length, assigned to [bytes[10]]. *)
Definition some_bytes : Expression :=
  {| e_tealish := "data"; e_process := inr (One (BytesType None));
     e_teal := ["load 1"] |}.

(** A scope where [item1] is an [Item]. *)
Definition item_state : state :=
  {| compiler :=
       {| TealishCompiler.source_lines := [];
          TealishCompiler.line_no := 0;
          TealishCompiler.conditional_count := 0;
          TealishCompiler.max_slot := 0;
          TealishCompiler.use_inner_txns_macro := None |};
     scopes :=
       [ Scope.declare_var Scope.root
           {| Builtins.name := "item1"; Builtins.tealish_type := Standin.Item;
              Builtins.scratch_slot := 0 |} ];
     error_messages := [] |}.

Definition item_name_assignment : StructOrBoxAttrs :=
  {| sb_name := "item1"; sb_field_name := "name";
     sb_expression := Some some_bytes; sb_var := None; sb_offset := 0;
     sb_size := 0; sb_data_type := None |}.

Lemma type_mismatch_suggests_cast_witness :
  VarDeclaration_process Standin.get_type_instance Standin.can_hold
    Standin.can_hold_with_cast Standin.expr_type_str
    {| line_no := 3; line := "bytes[10] x = data" |} "bytes[10]" "x"
    (Some some_bytes) item_state
  = inl (CompileError
           ("Incorrect type for assignment. Expected bytes[10], got bytes at line 3."
            ++ nl ++ "Perhaps Cast or padding is required? "
            ++ nl ++ "- bytes[10] x = data"
            ++ nl ++ "+ bytes[10] x = Cast(data, bytes[10])"
            ++ nl ++ "+ bytes[10] x = Rpad(data, 10)"))
  /\ StructOrBoxAssignment_process Standin.can_hold Standin.can_hold_with_cast
       Standin.type_str Standin.expr_type_str
       {| line_no := 3; line := "item1.name = data" |} item_name_assignment
       item_state
     = inl (CompileError
              ("Incorrect type for struct field assignment. Expected bytes[10], got bytes at line 3."
               ++ nl ++ "Perhaps Cast or padding is required? "
               ++ nl ++ "- item1.name = data"
               ++ nl ++ "+ item1.name = Cast(data, bytes[10])"
               ++ nl ++ "+ item1.name = Rpad(data, 10)")).
Proof.
  split.
  - refine (proj1
      (type_mismatch_suggests_cast Standin.get_type_instance Standin.can_hold
         Standin.can_hold_with_cast Standin.type_str Standin.expr_type_str
         {| line_no := 3; line := "bytes[10] x = data" |} some_bytes
         (One (BytesType None)) (BytesType (Some 10)) _ _ _)
      "bytes[10]" "x" item_state _ _);
      solve [reflexivity | discriminate].
  - refine (proj2
      (type_mismatch_suggests_cast Standin.get_type_instance Standin.can_hold
         Standin.can_hold_with_cast Standin.type_str Standin.expr_type_str
         {| line_no := 3; line := "item1.name = data" |} some_bytes
         (One (BytesType None)) (BytesType (Some 10)) _ _ _)
      item_name_assignment
      {| Builtins.name := "item1"; Builtins.tealish_type := Standin.Item;
         Builtins.scratch_slot := 0 |}
      {| offset := 8; field_size := 10;
         Types.tealish_type := BytesType (Some 10) |}
      item_state _ _ _ _ _); reflexivity.
Defined.

End TypeCheckFacts.

(** ** The [return] statement *)

Module ReturnFacts.
Import Re ReFacts StrFacts.

Local Open Scope string_scope.









Section WithEnv.

Variable parse_expression : string -> option Expression.
Variable can_hold : TealishType -> ExprType -> bool.
Variable type_str : TealishType -> string.
Variable expr_type_str : ExprType -> string.





Variable get_type_instance : string -> option TealishType.
Variable get_struct : string -> option TealishType.
Variable can_hold_with_cast : TealishType -> ExprType -> bool.
Variable lookup_func : Src -> string -> option FuncAttrs.

Local Abbreviation process :=
  (Process.process get_type_instance get_struct can_hold can_hold_with_cast
     type_str expr_type_str lookup_func parse_expression).




End WithEnv.




End ReturnFacts.

(** ** The macro of the inner transactions *)

Module MacroFacts.
Import Gen GenFacts.

Local Open Scope string_scope.

(** [yields w lines]: the action [w] always ends, leaves the compiler
    as it is and writes [lines]. *)
Definition yields (w : W) (lines : list string) : Prop :=
  forall st, exists st',
    w st = Some st' /\ compiler st' = compiler st
    /\ texts_of st' = texts_of st +++ lines.

Lemma yields_skip : yields skip [].
Proof. intros st. exists st. now rewrite app_nil_r. Qed.

Lemma yields_write t : yields (write t) [t].
Proof.
  intros st. destruct (write t st) as [st'|] eqn:E; [|discriminate].
  exists st'. split; [reflexivity|]. split; [now inversion E|].
  now apply write_texts.
Qed.

Lemma yields_write_expr e : yields (write_expr e) (e_teal e).
Proof.
  intros st. destruct (write_expr e st) as [st'|] eqn:E; [|discriminate].
  exists st'. split; [reflexivity|]. split; [now inversion E|].
  now apply write_expr_texts.
Qed.

Lemma yields_level_up : yields level_up [].
Proof.
  intros st. destruct (level_up st) as [st'|] eqn:E; [|discriminate].
  exists st'. split; [reflexivity|]. split; [now inversion E|].
  rewrite app_nil_r. now apply level_up_texts.
Qed.

Lemma yields_level_down : yields level_down [].
Proof.
  intros st. destruct (level_down st) as [st'|] eqn:E; [|discriminate].
  exists st'. split; [reflexivity|]. split; [now inversion E|].
  rewrite app_nil_r. now apply level_down_texts.
Qed.

Lemma yields_andThen a b la lb :
  yields a la -> yields b lb -> yields (andThen a b) (la +++ lb).
Proof.
  intros Ha Hb st. destruct (Ha st) as (st1 & E1 & C1 & T1).
  destruct (Hb st1) as (st2 & E2 & C2 & T2).
  exists st2. unfold andThen. rewrite E1. split; [assumption|].
  split; [congruence|]. now rewrite T2, T1, app_assoc.
Qed.

(** The lines of a field setter. *)
Definition setter_lines (n : Node) : list string :=
  match n with
  | InnerTxnFieldSetter src field_name _ e =>
      [tl src] +++ e_teal e +++ [("itxn_field " ++ field_name)%string]
  | _ => []
  end.

Definition is_setter (n : Node) : Prop := class_of n = CInnerTxnFieldSetter.

Section WithScope.

Variable get_block : Src -> string -> option string.
Variable lookup_func : Src -> string -> option FuncAttrs.
Variable type_name : TealishType -> string.
Variable type_str : TealishType -> string.

Local Abbreviation write_teal :=
  (write_teal get_block lookup_func type_name type_str).

Lemma yields_setter n : is_setter n -> yields (write_teal n) (setter_lines n).
Proof.
  destruct n; try discriminate. intros _.
  cbn [Gen.write_teal setter_lines]. unfold InnerTxnFieldSetter_write_teal.
  cbn [sequence].
  apply yields_andThen; [apply yields_write|].
  apply yields_andThen; [apply yields_write_expr|].
  rewrite <- (app_nil_r [_]).
  apply yields_andThen; [apply yields_write|apply yields_skip].
Qed.

Lemma yields_setters cs :
  Forall is_setter cs ->
  yields (write_children (map (fun c => (c, write_teal c)) cs))
    (flat_map setter_lines cs).
Proof.
  unfold write_children.
  induction 1 as [|n cs Hn _ IH]; [apply yields_skip|].
  cbn [map sequence flat_map snd].
  apply yields_andThen; [now apply yields_setter|exact IH].
Qed.

(** [InnerTxn.write_teal] turns the macro off before it looks at it:
    whatever the flag was, the transaction is written with
    [itxn_begin] and [itxn_submit], and the flag is false afterwards. *)
Lemma InnerTxn_write_teal_turns_macro_off src cs st :
  Forall is_setter cs ->
  exists st',
    write_teal (InnerTxn src cs) st = Some st'
    /\ texts_of st' =
         texts_of st +++ [tl src; "itxn_begin"] +++ flat_map setter_lines cs
         +++ ["itxn_submit"; "// end inner_txn"]
    /\ TealishCompiler.use_inner_txns_macro (compiler st') = Some false.
Proof.
  intros Hcs. cbn [Gen.write_teal]. unfold InnerTxn_write_teal.
  cbn [sequence]. unfold andThen at 1.
  destruct (set_macro (Some false) st) as [st0|] eqn:E0; [|discriminate].
  assert (F0 : TealishCompiler.use_inner_txns_macro (compiler st0) = Some false)
    by now inversion E0.
  apply set_macro_texts in E0.
  unfold andThen at 1.
  destruct (yields_write (tl src) st0) as (st1 & E1 & C1 & T1). rewrite E1.
  unfold andThen at 1, if_macro. rewrite C1, F0.
  assert (Hbody : yields
            (sequence
               [ write "itxn_begin"; level_up;
                 write_children (map (fun c => (c, write_teal c)) cs);
                 level_down; write "itxn_submit"; write "// end inner_txn" ])
            (["itxn_begin"] +++ [] +++ flat_map setter_lines cs +++ []
             +++ ["itxn_submit"] +++ ["// end inner_txn"] +++ [])).
  { cbn [sequence].
    repeat first
      [ apply yields_skip
      | apply yields_andThen
      | apply yields_write | apply yields_level_up | apply yields_level_down
      | apply yields_setters; assumption ]. }
  destruct (Hbody st1) as (st2 & E2 & C2 & T2). cbn [sequence] in E2.
  rewrite E2. exists st2. split; [reflexivity|]. split.
  - rewrite T2, T1, E0. cbn [app]. rewrite <- !app_assoc. reflexivity.
  - congruence.
Qed.

End WithScope.

(** An inner group with one inner transaction. *)
Definition grouped_payment : list string :=
  [ "inner_group:"; "inner_txn:"; "TypeEnum: Pay"; "end"; "end" ].

(** C1. With the macro of the inner transactions enabled, an
    [inner_txn:] is not written with [callsub _itxn_begin] and
    [callsub _itxn_submit]: [InnerTxn.write_teal] sets the flag to
    false before it reads it, so the transaction is written with
    [itxn_begin] and [itxn_submit] and the flag stays false.  The
    program of an [inner_group:] with an [inner_txn:] therefore calls
    [_itxn_group_begin] and [_itxn_group_submit] and ends without the
    four subroutines, which an [inner_group:] without transaction does
    get, on the slot above [max_slot]. *)
Theorem InnerTxn_never_uses_macro :
  (forall get_block lookup_func type_name type_str src cs st,
      Forall is_setter cs ->
      TealishCompiler.use_inner_txns_macro (compiler st) = Some true ->
      exists st',
        write_teal get_block lookup_func type_name type_str
          (InnerTxn src cs) st = Some st'
        /\ texts_of st' =
             texts_of st +++ [tl src; "itxn_begin"]
             +++ flat_map setter_lines cs
             +++ ["itxn_submit"; "// end inner_txn"]
        /\ TealishCompiler.use_inner_txns_macro (compiler st') = Some false)
  /\ Standin.compile grouped_payment
     = inr [ "// tl:1: inner_group:"; "callsub _itxn_group_begin";
             "// tl:2: inner_txn:"; "itxn_begin"; "// tl:3: TypeEnum: Pay";
             "// Pay"; "itxn_field TypeEnum"; "itxn_submit";
             "// end inner_txn"; "callsub _itxn_group_submit";
             "// end inner_group" ]
  /\ Standin.compile ["inner_group:"; "end"]
     = inr ([ "// tl:1: inner_group:"; "callsub _itxn_group_begin";
              "callsub _itxn_group_submit"; "// end inner_group" ]
            +++ inner_txns_macro "1").
Proof.
  split; [|split].
  - intros gb lf tn ts src cs st Hcs _.
    now apply InnerTxn_write_teal_turns_macro_off.
  - vm_compute. reflexivity.
  - vm_compute. reflexivity.
Qed.

End MacroFacts.

(** ** The place of functions and blocks *)

Module PlacementFacts.
Import Build.

Local Open Scope string_scope.

(** A block with a decorated function before its exit statement. *)
Definition decorated_in_block : list string :=
  [ "exit(1)"; "block main:"; "@public()"; "func f():"; "return"; "end";
    "exit(1)"; "end" ].

(** The same function without decorator. *)
Definition func_in_block : list string :=
  [ "exit(1)"; "block main:"; "func f():"; "return"; "end"; "exit(1)";
    "end" ].

(** The decorated function at top level, before the exit statement. *)
Definition decorated_at_top : list string :=
  [ "@public()"; "func f():"; "return"; "end"; "exit(1)" ].

(** The decorated function in a block, after the exit statement. *)
Definition decorated_after_exit : list string :=
  [ "exit(1)"; "block main:"; "exit(1)"; "@public()"; "func f():"; "return";
    "end"; "end" ].

Definition is_ParseError {A} (r : Error + A) : Prop :=
  match r with inl (ParseError _) => True | _ => False end.

Section Loops.

Variable Statement_consume : Ctx -> B Node.

(** A round of the loop of [Block.consume] before any exit statement:
    a decorated function is not looked for. *)
Lemma Block_loop_DecoratedFunc fuel ctx child_nodes c l n c' :
  peek c = inr (Some l, c) ->
  l <> "end" ->
  Statement_consume ctx c = inr (n, c') ->
  class_of n = CDecoratedFunc ->
  Block_loop Statement_consume (S fuel) ctx None child_nodes c
  = Block_loop Statement_consume fuel ctx None (child_nodes +++ [n]) c'.
Proof.
  intros Hpeek Hl Hn Hclass. cbn [Block_loop].
  unfold bind at 1, peek_is, bind at 1. rewrite Hpeek. unfold ret at 1.
  apply String.eqb_neq in Hl. rewrite Hl.
  unfold bind at 1. rewrite Hn.
  unfold isinstance, is_exit_statement, isinstance, add_child.
  rewrite Hclass. reflexivity.
Qed.

(** The same round of the loop of [Program.consume] raises. *)
Lemma Program_loop_DecoratedFunc fuel ctx expect child_nodes c l n c' :
  peek c = inr (Some l, c) ->
  Statement_consume ctx c = inr (n, c') ->
  class_of n = CDecoratedFunc ->
  is_ParseError
    (Program_loop Statement_consume (S fuel) ctx expect None child_nodes c).
Proof.
  intros Hpeek Hn Hclass. cbn [Program_loop].
  unfold bind at 1. rewrite Hpeek.
  unfold bind at 1. rewrite Hn.
  unfold isinstance. rewrite Hclass. cbn. now rewrite andb_false_r.
Qed.

End Loops.

(** The first statement of the first block of a program. *)
Definition first_in_block (r : Error + Node) : option NodeClass :=
  match r with
  | inr (Program _ _ (_ :: Block _ _ _ (n :: _) :: _)) => Some (class_of n)
  | _ => None
  end.

(** C2. The build pass does not raise a [ParseError] for a decorated
    [func] inside a block before the block's first exit statement:
    [Block.consume] looks for [Func] and [Block] only, where
    [Program.consume] looks for [DecoratedFunc] too.  The program is
    built, with the decorated function as first statement of the
    block; the same function without its decorator, and the decorated
    function at top level, are refused, and so is the decorated
    function after the exit statement of the block. *)
Theorem Block_consume_misses_DecoratedFunc :
  (forall Statement_consume fuel ctx child_nodes c l n c',
      peek c = inr (Some l, c) ->
      l <> "end" ->
      Statement_consume ctx c = inr (n, c') ->
      class_of n = CDecoratedFunc ->
      Block_loop Statement_consume (S fuel) ctx None child_nodes c
      = Block_loop Statement_consume fuel ctx None (child_nodes +++ [n]) c'
      /\ forall expect,
           is_ParseError
             (Program_loop Statement_consume (S fuel) ctx expect None
                child_nodes c))
  /\ first_in_block (Standin.build decorated_in_block) = Some CDecoratedFunc
  /\ Standin.build func_in_block
     = inl (ParseError
              ("Unexpected Func definition at line 3. "
               ++ "Block and Function definitions must occur after an exit statement (e.g. exit, switch, jump)."))
  /\ Standin.build decorated_at_top
     = inl (ParseError
              ("Unexpected DecoratedFunc definition at line 0. "
               ++ "Block and Function definitions must occur after an exit statement (e.g Exit, switch, jump, router)."))
  /\ Standin.build decorated_after_exit
     = inl (ParseError
              ("Unexpected statement at line 3."
               ++ " Only Block and Function definitions should occure after a Exit.")).
Proof.
  split; [|repeat split; vm_compute; reflexivity].
  intros SC fuel ctx child_nodes c l n c' Hpeek Hl Hn Hclass. split.
  - eapply Block_loop_DecoratedFunc; eauto.
  - intros expect. eapply Program_loop_DecoratedFunc; eauto.
Qed.

End PlacementFacts.

(** ** The [if] statement *)

Module IfStatementFacts.
Import Gen GenFacts.

Local Open Scope string_scope.

Definition elif_label (N i : nat) : string :=
  "l" ++ str_nat N ++ "_elif_" ++ str_nat i.

Definition else_label (N : nat) : string := "l" ++ str_nat N ++ "_else".

(** [bz] to the target, [bnz] with the modifier [not]. *)
Definition jump (modifier : option string) (target : string) : string :=
  if is_not modifier then "bnz " ++ target else "bz " ++ target.

Definition modifier_of (n : Node) : option string :=
  match n with Elif _ m _ _ _ _ => m | _ => None end.

Definition condition_teal (n : Node) : list string :=
  match n with Elif _ _ c _ _ _ => e_teal c | _ => [] end.

Definition body_of (n : Node) : list Node :=
  match n with
  | IfThen _ _ _ cs | Elif _ _ _ _ _ cs | Else _ _ _ cs => cs
  | _ => []
  end.

(** The children of an [if] statement: the [if_then], the [elifs],
    the [else_] if there is one. *)
Definition branches (t : Node) (es : list Node) (el : option Node)
  : list Node :=
  t :: es +++ match el with Some e => [e] | None => [] end.

Definition standard (t : Node) (es : list Node) (el : option Node) : Prop :=
  class_of t = CIfThen
  /\ Forall (fun e => class_of e = CElif) es
  /\ match el with Some e => class_of e = CElse | None => True end.

Definition has_some {A} (o : option A) : bool :=
  match o with Some _ => true | None => false end.

Lemma filter_all {A} (f : A -> bool) l :
  Forall (fun x => f x = true) l -> filter f l = l.
Proof. induction 1; simpl; [reflexivity|]. now rewrite H, IHForall. Qed.

Lemma filter_none {A} (f : A -> bool) l :
  Forall (fun x => f x = false) l -> filter f l = [].
Proof. induction 1; simpl; [reflexivity|]. now rewrite H. Qed.

Lemma of_class_map {W} (w : Node -> W) c cs :
  filter (fun nw : Node * W => NodeClass_eqb (class_of (fst nw)) c)
    (map (fun k => (k, w k)) cs)
  = map (fun k => (k, w k))
      (filter (fun k => NodeClass_eqb (class_of k) c) cs).
Proof.
  induction cs as [|k cs IH]; simpl; [reflexivity|].
  destruct (NodeClass_eqb (class_of k) c); simpl; now rewrite IH.
Qed.

Lemma class_filter_same c l :
  Forall (fun e => class_of e = c) l ->
  filter (fun k => NodeClass_eqb (class_of k) c) l = l.
Proof.
  intros H. apply filter_all. eapply Forall_impl; [|exact H].
  intros e ->. now destruct c.
Qed.

Lemma class_filter_other c c' l :
  NodeClass_eqb c' c = false ->
  Forall (fun e => class_of e = c') l ->
  filter (fun k => NodeClass_eqb (class_of k) c) l = [].
Proof.
  intros Hc H. apply filter_none. eapply Forall_impl; [|exact H].
  now intros e ->.
Qed.

(** The views of the children of a standard [if] statement. *)
Lemma standard_views t es el :
  standard t es el ->
  filter (fun k => NodeClass_eqb (class_of k) CIfThen) (branches t es el) = [t]
  /\ filter (fun k => NodeClass_eqb (class_of k) CElif) (branches t es el) = es
  /\ filter (fun k => NodeClass_eqb (class_of k) CElse) (branches t es el)
     = match el with Some e => [e] | None => [] end.
Proof.
  intros (Ht & Hes & Hel). unfold branches. cbn [filter]. rewrite Ht.
  cbn [NodeClass_eqb]. rewrite !filter_app.
  rewrite (class_filter_same CElif es Hes).
  rewrite (class_filter_other CIfThen CElif es eq_refl Hes).
  rewrite (class_filter_other CElse CElif es eq_refl Hes).
  destruct el as [e|]; cbn [filter]; [rewrite Hel|]; cbn [NodeClass_eqb app];
    rewrite ?app_nil_r; auto.
Qed.

(** The lines of the elifs, from the elif number [i] on: the label,
    the comment, the condition, the jump to the next branch, the body,
    and the branch to the end unless the elif is the last branch. *)
Fixpoint elif_lines (N n : nat) (has_else : bool) (i : nat) (es : list Node)
  (bodies : list (list string)) : list string :=
  match es, bodies with
  | e :: es', body :: bodies' =>
      [label_of e ++ ":"; tl (src_of e)] +++ condition_teal e
      +++ [jump (modifier_of e) (Process.next_label_of e)] +++ body
      +++ (if negb (Z.of_nat i =? Z.of_nat n - 1)%Z || has_else
           then ["b " ++ end_label N] else [])
      +++ elif_lines N n has_else (S i) es' bodies'
  | _, _ => []
  end.

Definition else_lines (el : option Node) (body : list string) : list string :=
  match el with
  | Some e => [label_of e ++ ":"; tl (src_of e)] +++ body
  | None => []
  end.

(** The lines of a standard [if] statement. *)
Definition IfStatement_lines (src : Src) (modifier : option string)
  (condition : Expression) (N : nat) (next_label : string)
  (es : list Node) (el : option Node)
  (then_body : list string) (elif_bodies : list (list string))
  (else_body : list string) : list string :=
  [tl src] +++ e_teal condition +++ [jump modifier next_label]
  +++ ["// then:"] +++ then_body
  +++ (if negb (List.length es =? 0)%nat || has_some el
       then ["b " ++ end_label N] else [])
  +++ elif_lines N (List.length es) (has_some el) 0 es elif_bodies
  +++ else_lines el else_body
  +++ [end_label N ++ ":"].

Section Layout.

Variable get_block : Src -> string -> option string.
Variable lookup_func : Src -> string -> option FuncAttrs.
Variable type_name : TealishType -> string.
Variable type_str : TealishType -> string.

Local Abbreviation write_teal :=
  (write_teal get_block lookup_func type_name type_str).

Local Abbreviation kids := (map (fun c => (c, write_teal c))).

(** The lines [lines] are what the statements [cs] write, from some
    state of the writer. *)
Definition written_by (cs : list Node) (lines : list string) : Prop :=
  exists st st',
    write_children (kids cs) st = Some st'
    /\ texts_of st' = texts_of st +++ lines.

Lemma write_children_body cs st st' :
  write_children (kids cs) st = Some st' ->
  exists body, written_by cs body /\ texts_of st' = texts_of st +++ body.
Proof.
  intros H.
  destruct (appends_texts _ _ _ (appends_write_children _ (kids_append _ _ _ _ cs)) H)
    as [body Hbody].
  exists body. split; [|assumption]. now exists st, st'.
Qed.

Lemma jump_write modifier target st st' :
  (if is_not modifier then write ("bnz " ++ target)
   else write ("bz " ++ target)) st = Some st' ->
  texts_of st' = texts_of st +++ [jump modifier target].
Proof.
  unfold jump. destruct (is_not modifier); apply write_texts.
Qed.

Lemma IfThen_layout n st st' :
  class_of n = CIfThen ->
  write_teal n st = Some st' ->
  exists body,
    written_by (body_of n) body
    /\ texts_of st' = texts_of st +++ ["// then:"] +++ body.
Proof.
  destruct n; try discriminate. intros _.
  cbn [Gen.write_teal body_of]. unfold IfThen_write_teal. intros H.
  seq_inv H.
  match goal with
  | H : write_children _ _ = Some _ |- _ =>
      apply write_children_body in H as (body & Hw & Hbody)
  end.
  step_texts. exists body. split; [assumption|]. chain_texts. reflexivity.
Qed.

Lemma Elif_layout n st st' :
  class_of n = CElif ->
  write_teal n st = Some st' ->
  exists body,
    written_by (body_of n) body
    /\ texts_of st' =
         texts_of st +++ condition_teal n
         +++ [jump (modifier_of n) (Process.next_label_of n)] +++ body.
Proof.
  destruct n; try discriminate. intros _.
  cbn [Gen.write_teal body_of condition_teal modifier_of
       Process.next_label_of].
  unfold Elif_write_teal. intros H. seq_inv H.
  match goal with
  | H : write_children _ _ = Some _ |- _ =>
      apply write_children_body in H as (body & Hw & Hbody)
  end.
  match goal with
  | H : (if is_not _ then _ else _) _ = Some _ |- _ => apply jump_write in H
  end.
  step_texts. exists body. split; [assumption|]. chain_texts. reflexivity.
Qed.

Lemma Else_layout n st st' :
  class_of n = CElse ->
  write_teal n st = Some st' ->
  exists body,
    written_by (body_of n) body /\ texts_of st' = texts_of st +++ body.
Proof.
  destruct n; try discriminate. intros _.
  cbn [Gen.write_teal body_of]. unfold Else_write_teal.
  apply write_children_body.
Qed.

(** [writer.level += 1; writer.write(self, f"b {self.end_label}");
    writer.level -= 1] *)
Definition b_end (N : nat) : W :=
  sequence [ level_up; write ("b " ++ end_label N); level_down ].

Lemma b_end_texts N (b : bool) st st' :
  (if b then b_end N else skip) st = Some st' ->
  texts_of st' = texts_of st +++ (if b then ["b " ++ end_label N] else []).
Proof.
  destruct b; intros H.
  - unfold b_end in H. seq_inv H. step_texts. chain_texts. reflexivity.
  - apply skip_texts in H. now rewrite app_nil_r.
Qed.

(** [for i, n in enumerate(self.elifs): ...] *)
Definition write_elif (N n : nat) (has_else : bool)
  (inw : nat * (Node * W)) : W :=
  let '(i, (e, w)) := inw in
  sequence
    [ write (label_of e ++ ":");
      write (tl (src_of e));
      level_up;
      w;
      (if negb (Z.eqb (Z.of_nat i) (Z.of_nat n - 1)) || has_else
       then b_end N else skip);
      level_down ].

Lemma elifs_layout N n has_else : forall es i st st',
  Forall (fun e => class_of e = CElif) es ->
  sequence (map (write_elif N n has_else)
              (combine (seq i (List.length es)) (kids es))) st = Some st' ->
  exists bodies,
    Forall2 written_by (map body_of es) bodies
    /\ texts_of st' = texts_of st +++ elif_lines N n has_else i es bodies.
Proof.
  induction es as [|e es IH]; intros i st st' Hes H.
  - apply skip_texts in H. exists []. split; [constructor|].
    now rewrite app_nil_r.
  - inversion Hes as [|? ? He Hes']; subst.
    cbn [List.length seq map combine sequence] in H.
    apply andThen_inv in H as (st1 & H1 & H).
    destruct (IH _ _ _ Hes' H) as (bodies & Hbodies & Htexts).
    unfold write_elif in H1. seq_inv H1.
    match goal with
    | H : write_teal e _ = Some _ |- _ =>
        apply (Elif_layout e _ _ He) in H as (body & Hw & Hbody)
    end.
    match goal with
    | H : (if _ then b_end N else skip) _ = Some _ |- _ =>
        apply b_end_texts in H
    end.
    step_texts. exists (body :: bodies). split; [now constructor|].
    rewrite Htexts. cbn [elif_lines]. chain_texts. reflexivity.
Qed.

(** The lines of a standard [if] statement, with the labels its
    branches carry. *)
Lemma IfStatement_layout src modifier condition N next_label t es el st st' :
  standard t es el ->
  write_teal
    (IfStatement src modifier condition N next_label (branches t es el)) st
  = Some st' ->
  exists then_body elif_bodies else_body,
    written_by (body_of t) then_body
    /\ Forall2 written_by (map body_of es) elif_bodies
    /\ match el with
       | Some e => written_by (body_of e) else_body
       | None => else_body = []
       end
    /\ texts_of st' =
         texts_of st
         +++ IfStatement_lines src modifier condition N next_label es el
               then_body elif_bodies else_body.
Proof.
  intros Hstd H. pose proof Hstd as (Ht & Hes & Hel).
  destruct (standard_views t es el Hstd) as (Vt & Ves & Vel).
  cbn [Gen.write_teal] in H. unfold IfStatement_write_teal, of_class in H.
  rewrite !of_class_map, Vt, Ves, Vel in H.
  rewrite length_map in H. cbv zeta in H.
  destruct el as [e|]; cbn [map last] in H.
  - change (sequence
              (map ?f (combine (seq 0 (List.length es)) (kids es))))
      with (sequence
              (map (write_elif N (List.length es) true)
                 (combine (seq 0 (List.length es)) (kids es)))) in H.
    rewrite orb_true_r in H.
    change (sequence [level_up; write ("b " ++ end_label N); level_down])
      with (if true then b_end N else skip) in H.
    seq_inv H.
    match goal with
    | H : write_teal t _ = Some _ |- _ =>
        apply (IfThen_layout t _ _ Ht) in H as (then_body & Hthen & Htb)
    end.
    match goal with
    | H : sequence (map _ _) _ = Some _ |- _ =>
        apply (elifs_layout _ _ _ _ _ _ _ Hes) in H
          as (elif_bodies & Helifs & Heb)
    end.
    match goal with
    | H : andThen (write (label_of e ++ ":")) _ _ = Some _ |- _ => seq_inv H
    end.
    match goal with
    | H : write_teal e _ = Some _ |- _ =>
        apply (Else_layout e _ _ Hel) in H as (else_body & Helse & Hlb)
    end.
    repeat match goal with
    | H : b_end N _ = Some _ |- _ => apply (b_end_texts N true) in H
    | H : (if is_not _ then _ else _) _ = Some _ |- _ => apply jump_write in H
    end.
    step_texts. exists then_body, elif_bodies, else_body.
    repeat split; try assumption.
    unfold IfStatement_lines, else_lines. cbn [has_some].
    rewrite orb_true_r. chain_texts. reflexivity.
  - change (sequence
              (map ?f (combine (seq 0 (List.length es)) (kids es))))
      with (sequence
              (map (write_elif N (List.length es) false)
                 (combine (seq 0 (List.length es)) (kids es)))) in H.
    change (sequence [level_up; write ("b " ++ end_label N); level_down])
      with (b_end N) in H.
    seq_inv H.
    match goal with
    | H : write_teal t _ = Some _ |- _ =>
        apply (IfThen_layout t _ _ Ht) in H as (then_body & Hthen & Htb)
    end.
    match goal with
    | H : sequence (map _ _) _ = Some _ |- _ =>
        apply (elifs_layout _ _ _ _ _ _ _ Hes) in H
          as (elif_bodies & Helifs & Heb)
    end.
    repeat match goal with
    | H : (if _ || false then b_end N else skip) _ = Some _ |- _ =>
        apply b_end_texts in H
    | H : (if is_not _ then _ else _) _ = Some _ |- _ => apply jump_write in H
    end.
    step_texts. exists then_body, elif_bodies, [].
    repeat split; try assumption.
    unfold IfStatement_lines, else_lines. cbn [has_some].
    chain_texts. reflexivity.
Qed.

End Layout.

(** *** The labels *)

(** The children of the statement as [IfStatement.consume] adds them:
    [add_if_then], then [add_elif] for each elif, then [add_else]. *)
Definition built (N : nat) (t : Node) (es : list Node) (el : option Node)
  : list Node :=
  let cs := fold_left (Build.add_elif N) es (Build.add_if_then [] t) in
  match el with Some e => Build.add_else N cs e | None => cs end.

(** The label of the branch after branch [i], where branch 0 is the
    [if_then] and branch [i + 1] is the elif number [i]. *)
Definition successor (N n : nat) (has_else : bool) (i : nat) : string :=
  if (i <? n)%nat then elif_label N i
  else if has_else then else_label N else end_label N.

Fixpoint label_elifs (N i : nat) (es : list Node) : list Node :=
  match es with
  | [] => []
  | e :: es' => Build.set_label e (elif_label N i) :: label_elifs N (S i) es'
  end.

Lemma class_of_set_label n l : class_of (Build.set_label n l) = class_of n.
Proof. now destruct n. Qed.

Lemma class_of_set_next_label n l :
  class_of (Process.set_next_label n l) = class_of n.
Proof. now destruct n. Qed.

Lemma count_class_app c l l' :
  Build.count_class c (l +++ l')
  = Build.count_class c l + Build.count_class c l'.
Proof. unfold Build.count_class. now rewrite filter_app, length_app. Qed.

Lemma fold_add_elif N : forall es acc,
  Forall (fun e => class_of e = CElif) es ->
  fold_left (Build.add_elif N) es acc
  = acc +++ label_elifs N (Build.count_class CElif acc) es.
Proof.
  induction es as [|e es IH]; intros acc Hes; cbn [fold_left label_elifs].
  - now rewrite app_nil_r.
  - inversion Hes as [|? ? He Hes']; subst. rewrite IH by assumption.
    unfold Build.add_elif. rewrite count_class_app, <- app_assoc.
    cbn [app]. do 3 f_equal.
    unfold Build.count_class at 2. cbn [filter].
    rewrite class_of_set_label, He. cbn. lia.
Qed.

Lemma built_branches N t es el :
  standard t es el ->
  built N t es el
  = branches (Build.set_label t "") (label_elifs N 0 es)
      (option_map (fun e => Build.set_label e (else_label N)) el).
Proof.
  intros (Ht & Hes & Hel). unfold built, branches.
  rewrite fold_add_elif by assumption.
  unfold Build.add_if_then. cbn [app].
  replace (Build.count_class CElif [Build.set_label t ""]) with 0
    by (unfold Build.count_class; cbn [filter];
        now rewrite class_of_set_label, Ht).
  destruct el as [e|]; cbn [option_map].
  - reflexivity.
  - now rewrite app_nil_r.
Qed.

(** The label of the first of the branches that follow, or the end
    label after the last branch. *)
Definition head_label (rest : list Node) (end_ : string) : string :=
  match rest with [] => end_ | b :: _ => label_of b end.

(** Each branch with the label of the branch after it. *)
Fixpoint link (bs : list Node) (end_ : string) : list Node :=
  match bs with
  | [] => []
  | a :: rest =>
      Process.set_next_label a (head_label rest end_) :: link rest end_
  end.

Definition is_branch (n : Node) : Prop := Process.is_branch n = true.

Lemma link_branches_cons a rest :
  exists x l, Process.link_branches (a :: rest) = x :: l.
Proof. destruct rest; cbn [Process.link_branches]; eauto. Qed.

Lemma close_last_link bs end_ :
  Forall is_branch bs ->
  Process.close_last (Process.link_branches bs) end_ = link bs end_.
Proof.
  induction 1 as [|a rest Ha Hrest IH]; [reflexivity|].
  destruct rest as [|b rest'].
  - cbn [Process.link_branches Process.close_last link head_label].
    now rewrite Ha.
  - inversion Hrest as [|? ? Hb _]; subst.
    change (link (a :: b :: rest') end_)
      with (Process.set_next_label a (label_of b) :: link (b :: rest') end_).
    rewrite <- IH.
    change (Process.link_branches (a :: b :: rest'))
      with ((if Process.is_branch a && Process.is_branch b
             then Process.set_next_label a (label_of b) else a)
            :: Process.link_branches (b :: rest')).
    rewrite Ha, Hb. cbn [andb].
    destruct (link_branches_cons b rest') as (x & l & ->).
    reflexivity.
Qed.

(** The elifs with their labels and the label of their successor. *)
Fixpoint link_elifs (N n : nat) (has_else : bool) (i : nat)
  (es : list Node) : list Node :=
  match es with
  | [] => []
  | e :: es' =>
      Process.set_next_label (Build.set_label e (elif_label N i))
        (successor N n has_else (S i))
      :: link_elifs N n has_else (S i) es'
  end.

Lemma label_of_set_label n l :
  Process.is_branch n = true -> label_of (Build.set_label n l) = l.
Proof. destruct n; try discriminate; reflexivity. Qed.

Lemma Elif_is_branch e : class_of e = CElif -> Process.is_branch e = true.
Proof. destruct e; try discriminate; reflexivity. Qed.

Lemma Else_is_branch e : class_of e = CElse -> Process.is_branch e = true.
Proof. destruct e; try discriminate; reflexivity. Qed.

Lemma IfThen_is_branch e : class_of e = CIfThen -> Process.is_branch e = true.
Proof. destruct e; try discriminate; reflexivity. Qed.

(** The label that follows the elifs from number [i] on. *)
Lemma head_label_elifs N n el es i :
  Forall (fun e => class_of e = CElif) es ->
  match el with Some e => class_of e = CElse | None => True end ->
  i + List.length es = n ->
  head_label
    (label_elifs N i es
     +++ match option_map (fun e => Build.set_label e (else_label N)) el with
         | Some e => [e]
         | None => []
         end)
    (end_label N)
  = successor N n (has_some el) i.
Proof.
  intros Hes Hel Hn. unfold successor.
  destruct es as [|e es]; cbn [label_elifs app head_label List.length] in *.
  - replace (i <? n)%nat with false by (symmetry; apply Nat.ltb_ge; lia).
    destruct el as [e|]; cbn [option_map head_label has_some];
      [|reflexivity].
    apply label_of_set_label. now apply Else_is_branch.
  - replace (i <? n)%nat with true by (symmetry; apply Nat.ltb_lt; lia).
    inversion Hes; subst. apply label_of_set_label. now apply Elif_is_branch.
Qed.

Lemma link_elifs_spec N n el : forall es i,
  Forall (fun e => class_of e = CElif) es ->
  match el with Some e => class_of e = CElse | None => True end ->
  i + List.length es = n ->
  link
    (label_elifs N i es
     +++ match option_map (fun e => Build.set_label e (else_label N)) el with
         | Some e => [e]
         | None => []
         end)
    (end_label N)
  = link_elifs N n (has_some el) i es
    +++ match el with
        | Some e =>
            [Process.set_next_label (Build.set_label e (else_label N))
               (end_label N)]
        | None => []
        end.
Proof.
  induction es as [|e es IH]; intros i Hes Hel Hn.
  - cbn [label_elifs link_elifs app]. destruct el; reflexivity.
  - inversion Hes as [|? ? He Hes']; subst.
    cbn [label_elifs link_elifs app link List.length] in *.
    rewrite (head_label_elifs N (i + S (List.length es)) el es (S i))
      by (auto; lia).
    rewrite IH by (auto; lia). reflexivity.
Qed.

(** The branches after [IfStatement.process] has linked them. *)
Definition labelled (N : nat) (t : Node) (es : list Node) (el : option Node)
  : list Node :=
  branches
    (Process.set_next_label (Build.set_label t "")
       (successor N (List.length es) (has_some el) 0))
    (link_elifs N (List.length es) (has_some el) 0 es)
    (option_map
       (fun e =>
          Process.set_next_label (Build.set_label e (else_label N))
            (end_label N))
       el).

Lemma is_branch_set_label n l :
  Process.is_branch n = true -> Process.is_branch (Build.set_label n l) = true.
Proof. destruct n; try discriminate; reflexivity. Qed.

Lemma label_elifs_branches N : forall es i,
  Forall (fun e => class_of e = CElif) es ->
  Forall is_branch (label_elifs N i es).
Proof.
  induction es as [|e es IH]; intros i Hes; cbn [label_elifs];
    [constructor|].
  inversion Hes; subst. constructor; [|auto].
  now apply is_branch_set_label, Elif_is_branch.
Qed.

Lemma IfStatement_labels_built N next_label t es el :
  standard t es el ->
  Process.IfStatement_labels N next_label (built N t es el)
  = (labelled N t es el, successor N (List.length es) (has_some el) 0).
Proof.
  intros Hstd. pose proof Hstd as (Ht & Hes & Hel).
  rewrite (built_branches N t es el Hstd).
  unfold Process.IfStatement_labels, labelled. f_equal.
  - rewrite close_last_link.
    + unfold branches. cbn [link].
      rewrite (head_label_elifs N (List.length es) el es 0) by auto.
      rewrite (link_elifs_spec N (List.length es)) by auto.
      destruct el; reflexivity.
    + unfold branches. constructor.
      * now apply is_branch_set_label, IfThen_is_branch.
      * apply Forall_app. split; [now apply label_elifs_branches|].
        destruct el as [e|]; cbn [option_map]; constructor; [|constructor].
        now apply is_branch_set_label, Else_is_branch.
  - rewrite <- (head_label_elifs N (List.length es) el es 0) by auto.
    unfold branches. cbn [List.length nth_error].
    set (rest := label_elifs N 0 es +++ _).
    assert (Hrest : Forall is_branch rest).
    { apply Forall_app. split; [now apply label_elifs_branches|].
      destruct el as [e|]; cbn [option_map]; constructor; [|constructor].
      now apply is_branch_set_label, Else_is_branch. }
    destruct rest as [|b rest']; [reflexivity|].
    inversion Hrest as [|? ? Hb _]; subst.
    cbn [List.length Nat.ltb Nat.leb nth_error head_label]. now rewrite Hb.
Qed.

(** *** [process] keeps the branches and their labels *)

(** Two nodes that differ by their bodies and by [next_label] only. *)
Definition same_branch (a b : Node) : Prop :=
  class_of a = class_of b /\ src_of a = src_of b /\ label_of a = label_of b
  /\ modifier_of a = modifier_of b /\ condition_teal a = condition_teal b.

Lemma same_branch_refl a : same_branch a a.
Proof. repeat split. Qed.

Lemma same_branch_trans a b c :
  same_branch a b -> same_branch b c -> same_branch a c.
Proof.
  intros (H1 & H2 & H3 & H4 & H5) (G1 & G2 & G3 & G4 & G5).
  repeat split; congruence.
Qed.

Lemma same_branch_sym a b : same_branch a b -> same_branch b a.
Proof. intros (H1 & H2 & H3 & H4 & H5). repeat split; congruence. Qed.

Lemma same_branch_set_next_label a l :
  same_branch a (Process.set_next_label a l).
Proof. destruct a; repeat split. Qed.

Lemma same_branch_is_branch a b :
  same_branch a b -> Process.is_branch a = true -> Process.is_branch b = true.
Proof.
  intros (H & _). unfold Process.is_branch, isinstance. now rewrite H.
Qed.

Lemma next_label_of_set_next_label a l :
  Process.is_branch a = true ->
  Process.next_label_of (Process.set_next_label a l) = l.
Proof. destruct a; try discriminate; reflexivity. Qed.

Section Processing.

Variable get_type_instance : string -> option TealishType.
Variable get_struct : string -> option TealishType.
Variable can_hold : TealishType -> ExprType -> bool.
Variable can_hold_with_cast : TealishType -> ExprType -> bool.
Variable type_str : TealishType -> string.
Variable expr_type_str : ExprType -> string.
Variable lookup_func : Src -> string -> option FuncAttrs.
Variable parse_expression : string -> option Expression.

Local Abbreviation process :=
  (Process.process get_type_instance get_struct can_hold can_hold_with_cast
     type_str expr_type_str lookup_func parse_expression).

(** The [process] of a branch answers the branch with its statements
    processed. *)
Lemma process_branch parent n st n' st' :
  Process.is_branch n = true ->
  process parent n st = inr (n', st') ->
  same_branch n n'.
Proof.
  destruct n; try discriminate; intros _; cbn [Process.process];
    unfold Process.IfThen_process, Process.Elif_process,
      Process.Else_process, Process.bind, Process.ret;
    repeat match goal with
           | |- context [match ?m ?s with inl _ => _ | inr _ => _ end] =>
               destruct (m s) as [?|[? ?]]; try discriminate
           end;
    intros H; inversion H; subst; repeat split.
Qed.

(** A child that was processed is the same branch. *)
Definition kept (x : Node * Process.M Node) (o : option Node) : Prop :=
  match o with
  | None => True
  | Some n' => same_branch (fst x) n'
  end.

Definition keeps_branch (x : Node * Process.M Node) : Prop :=
  forall s n' s', snd x s = inr (n', s') -> same_branch (fst x) n'.

Lemma runM_selected (sel : nat -> Node -> bool) :
  forall (l : list (nat * (Node * Process.M Node))) st r st',
    Forall keeps_branch (map snd l) ->
    Process.runM
      (map (fun x : nat * (Node * Process.M Node) =>
              let '(i, (n, m)) := x in
              if sel i n
              then Process.bind m (fun n' => Process.ret (Some n'))
              else Process.ret None) l) st
    = inr (r, st') ->
    Forall2 kept (map snd l) r.
Proof.
  induction l as [|[i [n m]] l IH]; intros st r st' Hl H.
  - inversion H; subst. constructor.
  - inversion Hl as [|? ? Hx Hl']; subst.
    cbn [map Process.runM] in H. unfold Process.bind at 1 in H.
    destruct (sel i n).
    + unfold Process.bind at 1 in H.
      destruct (m st) as [?|[n' st1]] eqn:Em; [discriminate|].
      unfold Process.ret at 1 in H. unfold Process.bind at 1 in H.
      match type of H with
      | match ?run with inl _ => _ | inr _ => _ end = _ =>
          destruct run as [?|[r' st2]] eqn:Er; [discriminate|]
      end.
      inversion H; subst. cbn [map snd]. constructor; [|eauto].
      exact (Hx _ _ _ Em).
    + unfold Process.ret at 1 in H. unfold Process.bind at 1 in H.
      match type of H with
      | match ?run with inl _ => _ | inr _ => _ end = _ =>
          destruct run as [?|[r' st2]] eqn:Er; [discriminate|]
      end.
      inversion H; subst. cbn [map snd]. constructor; [exact I|eauto].
Qed.

Lemma map_snd_combine_seq {A} (cs : list A) : forall k,
  map snd (combine (seq k (List.length cs)) cs) = cs.
Proof.
  induction cs as [|c cs IH]; intros k; [reflexivity|].
  cbn [List.length seq combine map snd]. now rewrite IH.
Qed.

Lemma process_selected_kept sel cs st r st' :
  Forall keeps_branch cs ->
  Process.process_selected sel cs st = inr (r, st') ->
  Forall2 kept cs r.
Proof.
  intros Hcs H. unfold Process.process_selected in H.
  rewrite <- (map_snd_combine_seq cs 0) at 1.
  eapply runM_selected; [|exact H]. now rewrite map_snd_combine_seq.
Qed.

Lemma merge_processed_kept : forall linked cs r1 r2 r3,
  Forall2 (fun l (x : Node * Process.M Node) =>
             same_branch (fst x) l /\ Process.is_branch (fst x) = true)
    linked cs ->
  Forall2 kept cs r1 -> Forall2 kept cs r2 -> Forall2 kept cs r3 ->
  Forall2 (fun l k' =>
             same_branch l k'
             /\ Process.next_label_of k' = Process.next_label_of l)
    linked (Process.merge_processed linked r1 r2 r3).
Proof.
  induction linked as [|l linked IH]; intros cs r1 r2 r3 H0 H1 H2 H3.
  - constructor.
  - inversion H0 as [|? x ? cs' [Hlx Hx] H0']; subst.
    inversion H1 as [|? a ? r1' Ha H1']; subst.
    inversion H2 as [|? b ? r2' Hb H2']; subst.
    inversion H3 as [|? c ? r3' Hc H3']; subst.
    cbn [Process.merge_processed]. constructor; [|eauto].
    assert (Hset : forall n', same_branch (fst x) n' ->
              same_branch l
                (Process.set_next_label n' (Process.next_label_of l))
              /\ Process.next_label_of
                   (Process.set_next_label n' (Process.next_label_of l))
                 = Process.next_label_of l).
    { intros n' Hn'. split.
      - eapply same_branch_trans; [apply same_branch_sym; exact Hlx|].
        eapply same_branch_trans; [exact Hn'|].
        apply same_branch_set_next_label.
      - apply next_label_of_set_next_label.
        eapply same_branch_is_branch; eauto. }
    destruct a as [n'|]; [now apply Hset|].
    destruct b as [n'|]; [now apply Hset|].
    destruct c as [n'|]; [now apply Hset|].
    split; [apply same_branch_refl|reflexivity].
Qed.

Lemma Forall2_map_right {A B C} (P : A -> C -> Prop) (f : B -> C) l l' :
  Forall2 (fun a b => P a (f b)) l l' -> Forall2 P l (map f l').
Proof. induction 1; cbn [map]; constructor; auto. Qed.

Lemma link_same : forall bs end_,
  Forall is_branch bs ->
  Forall2 (fun l o => same_branch o l /\ Process.is_branch o = true)
    (link bs end_) bs.
Proof.
  induction bs as [|a bs IH]; intros end_ H; [constructor|].
  inversion H; subst. cbn [link]. constructor; [|auto].
  split; [apply same_branch_set_next_label|assumption].
Qed.

Lemma built_is_branch N t es el :
  standard t es el -> Forall is_branch (built N t es el).
Proof.
  intros Hstd. pose proof Hstd as (Ht & Hes & Hel).
  rewrite (built_branches N t es el Hstd). unfold branches. constructor.
  - now apply is_branch_set_label, IfThen_is_branch.
  - apply Forall_app. split; [now apply label_elifs_branches|].
    destruct el as [e|]; cbn [option_map]; constructor; [|constructor].
    now apply is_branch_set_label, Else_is_branch.
Qed.

(** [IfStatement.process] on the children as they were built: the
    statement jumps to the label of its second branch, and its
    branches are the linked ones, with their statements processed. *)
Lemma IfStatement_process_built parent src modifier condition N next_label
  t es el st node' st' :
  standard t es el ->
  process parent
    (IfStatement src modifier condition N next_label (built N t es el)) st
  = inr (node', st') ->
  exists cs',
    node' = IfStatement src modifier condition N
              (successor N (List.length es) (has_some el) 0) cs'
    /\ Forall2 (fun l k' =>
                  same_branch l k'
                  /\ Process.next_label_of k' = Process.next_label_of l)
         (labelled N t es el) cs'.
Proof.
  intros Hstd H. cbn [Process.process] in H.
  unfold Process.IfStatement_process in H.
  rewrite map_map in H. cbn [fst] in H. rewrite map_id in H.
  rewrite (IfStatement_labels_built N next_label t es el Hstd) in H.
  set (cs := map (fun c => (c, process src c)) (built N t es el)) in H.
  assert (Hkeeps : Forall keeps_branch cs).
  { unfold cs. apply Forall_map.
    eapply Forall_impl; [|exact (built_is_branch N t es el Hstd)].
    intros k Hk s n' s' Hp. cbn [fst snd] in *.
    eapply process_branch; eauto. }
  assert (Hlinked : Forall2
            (fun l (x : Node * Process.M Node) =>
               same_branch (fst x) l /\ Process.is_branch (fst x) = true)
            (labelled N t es el) cs).
  { pose proof (IfStatement_labels_built N next_label t es el Hstd) as E.
    unfold Process.IfStatement_labels in E. inversion E as [[E1 E2]].
    rewrite E1.
    rewrite close_last_link in E1 by now apply built_is_branch.
    rewrite <- E1. unfold cs. apply Forall2_map_right. cbn [fst].
    apply link_same. now apply built_is_branch. }
  destruct cs as [|c0 cs0] eqn:Ecs.
  { inversion Hlinked. }
  rewrite <- Ecs in *. clear Ecs c0 cs0.
  unfold Process.bind in H.
  destruct (Process.process_expr condition st) as [?|[? st0]];
    [discriminate|].
  destruct (Process.process_selected _ cs st0) as [?|[r1 st1]] eqn:E1;
    [discriminate|].
  destruct (Process.process_selected _ cs st1) as [?|[r2 st2]] eqn:E2;
    [discriminate|].
  destruct (Process.process_selected _ cs st2) as [?|[r3 st3]] eqn:E3;
    [discriminate|].
  unfold Process.ret in H.
  exists (Process.merge_processed (labelled N t es el) r1 r2 r3).
  split; [congruence|].
  eapply merge_processed_kept; eauto using process_selected_kept.
Qed.

End Processing.

(** *** The lines with their labels *)

(** The lines of the elifs from number [i] on, of [n] elifs. *)
Fixpoint elif_layout (N n : nat) (has_else : bool) (i : nat) (es : list Node)
  (bodies : list (list string)) : list string :=
  match es, bodies with
  | e :: es', body :: bodies' =>
      [elif_label N i ++ ":"; tl (src_of e)] +++ condition_teal e
      +++ [jump (modifier_of e) (successor N n has_else (S i))] +++ body
      +++ (if (S i <? n)%nat || has_else then ["b " ++ end_label N] else [])
      +++ elif_layout N n has_else (S i) es' bodies'
  | _, _ => []
  end.

(** The lines of the [if] statement number [N]: the branch to the end
    label follows the body of a branch when another branch follows. *)
Definition IfStatement_layout_lines (src : Src) (modifier : option string)
  (condition : Expression) (N : nat) (es : list Node) (el : option Node)
  (then_body : list string) (elif_bodies : list (list string))
  (else_body : list string) : list string :=
  let n := List.length es in
  let has_else := has_some el in
  [tl src] +++ e_teal condition
  +++ [jump modifier (successor N n has_else 0)]
  +++ ["// then:"] +++ then_body
  +++ (if (0 <? n)%nat || has_else then ["b " ++ end_label N] else [])
  +++ elif_layout N n has_else 0 es elif_bodies
  +++ match el with
      | Some e => [else_label N ++ ":"; tl (src_of e)] +++ else_body
      | None => []
      end
  +++ [end_label N ++ ":"].

(** A processed branch: the linked branch with other statements. *)
Definition processed_as (l k' : Node) : Prop :=
  same_branch l k' /\ Process.next_label_of k' = Process.next_label_of l.

Lemma linked_elif_fields e a b :
  class_of e = CElif ->
  let l := Process.set_next_label (Build.set_label e a) b in
  class_of l = CElif /\ label_of l = a /\ src_of l = src_of e
  /\ modifier_of l = modifier_of e /\ condition_teal l = condition_teal e
  /\ Process.next_label_of l = b.
Proof. destruct e; try discriminate. intros _. repeat split. Qed.

Lemma elif_lines_layout N n has_else : forall es i es' bodies,
  Forall (fun e => class_of e = CElif) es ->
  Forall2 processed_as (link_elifs N n has_else i es) es' ->
  i + List.length es = n ->
  elif_lines N n has_else i es' bodies = elif_layout N n has_else i es bodies.
Proof.
  induction es as [|e es IH]; intros i es' bodies Hes H Hn.
  - inversion H; subst. reflexivity.
  - assert (Hi : i < n) by (cbn [List.length] in Hn; lia).
    assert (Hn' : S i + List.length es = n) by (cbn [List.length] in Hn; lia).
    clear Hn. revert Hi Hn'.
    inversion Hes as [|? ? He Hes']; subst.
    cbn [link_elifs] in H.
    inversion H as [|l e' ls es'' [Hsame Hnext] H']; subst.
    intros Hi Hn'.
    destruct (linked_elif_fields e (elif_label N i)
                (successor N n has_else (S i)) He)
      as (_ & Hlabel & Hsrc & Hmod & Hcond & Hnl).
    destruct Hsame as (_ & Ssrc & Slabel & Smod & Scond).
    destruct bodies as [|body bodies]; [reflexivity|].
    cbn [elif_lines elif_layout].
    rewrite <- Slabel, <- Ssrc, <- Smod, <- Scond, Hnext.
    rewrite Hlabel, Hsrc, Hmod, Hcond, Hnl.
    rewrite (IH (S i) es'' bodies Hes' H' Hn').
    replace (negb (Z.of_nat i =? Z.of_nat n - 1)%Z)
      with (S i <? n)%nat; [reflexivity|].
    destruct (Nat.ltb_spec (S i) n);
      destruct (Z.eqb_spec (Z.of_nat i) (Z.of_nat n - 1));
      try reflexivity; lia.
Qed.

Lemma processed_branches tL esL elL cs' :
  Forall2 processed_as (branches tL esL elL) cs' ->
  exists t' es' el',
    cs' = branches t' es' el'
    /\ processed_as tL t'
    /\ Forall2 processed_as esL es'
    /\ match elL, el' with
       | Some a, Some b => processed_as a b
       | None, None => True
       | _, _ => False
       end.
Proof.
  unfold branches. intros H.
  inversion H as [|? t' ? rest Ht Hrest]; subst.
  apply Forall2_app_inv_l in Hrest as (es' & tail & Hes & Htail & ->).
  destruct elL as [a|].
  - inversion Htail as [|? b ? ? Hb Hnil]; subst. inversion Hnil; subst.
    exists t', es', (Some b). auto.
  - inversion Htail; subst. exists t', es', None. auto.
Qed.

Lemma length_link_elifs N n has_else : forall es i,
  List.length (link_elifs N n has_else i es) = List.length es.
Proof. induction es; intros i; cbn [link_elifs List.length]; auto. Qed.

Lemma link_elifs_class N n has_else : forall es i,
  Forall (fun e => class_of e = CElif) es ->
  Forall (fun e => class_of e = CElif) (link_elifs N n has_else i es).
Proof.
  induction es as [|e es IH]; intros i H; cbn [link_elifs]; [constructor|].
  inversion H; subst. constructor; [|auto].
  now rewrite class_of_set_next_label, class_of_set_label.
Qed.

Lemma processed_class c ls ks :
  Forall (fun e => class_of e = c) ls ->
  Forall2 processed_as ls ks ->
  Forall (fun e => class_of e = c) ks.
Proof.
  intros Hls H. induction H as [|l k ls ks [[Hc _] _] _ IH];
    [constructor|].
  inversion Hls; subst. constructor; [congruence|auto].
Qed.

Section Emission.

Variable get_block : Src -> string -> option string.
Variable lookup_func : Src -> string -> option FuncAttrs.
Variable type_name : TealishType -> string.
Variable type_str : TealishType -> string.
Variable get_type_instance : string -> option TealishType.
Variable get_struct : string -> option TealishType.
Variable can_hold : TealishType -> ExprType -> bool.
Variable can_hold_with_cast : TealishType -> ExprType -> bool.
Variable expr_type_str : ExprType -> string.
Variable parse_expression : string -> option Expression.

Local Abbreviation process :=
  (Process.process get_type_instance get_struct can_hold can_hold_with_cast
     type_str expr_type_str lookup_func parse_expression).

Local Abbreviation write_teal :=
  (write_teal get_block lookup_func type_name type_str).

Local Abbreviation written_by :=
  (written_by get_block lookup_func type_name type_str).

(** The lines of a statement that was built and processed. *)
Lemma IfStatement_emission_layout (parent src : Src) (modifier : option string)
  (condition : Expression) (N : nat) (next_label : string)
  (t : Node) (es : list Node) (el : option Node)
  (st st' : Process.state) (node' : Node) (w w' : state) :
  standard t es el ->
  process parent
    (IfStatement src modifier condition N next_label (built N t es el)) st
  = inr (node', st') ->
  write_teal node' w = Some w' ->
  exists t' es' el' then_body elif_bodies else_body,
    node' = IfStatement src modifier condition N
              (successor N (List.length es) (has_some el) 0)
              (branches t' es' el')
    /\ written_by (body_of t') then_body
    /\ Forall2 written_by (map body_of es') elif_bodies
    /\ match el' with
       | Some e => written_by (body_of e) else_body
       | None => else_body = []
       end
    /\ texts_of w' =
         texts_of w
         +++ IfStatement_layout_lines src modifier condition N es el
               then_body elif_bodies else_body.
Proof.
  intros Hstd Hp Hw. pose proof Hstd as (Ht & Hes & Hel).
  eapply IfStatement_process_built in Hp as (cs' & -> & Hcs);
    [|exact Hstd].
  unfold labelled in Hcs.
  apply processed_branches in Hcs as (t' & es' & el' & -> & Ht' & Hes' & Hel').
  assert (Hlen : List.length es' = List.length es).
  { rewrite <- (Forall2_length Hes'). apply length_link_elifs. }
  assert (Hsome : has_some el' = has_some el).
  { destruct el, el'; cbn [option_map] in Hel'; try contradiction;
      reflexivity. }
  assert (Hstd' : standard t' es' el').
  { split; [|split].
    - destruct Ht' as [[Hc _] _]. rewrite <- Hc.
      now rewrite class_of_set_next_label, class_of_set_label.
    - eapply processed_class; [|exact Hes'].
      now apply link_elifs_class.
    - destruct el as [e|], el' as [e'|]; cbn [option_map] in Hel';
        try contradiction; [|exact I].
      destruct Hel' as [[Hc _] _]. rewrite <- Hc.
      now rewrite class_of_set_next_label, class_of_set_label. }
  eapply IfStatement_layout in Hw
    as (then_body & elif_bodies & else_body & Hthen & Helifs & Helse & Htexts);
    [|exact Hstd'].
  exists t', es', el', then_body, elif_bodies, else_body.
  repeat (split; [assumption || reflexivity|]).
  rewrite Htexts. f_equal.
  unfold IfStatement_lines, IfStatement_layout_lines. cbv zeta.
  rewrite Hlen, Hsome.
  rewrite (elif_lines_layout N (List.length es) (has_some el) es 0 es'
             elif_bodies Hes Hes' eq_refl).
  replace (negb (List.length es =? 0)%nat) with (0 <? List.length es)%nat
    by (destruct es; reflexivity).
  do 7 f_equal.
  destruct el as [e|], el' as [e'|]; cbn [option_map] in Hel';
    try contradiction; [|reflexivity].
  unfold else_lines.
  destruct Hel' as [(_ & Hsrc & Hlabel & _) _].
  rewrite <- Hsrc, <- Hlabel.
  pose proof (Else_is_branch e Hel) as Hb.
  destruct e; try discriminate. reflexivity.
Qed.

End Emission.

(** *** The conditional index *)

Definition count (c : TealishCompiler.t) : nat :=
  TealishCompiler.conditional_count c.

(** An action of the build pass that never lowers
    [compiler.conditional_count]. *)
Definition grows {A} (m : Build.B A) : Prop :=
  forall c x c', m c = inr (x, c') -> count c <= count c'.

(** An action that leaves it as it is. *)
Definition keeps {A} (m : Build.B A) : Prop :=
  forall c x c', m c = inr (x, c') -> count c' = count c.

Lemma keeps_grows {A} (m : Build.B A) : keeps m -> grows m.
Proof. intros H c x c' E. rewrite (H _ _ _ E). apply Nat.le_refl. Qed.

Lemma keeps_ret {A} (x : A) : keeps (Build.ret x).
Proof. intros c y c' H. now inversion H. Qed.

Lemma keeps_raise {A} e : keeps (@Build.raise A e).
Proof. intros c y c' H. discriminate. Qed.

Lemma keeps_fail {A} (f : TealishCompiler.t -> Error) :
  keeps (fun c => @inl Error (A * TealishCompiler.t) (f c)).
Proof. intros c y c' H. discriminate. Qed.

Lemma keeps_bind {A C} (m : Build.B A) (f : A -> Build.B C) :
  keeps m -> (forall x, keeps (f x)) -> keeps (Build.bind m f).
Proof.
  intros Hm Hf c y c' H. unfold Build.bind in H.
  destruct (m c) as [|[x c1]] eqn:E; [discriminate|].
  rewrite (Hf _ _ _ _ H). exact (Hm _ _ _ E).
Qed.

Lemma grows_bind {A C} (m : Build.B A) (f : A -> Build.B C) :
  grows m -> (forall x, grows (f x)) -> grows (Build.bind m f).
Proof.
  intros Hm Hf c y c' H. unfold Build.bind in H.
  destruct (m c) as [|[x c1]] eqn:E; [discriminate|].
  eapply Nat.le_trans; [exact (Hm _ _ _ E)|exact (Hf _ _ _ _ H)].
Qed.

Lemma keeps_peek : keeps Build.peek.
Proof. intros c y c' H. now inversion H. Qed.

Lemma keeps_current_line_no : keeps Build.current_line_no.
Proof. intros c y c' H. now inversion H. Qed.

Lemma keeps_consume_line : keeps Build.consume_line.
Proof.
  intros c y c' H. unfold Build.consume_line in H.
  destruct (nth_error _ _); inversion H; reflexivity.
Qed.

Lemma keeps_the_line l : keeps (Build.the_line l).
Proof. destruct l; [apply keeps_ret|apply keeps_raise]. Qed.

(** [compiler.conditional_count += 1] *)
Lemma next_conditional_spec c :
  exists c',
    Build.next_conditional c = inr (count c, c') /\ count c' = S (count c).
Proof. eexists. split; reflexivity. Qed.

Lemma grows_next_conditional : grows Build.next_conditional.
Proof.
  intros c y c' H. destruct (next_conditional_spec c) as (c1 & E & Hc).
  rewrite E in H. inversion H; subst. rewrite Hc. auto.
Qed.

Ltac keeps_step :=
  match goal with
  | |- keeps (Build.ret _) => apply keeps_ret
  | |- keeps (Build.raise _) => apply keeps_raise
  | |- keeps (fun _ => inl _) => apply keeps_fail
  | |- keeps Build.peek => apply keeps_peek
  | |- keeps Build.current_line_no => apply keeps_current_line_no
  | |- keeps Build.consume_line => apply keeps_consume_line
  | |- keeps (Build.the_line _) => apply keeps_the_line
  | |- keeps (Build.bind _ _) => apply keeps_bind; [|intros ?]
  | |- keeps (match ?x with _ => _ end) => destruct x
  | |- keeps (let _ := _ in _) => progress cbv zeta
  end.

Lemma keeps_peek_is l : keeps (Build.peek_is l).
Proof. unfold Build.peek_is. repeat keeps_step. Qed.

Lemma keeps_peek_startswith l : keeps (Build.peek_startswith l).
Proof. unfold Build.peek_startswith. repeat keeps_step. Qed.

Lemma keeps_consume_str : keeps Build.consume_str.
Proof. unfold Build.consume_str. repeat keeps_step. Qed.

Lemma keeps_init pattern l : keeps (Build.init pattern l).
Proof. unfold Build.init. repeat keeps_step. Qed.

Lemma keeps_add_child allowed n : keeps (Build.add_child allowed n).
Proof. unfold Build.add_child. repeat keeps_step. Qed.

Lemma keeps_mapB {A C} (f : A -> Build.B C) l :
  (forall a, keeps (f a)) -> keeps (Build.mapB f l).
Proof.
  intros Hf. induction l as [|a l IH]; cbn [Build.mapB]; repeat keeps_step;
    auto.
Qed.

Create HintDb grows.

#[local] Hint Resolve keeps_peek_is keeps_peek_startswith keeps_consume_str
  keeps_init keeps_add_child keeps_ret keeps_raise keeps_peek
  keeps_current_line_no keeps_consume_line keeps_the_line
  grows_next_conditional : grows.

Ltac keeps_auto :=
  repeat first [ keeps_step | solve [auto with grows] ].

Ltac grows_step :=
  match goal with
  | |- grows (Build.bind _ _) => apply grows_bind; [|intros ?]
  | |- grows (match ?x with _ => _ end) => destruct x
  | |- grows (let _ := _ in _) => progress cbv zeta
  | |- grows _ => solve [auto with grows]
  | |- grows _ => apply keeps_grows; solve [keeps_auto]
  end.

Ltac grows_auto := repeat grows_step.

Section Growth.

Variable parse_expression : string -> option Expression.
Variable get_type_instance : string -> option TealishType.
Variable literal_type : string -> ExprType.

Lemma keeps_parse_expr raw : keeps (Build.parse_expr parse_expression raw).
Proof. unfold Build.parse_expr. keeps_auto. Qed.

Lemma keeps_parse_optional_expr raw :
  keeps (Build.parse_optional_expr parse_expression raw).
Proof.
  unfold Build.parse_optional_expr. pose proof keeps_parse_expr. keeps_auto.
Qed.

Lemma keeps_type_instance n :
  keeps (Build.type_instance get_type_instance n).
Proof. unfold Build.type_instance. keeps_auto. Qed.

Hint Resolve keeps_parse_expr keeps_parse_optional_expr keeps_type_instance
  : grows.

Lemma keeps_LineStatement_consume ctx :
  keeps (Build.LineStatement_consume parse_expression literal_type ctx).
Proof.
  unfold Build.LineStatement_consume, Build.TealVersion_init,
    Build.Comment_init, Build.Blank_init, Build.Const_init, Build.Jump_init,
    Build.Return_init, Build.Break_init, Build.VarDeclaration_init,
    Build.BoxDeclaration_init, Build.StructOrBoxAssignment_init,
    Build.Assignment_init, Build.Exit_init, Build.Assert_init,
    Build.FunctionCallStatement_init.
  repeat first
    [ keeps_step | solve [auto with grows]
    | apply keeps_mapB; intros ? ].
Qed.

Section Loops.

Variable Statement_consume : Build.Ctx -> Build.B Node.
Hypothesis Statement_consume_grows : forall ctx, grows (Statement_consume ctx).

Hint Resolve Statement_consume_grows : grows.

Lemma grows_body_loop : forall fuel ctx allowed cs,
  grows (Build.body_loop Statement_consume fuel ctx allowed cs).
Proof.
  induction fuel as [|fuel IH]; intros; cbn [Build.body_loop]; grows_auto.
Qed.

Lemma grows_branch_loop : forall fuel ctx stops cs,
  grows (Build.branch_loop Statement_consume fuel ctx stops cs).
Proof.
  induction fuel as [|fuel IH]; intros; cbn [Build.branch_loop]; grows_auto.
Qed.

Lemma grows_Block_loop : forall fuel ctx exit_statement cs,
  grows (Build.Block_loop Statement_consume fuel ctx exit_statement cs).
Proof.
  induction fuel as [|fuel IH]; intros; cbn [Build.Block_loop]; grows_auto.
Qed.

Lemma grows_Switch_loop : forall fuel cs,
  grows (Build.Switch_loop parse_expression fuel cs).
Proof.
  induction fuel as [|fuel IH]; intros; cbn [Build.Switch_loop]; grows_auto.
Qed.

Lemma grows_Router_loop : forall fuel cs, grows (Build.Router_loop fuel cs).
Proof.
  induction fuel as [|fuel IH]; intros; cbn [Build.Router_loop]; grows_auto.
Qed.

Lemma grows_Teal_loop : forall fuel cs, grows (Build.Teal_loop fuel cs).
Proof.
  induction fuel as [|fuel IH]; intros; cbn [Build.Teal_loop]; grows_auto.
Qed.

Lemma grows_InnerTxn_loop : forall fuel cs,
  grows (Build.InnerTxn_loop parse_expression fuel cs).
Proof.
  induction fuel as [|fuel IH]; intros; cbn [Build.InnerTxn_loop];
    unfold Build.InnerTxnFieldSetter_init; grows_auto.
Qed.

Lemma grows_InnerGroup_loop : forall fuel ctx cs,
  grows (Build.InnerGroup_loop Statement_consume fuel ctx cs).
Proof.
  induction fuel as [|fuel IH]; intros; cbn [Build.InnerGroup_loop];
    grows_auto.
Qed.

Lemma grows_StructDefinition_loop : forall fuel cs,
  grows (Build.StructDefinition_loop fuel cs).
Proof.
  induction fuel as [|fuel IH]; intros; cbn [Build.StructDefinition_loop];
    grows_auto.
Qed.

Hint Resolve grows_body_loop grows_branch_loop grows_Block_loop
  grows_Switch_loop grows_Router_loop grows_Teal_loop grows_InnerTxn_loop
  grows_InnerGroup_loop grows_StructDefinition_loop : grows.

Lemma grows_IfThen_consume fuel ctx :
  grows (Build.IfThen_consume Statement_consume fuel ctx).
Proof. unfold Build.IfThen_consume. grows_auto. Qed.

Lemma grows_Elif_consume fuel ctx :
  grows (Build.Elif_consume parse_expression Statement_consume fuel ctx).
Proof. unfold Build.Elif_consume. grows_auto. Qed.

Lemma grows_Else_consume fuel ctx :
  grows (Build.Else_consume Statement_consume fuel ctx).
Proof. unfold Build.Else_consume. grows_auto. Qed.

Hint Resolve grows_IfThen_consume grows_Elif_consume grows_Else_consume
  : grows.

Lemma grows_IfStatement_loop : forall fuel ctx N cs,
  grows (Build.IfStatement_loop parse_expression Statement_consume fuel ctx
           N cs).
Proof.
  induction fuel as [|fuel IH]; intros; cbn [Build.IfStatement_loop];
    grows_auto.
Qed.

Hint Resolve grows_IfStatement_loop : grows.

Lemma grows_DecoratedFunc_loop : forall fuel ctx decorators,
  grows (Build.DecoratedFunc_loop get_type_instance Statement_consume fuel
           ctx decorators).
Proof.
  induction fuel as [|fuel IH]; intros; cbn [Build.DecoratedFunc_loop];
    unfold Build.Func_consume, Build.Decorator_consume;
    repeat first [ grows_step | apply keeps_grows, keeps_mapB; intros ?
                 | solve [auto with grows] ].
Qed.

Hint Resolve grows_DecoratedFunc_loop : grows.

(** [Statement.consume] on the line it dispatches on. *)
Lemma grows_Statement_dispatch fuel ctx :
  grows (Build.Statement_dispatch parse_expression get_type_instance
           literal_type Statement_consume fuel ctx).
Proof.
  pose proof keeps_LineStatement_consume.
  unfold Build.Statement_dispatch, Build.Block_consume, Build.Switch_consume,
    Build.Func_consume, Build.DecoratedFunc_consume,
    Build.IfStatement_consume, Build.WhileStatement_consume,
    Build.For_Statement_consume, Build.ForStatement_consume,
    Build.Teal_consume, Build.InnerGroup_consume, Build.InnerTxn_consume,
    Build.StructDefinition_consume, Build.Router_consume.
  repeat first [ grows_step | apply keeps_grows, keeps_mapB; intros ?
               | solve [auto with grows] | keeps_step ].
Qed.

(** [IfStatement.consume] takes the count as the index of the
    statement and leaves a higher count. *)
Lemma IfStatement_consume_index fuel ctx c n c' :
  Build.IfStatement_consume parse_expression Statement_consume fuel ctx c
  = inr (n, c') ->
  (exists src modifier condition cs,
      n = IfStatement src modifier condition (count c) "" cs)
  /\ count c < count c'.
Proof.
  unfold Build.IfStatement_consume. intros H.
  unfold Build.bind at 1 in H.
  destruct (Build.consume_str c) as [|[l c1]] eqn:E1; [discriminate|].
  apply keeps_consume_str in E1.
  unfold Build.bind at 1 in H.
  destruct (Build.init _ l c1) as [|[sg c2]] eqn:E2; [discriminate|].
  apply keeps_init in E2.
  unfold Build.bind at 1 in H.
  destruct (Build.parse_expr _ _ c2) as [|[condition c3]] eqn:E3;
    [discriminate|].
  apply keeps_parse_expr in E3.
  unfold Build.bind at 1 in H.
  destruct (next_conditional_spec c3) as (c4 & E4 & Hc4). rewrite E4 in H.
  cbv zeta in H. unfold Build.bind at 1 in H.
  destruct (Build.IfThen_consume _ _ _ c4) as [|[if_then c5]] eqn:E5;
    [discriminate|].
  apply grows_IfThen_consume in E5.
  unfold Build.bind at 1 in H.
  destruct (Build.IfStatement_loop _ _ _ _ _ _ c5) as [|[cs c6]] eqn:E6;
    [discriminate|].
  apply grows_IfStatement_loop in E6.
  inversion H; subst n c'. split.
  - assert (E : count c3 = count c) by congruence. rewrite E. eauto.
  - lia.
Qed.

End Loops.

(** The build pass never lowers the count. *)
Lemma grows_Statement_consume : forall fuel ctx,
  grows (Build.Statement_consume parse_expression get_type_instance
           literal_type fuel ctx).
Proof.
  induction fuel as [|fuel IH]; intros ctx; cbn [Build.Statement_consume].
  - apply keeps_grows, keeps_raise.
  - now apply grows_Statement_dispatch.
Qed.

End Growth.

Section Claim.

Variable get_block : Src -> string -> option string.
Variable lookup_func : Src -> string -> option FuncAttrs.
Variable type_name : TealishType -> string.
Variable type_str : TealishType -> string.
Variable get_type_instance : string -> option TealishType.
Variable get_struct : string -> option TealishType.
Variable can_hold : TealishType -> ExprType -> bool.
Variable can_hold_with_cast : TealishType -> ExprType -> bool.
Variable expr_type_str : ExprType -> string.
Variable parse_expression : string -> option Expression.
Variable literal_type : string -> ExprType.

Local Abbreviation process :=
  (Process.process get_type_instance get_struct can_hold can_hold_with_cast
     type_str expr_type_str lookup_func parse_expression).

Local Abbreviation write_teal :=
  (write_teal get_block lookup_func type_name type_str).

Local Abbreviation written_by :=
  (written_by get_block lookup_func type_name type_str).

Local Abbreviation Statement_consume :=
  (Build.Statement_consume parse_expression get_type_instance literal_type).

(** C6, amended. The [if] statement number [N], built from an
    [if_then], elifs and at most one [else], then processed, is
    written as: the condition, [bz] to the label of the next branch
    ([bnz] with the modifier [not]), the then-body, and the branch
    [b l{N}_end] only when an elif or an else follows; each elif with
    its label [l{N}_elif_{i}] before its condition, its jump to the
    branch after it, its body, and the branch to the end label when
    another branch follows; the label [l{N}_else] before the body of
    the else; and the label [l{N}_end] last.  [N] is the compiler's
    [conditional_count] when the statement is built, a count that the
    statement raises and that the build pass never lowers. *)
Theorem IfStatement_emission (parent src : Src) (modifier : option string)
  (condition : Expression) (N : nat) (next_label : string)
  (t : Node) (es : list Node) (el : option Node)
  (st st' : Process.state) (node' : Node) (w w' : state) :
  standard t es el ->
  process parent
    (IfStatement src modifier condition N next_label (built N t es el)) st
  = inr (node', st') ->
  write_teal node' w = Some w' ->
  (exists t' es' el' then_body elif_bodies else_body,
      node' = IfStatement src modifier condition N
                (successor N (List.length es) (has_some el) 0)
                (branches t' es' el')
      /\ written_by (body_of t') then_body
      /\ Forall2 written_by (map body_of es') elif_bodies
      /\ match el' with
         | Some e => written_by (body_of e) else_body
         | None => else_body = []
         end
      /\ texts_of w' =
           texts_of w
           +++ IfStatement_layout_lines src modifier condition N es el
                 then_body elif_bodies else_body)
  /\ (forall fuel fuel' ctx c n c',
         Build.IfStatement_consume parse_expression (Statement_consume fuel)
           fuel' ctx c = inr (n, c') ->
         (exists src modifier condition cs,
             n = IfStatement src modifier condition (count c) "" cs)
         /\ count c < count c')
  /\ (forall fuel ctx c n c',
         Statement_consume fuel ctx c = inr (n, c') -> count c <= count c').
Proof.
  intros Hstd Hp Hw. split; [|split].
  - eapply IfStatement_emission_layout; eauto.
  - intros fuel fuel' ctx c n c' H.
    eapply IfStatement_consume_index; [|exact H].
    intros ctx'. apply grows_Statement_consume.
  - intros fuel ctx c n c' H.
    exact (grows_Statement_consume _ _ _ fuel ctx c n c' H).
Qed.

End Claim.

(** *** Examples *)

Definition number (s : string) : Expression :=
  {| e_tealish := s; e_process := inr (One IntType);
     e_teal := ["pushint " ++ s] |}.

Definition assert_line (n : nat) (s : string) : Node :=
  Assert {| line_no := n; line := "assert(" ++ s ++ ")" |} (number s) None.

(** [if not 1:] with an [elif 2:] and an [else:]. *)
Definition example_lines : list string :=
  [ "if not 1:"; "assert(1)"; "elif 2:"; "assert(2)"; "else:"; "assert(4)";
    "end" ].

Definition example_then : Node :=
  IfThen {| line_no := 1; line := "" |} "" "" [assert_line 2 "1"].

Definition example_elifs : list Node :=
  [ Elif {| line_no := 3; line := "elif 2:" |} None (number "2") "" ""
      [assert_line 4 "2"] ].

Definition example_else : option Node :=
  Some (Else {| line_no := 5; line := "else:" |} "" "" [assert_line 6 "4"]).

Definition example_if : Node :=
  IfStatement {| line_no := 1; line := "if not 1:" |} (Some "not")
    (number "1") 0 ""
    (built 0 example_then example_elifs example_else).

(** The build pass gives the statement the children [built] names. *)
Example build_example :
  Standin.build example_lines
  = inr (Program {| line_no := 0; line := "" |} Scope.root [example_if]).
Proof. vm_compute. reflexivity. Qed.

Example compile_example :
  Standin.compile example_lines
  = inr [ "// tl:1: if not 1:"; "pushint 1"; "bnz l0_elif_0"; "// then:";
          "// tl:2: assert(1)"; "pushint 1"; "assert"; "b l0_end";
          "l0_elif_0:"; "// tl:3: elif 2:"; "pushint 2"; "bz l0_else";
          "// tl:4: assert(2)"; "pushint 2"; "assert"; "b l0_end";
          "l0_else:"; "// tl:5: else:"; "// tl:6: assert(4)"; "pushint 4";
          "assert"; "l0_end:" ].
Proof. vm_compute. reflexivity. Qed.

Definition example_state : Process.state :=
  {| Process.compiler := Build.start example_lines;
     Process.scopes := [Scope.root];
     Process.error_messages := [] |}.

Definition example_writer : state :=
  {| compiler := Build.start example_lines; writer := TealWriter.empty |}.

Lemma example_standard : standard example_then example_elifs example_else.
Proof. repeat split. repeat constructor. Qed.

Lemma IfStatement_emission_witness :
  match
    Process.process Standin.get_type_instance Standin.get_struct
      Standin.can_hold Standin.can_hold_with_cast Standin.type_str
      Standin.expr_type_str (fun _ _ => None) Standin.parse_expression
      {| line_no := 0; line := "" |} example_if example_state
  with
  | inl _ => False
  | inr (node', _) =>
      match
        write_teal (fun _ _ => None) (fun _ _ => None) Standin.type_str
          Standin.type_str node' example_writer
      with
      | None => False
      | Some w' =>
          exists then_body elif_bodies else_body,
            texts_of w' =
              texts_of example_writer
              +++ IfStatement_layout_lines
                    {| line_no := 1; line := "if not 1:" |} (Some "not")
                    (number "1") 0 example_elifs example_else
                    then_body elif_bodies else_body
      end
  end.
Proof.
  destruct (Process.process _ _ _ _ _ _ _ _ _ example_if example_state)
    as [e|[node' st']] eqn:Hp.
  - vm_compute in Hp. discriminate.
  - destruct (write_teal _ _ _ _ node' example_writer) as [w'|] eqn:Hw.
    + destruct (IfStatement_emission _ _ _ _ _ _ _ _ _ _ Standin.literal_type
                  _ _ _ _ _ _ _ _ _ _ _ _ _ _ example_standard Hp Hw)
        as ((t' & es' & el' & then_body & elif_bodies & else_body
             & _ & _ & _ & _ & Htexts) & _).
      now exists then_body, elif_bodies, else_body.
    + pose proof Hp as Hp'. vm_compute in Hp'. inversion Hp'; subst node'.
      vm_compute in Hw. discriminate.
Defined.

(** An [if] without elif and else: no branch to the end label is
    written after the then-body. *)
Lemma IfStatement_alone_has_no_branch_to_end :
  exists lines,
    Standin.compile ["if 1:"; "assert(1)"; "end"] = inr lines
    /\ lines = [ "// tl:1: if 1:"; "pushint 1"; "bz l0_end"; "// then:";
                 "// tl:2: assert(1)"; "pushint 1"; "assert"; "l0_end:" ]
    /\ ~ In "b l0_end" lines.
Proof.
  eexists. split; [vm_compute; reflexivity|]. split; [reflexivity|].
  cbn [In]. intros H.
  repeat (destruct H as [H|H]; [discriminate|]). exact H.
Qed.

End IfStatementFacts.

(** ** The line reader *)

Module ReaderFacts.
Import Re ReFacts Build.

Local Open Scope string_scope.

(** The compiler at another line. *)
Definition at_line (c : TealishCompiler.t) (n : nat) : TealishCompiler.t :=
  {| TealishCompiler.source_lines := TealishCompiler.source_lines c;
     TealishCompiler.line_no := n;
     TealishCompiler.conditional_count := TealishCompiler.conditional_count c;
     TealishCompiler.max_slot := TealishCompiler.max_slot c;
     TealishCompiler.use_inner_txns_macro :=
       TealishCompiler.use_inner_txns_macro c |}.

Lemma consume_line_at c l :
  nth_error (TealishCompiler.source_lines c) (TealishCompiler.line_no c)
  = Some l ->
  consume_line c = inr (Some l, at_line c (S (TealishCompiler.line_no c))).
Proof. intros H. unfold consume_line. now rewrite H. Qed.

Lemma peek_at c :
  peek c
  = inr (nth_error (TealishCompiler.source_lines c) (TealishCompiler.line_no c),
         c).
Proof. reflexivity. Qed.

Lemma at_line_at_line c n m : at_line (at_line c n) m = at_line c m.
Proof. reflexivity. Qed.

Lemma line_no_at_line c n : TealishCompiler.line_no (at_line c n) = n.
Proof. reflexivity. Qed.

(** A literal at the start of the string is matched and left behind. *)
Lemma run_lit {R} p s g (k : string -> groups -> option R) :
  run (lit p) (p ++ s) g k = k s g.
Proof.
  induction p as [|c p IH]; [reflexivity|].
  destruct p as [|c' p].
  - cbn [lit run append]. now rewrite Ascii.eqb_refl.
  - change (lit (String c (String c' p)))
      with (Seq (Chr c) (lit (String c' p))).
    rewrite run_Seq. cbn [append]. cbn [run]. rewrite Ascii.eqb_refl.
    apply IH.
Qed.

Lemma startswith_append : forall p l,
  startswith l p = true -> exists rest, l = p ++ rest.
Proof.
  induction p as [|x p IH]; intros l H.
  - now exists l.
  - destruct l as [|y l]; [discriminate|]. cbn [startswith] in H.
    apply andb_prop in H as [Hx Hl]. apply Ascii.eqb_eq in Hx. subst y.
    destruct (IH _ Hl) as [rest ->]. now exists rest.
Qed.

End ReaderFacts.

(** ** What the build pass returns *)

Module BuildFacts.
Import Build.

Local Open Scope string_scope.

(** [builds P m]: what the action [m] returns has the property [P]. *)
Definition builds {A} (P : A -> Prop) (m : B A) : Prop :=
  forall c x c', m c = inr (x, c') -> P x.

Lemma builds_bind {A C} (P : A -> Prop) (Q : C -> Prop) (m : B A)
  (f : A -> B C) :
  builds P m -> (forall x, P x -> builds Q (f x)) -> builds Q (bind m f).
Proof.
  intros Hm Hf c y c' H. unfold bind in H.
  destruct (m c) as [|[x c1]] eqn:E; [discriminate|].
  exact (Hf x (Hm _ _ _ E) _ _ _ H).
Qed.

Lemma builds_any {A} (m : B A) : builds (fun _ => True) m.
Proof. intros c x c' _. exact I. Qed.

Lemma builds_ret {A} (P : A -> Prop) (x : A) : P x -> builds P (ret x).
Proof. intros Hx c y c' H. inversion H; subst. exact Hx. Qed.

Lemma builds_raise {A} (P : A -> Prop) e : builds P (@raise A e).
Proof. intros c y c' H. discriminate. Qed.

Lemma builds_fail {A} (P : A -> Prop) (f : TealishCompiler.t -> Error) :
  builds P (fun c => @inl Error (A * TealishCompiler.t) (f c)).
Proof. intros c y c' H. discriminate. Qed.

Lemma forallb_snoc {A} (p : A -> bool) l x :
  forallb p l = true -> p x = true -> forallb p (l +++ [x]) = true.
Proof. intros Hl Hx. rewrite forallb_app, Hl. simpl. now rewrite Hx. Qed.

(** A step whose result is not a node. *)
Ltac builds_skip :=
  match goal with
  | |- builds _ (bind _ _) =>
      eapply builds_bind; [apply builds_any | intros ? _; cbv beta]
  end.

End BuildFacts.

(** ** The writer: what every [write_teal] keeps *)

Module WriterFacts.
Import Gen GenFacts.

Local Open Scope string_scope.

Definition level_of (st : state) : nat := TealWriter.level (writer st).

(** An action that, when it succeeds, leaves the indentation level of
    the writer as it found it. *)
Definition restores (w : W) : Prop :=
  forall st st', w st = Some st' -> level_of st' = level_of st.

Lemma restores_skip : restores skip.
Proof. intros st st' H. now inversion H. Qed.

Lemma restores_raise : restores raise.
Proof. intros st st' H. discriminate. Qed.

Lemma restores_write text : restores (write text).
Proof. intros st st' H. now inversion H. Qed.

Lemma restores_write_expr e : restores (write_expr e).
Proof.
  intros st st' H. inversion H; subst st'. unfold level_of. simpl.
  unfold TealWriter.write_expr, TealWriter.write_strs.
  apply fold_write_str.
Qed.

Lemma restores_write_list l : restores (write_list l).
Proof. intros st st' H. now inversion H. Qed.

Lemma restores_write_expr_one_line e : restores (write_expr_one_line e).
Proof. intros st st' H. now inversion H. Qed.

Lemma restores_set_macro b : restores (set_macro b).
Proof. intros st st' H. now inversion H. Qed.

Lemma level_up_level st st' :
  level_up st = Some st' -> level_of st' = level_of st + 1.
Proof. intros H. now inversion H. Qed.

Lemma level_down_level st st' :
  level_down st = Some st' -> level_of st' = level_of st - 1.
Proof. intros H. now inversion H. Qed.

Lemma restores_andThen a b : restores a -> restores b -> restores (andThen a b).
Proof.
  intros Ha Hb st st2 H. apply andThen_inv in H as (st1 & H1 & H2).
  rewrite (Hb _ _ H2). exact (Ha _ _ H1).
Qed.

Lemma restores_sequence l : Forall restores l -> restores (sequence l).
Proof.
  induction 1; simpl; [apply restores_skip | now apply restores_andThen].
Qed.

Lemma restores_if_macro a b : restores a -> restores b -> restores (if_macro a b).
Proof.
  intros Ha Hb st st' H. unfold if_macro in H.
  destruct (TealishCompiler.use_inner_txns_macro (compiler st)) as [[|]|];
    auto.
Qed.

Definition all_restore (cs : written) : Prop :=
  Forall (fun nw => restores (snd nw)) cs.

Lemma restores_write_children cs : all_restore cs -> restores (write_children cs).
Proof.
  intros H. apply restores_sequence. apply Forall_map.
  eapply Forall_impl; [|exact H]. auto.
Qed.

Lemma all_restore_of_class c cs : all_restore cs -> all_restore (of_class c cs).
Proof.
  unfold all_restore, of_class. rewrite !Forall_forall. intros H x Hx.
  apply filter_In in Hx as [Hx _]. auto.
Qed.

Lemma restores_last cs x w :
  all_restore cs -> last (map Some cs) None = Some (x, w) -> restores w.
Proof.
  intros H E. apply last_Some_In in E. unfold all_restore in H.
  rewrite Forall_forall in H. apply (H _ E).
Qed.

(** The steps of a run, each turned into what it does to the level. *)
Ltac restores_simple :=
  match goal with
  | |- restores skip => apply restores_skip
  | |- restores raise => apply restores_raise
  | |- restores (write _) => apply restores_write
  | |- restores (write_expr _) => apply restores_write_expr
  | |- restores (write_list _) => apply restores_write_list
  | |- restores (write_expr_one_line _) => apply restores_write_expr_one_line
  | |- restores (set_macro _) => apply restores_set_macro
  | |- restores (write_children _) =>
      apply restores_write_children; assumption
  | |- restores (if_macro _ _) => apply restores_if_macro
  | |- restores (sequence (map _ _)) =>
      apply restores_sequence, Forall_map_intro; intros ?; cbv beta
  | |- restores (sequence (repeat _ _)) =>
      apply restores_sequence, Forall_forall; intros ? ?H;
      apply repeat_spec in H; subst
  | |- restores (let _ := _ in _) => progress cbv zeta
  | |- restores (match ?x with _ => _ end) => destruct x
  | |- restores (let (_, _) := ?x in _) => destruct x
  | H : restores ?w |- restores ?w => exact H
  end.

Ltac restores_auto :=
  repeat first [ restores_simple | solve [restores_run] ]
with restores_run :=
  match goal with
  | |- restores (sequence (_ :: _)) => idtac
  | |- restores (andThen _ _) => idtac
  end;
  repeat match goal with
         | E : _ _ = Some _ |- _ => clear E
         | E : level_of _ = _ |- _ => clear E
         end;
  let st := fresh "st" in
  let st' := fresh "st'" in
  let H := fresh "H" in
  intros st st' H; seq_inv H;
  repeat
    match goal with
    | E : level_up _ = Some _ |- _ => apply level_up_level in E
    | E : level_down _ = Some _ |- _ => apply level_down_level in E
    | E : ?w ?s = Some ?s' |- _ =>
        let R := fresh "R" in
        assert (R : restores w) by restores_auto;
        apply R in E; clear R
    end;
  lia.

Lemma restores_Router_write_route lookup_func type_name src route :
  restores (Router_write_route lookup_func type_name src route).
Proof.
  unfold Router_write_route.
  destruct route; try apply restores_raise.
  match goal with
  | |- context [lookup_func src ?n] =>
      destruct (lookup_func src n) as [func|]; [|apply restores_raise]
  end.
  destruct (assoc "public" (f_attributes func)) as [public|];
    [|apply restores_raise].
  cbv zeta.
  match goal with
  | |- restores (sequence (?a :: level_up :: ?b :: ?c :: ?d :: ?e :: ?f
                           :: [level_down])) =>
      assert (Ha : restores a) by restores_auto;
      assert (Hb : restores b) by restores_auto;
      assert (Hc : restores c) by restores_auto;
      assert (Hd : restores d) by restores_auto;
      assert (Hf : restores f) by restores_auto;
      assert (He : restores e)
  end.
  { destruct (List.length (f_returns func) =? 0)%nat; [apply restores_skip|].
    apply restores_sequence. repeat constructor; solve [restores_auto]. }
  intros st st' H. seq_inv H.
  apply Ha in E. apply level_up_level in E0. apply Hb in E1. apply Hc in E2.
  apply Hd in E3. apply He in E4. apply Hf in E5.
  apply level_down_level in E6. apply restores_skip in H. lia.
Qed.

Lemma restores_Router lookup_func type_name src routes :
  restores (Router_write_teal lookup_func type_name src routes).
Proof.
  unfold Router_write_teal. cbv zeta. apply restores_sequence.
  repeat match goal with |- Forall _ (_ :: _) => constructor end;
    try solve [constructor]; try solve [restores_auto].
  apply restores_sequence, Forall_map_intro. intros r.
  apply restores_Router_write_route.
Qed.

Section WithScope.

Variable get_block : Src -> string -> option string.
Variable lookup_func : Src -> string -> option FuncAttrs.
Variable type_name : TealishType -> string.
Variable type_str : TealishType -> string.

Local Abbreviation write_teal :=
  (write_teal get_block lookup_func type_name type_str).

Lemma restores_IfStatement src modifier condition idx next_label cs :
  all_restore cs ->
  restores (IfStatement_write_teal src modifier condition idx next_label cs).
Proof.
  intros H. unfold IfStatement_write_teal.
  pose proof (all_restore_of_class CIfThen _ H) as Hthen.
  pose proof (all_restore_of_class CElif _ H) as Helif.
  pose proof (all_restore_of_class CElse _ H) as Helse.
  apply restores_sequence.
  repeat match goal with |- Forall _ (_ :: _) => constructor end;
    try solve [constructor]; try solve [restores_auto].
  - destruct (last (map Some (of_class CIfThen cs)) None) as [[n w]|] eqn:E;
      [exact (restores_last _ _ _ Hthen E) | apply restores_raise].
  - apply restores_sequence, Forall_map, Forall_forall.
    intros [i [n w]] Hin. apply in_combine_r in Hin.
    unfold all_restore in Helif. rewrite Forall_forall in Helif.
    pose proof (Helif _ Hin) as Hw. simpl in Hw.
    destruct (negb _ || _); restores_auto.
  - destruct (last (map Some (of_class CElse cs)) None) as [[n w]|] eqn:E;
      [|apply restores_skip].
    pose proof (restores_last _ _ _ Helse E). restores_auto.
Qed.

Lemma restores_DecoratedFunc cs :
  all_restore cs -> restores (DecoratedFunc_write_teal cs).
Proof.
  intros H. unfold DecoratedFunc_write_teal.
  destruct (last (map Some (of_class CFunc cs)) None) as [[n w]|] eqn:E;
    [|apply restores_raise].
  eapply restores_last; [apply all_restore_of_class|]; eauto.
Qed.

Lemma write_teal_restores : forall n, restores (write_teal n).
Proof.
  fix IH 1. intros n.
  assert (kids : forall cs,
             all_restore (map (fun c => (c, write_teal c)) cs)).
  { intros cs. induction cs as [|c cs IHcs]; constructor; auto.
    simpl. apply IH. }
  destruct n; cbn [Gen.write_teal];
    try pose proof (kids child_nodes);
    try match goal with
      | |- restores (IfStatement_write_teal _ _ _ _ _ _) =>
          now apply restores_IfStatement
      | |- restores (DecoratedFunc_write_teal _) =>
          now apply restores_DecoratedFunc
      | |- restores (Router_write_teal _ _ _ _) => apply restores_Router
      end;
    unfold Program_write_teal, TealVersion_write_teal, Comment_write_teal,
      Blank_write_teal, Const_write_teal, Jump_write_teal, Exit_write_teal,
      FunctionCallStatement_write_teal, Assert_write_teal,
      VarDeclaration_write_teal, Assignment_write_teal, Block_write_teal,
      Switch_write_teal, Router_write_teal, TealLine_write_teal,
      Teal_write_teal, InnerTxnFieldSetter_write_teal, InnerTxn_write_teal,
      InnerGroup_write_teal, IfThen_write_teal, Elif_write_teal,
      Else_write_teal, Break_write_teal, WhileStatement_write_teal,
      ForStatement_write_teal, For_Statement_write_teal, Func_write_teal,
      Return_write_teal, Decorator_write_teal,
      StructOrBoxAssignment_write_teal, BoxDeclaration_write_teal;
    restores_auto.
Qed.

(** X1. Whatever the node, a [write_teal] that returns has left the
    lines written before it in place, with the levels they were written
    at, and added its own lines after them; and it has left the
    indentation level of the writer as it found it. *)
Theorem write_teal_appends_and_restores_level (n : Node) (st st' : state) :
  write_teal n st = Some st' ->
  (exists l,
      TealWriter.output (writer st') = TealWriter.output (writer st) +++ l)
  /\ TealWriter.level (writer st') = TealWriter.level (writer st).
Proof.
  intros H. split.
  - destruct (write_teal_appends get_block lookup_func type_name type_str
                n st st' H) as [l [_ E]].
    now exists l.
  - exact (write_teal_restores n st st' H).
Qed.

End WithScope.

(** A [while] loop with an [if] in it, written at level 1 after a first
    line. *)
Definition one : Expression :=
  {| e_tealish := "1"; e_process := inr (One IntType);
     e_teal := ["pushint 1"] |}.

Definition nested_loop : Node :=
  WhileStatement {| line_no := 2; line := "while 1:" |} None one 0
    [ IfStatement {| line_no := 3; line := "if 1:" |} None one 1 "l1_end"
        [ IfThen {| line_no := 3; line := "" |} "" "l1_end"
            [ Assert {| line_no := 4; line := "assert(1)" |} one None ] ] ].

Definition indented_state : state :=
  {| compiler := Build.start [];
     writer := {| TealWriter.level := 1;
                  TealWriter.output := [(0, "#pragma version 8")] |} |}.

Lemma write_teal_appends_and_restores_level_witness :
  exists st',
    write_teal (fun _ _ => None) (fun _ _ => None) Standin.type_str
      Standin.type_str nested_loop indented_state = Some st'
    /\ (exists l,
           TealWriter.output (writer st')
           = TealWriter.output (writer indented_state) +++ l)
    /\ TealWriter.level (writer st') = TealWriter.level (writer indented_state).
Proof.
  eexists. split; [vm_compute; reflexivity|].
  apply (write_teal_appends_and_restores_level (fun _ _ => None)
           (fun _ _ => None) Standin.type_str Standin.type_str nested_loop
           indented_state).
  vm_compute. reflexivity.
Defined.

End WriterFacts.

(** ** [teal:] blocks *)

Module TealFacts.
Import Build Gen GenFacts ReaderFacts.

Local Open Scope string_scope.

(** The children of a [teal:] block whose lines are [body], the first
    of them being line number [first] of the program. *)
Fixpoint TealLines (first : nat) (body : list string) : list Node :=
  match body with
  | [] => []
  | l :: body' =>
      TealLine {| line_no := first; line := l |} :: TealLines (S first) body'
  end.

(** The loop of [Teal.consume] on the lines [body] followed by [end]. *)
Lemma Teal_loop_copies : forall body fuel cs c,
  Forall (fun l => l <> "end") body ->
  (forall i l,
      nth_error body i = Some l ->
      nth_error (TealishCompiler.source_lines c)
        (TealishCompiler.line_no c + i) = Some l) ->
  nth_error (TealishCompiler.source_lines c)
    (TealishCompiler.line_no c + List.length body) = Some "end" ->
  List.length body < fuel ->
  Teal_loop fuel cs c
  = inr (cs +++ TealLines (S (TealishCompiler.line_no c)) body,
         at_line c (TealishCompiler.line_no c + List.length body + 1)).
Proof.
  induction body as [|l body IH]; intros fuel cs c Hne Hbody Hend Hfuel;
    (destruct fuel as [|fuel]; [simpl in Hfuel; lia|]);
    cbn [Teal_loop]; unfold bind at 1, peek_is, bind at 1; rewrite peek_at.
  - cbn [List.length] in Hend. rewrite Nat.add_0_r in Hend. rewrite Hend.
    unfold ret at 1. cbn [String.eqb Ascii.eqb Bool.eqb].
    unfold bind. rewrite (consume_line_at _ _ Hend). unfold ret.
    cbn [TealLines List.length]. rewrite app_nil_r.
    do 2 f_equal. f_equal. lia.
  - pose proof (Hbody 0 l eq_refl) as H0. rewrite Nat.add_0_r in H0.
    rewrite H0. unfold ret at 1.
    apply Forall_cons_iff in Hne as [Hl Hne].
    apply String.eqb_neq in Hl. rewrite Hl.
    unfold consume_str, bind, the_line. rewrite (consume_line_at _ _ H0).
    unfold ret, init, bind, current_line_no. cbn [Re.re_match Re.run].
    unfold ret. cbn [fst snd].
    rewrite (IH fuel _ (at_line c (S (TealishCompiler.line_no c))) Hne).
    + cbn [at_line TealishCompiler.line_no TealLines List.length].
      rewrite <- app_assoc. cbn [app]. rewrite at_line_at_line.
      do 2 f_equal. f_equal. lia.
    + intros i l' Hi. cbn [at_line TealishCompiler.line_no
                             TealishCompiler.source_lines].
      rewrite <- (Hbody (S i) l' Hi). f_equal. lia.
    + cbn [at_line TealishCompiler.line_no TealishCompiler.source_lines].
      rewrite <- Hend. f_equal. cbn [List.length]. lia.
    + cbn [List.length] in Hfuel. lia.
Qed.

Section WithEnv.

Variable parse_expression : string -> option Expression.
Variable get_type_instance : string -> option TealishType.
Variable literal_type : string -> ExprType.
Variable get_block : Src -> string -> option string.
Variable lookup_func : Src -> string -> option FuncAttrs.
Variable type_name : TealishType -> string.
Variable type_str : TealishType -> string.

Local Abbreviation Statement_consume :=
  (Statement_consume parse_expression get_type_instance literal_type).

Local Abbreviation write_teal :=
  (write_teal get_block lookup_func type_name type_str).

(** The lines of a [teal:] block are written as they are. *)
Lemma TealLines_written : forall body first w,
  exists w',
    write_children (map (fun c => (c, write_teal c)) (TealLines first body)) w
    = Some w'
    /\ texts_of w' = texts_of w +++ body.
Proof.
  induction body as [|l body IH]; intros first w.
  - exists w. split; [reflexivity | now rewrite app_nil_r].
  - cbn [TealLines map]. unfold write_children. cbn [map snd sequence].
    unfold andThen. cbn [Gen.write_teal]. unfold TealLine_write_teal.
    destruct (write (line {| line_no := first; line := l |}) w) as [w1|] eqn:E;
      [|discriminate].
    apply write_texts in E. cbn [line] in E.
    destruct (IH (S first) w1) as (w' & Hw' & Ht).
    exists w'. split; [exact Hw'|]. rewrite Ht, E. now rewrite <- app_assoc.
Qed.

(** X2. A [teal:] block is copied: when the next lines the compiler
    hands out are a line that starts with [teal:], lines [body] of
    which none is [end], and [end], [Statement.consume] takes exactly
    these lines and builds a node that [write_teal] writes as the
    lines [body], in their order and unchanged, whatever they are: no
    line of the block is parsed. *)
Theorem Teal_block_is_copied (tail : string) (body before rest : list string)
  (ctx : Ctx) (c : TealishCompiler.t) (fuel : nat) :
  Forall (fun l => l <> "end") body ->
  TealishCompiler.source_lines c
  = before +++ ("teal:" ++ tail) :: body +++ "end" :: rest ->
  TealishCompiler.line_no c = List.length before ->
  List.length body < fuel ->
  exists node,
    Statement_consume (S fuel) ctx c
    = inr (node, at_line c (List.length before + List.length body + 2))
    /\ (forall w, exists w',
           write_teal node w = Some w' /\ texts_of w' = texts_of w +++ body).
Proof.
  intros Hne Hsrc Hline Hfuel.
  assert (Hhead : nth_error (TealishCompiler.source_lines c)
                    (TealishCompiler.line_no c) = Some ("teal:" ++ tail)).
  { rewrite Hsrc, Hline, nth_error_app2, Nat.sub_diag; [reflexivity | lia]. }
  assert (Hbody : forall i l,
             nth_error body i = Some l ->
             nth_error (TealishCompiler.source_lines c)
               (S (TealishCompiler.line_no c) + i) = Some l).
  { intros i l Hi. rewrite Hsrc, Hline, nth_error_app2 by lia.
    replace (S (List.length before) + i - List.length before) with (S i)
      by lia.
    cbn [nth_error]. rewrite nth_error_app1; [exact Hi|].
    apply nth_error_Some. congruence. }
  assert (Hend : nth_error (TealishCompiler.source_lines c)
                   (S (TealishCompiler.line_no c) + List.length body)
                 = Some "end").
  { rewrite Hsrc, Hline, nth_error_app2 by lia.
    replace (S (List.length before) + List.length body - List.length before)
      with (S (List.length body)) by lia.
    cbn [nth_error]. rewrite nth_error_app2, Nat.sub_diag by lia.
    reflexivity. }
  eexists. split.
  - cbn [Build.Statement_consume]. unfold Statement_dispatch.
    unfold bind at 1. rewrite peek_at, Hhead. unfold the_line, bind at 1, ret at 1.
    cbn [startswith append Ascii.eqb Bool.eqb andb].
    unfold Teal_consume, consume_str, bind, the_line.
    rewrite (consume_line_at _ _ Hhead).
    unfold ret at 1, init, bind, current_line_no. cbn [Re.re_match Re.run].
    unfold ret at 1. cbn [fst snd].
    rewrite (Teal_loop_copies body fuel []
               (at_line c (S (TealishCompiler.line_no c))) Hne Hbody Hend
               Hfuel).
    unfold ret. cbn [at_line TealishCompiler.line_no fst app].
    rewrite at_line_at_line. do 2 f_equal.
    unfold at_line. f_equal. lia.
  - intros w. cbn [Gen.write_teal]. unfold Teal_write_teal.
    apply TealLines_written.
Qed.

End WithEnv.

(** A block of two lines after a first line of the program. *)
Definition sample_lines : list string :=
  ["#pragma version 8"; "teal:"; "int 1"; "pop pop pop // not parsed"; "end"].

Definition sample_compiler : TealishCompiler.t :=
  at_line (Build.start sample_lines) 1.

Lemma Teal_block_is_copied_witness :
  exists node,
    Build.Statement_consume Standin.parse_expression
      Standin.get_type_instance Standin.literal_type 4
      {| ancestors := [PProgram]; scope_name := "" |} sample_compiler
    = inr (node, at_line sample_compiler 5)
    /\ forall w, exists w',
         Gen.write_teal (fun _ _ => None) (fun _ _ => None) Standin.type_str
           Standin.type_str node w = Some w'
         /\ texts_of w' = texts_of w +++ ["int 1"; "pop pop pop // not parsed"].
Proof.
  destruct (Teal_block_is_copied Standin.parse_expression
              Standin.get_type_instance Standin.literal_type
              (fun _ _ => None) (fun _ _ => None) Standin.type_str
              Standin.type_str
              "" ["int 1"; "pop pop pop // not parsed"] ["#pragma version 8"] []
              {| ancestors := [PProgram]; scope_name := "" |}
              sample_compiler 3)
    as (node & Hbuild & Hwrite).
  - repeat constructor; discriminate.
  - reflexivity.
  - reflexivity.
  - simpl. lia.
  - exists node. split; [exact Hbuild | exact Hwrite].
Defined.

End TealFacts.

(** ** Exit statements *)

Module ExitFacts.
Import Gen GenFacts.

Local Open Scope string_scope.

(** A line after which the run does not go on to the line below it: an
    unconditional branch, [return], [retsub] or [err]. *)
Definition leaves (text : string) : Prop :=
  match Flow.kind_of text with
  | Flow.Jump _ | Flow.Stop => True
  | _ => False
  end.

Lemma leaves_branch l : leaves ("b " ++ l).
Proof. exact I. Qed.

Lemma leaves_return : leaves "return".
Proof. exact I. Qed.

Lemma leaves_err : leaves "err // unexpected value".
Proof. exact I. Qed.

Section WithScope.

Variable get_block : Src -> string -> option string.
Variable lookup_func : Src -> string -> option FuncAttrs.
Variable type_name : TealishType -> string.
Variable type_str : TealishType -> string.

Local Abbreviation write_teal :=
  (write_teal get_block lookup_func type_name type_str).

Lemma Switch_ends src expression child_nodes st st' :
  Switch_write_teal get_block src expression child_nodes st = Some st' ->
  exists before last,
    texts_of st' = texts_of st +++ before +++ [last] /\ leaves last.
Proof.
  unfold Switch_write_teal. intros H. seq_inv H.
  apply write_texts in E.
  apply appends_texts in E0 as [options E0].
  2:{ apply appends_sequence, Forall_map_intro. intros n.
      destruct n; appends_auto. }
  assert (Hlast : exists last, texts_of st2 = texts_of st1 +++ [last]
                               /\ leaves last).
  { destruct (last (map Some (filter _ child_nodes)) None) as [n|].
    - destruct n;
        try (apply write_texts in E1; eexists; split;
             [exact E1 | exact leaves_err]).
      destruct (get_block src block_name) as [label|]; [|discriminate].
      apply write_texts in E1. eexists. split; [exact E1|].
      apply leaves_branch.
    - apply write_texts in E1. eexists. split; [exact E1|].
      exact leaves_err. }
  destruct Hlast as (last & E2 & Hleaves).
  exists ([tl src] +++ options), last. split; [|exact Hleaves].
  apply skip_texts in H.
  rewrite H, E2, E0, E. repeat rewrite <- app_assoc. reflexivity.
Qed.

(** X3. The code of an [exit], of a [jump] and of a [switch] ends
    with a line that does not fall through to the line after it: the
    last line written is [return], an unconditional branch [b], or
    [err].  These are the statements, with the router, after which
    [Program.consume] and [Block.consume] allow definitions. *)
Theorem exit_statement_code_never_falls_through (n : Node) (st st' : state) :
  Build.is_exit_statement n = true ->
  class_of n <> CRouter ->
  write_teal n st = Some st' ->
  exists before last, texts_of st' = texts_of st +++ before +++ [last]
                      /\ leaves last.
Proof.
  intros Hexit Hrouter H.
  destruct n; try discriminate Hexit; try (now elim Hrouter);
    cbn [Gen.write_teal] in H.
  - (* jump *)
    unfold Jump_write_teal in H. apply andThen_inv in H as (s1 & H1 & H).
    destruct (get_block src block_name) as [label|]; [|discriminate].
    step_texts. exists [tl src], ("b " ++ label). split.
    + chain_texts. reflexivity.
    + apply leaves_branch.
  - (* exit *)
    unfold Exit_write_teal in H. seq_inv H. step_texts.
    exists ([tl src] +++ e_teal expression), "return". split.
    + chain_texts. reflexivity.
    + exact leaves_return.
  - (* switch *)
    now apply Switch_ends in H.
Qed.

End WithScope.

(** A [switch] with one option and an [else]. *)
Definition choice : Node :=
  Switch {| line_no := 1; line := "switch 1:" |}
    {| e_tealish := "1"; e_process := inr (One IntType);
       e_teal := ["pushint 1"] |}
    [ SwitchOption {| line_no := 2; line := "0: first" |}
        {| e_tealish := "0"; e_process := inr (One IntType);
           e_teal := ["pushint 0"] |} "first";
      SwitchElse {| line_no := 3; line := "else: other" |} "other" ].

Definition fresh_state : state :=
  {| compiler := Build.start []; writer := TealWriter.empty |}.

Lemma exit_statement_code_never_falls_through_witness :
  exists st',
    write_teal (fun _ n => Some n) (fun _ _ => None) Standin.type_str
      Standin.type_str choice fresh_state = Some st'
    /\ exists before last,
         texts_of st' = texts_of fresh_state +++ before +++ [last]
         /\ leaves last.
Proof.
  eexists. split; [vm_compute; reflexivity|].
  apply (exit_statement_code_never_falls_through (fun _ n => Some n)
           (fun _ _ => None) Standin.type_str Standin.type_str choice
           fresh_state);
    [reflexivity | discriminate | vm_compute; reflexivity].
Defined.

End ExitFacts.

(** ** The shape of a program *)

Module ProgramFacts.
Import Build.

Local Open Scope string_scope.

(** A block or a function, decorated or not. *)
Definition is_definition (n : Node) : bool :=
  isinstance n [CFunc; CDecoratedFunc; CBlock].

(** What may stand after the exit statement of a program. *)
Definition may_follow (n : Node) : bool :=
  isinstance n [CFunc; CDecoratedFunc; CBlock; CComment; CBlank].

(** A statement of the main part: no definition, no exit statement. *)
Definition plain (n : Node) : Prop :=
  is_definition n = false /\ is_exit_statement n = false.

(** The children of a program: statements of the main part, and, when
    there is an exit statement, this statement and after it
    definitions, comments and blank lines only. *)
Definition placed (exit_statement : option Node) (child_nodes : list Node)
  : Prop :=
  match exit_statement with
  | None => Forall plain child_nodes
  | Some e =>
      exists main rest,
        child_nodes = main +++ e :: rest
        /\ Forall plain main
        /\ is_exit_statement e = true
        /\ Forall (fun n => may_follow n = true) rest
  end.

Lemma may_follow_no_exit n : may_follow n = true -> is_exit_statement n = false.
Proof. destruct n; simpl; intros H; try discriminate; reflexivity. Qed.

Lemma exit_no_definition n :
  is_exit_statement n = true -> is_definition n = false.
Proof. destruct n; simpl; intros H; try discriminate; reflexivity. Qed.

Section Loops.

Variable Statement_consume : Ctx -> B Node.

Lemma Program_loop_placed : forall fuel ctx expect exit_statement cs c cs' c',
  placed exit_statement cs ->
  Program_loop Statement_consume fuel ctx expect exit_statement cs c
  = inr (cs', c') ->
  exists exit_statement', placed exit_statement' cs'.
Proof.
  induction fuel as [|fuel IH]; intros ctx expect exit_statement cs c cs' c'
    Hplaced H; [discriminate|].
  cbn [Program_loop] in H. unfold bind at 1 in H. unfold peek in H.
  destruct (nth_error _ _) as [l|]; [|inversion H; subst; eauto].
  unfold bind at 1 in H.
  destruct (Statement_consume ctx c) as [|[n c1]]; [discriminate|].
  destruct (negb expect && isinstance n [CStructDefinition]);
    [discriminate|].
  cbv zeta in H. unfold bind at 1 in H.
  destruct exit_statement as [e|].
  - destruct (isinstance n [CFunc; CDecoratedFunc; CBlock; CComment; CBlank])
      eqn:Hn; cbn [negb] in H; [|discriminate].
    unfold ret at 1 in H.
    rewrite (may_follow_no_exit n Hn) in H.
    unfold bind at 1 in H.
    destruct (add_child is_Statement n c1) as [|[[] c2]]; [discriminate|].
    eapply IH; [|exact H].
    destruct Hplaced as (main & rest & -> & Hmain & He & Hrest).
    exists main, (rest +++ [n]). rewrite <- app_assoc. cbn [app].
    repeat split; auto. apply Forall_app. split; [exact Hrest|].
    constructor; [exact Hn | constructor].
  - destruct (isinstance n [CFunc; CDecoratedFunc; CBlock]) eqn:Hn;
      [discriminate|].
    unfold ret at 1 in H. unfold bind at 1 in H.
    destruct (add_child is_Statement n c1) as [|[[] c2]]; [discriminate|].
    eapply IH; [|exact H].
    destruct (is_exit_statement n) eqn:He.
    + exists cs, []. repeat split; auto.
    + apply Forall_app. split; [exact Hplaced|].
      constructor; [split; assumption | constructor].
Qed.

(** X4. The children of a program that [Program.consume] has built
    are: statements that are neither definitions (a block, a function,
    a decorated function) nor exit statements; then, if the program has
    an exit statement at all, this one exit statement, followed by
    definitions, comments and blank lines only.  So no definition
    stands before the exit statement, and no other statement, and no
    second exit statement, after it. *)
Theorem Program_consume_places_definitions (fuel : nat)
  (c c' : TealishCompiler.t) (src : Src) (scope : Scope.t)
  (child_nodes : list Node) :
  Program_consume Statement_consume fuel c
  = inr (Program src scope child_nodes, c') ->
  Forall plain child_nodes
  \/ exists main e rest,
       child_nodes = main +++ e :: rest
       /\ Forall plain main
       /\ is_exit_statement e = true
       /\ Forall (fun n => may_follow n = true) rest.
Proof.
  unfold Program_consume. intros H. unfold bind at 1 in H.
  destruct (init Re.Eps "" c) as [|[sg c1]]; [discriminate|].
  unfold bind at 1 in H.
  destruct (Program_loop _ _ _ _ _ _ c1) as [|[cs c2]] eqn:E; [discriminate|].
  inversion H; subst. clear H.
  apply Program_loop_placed in E as [[e|] Hplaced]; [| |constructor].
  - right. destruct Hplaced as (main & rest & Hcs). now exists main, e, rest.
  - left. exact Hplaced.
Qed.

End Loops.

(** A program with a statement, its exit and a block after it. *)
Definition placed_lines : list string :=
  [ "assert(1)"; "exit(1)"; "# the blocks"; "block a:"; "exit(0)"; "end" ].

Lemma Program_consume_places_definitions_witness :
  exists src scope child_nodes c',
    Program_consume
      (Statement_consume Standin.parse_expression Standin.get_type_instance
         Standin.literal_type 8)
      8 (start placed_lines)
    = inr (Program src scope child_nodes, c')
    /\ (Forall plain child_nodes
        \/ exists main e rest,
             child_nodes = main +++ e :: rest
             /\ Forall plain main
             /\ is_exit_statement e = true
             /\ Forall (fun n => may_follow n = true) rest).
Proof.
  do 4 eexists. split; [vm_compute; reflexivity|].
  eapply (Program_consume_places_definitions
            (Statement_consume Standin.parse_expression
               Standin.get_type_instance Standin.literal_type 8)
            8 (start placed_lines)).
  vm_compute. reflexivity.
Defined.

End ProgramFacts.

(** ** Assignments *)

Module AssignmentFacts.
Import Gen GenFacts.

Local Open Scope string_scope.

(** The values an expression leaves on the stack, by their types. *)
Definition values (t : ExprType) : list ExprType :=
  match t with Many ts => map One ts | One _ => [t] end.

(** The names on the left of an assignment. *)
Definition names_of (names : string) : list string :=
  map strip (split_commas names).

(** The line written for a name and the value assigned to it: the
    value for [_] is dropped, the value for a variable is stored in
    the slot of the variable, which is declared and can hold it. *)
Definition takes (can_hold : TealishType -> ExprType -> bool)
  (scopes : list Scope.t) (nt : string * ExprType) (text : string) : Prop :=
  if String.eqb (fst nt) "_" then text = "pop // discarding value for _"
  else
    exists var,
      Process.lookup_var scopes (fst nt) = Some var
      /\ can_hold (Builtins.tealish_type var) (snd nt) = true
      /\ text = "store " ++ str_nat (scratch_slot var) ++ " // " ++ fst nt.

(** The line [Assignment.write_teal] writes for a name node. *)
Definition name_line (name : string * option nat) : string :=
  if String.eqb (fst name) "_" then "pop // discarding value for _"
  else "store " ++ str_size (snd name) ++ " // " ++ fst name.

Lemma flat_map_singleton {A B} (g : A -> B) l :
  flat_map (fun x => [g x]) l = map g l.
Proof. induction l; simpl; congruence. Qed.

Section WithEnv.

Variable get_type_instance : string -> option TealishType.
Variable get_struct : string -> option TealishType.
Variable can_hold : TealishType -> ExprType -> bool.
Variable can_hold_with_cast : TealishType -> ExprType -> bool.
Variable type_str : TealishType -> string.
Variable expr_type_str : ExprType -> string.
Variable lookup_func : Src -> string -> option FuncAttrs.
Variable parse_expression : string -> option Expression.
Variable get_block : Src -> string -> option string.
Variable type_name : TealishType -> string.

Local Abbreviation process :=
  (Process.process get_type_instance get_struct can_hold can_hold_with_cast
     type_str expr_type_str lookup_func parse_expression).

Local Abbreviation write_teal :=
  (write_teal get_block lookup_func type_name type_str).

(** The loop of [Assignment.process] over the names. *)
Lemma names_checked (f := fun nt : string * ExprType =>
    let (n, ty) := nt in
    if String.eqb n "_" then Process.ret (n, None)
    else
      Process.bind (Process.get_var n)
        (fun var =>
           match var with
           | None =>
               Process.raise
                 (CompileError
                    ("Var " ++ Q ++ n ++ Q ++ " not declared in current scope"))
           | Some var =>
               if negb (can_hold (Builtins.tealish_type var) ty) then
                 Process.raise
                   (CompileError
                      ("Incorrect type for assignment. Expected "
                       ++ type_str (Builtins.tealish_type var)
                       ++ ", got " ++ expr_type_str ty))
               else Process.ret (n, Some (scratch_slot var))
           end)) :
  forall l st r st',
    Process.mapM f l st = inr (r, st') ->
    st' = st
    /\ Forall2 (takes can_hold (Process.scopes st)) l (map name_line r).
Proof.
  induction l as [|[n ty] l IH]; intros st r st' H.
  - inversion H; subst. split; [reflexivity | constructor].
  - cbn [Process.mapM] in H. unfold Process.bind at 1 in H.
    destruct (f (n, ty) st) as [|[x st1]] eqn:Ex; [discriminate|].
    unfold Process.bind at 1 in H.
    destruct (Process.mapM f l st1) as [|[xs st2]] eqn:Exs; [discriminate|].
    inversion H; subst r st'. clear H.
    apply IH in Exs as [-> Hxs].
    assert (Hx : st1 = st
                 /\ takes can_hold (Process.scopes st) (n, ty) (name_line x)).
    { subst f. cbv beta iota in Ex. unfold takes, name_line. cbn [fst snd].
      destruct (String.eqb n "_") eqn:En.
      - inversion Ex; subst. cbn [fst]. rewrite En. auto.
      - unfold Process.bind, Process.get_var in Ex.
        destruct (Process.lookup_var (Process.scopes st) n) as [var|] eqn:Ev;
          [|discriminate].
        destruct (can_hold (Builtins.tealish_type var) ty) eqn:Eh;
          [|discriminate].
        inversion Ex; subst. cbn [fst snd str_size]. rewrite En.
        split; [reflexivity|]. exists var. auto. }
    destruct Hx as [-> Hx]. split; [reflexivity|].
    cbn [map]. constructor; assumption.
Qed.

(** X5. An assignment that [process] accepts is written as the line
    of the statement, the code of the expression, and then one line
    for every value the expression leaves, in the order of the names:
    [pop] for the name [_], and for any other name a [store] to the
    slot of the variable of this name, which is declared in a scope of
    the statement and can hold the value.  There are as many names as
    values, and [process] changes nothing in the scopes. *)
Theorem Assignment_takes_every_value (parent src : Src)
  (names : string) (expression : Expression)
  (name_nodes : option (list (string * option nat)))
  (st st' : Process.state) (node : Node) (w w' : state) :
  process parent (Assignment src names expression name_nodes) st
  = inr (node, st') ->
  write_teal node w = Some w' ->
  exists t stores,
    e_process expression = inr t
    /\ st' = st
    /\ List.length (names_of names) = List.length (values t)
    /\ Forall2 (takes can_hold (Process.scopes st))
         (combine (names_of names) (values t)) stores
    /\ texts_of w' =
         texts_of w +++ [tl src] +++ e_teal expression +++ stores.
Proof.
  cbn [Process.process]. unfold Process.Assignment_process. intros Hp Hw.
  unfold Process.bind at 1, Process.process_expr in Hp.
  destruct (e_process expression) as [|t] eqn:Et; [discriminate|].
  unfold Process.ret at 1 in Hp. cbv zeta in Hp.
  destruct (existsb _ _); [discriminate|].
  fold (values t) in Hp. fold (names_of names) in Hp.
  destruct (List.length (values t) =? List.length (names_of names))%nat
    eqn:Hlen; [|discriminate].
  cbn [negb] in Hp. apply Nat.eqb_eq in Hlen.
  unfold Process.bind at 1 in Hp.
  destruct (Process.mapM _ _ st) as [|[r st1]] eqn:Er; [discriminate|].
  apply names_checked in Er as [-> Hr].
  inversion Hp; subst node st'. clear Hp.
  cbn [Gen.write_teal] in Hw. unfold Assignment_write_teal in Hw.
  seq_inv Hw.
  apply (RouterFacts.sequence_map_texts _ (fun n => [name_line n])) in E1;
    [|intros x s s' Hx; unfold name_line;
      destruct (String.eqb (fst x) "_"); now apply write_texts in Hx].
  step_texts.
  exists t, (map name_line r). repeat split; auto.
  rewrite Hw, E1, E0, E. repeat rewrite <- app_assoc.
  now rewrite flat_map_singleton.
Qed.

End WithEnv.

(** [x, _ = f()] where [f] returns two integers and [x] is an [int]
    in slot 3. *)
Definition two_values : Expression :=
  {| e_tealish := "f()"; e_process := inr (Many [IntType; IntType]);
     e_teal := ["callsub __func__f"] |}.

Definition declared_state : Process.state :=
  {| Process.compiler := Build.start [];
     Process.scopes :=
       [ {| Scope.name := ""; Scope.slot_range := (0, 255);
            Scope.vars :=
              [("x", {| Builtins.name := "x"; Builtins.tealish_type := IntType;
                        Builtins.scratch_slot := 3 |})];
            Scope.consts := [] |} ];
     Process.error_messages := [] |}.

Definition two_names : Node :=
  Assignment {| line_no := 1; line := "x, _ = f()" |} "x, _" two_values None.

Lemma Assignment_takes_every_value_witness :
  exists node w',
    Process.process Standin.get_type_instance Standin.get_struct
      Standin.can_hold Standin.can_hold_with_cast Standin.type_str
      Standin.expr_type_str (fun _ _ => None) Standin.parse_expression
      {| line_no := 0; line := "" |} two_names declared_state
    = inr (node, declared_state)
    /\ write_teal (fun _ _ => None) (fun _ _ => None) Standin.type_str
         Standin.type_str node
         {| compiler := Build.start []; writer := TealWriter.empty |}
       = Some w'
    /\ texts_of w'
       = [ "// tl:1: x, _ = f()"; "callsub __func__f"; "store 3 // x";
           "pop // discarding value for _" ]
    /\ exists t stores,
         e_process two_values = inr t
         /\ declared_state = declared_state
         /\ List.length (names_of "x, _") = List.length (values t)
         /\ Forall2 (takes Standin.can_hold (Process.scopes declared_state))
              (combine (names_of "x, _") (values t)) stores
         /\ texts_of w'
            = texts_of {| compiler := Build.start [];
                          writer := TealWriter.empty |}
              +++ [tl {| line_no := 1; line := "x, _ = f()" |}]
              +++ e_teal two_values +++ stores.
Proof.
  do 2 eexists. split; [vm_compute; reflexivity|].
  split; [vm_compute; reflexivity|]. split; [reflexivity|].
  eapply (Assignment_takes_every_value Standin.get_type_instance
            Standin.get_struct Standin.can_hold Standin.can_hold_with_cast
            Standin.type_str Standin.expr_type_str (fun _ _ => None)
            Standin.parse_expression (fun _ _ => None) Standin.type_str
            {| line_no := 0; line := "" |}
            {| line_no := 1; line := "x, _ = f()" |} "x, _" two_values None
            declared_state declared_state).
  - vm_compute. reflexivity.
  - vm_compute. reflexivity.
Defined.

End AssignmentFacts.

(** ** The version line *)

Module TealVersionFacts.
Import Re ReFacts StrFacts Build Gen GenFacts ReaderFacts.

Local Open Scope string_scope.

Definition version_tail : re := Seq (Grp "version" (plus d)) Eos.

Lemma TealVersion_pattern :
  Patterns.TealVersion = Seq (lit "#pragma version ") version_tail.
Proof. reflexivity. Qed.

(** The pattern of [TealVersion] on [#pragma version] and digits. *)
Lemma TealVersion_matches digits :
  all is_digit digits = true -> digits <> "" ->
  re_match Patterns.TealVersion ("#pragma version " ++ digits)
  = Some [("version", digits)].
Proof.
  intros Hall Hne. unfold re_match. rewrite TealVersion_pattern, run_Seq.
  rewrite run_lit. unfold version_tail, plus. rewrite run_Seq, run_Grp, run_Seq.
  destruct digits as [|c ds]; [congruence|].
  simpl in Hall. apply andb_prop in Hall as [Hc Hall].
  unfold d at 1. cbn [run]. rewrite Hc. unfold d.
  apply greedy_loop_all; [lia | exact Hall |].
  cbn [String.length]. rewrite Nat.sub_0_r.
  replace (take (S (String.length ds)) (String c ds)) with (String c ds).
  - reflexivity.
  - rewrite <- (append_nil_r (String c ds)) at 2.
    change (S (String.length ds)) with (String.length (String c ds)).
    now rewrite take_append.
Qed.

Section WithEnv.

Variable parse_expression : string -> option Expression.
Variable get_type_instance : string -> option TealishType.
Variable literal_type : string -> ExprType.
Variable get_block : Src -> string -> option string.
Variable lookup_func : Src -> string -> option FuncAttrs.
Variable type_name : TealishType -> string.
Variable type_str : TealishType -> string.

Local Abbreviation Statement_consume :=
  (Statement_consume parse_expression get_type_instance literal_type).

Local Abbreviation write_teal :=
  (write_teal get_block lookup_func type_name type_str).

(** A line that starts with [#] is a line statement. *)
Lemma hash_is_LineStatement fuel ctx c l :
  nth_error (TealishCompiler.source_lines c) (TealishCompiler.line_no c)
  = Some l ->
  startswith l "#" = true ->
  Statement_consume (S fuel) ctx c
  = LineStatement_consume parse_expression literal_type ctx c.
Proof.
  intros Hl Hhash. cbn [Build.Statement_consume]. unfold Statement_dispatch.
  unfold bind at 1. rewrite peek_at, Hl. unfold the_line, bind at 1, ret at 1.
  destruct l as [|x l]; [discriminate|].
  cbn [startswith] in Hhash. apply andb_prop in Hhash as [Hx _].
  apply Ascii.eqb_eq in Hx. subst x. reflexivity.
Qed.

(** [LineStatement.consume] on a line that starts with [#pragma]. *)
Lemma pragma_line ctx c l :
  nth_error (TealishCompiler.source_lines c) (TealishCompiler.line_no c)
  = Some l ->
  startswith l "#pragma" = true ->
  LineStatement_consume parse_expression literal_type ctx c
  = if negb (S (TealishCompiler.line_no c) =? 1)%nat then
      inl (ParseError
             ("Teal version must be specified in the first line of the program: "
              ++ Q ++ l ++ Q ++ " at "
              ++ str_nat (S (TealishCompiler.line_no c)) ++ "."))
    else TealVersion_init l (at_line c (S (TealishCompiler.line_no c))).
Proof.
  intros Hl Hpragma. unfold LineStatement_consume, bind.
  rewrite (consume_line_at _ _ Hl). unfold the_line, ret. rewrite Hpragma.
  unfold current_line_no. rewrite line_no_at_line.
  destruct (negb _); reflexivity.
Qed.

(** The loops that read the body of a statement line by line meet a
    line that starts with [#pragma], which is not [end]. *)
Lemma pragma_is_no_end l : startswith l "#pragma" = true -> (l =? "end") = false.
Proof.
  destruct l as [|x l]; [discriminate|]. cbn [startswith]. intros H.
  apply andb_prop in H as [Hx _]. apply Ascii.eqb_eq in Hx. subst x.
  reflexivity.
Qed.

Lemma pragma_is_comment l :
  startswith l "#pragma" = true -> existsb (startswith l) ["#"] = true.
Proof.
  destruct l as [|x l]; [discriminate|]. cbn [startswith existsb]. intros H.
  apply andb_prop in H as [-> _]. reflexivity.
Qed.

(** X6. Where a statement is read, a line that starts with [#pragma]
    is accepted as the first line of the program only: on a later line
    [Statement.consume] raises a parse error that names the line and
    its number, and as the first line [#pragma version] followed by
    digits is built as a [TealVersion] with these digits, and written
    as the same line.  The bodies of [inner_txn:], [struct] and
    [teal:] are not read as statements, and there the line is taken on
    any line of the program: the loops of [InnerTxn.consume] and of
    [StructDefinition.consume] pass over it as over a comment, and the
    loop of [Teal.consume] copies it. *)
Theorem pragma_line_where_it_is_read (fuel : nat) (ctx : Ctx)
  (c : TealishCompiler.t) (l : string) :
  nth_error (TealishCompiler.source_lines c) (TealishCompiler.line_no c)
  = Some l ->
  startswith l "#pragma" = true ->
  (TealishCompiler.line_no c <> 0 ->
   Statement_consume (S fuel) ctx c
   = inl (ParseError
            ("Teal version must be specified in the first line of the program: "
             ++ Q ++ l ++ Q ++ " at "
             ++ str_nat (S (TealishCompiler.line_no c)) ++ ".")))
  /\ (TealishCompiler.line_no c = 0 ->
      forall digits,
        l = "#pragma version " ++ digits ->
        all is_digit digits = true -> digits <> "" ->
        Statement_consume (S fuel) ctx c
        = inr (TealVersion {| line_no := 1; line := l |} digits, at_line c 1)
        /\ forall w, exists w',
             write_teal (TealVersion {| line_no := 1; line := l |} digits) w
             = Some w'
             /\ texts_of w' = texts_of w +++ [l])
  /\ (forall child_nodes,
        InnerTxn_loop parse_expression (S fuel) child_nodes c
        = InnerTxn_loop parse_expression fuel child_nodes
            (at_line c (S (TealishCompiler.line_no c))))
  /\ (forall child_nodes,
        StructDefinition_loop (S fuel) child_nodes c
        = StructDefinition_loop fuel child_nodes
            (at_line c (S (TealishCompiler.line_no c))))
  /\ (forall child_nodes,
        Teal_loop (S fuel) child_nodes c
        = Teal_loop fuel
            (child_nodes
             +++ [TealLine {| line_no := S (TealishCompiler.line_no c);
                              line := l |}])
            (at_line c (S (TealishCompiler.line_no c)))).
Proof.
  intros Hl Hpragma.
  assert (Hhash : startswith l "#" = true).
  { destruct l as [|x l]; [discriminate|]. cbn [startswith] in *.
    apply andb_prop in Hpragma as [-> _]. reflexivity. }
  rewrite (hash_is_LineStatement fuel ctx c l Hl Hhash).
  rewrite (pragma_line ctx c l Hl Hpragma).
  split; [|split; [|split; [|split]]].
  - intros Hline.
    destruct (TealishCompiler.line_no c) as [|n] eqn:En; [congruence|].
    reflexivity.
  - intros Hline digits -> Hall Hne. rewrite Hline. cbn [Nat.eqb negb].
    split.
    + unfold TealVersion_init, init.
      rewrite (TealVersion_matches digits Hall Hne).
      unfold bind, current_line_no, ret. cbn [fst snd].
      rewrite line_no_at_line.
      unfold group. cbn [get String.eqb Ascii.eqb Bool.eqb]. reflexivity.
    + intros w. cbn [Gen.write_teal]. unfold TealVersion_write_teal.
      eexists. split; [reflexivity|]. cbn [line].
      unfold texts_of, TealWriter.texts. simpl. now rewrite map_app.
  - intros child_nodes. cbn [InnerTxn_loop].
    unfold bind at 1, peek_is, bind at 1. rewrite peek_at, Hl.
    unfold ret at 1. rewrite (pragma_is_no_end l Hpragma).
    unfold bind at 1, peek_startswith, bind at 1. rewrite peek_at, Hl.
    unfold the_line at 1, bind at 1, ret at 1, ret at 1.
    rewrite (pragma_is_comment l Hpragma).
    unfold bind at 1, consume_str, bind at 1.
    rewrite (consume_line_at _ _ Hl). unfold the_line, ret. reflexivity.
  - intros child_nodes. cbn [StructDefinition_loop].
    unfold bind at 1, peek_is, bind at 1. rewrite peek_at, Hl.
    unfold ret at 1. rewrite (pragma_is_no_end l Hpragma).
    unfold bind at 1, peek_startswith, bind at 1. rewrite peek_at, Hl.
    unfold the_line at 1, bind at 1, ret at 1, ret at 1.
    rewrite (pragma_is_comment l Hpragma).
    unfold bind at 1, consume_str, bind at 1.
    rewrite (consume_line_at _ _ Hl). unfold the_line, ret. reflexivity.
  - intros child_nodes. cbn [Teal_loop].
    unfold bind at 1, peek_is, bind at 1. rewrite peek_at, Hl.
    unfold ret at 1. rewrite (pragma_is_no_end l Hpragma).
    unfold consume_str, bind, the_line. rewrite (consume_line_at _ _ Hl).
    unfold ret, init, bind, current_line_no. cbn [Re.re_match Re.run].
    unfold ret. cbn [fst snd]. rewrite line_no_at_line. reflexivity.
Qed.

End WithEnv.

(** A version line in the body of an inner transaction. *)
Definition late_pragma : list string :=
  ["inner_txn:"; "#pragma version 8"; "Fee: 0"; "end"].

Lemma pragma_line_where_it_is_read_witness :
  Build.Statement_consume Standin.parse_expression Standin.get_type_instance
    Standin.literal_type 1 {| ancestors := [PProgram]; scope_name := "" |}
    (at_line (Build.start ["exit(1)"; "#pragma version 8"]) 1)
  = inl (ParseError
           ("Teal version must be specified in the first line of the program: "
            ++ Q ++ "#pragma version 8" ++ Q ++ " at 2."))
  /\ Build.Statement_consume Standin.parse_expression
       Standin.get_type_instance Standin.literal_type 1
       {| ancestors := [PProgram]; scope_name := "" |}
       (Build.start ["#pragma version 8"; "exit(1)"])
     = inr (TealVersion {| line_no := 1; line := "#pragma version 8" |} "8",
            at_line (Build.start ["#pragma version 8"; "exit(1)"]) 1)
  /\ exists setter,
       Build.InnerTxn_loop Standin.parse_expression 3 []
         (at_line (Build.start late_pragma) 1)
       = inr ([setter], at_line (Build.start late_pragma) 4)
       /\ class_of setter = CInnerTxnFieldSetter.
Proof.
  split; [|split].
  - refine (proj1 (pragma_line_where_it_is_read Standin.parse_expression
                     Standin.get_type_instance Standin.literal_type
                     (fun _ _ => None) (fun _ _ => None) Standin.type_str
                     Standin.type_str 0 _ _ "#pragma version 8" _ _) _);
      [reflexivity | reflexivity | discriminate].
  - refine (proj1 (proj1 (proj2 (pragma_line_where_it_is_read
                            Standin.parse_expression
                            Standin.get_type_instance Standin.literal_type
                            (fun _ _ => None) (fun _ _ => None)
                            Standin.type_str Standin.type_str 0 _ _
                            "#pragma version 8" _ _)) _ "8" _ _ _));
      [reflexivity | reflexivity | reflexivity | reflexivity | reflexivity
      | discriminate].
  - eexists.
    rewrite (proj1 (proj2 (proj2 (pragma_line_where_it_is_read
               Standin.parse_expression
               Standin.get_type_instance Standin.literal_type
               (fun _ _ => None) (fun _ _ => None)
               Standin.type_str Standin.type_str 2
               {| ancestors := [PProgram]; scope_name := "" |}
               (at_line (Build.start late_pragma) 1)
               "#pragma version 8" eq_refl eq_refl))) []).
    split; [vm_compute; reflexivity | reflexivity].
Defined.

End TealVersionFacts.

(** ** The numbering of the conditionals *)

Module ConditionalFacts.
Import Build IfStatementFacts.

Local Open Scope string_scope.

(** The conditional indices of the [if], [while] and [for] statements
    of a tree, each statement before the statements inside it, from
    the first line to the last. *)
Fixpoint indices (n : Node) : list nat :=
  match n with
  | IfStatement _ _ _ idx _ cs | WhileStatement _ _ _ idx cs
  | ForStatement _ _ _ _ idx _ cs | For_Statement _ _ _ idx cs =>
      idx :: flat_map indices cs
  | Program _ _ cs | Block _ _ _ cs | Switch _ _ cs | Router _ cs
  | Teal _ cs | InnerTxn _ cs | InnerGroup _ cs | IfThen _ _ _ cs
  | Elif _ _ _ _ _ cs | Else _ _ _ cs | Func _ _ cs | DecoratedFunc _ cs
  | StructDefinition _ _ cs => flat_map indices cs
  | _ => []
  end.

(** [fills a l m ix]: when the indices met so far are [l], the numbers
    from [a] up to the count of the compiler, the action [m] leaves a
    count that is not lower and a result whose indices [ix] are the
    numbers from [a] up to the new count. *)
Definition fills {A} (a : nat) (l : list nat) (m : B A) (ix : A -> list nat)
  : Prop :=
  forall c x c',
    a <= count c -> l = seq a (count c - a) -> m c = inr (x, c') ->
    count c <= count c' /\ ix x = seq a (count c' - a).

Lemma fills_bind {A C} a l (m : B A) (f : A -> B C) ix1 ix2 :
  fills a l m ix1 -> (forall x, fills a (ix1 x) (f x) ix2) ->
  fills a l (bind m f) ix2.
Proof.
  intros Hm Hf c y c' Ha Hl H. unfold bind in H.
  destruct (m c) as [|[x c1]] eqn:E; [discriminate|].
  destruct (Hm _ _ _ Ha Hl E) as [Hc1 Hx].
  destruct (Hf x c1 y c' ltac:(lia) Hx H) as [Hc' Hy].
  split; [lia | exact Hy].
Qed.

Lemma fills_keeps {A} a l (m : B A) : keeps m -> fills a l m (fun _ => l).
Proof.
  intros Hm c x c' Ha Hl H. rewrite (Hm _ _ _ H). split; [lia | exact Hl].
Qed.

Lemma fills_next a l : fills a l next_conditional (fun idx => l +++ [idx]).
Proof.
  intros c x c' Ha Hl H. destruct (next_conditional_spec c) as (c1 & E & Hc).
  rewrite E in H. inversion H; subst x c'. rewrite Hc. split; [lia|].
  replace (S (count c) - a) with ((count c - a) + 1) by lia.
  rewrite seq_app, Hl. cbn [seq]. do 2 f_equal. lia.
Qed.

Lemma fills_ret {A} a l (x : A) ix : ix x = l -> fills a l (ret x) ix.
Proof.
  intros Hx c y c' Ha Hl H. inversion H; subst. split; [lia | congruence].
Qed.

Lemma fills_raise {A} a l e ix : fills a l (@raise A e) ix.
Proof. intros c y c' _ _ H. discriminate. Qed.

Lemma fills_fail {A} a l (f : TealishCompiler.t -> Error) ix :
  fills a l (fun c => @inl Error (A * TealishCompiler.t) (f c)) ix.
Proof. intros c y c' _ _ H. discriminate. Qed.

Lemma fills_eq {A} a l l' (m : B A) ix :
  l = l' -> fills a l' m ix -> fills a l m ix.
Proof. now intros ->. Qed.

(** A statement built from the count [a] on. *)
Lemma fills_statement a l (m : B Node) :
  (forall a l, fills a l m (fun n => l +++ indices n)) ->
  fills a l m (fun n => l +++ indices n).
Proof. auto. Qed.

Lemma indices_set_label n l : indices (set_label n l) = indices n.
Proof. destruct n; reflexivity. Qed.

Lemma indices_set_func ds f : indices (set_func ds f) = indices f.
Proof. destruct f; reflexivity. Qed.

#[local] Hint Resolve keeps_peek_is keeps_peek_startswith keeps_consume_str
  keeps_init keeps_add_child keeps_ret keeps_raise keeps_peek
  keeps_current_line_no keeps_consume_line keeps_the_line keeps_parse_expr
  keeps_parse_optional_expr keeps_type_instance : grows.

(** The indices of the two sides of a step are the same list. *)
Ltac same_indices :=
  unfold add_if_then, add_elif, add_else;
  repeat rewrite flat_map_app;
  cbn [flat_map indices app];
  repeat rewrite indices_set_label;
  repeat rewrite indices_set_func;
  repeat rewrite app_nil_r;
  repeat rewrite <- app_assoc;
  cbn [app];
  first [ reflexivity | congruence ].

Ltac fills_plain :=
  match goal with
  | |- fills _ _ (ret _) _ => apply fills_ret; same_indices
  | |- fills _ _ (raise _) _ => apply fills_raise
  | |- fills _ _ (fun _ => inl _) _ => apply fills_fail
  | |- fills _ _ (bind next_conditional _) _ =>
      eapply fills_bind; [apply fills_next | intros ?; cbv beta]
  | |- fills _ _ (match ?x with _ => _ end) _ => destruct x
  | |- fills _ _ (let _ := _ in _) _ => progress cbv zeta
  end.

Ltac fills_kept :=
  match goal with
  | |- fills _ _ (bind _ _) _ =>
      eapply fills_bind;
      [ apply fills_keeps;
        solve [ repeat first [ keeps_step | solve [auto with grows]
                             | apply keeps_mapB; intros ? ] ]
      | intros ?; cbv beta ]
  end.

Section WithEnv.

Variable parse_expression : string -> option Expression.
Variable get_type_instance : string -> option TealishType.
Variable literal_type : string -> ExprType.

(** A line statement has no index and leaves the count. *)
Lemma LineStatement_consume_fills ctx a l :
  fills a l (LineStatement_consume parse_expression literal_type ctx)
    (fun n => l +++ indices n).
Proof.
  unfold LineStatement_consume, TealVersion_init, Comment_init, Blank_init,
    Const_init, Jump_init, Return_init, Break_init, VarDeclaration_init,
    BoxDeclaration_init, StructOrBoxAssignment_init, Assignment_init,
    Exit_init, Assert_init, FunctionCallStatement_init.
  repeat first [ fills_plain | fills_kept ].
Qed.

Section Loops.

Variable Statement_consume : Ctx -> B Node.
Hypothesis Statement_consume_fills :
  forall ctx a l, fills a l (Statement_consume ctx) (fun n => l +++ indices n).

Ltac fills_child :=
  match goal with
  | |- fills _ _ (bind (Statement_consume _) _) _ =>
      eapply fills_bind;
      [ apply Statement_consume_fills | intros ?; cbv beta ]
  end.

Ltac fills_rec IH := eapply fills_eq; [|apply IH]; same_indices.

(** A step that builds a node, and a step that runs a loop from the
    indices met so far. *)
Ltac fills_via L :=
  match goal with
  | |- fills _ _ (bind _ _) _ =>
      eapply fills_bind; [ apply L | intros ?; cbv beta ]
  end.

Ltac fills_from L :=
  match goal with
  | |- fills _ ?l (bind _ _) _ =>
      eapply fills_bind;
      [ eapply fills_eq; [|apply (L _ l)]; same_indices
      | intros ?; cbv beta ]
  end.

Ltac fills_auto IH :=
  repeat first [ fills_plain | fills_child | fills_kept | fills_rec IH ].

Lemma body_loop_fills : forall fuel pre ctx allowed cs a,
  fills a (pre +++ flat_map indices cs)
    (body_loop Statement_consume fuel ctx allowed cs)
    (fun cs' => pre +++ flat_map indices cs').
Proof.
  induction fuel as [|fuel IH]; intros; cbn [body_loop]; fills_auto IH.
Qed.

Lemma branch_loop_fills : forall fuel pre ctx stops cs a,
  fills a (pre +++ flat_map indices cs)
    (branch_loop Statement_consume fuel ctx stops cs)
    (fun cs' => pre +++ flat_map indices cs').
Proof.
  induction fuel as [|fuel IH]; intros; cbn [branch_loop]; fills_auto IH.
Qed.

Lemma Block_loop_fills : forall fuel pre ctx exit_statement cs a,
  fills a (pre +++ flat_map indices cs)
    (Block_loop Statement_consume fuel ctx exit_statement cs)
    (fun cs' => pre +++ flat_map indices cs').
Proof.
  induction fuel as [|fuel IH]; intros; cbn [Block_loop]; fills_auto IH.
Qed.

Lemma Program_loop_fills : forall fuel pre ctx expect exit_statement cs a,
  fills a (pre +++ flat_map indices cs)
    (Program_loop Statement_consume fuel ctx expect exit_statement cs)
    (fun cs' => pre +++ flat_map indices cs').
Proof.
  induction fuel as [|fuel IH]; intros; cbn [Program_loop]; fills_auto IH.
Qed.

Lemma InnerGroup_loop_fills : forall fuel pre ctx cs a,
  fills a (pre +++ flat_map indices cs)
    (InnerGroup_loop Statement_consume fuel ctx cs)
    (fun cs' => pre +++ flat_map indices cs').
Proof.
  induction fuel as [|fuel IH]; intros; cbn [InnerGroup_loop]; fills_auto IH.
Qed.

(** The loops whose children are not statements. *)
Lemma Switch_loop_fills : forall fuel pre cs a,
  fills a (pre +++ flat_map indices cs)
    (Switch_loop parse_expression fuel cs)
    (fun cs' => pre +++ flat_map indices cs').
Proof.
  induction fuel as [|fuel IH]; intros; cbn [Switch_loop]; fills_auto IH.
Qed.

Lemma Router_loop_fills : forall fuel pre cs a,
  fills a (pre +++ flat_map indices cs) (Router_loop fuel cs)
    (fun cs' => pre +++ flat_map indices cs').
Proof.
  induction fuel as [|fuel IH]; intros; cbn [Router_loop]; fills_auto IH.
Qed.

Lemma Teal_loop_fills : forall fuel pre cs a,
  fills a (pre +++ flat_map indices cs) (Teal_loop fuel cs)
    (fun cs' => pre +++ flat_map indices cs').
Proof.
  induction fuel as [|fuel IH]; intros; cbn [Teal_loop]; fills_auto IH.
Qed.

Lemma InnerTxnFieldSetter_init_fills line a l :
  fills a l (InnerTxnFieldSetter_init parse_expression line)
    (fun n => l +++ indices n).
Proof.
  unfold InnerTxnFieldSetter_init. repeat first [ fills_plain | fills_kept ].
Qed.

Lemma InnerTxn_loop_fills : forall fuel pre cs a,
  fills a (pre +++ flat_map indices cs)
    (InnerTxn_loop parse_expression fuel cs)
    (fun cs' => pre +++ flat_map indices cs').
Proof.
  induction fuel as [|fuel IH]; intros; cbn [InnerTxn_loop];
    repeat first [ fills_plain | fills_via InnerTxnFieldSetter_init_fills
                 | fills_kept | fills_rec IH ].
Qed.

Lemma StructDefinition_loop_fills : forall fuel pre cs a,
  fills a (pre +++ flat_map indices cs) (StructDefinition_loop fuel cs)
    (fun cs' => pre +++ flat_map indices cs').
Proof.
  induction fuel as [|fuel IH]; intros; cbn [StructDefinition_loop];
    fills_auto IH.
Qed.

(** The branches of an [if] statement. *)
Lemma IfThen_consume_fills fuel ctx a l :
  fills a l (IfThen_consume Statement_consume fuel ctx)
    (fun n => l +++ indices n).
Proof.
  unfold IfThen_consume.
  repeat first [ fills_plain | fills_from branch_loop_fills | fills_kept ].
Qed.

Lemma Elif_consume_fills fuel ctx a l :
  fills a l (Elif_consume parse_expression Statement_consume fuel ctx)
    (fun n => l +++ indices n).
Proof.
  unfold Elif_consume.
  repeat first [ fills_plain | fills_from branch_loop_fills | fills_kept ].
Qed.

Lemma Else_consume_fills fuel ctx a l :
  fills a l (Else_consume Statement_consume fuel ctx)
    (fun n => l +++ indices n).
Proof.
  unfold Else_consume.
  repeat first [ fills_plain | fills_from branch_loop_fills | fills_kept ].
Qed.

Lemma IfStatement_loop_fills : forall fuel pre ctx N cs a,
  fills a (pre +++ flat_map indices cs)
    (IfStatement_loop parse_expression Statement_consume fuel ctx N cs)
    (fun cs' => pre +++ flat_map indices cs').
Proof.
  induction fuel as [|fuel IH]; intros; cbn [IfStatement_loop];
    repeat first [ fills_plain | fills_via Elif_consume_fills
                 | fills_via Else_consume_fills | fills_kept | fills_rec IH ].
Qed.

(** Functions. *)
Lemma Func_consume_fills fuel ctx a l :
  fills a l (Func_consume get_type_instance Statement_consume fuel ctx)
    (fun n => l +++ indices n).
Proof.
  unfold Func_consume.
  repeat first [ fills_plain | fills_from body_loop_fills | fills_kept ].
Qed.

Lemma Decorator_consume_fills a l :
  fills a l Decorator_consume (fun n => l +++ indices n).
Proof.
  unfold Decorator_consume. repeat first [ fills_plain | fills_kept ].
Qed.

Lemma DecoratedFunc_loop_fills : forall fuel pre ctx decorators a,
  fills a (pre +++ flat_map indices decorators)
    (DecoratedFunc_loop get_type_instance Statement_consume fuel ctx
       decorators)
    (fun cs' => pre +++ flat_map indices cs').
Proof.
  induction fuel as [|fuel IH]; intros; cbn [DecoratedFunc_loop];
    repeat first [ fills_plain | fills_via Func_consume_fills
                 | fills_via Decorator_consume_fills | fills_kept
                 | fills_rec IH ].
Qed.

(** The compound statements. *)
Lemma Block_consume_fills fuel ctx a l :
  fills a l (Block_consume Statement_consume fuel ctx)
    (fun n => l +++ indices n).
Proof.
  unfold Block_consume.
  repeat first [ fills_plain | fills_from Block_loop_fills | fills_kept ].
Qed.

Lemma Switch_consume_fills fuel a l :
  fills a l (Switch_consume parse_expression fuel) (fun n => l +++ indices n).
Proof.
  unfold Switch_consume.
  repeat first [ fills_plain | fills_from Switch_loop_fills | fills_kept ].
Qed.

Lemma DecoratedFunc_consume_fills fuel ctx a l :
  fills a l (DecoratedFunc_consume get_type_instance Statement_consume fuel ctx)
    (fun n => l +++ indices n).
Proof.
  unfold DecoratedFunc_consume.
  repeat first [ fills_plain | fills_from DecoratedFunc_loop_fills | fills_kept ].
Qed.

Lemma IfStatement_consume_fills fuel ctx a l :
  fills a l (IfStatement_consume parse_expression Statement_consume fuel ctx)
    (fun n => l +++ indices n).
Proof.
  unfold IfStatement_consume.
  repeat first [ fills_plain | fills_via IfThen_consume_fills | fills_kept ].
  match goal with
  | |- fills _ (?pre +++ indices _) (bind _ _) _ =>
      eapply fills_bind;
      [ eapply fills_eq; [|apply (IfStatement_loop_fills _ pre)];
        same_indices
      | intros ?; cbv beta ]
  end.
  fills_plain.
Qed.

Lemma WhileStatement_consume_fills fuel ctx a l :
  fills a l (WhileStatement_consume parse_expression Statement_consume fuel ctx)
    (fun n => l +++ indices n).
Proof.
  unfold WhileStatement_consume.
  repeat first [ fills_plain | fills_from body_loop_fills | fills_kept ].
Qed.

Lemma ForStatement_consume_fills fuel ctx a l :
  fills a l (ForStatement_consume parse_expression Statement_consume fuel ctx)
    (fun n => l +++ indices n).
Proof.
  unfold ForStatement_consume.
  repeat first [ fills_plain | fills_from body_loop_fills | fills_kept ].
Qed.

Lemma For_Statement_consume_fills fuel ctx a l :
  fills a l (For_Statement_consume parse_expression Statement_consume fuel ctx)
    (fun n => l +++ indices n).
Proof.
  unfold For_Statement_consume.
  repeat first [ fills_plain | fills_from body_loop_fills | fills_kept ].
Qed.

Lemma Teal_consume_fills fuel a l :
  fills a l (Teal_consume fuel) (fun n => l +++ indices n).
Proof.
  unfold Teal_consume.
  repeat first [ fills_plain | fills_from Teal_loop_fills | fills_kept ].
Qed.

Lemma InnerGroup_consume_fills fuel ctx a l :
  fills a l (InnerGroup_consume Statement_consume fuel ctx)
    (fun n => l +++ indices n).
Proof.
  unfold InnerGroup_consume.
  repeat first [ fills_plain | fills_from InnerGroup_loop_fills | fills_kept ].
Qed.

Lemma InnerTxn_consume_fills fuel a l :
  fills a l (InnerTxn_consume parse_expression fuel) (fun n => l +++ indices n).
Proof.
  unfold InnerTxn_consume.
  repeat first [ fills_plain | fills_from InnerTxn_loop_fills | fills_kept ].
Qed.

Lemma StructDefinition_consume_fills fuel ctx a l :
  fills a l (StructDefinition_consume get_type_instance fuel ctx)
    (fun n => l +++ indices n).
Proof.
  unfold StructDefinition_consume.
  repeat first [ fills_plain | fills_from StructDefinition_loop_fills | fills_kept ].
Qed.

Lemma Router_consume_fills fuel a l :
  fills a l (Router_consume fuel) (fun n => l +++ indices n).
Proof.
  unfold Router_consume.
  repeat first [ fills_plain | fills_from Router_loop_fills | fills_kept ].
Qed.

(** [Statement.consume] on the line it dispatches on. *)
Lemma Statement_dispatch_fills fuel ctx a l :
  fills a l
    (Statement_dispatch parse_expression get_type_instance literal_type
       Statement_consume fuel ctx)
    (fun n => l +++ indices n).
Proof.
  unfold Statement_dispatch.
  eapply fills_bind; [apply fills_keeps, keeps_peek | intros p; cbv beta].
  eapply fills_bind; [apply fills_keeps, keeps_the_line | intros line; cbv beta].
  repeat match goal with
         | |- fills _ _ (if ?b then _ else _) _ => destruct b
         end;
    first [ apply Block_consume_fills | apply Switch_consume_fills
          | apply Func_consume_fills | apply DecoratedFunc_consume_fills
          | apply IfStatement_consume_fills
          | apply WhileStatement_consume_fills
          | apply For_Statement_consume_fills
          | apply ForStatement_consume_fills | apply Teal_consume_fills
          | apply InnerGroup_consume_fills | apply InnerTxn_consume_fills
          | apply StructDefinition_consume_fills | apply Router_consume_fills
          | apply LineStatement_consume_fills ].
Qed.

End Loops.

(** Every statement the build pass makes. *)
Lemma Statement_consume_fills : forall fuel ctx a l,
  fills a l
    (Statement_consume parse_expression get_type_instance literal_type fuel
       ctx)
    (fun n => l +++ indices n).
Proof.
  induction fuel as [|fuel IH]; intros ctx a l; cbn [Build.Statement_consume].
  - apply fills_raise.
  - now apply Statement_dispatch_fills.
Qed.

(** A program. *)
Lemma Program_consume_fills fuel fuel' a l :
  fills a l
    (Program_consume
       (Statement_consume parse_expression get_type_instance literal_type
          fuel')
       fuel)
    (fun n => l +++ indices n).
Proof.
  unfold Program_consume.
  eapply fills_bind; [apply fills_keeps, keeps_init | intros sg; cbv beta].
  eapply fills_bind.
  - eapply fills_eq;
      [|apply (Program_loop_fills _ (Statement_consume_fills fuel') fuel l)].
    same_indices.
  - intros cs. cbv beta. apply fills_ret. reflexivity.
Qed.

(** X7. The build pass numbers the conditionals in the order of their
    first lines.  The indices of the [if], [while] and [for]
    statements of a tree that [Statement.consume] has built, each
    statement before the statements inside it, are the numbers from
    the compiler's [conditional_count] before the call up to the count
    after it, one after the other; those of a whole program are the
    numbers from 0 on.  So no two conditionals of a program have the
    same index, and their labels [l{N}_...] differ. *)
Theorem conditional_indices_are_consecutive :
  (forall fuel ctx c c' n,
      Statement_consume parse_expression get_type_instance literal_type fuel
        ctx c = inr (n, c') ->
      indices n
      = seq (TealishCompiler.conditional_count c)
          (TealishCompiler.conditional_count c'
           - TealishCompiler.conditional_count c)
      /\ NoDup (indices n))
  /\ (forall source_lines program,
         build parse_expression get_type_instance literal_type source_lines
         = inr program ->
         indices program = seq 0 (List.length (indices program))
         /\ NoDup (indices program)).
Proof.
  split.
  - intros fuel ctx c c' n H.
    destruct (Statement_consume_fills fuel ctx (count c) [] c n c'
                (Nat.le_refl _)) as [_ E]; [|exact H|].
    + now rewrite Nat.sub_diag.
    + cbn [app] in E. split; [exact E|]. rewrite E. apply seq_NoDup.
  - intros source_lines program H. unfold build in H.
    destruct (Program_consume _ _ (start source_lines)) as [|[n c']] eqn:E;
      [discriminate|].
    inversion H; subst n. clear H.
    destruct (Program_consume_fills _ _ 0 [] (start source_lines) _ _
                (Nat.le_0_l _) eq_refl E) as [_ Hix].
    cbn [app] in Hix. rewrite Hix at 1 2. rewrite Hix, length_seq.
    split; [reflexivity | apply seq_NoDup].
Qed.

End WithEnv.

(** An [if] with a [while] in its [else], then a [for]. *)
Definition numbered_lines : list string :=
  [ "if 1:"; "assert(1)"; "else:"; "while 2:"; "assert(2)"; "end"; "end";
    "for i in 0:3:"; "assert(3)"; "end" ].

Lemma conditional_indices_are_consecutive_witness :
  exists program,
    Standin.build numbered_lines = inr program
    /\ indices program = [0; 1; 2]
    /\ indices program = seq 0 (List.length (indices program))
    /\ NoDup (indices program).
Proof.
  eexists. split; [vm_compute; reflexivity|].
  split; [reflexivity|].
  refine (proj2 (conditional_indices_are_consecutive
                   Standin.parse_expression Standin.get_type_instance
                   Standin.literal_type) numbered_lines _ _).
  vm_compute. reflexivity.
Defined.

End ConditionalFacts.

(** ** The target of [break] *)

Module BreakFacts.
Import Gen GenFacts Build BuildFacts.

Local Open Scope string_scope.

Definition same_target (target : option string) (l : string) : bool :=
  match target with
  | Some t => String.eqb t l
  | None => false
  end.

(** [breaks_to target n]: every [break] of the tree [n] holds the end
    label [l{N}_end] of the nearest [while] of the tree around it, and
    a [break] with no [while] of the tree around it holds [target]. *)
Fixpoint breaks_to (target : option string) (n : Node) : bool :=
  match n with
  | Break _ l => same_target target l
  | WhileStatement _ _ _ idx cs =>
      forallb (breaks_to (Some (end_label idx))) cs
  | Program _ _ cs | Block _ _ _ cs | Switch _ _ cs | Router _ cs
  | Teal _ cs | InnerTxn _ cs | InnerGroup _ cs | IfThen _ _ _ cs
  | Elif _ _ _ _ _ cs | Else _ _ _ cs | IfStatement _ _ _ _ _ cs
  | ForStatement _ _ _ _ _ _ cs | For_Statement _ _ _ _ cs
  | Func _ _ cs | DecoratedFunc _ cs | StructDefinition _ _ cs =>
      forallb (breaks_to target) cs
  | _ => true
  end.

(** The [while] that [find_parent] gives in a context. *)
Definition target_of (ctx : Ctx) : option string :=
  find_parent_While (ancestors ctx).

Lemma breaks_to_set_label t n l : breaks_to t (set_label n l) = breaks_to t n.
Proof. destruct n; reflexivity. Qed.

Lemma breaks_to_set_func t ds f : breaks_to t (set_func ds f) = breaks_to t f.
Proof. destruct f; reflexivity. Qed.

(** The children of a step are as asked when those before it are. *)
Ltac breaks_done :=
  unfold add_if_then, add_elif, add_else, target_of in *;
  cbn [breaks_to forallb app inside inside_scope ancestors find_parent_While]
    in *;
  repeat first
    [ assumption
    | reflexivity
    | apply forallb_snoc
    | rewrite breaks_to_set_label
    | rewrite breaks_to_set_func
    | rewrite andb_true_r
    | progress cbn [breaks_to forallb app] ].

Ltac builds_plain :=
  match goal with
  | |- builds _ (ret _) => apply builds_ret; breaks_done
  | |- builds _ (raise _) => apply builds_raise
  | |- builds _ (fun _ => inl _) => apply builds_fail
  | |- builds _ (match ?x with _ => _ end) => destruct x eqn:?
  | |- builds _ (let _ := _ in _) => progress cbv zeta
  end.

Section WithEnv.

Variable parse_expression : string -> option Expression.
Variable get_type_instance : string -> option TealishType.
Variable literal_type : string -> ExprType.

(** A line statement: a [break] holds the label of the [while] that
    [find_parent] gives, and there is no [break] without one. *)
Lemma LineStatement_consume_builds ctx :
  builds (fun n => breaks_to (target_of ctx) n = true)
    (LineStatement_consume parse_expression literal_type ctx).
Proof.
  unfold LineStatement_consume, TealVersion_init, Comment_init, Blank_init,
    Const_init, Jump_init, Return_init, Break_init, VarDeclaration_init,
    BoxDeclaration_init, StructOrBoxAssignment_init, Assignment_init,
    Exit_init, Assert_init, FunctionCallStatement_init.
  repeat first [ builds_plain | builds_skip ].
  all: unfold target_of, same_target;
    match goal with
    | E : find_parent_While _ = Some _ |- _ => rewrite E
    end;
    apply String.eqb_refl.
Qed.

Section Loops.

Variable Statement_consume : Ctx -> B Node.
Hypothesis Statement_consume_builds :
  forall ctx,
    builds (fun n => breaks_to (target_of ctx) n = true)
      (Statement_consume ctx).

Ltac builds_child :=
  match goal with
  | |- builds _ (bind (Statement_consume ?ctx) _) =>
      eapply builds_bind;
      [ apply (Statement_consume_builds ctx) | intros ? ?; cbv beta ]
  end.

(** A step that builds a node or runs a loop, by the lemma [L]. *)
Ltac builds_via L :=
  match goal with
  | |- builds _ (bind _ _) =>
      eapply builds_bind; [ eapply L; breaks_done | intros ? ?; cbv beta ]
  end.

Ltac builds_rec IH := eapply IH; breaks_done.

Ltac builds_auto IH :=
  repeat first [ builds_plain | builds_child | builds_skip | builds_rec IH ].

Lemma body_loop_builds : forall fuel ctx allowed cs,
  forallb (breaks_to (target_of ctx)) cs = true ->
  builds (fun cs' => forallb (breaks_to (target_of ctx)) cs' = true)
    (body_loop Statement_consume fuel ctx allowed cs).
Proof.
  induction fuel as [|fuel IH]; intros; cbn [body_loop]; builds_auto IH.
Qed.

Lemma branch_loop_builds : forall fuel ctx stops cs,
  forallb (breaks_to (target_of ctx)) cs = true ->
  builds (fun cs' => forallb (breaks_to (target_of ctx)) cs' = true)
    (branch_loop Statement_consume fuel ctx stops cs).
Proof.
  induction fuel as [|fuel IH]; intros; cbn [branch_loop]; builds_auto IH.
Qed.

Lemma Block_loop_builds : forall fuel ctx exit_statement cs,
  forallb (breaks_to (target_of ctx)) cs = true ->
  builds (fun cs' => forallb (breaks_to (target_of ctx)) cs' = true)
    (Block_loop Statement_consume fuel ctx exit_statement cs).
Proof.
  induction fuel as [|fuel IH]; intros; cbn [Block_loop]; builds_auto IH.
Qed.

Lemma Program_loop_builds : forall fuel ctx expect exit_statement cs,
  forallb (breaks_to (target_of ctx)) cs = true ->
  builds (fun cs' => forallb (breaks_to (target_of ctx)) cs' = true)
    (Program_loop Statement_consume fuel ctx expect exit_statement cs).
Proof.
  induction fuel as [|fuel IH]; intros; cbn [Program_loop]; builds_auto IH.
Qed.

Lemma InnerGroup_loop_builds : forall fuel ctx cs,
  forallb (breaks_to (target_of ctx)) cs = true ->
  builds (fun cs' => forallb (breaks_to (target_of ctx)) cs' = true)
    (InnerGroup_loop Statement_consume fuel ctx cs).
Proof.
  induction fuel as [|fuel IH]; intros; cbn [InnerGroup_loop]; builds_auto IH.
Qed.

(** The loops whose children are not statements: no [break] there. *)
Lemma Switch_loop_builds : forall fuel t cs,
  forallb (breaks_to t) cs = true ->
  builds (fun cs' => forallb (breaks_to t) cs' = true)
    (Switch_loop parse_expression fuel cs).
Proof.
  induction fuel as [|fuel IH]; intros; cbn [Switch_loop]; builds_auto IH.
Qed.

Lemma Router_loop_builds : forall fuel t cs,
  forallb (breaks_to t) cs = true ->
  builds (fun cs' => forallb (breaks_to t) cs' = true) (Router_loop fuel cs).
Proof.
  induction fuel as [|fuel IH]; intros; cbn [Router_loop]; builds_auto IH.
Qed.

Lemma Teal_loop_builds : forall fuel t cs,
  forallb (breaks_to t) cs = true ->
  builds (fun cs' => forallb (breaks_to t) cs' = true) (Teal_loop fuel cs).
Proof.
  induction fuel as [|fuel IH]; intros; cbn [Teal_loop]; builds_auto IH.
Qed.

Lemma InnerTxnFieldSetter_init_builds t l :
  builds (fun n => breaks_to t n = true)
    (InnerTxnFieldSetter_init parse_expression l).
Proof.
  unfold InnerTxnFieldSetter_init. repeat first [ builds_plain | builds_skip ].
Qed.

Lemma InnerTxn_loop_builds : forall fuel t cs,
  forallb (breaks_to t) cs = true ->
  builds (fun cs' => forallb (breaks_to t) cs' = true)
    (InnerTxn_loop parse_expression fuel cs).
Proof.
  induction fuel as [|fuel IH]; intros; cbn [InnerTxn_loop];
    repeat first [ builds_plain
                 | builds_via (InnerTxnFieldSetter_init_builds t)
                 | builds_skip | builds_rec IH ].
Qed.

Lemma StructDefinition_loop_builds : forall fuel t cs,
  forallb (breaks_to t) cs = true ->
  builds (fun cs' => forallb (breaks_to t) cs' = true)
    (StructDefinition_loop fuel cs).
Proof.
  induction fuel as [|fuel IH]; intros; cbn [StructDefinition_loop];
    builds_auto IH.
Qed.

(** The branches of an [if] statement. *)
Lemma IfThen_consume_builds fuel ctx :
  builds (fun n => breaks_to (target_of ctx) n = true)
    (IfThen_consume Statement_consume fuel ctx).
Proof.
  unfold IfThen_consume.
  repeat first [ builds_plain | builds_via branch_loop_builds | builds_skip ].
Qed.

Lemma Elif_consume_builds fuel ctx :
  builds (fun n => breaks_to (target_of ctx) n = true)
    (Elif_consume parse_expression Statement_consume fuel ctx).
Proof.
  unfold Elif_consume.
  repeat first [ builds_plain | builds_via branch_loop_builds | builds_skip ].
Qed.

Lemma Else_consume_builds fuel ctx :
  builds (fun n => breaks_to (target_of ctx) n = true)
    (Else_consume Statement_consume fuel ctx).
Proof.
  unfold Else_consume.
  repeat first [ builds_plain | builds_via branch_loop_builds | builds_skip ].
Qed.

Lemma IfStatement_loop_builds : forall fuel ctx N cs,
  forallb (breaks_to (target_of ctx)) cs = true ->
  builds (fun cs' => forallb (breaks_to (target_of ctx)) cs' = true)
    (IfStatement_loop parse_expression Statement_consume fuel ctx N cs).
Proof.
  induction fuel as [|fuel IH]; intros; cbn [IfStatement_loop];
    repeat first [ builds_plain | builds_via Elif_consume_builds
                 | builds_via Else_consume_builds | builds_skip
                 | builds_rec IH ].
Qed.

(** Functions. *)
Lemma Func_consume_builds fuel ctx :
  builds (fun n => breaks_to (target_of ctx) n = true)
    (Func_consume get_type_instance Statement_consume fuel ctx).
Proof.
  unfold Func_consume.
  repeat first [ builds_plain | builds_via body_loop_builds | builds_skip ].
Qed.

Lemma Decorator_consume_builds t :
  builds (fun n => breaks_to t n = true) Decorator_consume.
Proof.
  unfold Decorator_consume. repeat first [ builds_plain | builds_skip ].
Qed.

Lemma DecoratedFunc_loop_builds : forall fuel ctx decorators,
  forallb (breaks_to (target_of ctx)) decorators = true ->
  builds (fun cs' => forallb (breaks_to (target_of ctx)) cs' = true)
    (DecoratedFunc_loop get_type_instance Statement_consume fuel ctx
       decorators).
Proof.
  induction fuel as [|fuel IH]; intros; cbn [DecoratedFunc_loop];
    repeat first [ builds_plain | builds_via Func_consume_builds
                 | builds_via (Decorator_consume_builds (target_of ctx))
                 | builds_skip | builds_rec IH ].
Qed.

(** The compound statements. *)
Lemma Block_consume_builds fuel ctx :
  builds (fun n => breaks_to (target_of ctx) n = true)
    (Block_consume Statement_consume fuel ctx).
Proof.
  unfold Block_consume.
  repeat first [ builds_plain | builds_via Block_loop_builds | builds_skip ].
Qed.

Lemma Switch_consume_builds fuel t :
  builds (fun n => breaks_to t n = true) (Switch_consume parse_expression fuel).
Proof.
  unfold Switch_consume.
  repeat first [ builds_plain | builds_via (Switch_loop_builds fuel t)
               | builds_skip ].
Qed.

Lemma DecoratedFunc_consume_builds fuel ctx :
  builds (fun n => breaks_to (target_of ctx) n = true)
    (DecoratedFunc_consume get_type_instance Statement_consume fuel ctx).
Proof.
  unfold DecoratedFunc_consume.
  repeat first [ builds_plain | builds_via DecoratedFunc_loop_builds
               | builds_skip ].
Qed.

Lemma IfStatement_consume_builds fuel ctx :
  builds (fun n => breaks_to (target_of ctx) n = true)
    (IfStatement_consume parse_expression Statement_consume fuel ctx).
Proof.
  unfold IfStatement_consume.
  repeat first [ builds_plain | builds_via IfThen_consume_builds
               | builds_via IfStatement_loop_builds | builds_skip ].
Qed.

Lemma WhileStatement_consume_builds fuel ctx :
  builds (fun n => breaks_to (target_of ctx) n = true)
    (WhileStatement_consume parse_expression Statement_consume fuel ctx).
Proof.
  unfold WhileStatement_consume.
  repeat first [ builds_plain | builds_via body_loop_builds | builds_skip ].
Qed.

Lemma ForStatement_consume_builds fuel ctx :
  builds (fun n => breaks_to (target_of ctx) n = true)
    (ForStatement_consume parse_expression Statement_consume fuel ctx).
Proof.
  unfold ForStatement_consume.
  repeat first [ builds_plain | builds_via body_loop_builds | builds_skip ].
Qed.

Lemma For_Statement_consume_builds fuel ctx :
  builds (fun n => breaks_to (target_of ctx) n = true)
    (For_Statement_consume parse_expression Statement_consume fuel ctx).
Proof.
  unfold For_Statement_consume.
  repeat first [ builds_plain | builds_via body_loop_builds | builds_skip ].
Qed.

Lemma Teal_consume_builds fuel t :
  builds (fun n => breaks_to t n = true) (Teal_consume fuel).
Proof.
  unfold Teal_consume.
  repeat first [ builds_plain | builds_via (Teal_loop_builds fuel t)
               | builds_skip ].
Qed.

Lemma InnerGroup_consume_builds fuel ctx :
  builds (fun n => breaks_to (target_of ctx) n = true)
    (InnerGroup_consume Statement_consume fuel ctx).
Proof.
  unfold InnerGroup_consume.
  repeat first [ builds_plain | builds_via InnerGroup_loop_builds
               | builds_skip ].
Qed.

Lemma InnerTxn_consume_builds fuel t :
  builds (fun n => breaks_to t n = true)
    (InnerTxn_consume parse_expression fuel).
Proof.
  unfold InnerTxn_consume.
  repeat first [ builds_plain | builds_via (InnerTxn_loop_builds fuel t)
               | builds_skip ].
Qed.

Lemma StructDefinition_consume_builds fuel ctx t :
  builds (fun n => breaks_to t n = true)
    (StructDefinition_consume get_type_instance fuel ctx).
Proof.
  unfold StructDefinition_consume.
  repeat first [ builds_plain
               | builds_via (StructDefinition_loop_builds fuel t)
               | builds_skip ].
Qed.

Lemma Router_consume_builds fuel t :
  builds (fun n => breaks_to t n = true) (Router_consume fuel).
Proof.
  unfold Router_consume.
  repeat first [ builds_plain | builds_via (Router_loop_builds fuel t)
               | builds_skip ].
Qed.

(** [Statement.consume] on the line it dispatches on. *)
Lemma Statement_dispatch_builds fuel ctx :
  builds (fun n => breaks_to (target_of ctx) n = true)
    (Statement_dispatch parse_expression get_type_instance literal_type
       Statement_consume fuel ctx).
Proof.
  unfold Statement_dispatch. builds_skip. builds_skip.
  repeat match goal with
         | |- builds _ (if ?b then _ else _) => destruct b
         end;
    first [ apply Block_consume_builds | apply Switch_consume_builds
          | apply Func_consume_builds | apply DecoratedFunc_consume_builds
          | apply IfStatement_consume_builds
          | apply WhileStatement_consume_builds
          | apply For_Statement_consume_builds
          | apply ForStatement_consume_builds | apply Teal_consume_builds
          | apply InnerGroup_consume_builds | apply InnerTxn_consume_builds
          | apply StructDefinition_consume_builds
          | apply Router_consume_builds
          | apply LineStatement_consume_builds ].
Qed.

End Loops.

(** Every statement the build pass makes. *)
Lemma Statement_consume_builds : forall fuel ctx,
  builds (fun n => breaks_to (target_of ctx) n = true)
    (Statement_consume parse_expression get_type_instance literal_type fuel
       ctx).
Proof.
  induction fuel as [|fuel IH]; intros ctx; cbn [Build.Statement_consume].
  - apply builds_raise.
  - now apply Statement_dispatch_builds.
Qed.

(** A program. *)
Lemma Program_consume_builds fuel fuel' :
  builds (fun n => breaks_to None n = true)
    (Program_consume
       (Statement_consume parse_expression get_type_instance literal_type
          fuel')
       fuel).
Proof.
  unfold Program_consume. builds_skip.
  eapply builds_bind.
  - apply (Program_loop_builds _ (Statement_consume_builds fuel') fuel
             {| ancestors := [PProgram]; scope_name := "" |} true None []).
    reflexivity.
  - intros cs Hcs. apply builds_ret. exact Hcs.
Qed.

Variable get_block : Src -> string -> option string.
Variable lookup_func : Src -> string -> option FuncAttrs.
Variable type_name : TealishType -> string.
Variable type_str : TealishType -> string.

Local Abbreviation write_teal :=
  (Gen.write_teal get_block lookup_func type_name type_str).

(** The code of a [while] ends with its end label. *)
Lemma WhileStatement_ends_with_label src modifier condition idx cs st st' :
  write_teal (WhileStatement src modifier condition idx cs) st = Some st' ->
  exists code, texts_of st' = texts_of st +++ code +++ [end_label idx ++ ":"].
Proof.
  cbn [Gen.write_teal]. unfold WhileStatement_write_teal. intros H.
  cbv zeta in H. seq_inv H.
  match goal with
  | H : write_children _ _ = Some _ |- _ =>
      apply (appends_texts _ _ _
               (appends_write_children _
                  (kids_append get_block lookup_func type_name type_str cs)))
        in H as [body Hbody]
  end.
  assert (Hbranch : exists branch, texts_of st4 = texts_of st3 +++ [branch]).
  { destruct (is_not modifier); apply write_texts in E3; eauto. }
  destruct Hbranch as [branch Hbranch].
  step_texts.
  exists ([tl src; while_label idx ++ ":"] +++ e_teal condition +++ [branch]
          +++ body +++ ["b " ++ while_label idx]).
  chain_texts. reflexivity.
Qed.

(** X8. A [break] leaves the nearest [while] around it, whatever
    stands between the two.  In a tree that [Statement.consume] has
    built, every [break] holds the end label [l{N}_end] of the nearest
    [while] statement of the tree that contains it, through [if],
    [for], [inner_group] and [func] alike; a [break] with no [while]
    of the tree around it holds the end label of the nearest [while]
    among the ancestors the statement was built under, and a built
    program has no [break] outside a [while].  The code of a [break]
    is a branch to the label it holds, and the code of a [while] ends
    with the line of its end label. *)
Theorem break_leaves_the_nearest_while :
  (forall fuel ctx c c' n,
      Statement_consume parse_expression get_type_instance literal_type fuel
        ctx c = inr (n, c') ->
      breaks_to (find_parent_While (ancestors ctx)) n = true)
  /\ (forall source_lines program,
         build parse_expression get_type_instance literal_type source_lines
         = inr program ->
         breaks_to None program = true)
  /\ (forall src l st st',
         write_teal (Break src l) st = Some st' ->
         texts_of st' = texts_of st +++ [tl src; "b " ++ l])
  /\ (forall src modifier condition idx cs st st',
         write_teal (WhileStatement src modifier condition idx cs) st
         = Some st' ->
         exists code,
           texts_of st' = texts_of st +++ code +++ [end_label idx ++ ":"]).
Proof.
  split; [|split; [|split]].
  - intros fuel ctx c c' n H. exact (Statement_consume_builds fuel ctx c n c' H).
  - intros source_lines program H. unfold build in H.
    destruct (Program_consume _ _ (start source_lines)) as [|[n c']] eqn:E;
      [discriminate|].
    inversion H; subst n. exact (Program_consume_builds _ _ _ _ _ E).
  - intros src l st st' H. cbn [Gen.write_teal] in H.
    unfold Break_write_teal in H. seq_inv H. step_texts. chain_texts.
    reflexivity.
  - intros. eapply WhileStatement_ends_with_label. eassumption.
Qed.

End WithEnv.

(** A [break] in a [for] loop in a [while] loop, and one in a [while]
    loop in that. *)
Definition nested_lines : list string :=
  [ "while 1:"; "for _ in 0:3:"; "break"; "end"; "while 2:"; "break"; "end";
    "end" ].

Lemma break_leaves_the_nearest_while_witness :
  exists program,
    Standin.build nested_lines = inr program
    /\ breaks_to None program = true.
Proof.
  eexists. split; [vm_compute; reflexivity|].
  refine (proj1 (proj2 (break_leaves_the_nearest_while
                          Standin.parse_expression Standin.get_type_instance
                          Standin.literal_type (fun _ _ => None)
                          (fun _ _ => None) Standin.type_str Standin.type_str))
            nested_lines _ _).
  vm_compute. reflexivity.
Defined.

Example nested_breaks :
  Standin.compile nested_lines
  = inr [ "// tl:1: while 1:"; "l0_while:"; "pushint 1"; "bz l0_end";
          "// tl:2: for _ in 0:3:"; "pushint 0"; "dup"; "l1_for:";
          "pushint 3"; "=="; "bnz l1_end"; "// tl:3: break"; "b l0_end";
          "pushint 1"; "+"; "dup"; "b l1_for"; "pop"; "l1_end:";
          "// tl:5: while 2:"; "l2_while:"; "pushint 2"; "bz l2_end";
          "// tl:6: break"; "b l2_end"; "b l2_while"; "l2_end:";
          "b l0_while"; "l0_end:" ].
Proof. vm_compute. reflexivity. Qed.

End BreakFacts.

(** ** Lines that start with a keyword *)

Module KeywordFacts.
Import Re ReFacts StrFacts Build ReaderFacts.

Local Open Scope string_scope.

Definition newline : string := String "010"%char "".

(** The pattern of [Break] matches [break] alone. *)
Lemma Break_alone rest :
  rest <> "" -> rest <> newline ->
  re_match Patterns.Break ("break" ++ rest) = None.
Proof.
  intros Hne Hnl. unfold re_match.
  change Patterns.Break with (Seq (lit "break") Eos).
  rewrite run_Seq, run_lit. cbn [run].
  destruct rest as [|x [|y rest]]; [congruence| |reflexivity].
  destruct (Ascii.eqb x "010"%char) eqn:Ex; [|reflexivity].
  apply Ascii.eqb_eq in Ex. subst x. now elim Hnl.
Qed.

Section WithEnv.

Variable parse_expression : string -> option Expression.
Variable get_type_instance : string -> option TealishType.
Variable literal_type : string -> ExprType.

Local Abbreviation Statement_consume :=
  (Statement_consume parse_expression get_type_instance literal_type).

(** A line that starts with [break] is read as a [break]. *)
Lemma break_line fuel ctx c rest :
  nth_error (TealishCompiler.source_lines c) (TealishCompiler.line_no c)
  = Some ("break" ++ rest) ->
  Statement_consume (S fuel) ctx c
  = Break_init ctx ("break" ++ rest)
      (at_line c (S (TealishCompiler.line_no c))).
Proof.
  intros Hl. cbn [Build.Statement_consume]. unfold Statement_dispatch.
  unfold bind at 1. rewrite peek_at, Hl. unfold the_line, bind at 1, ret at 1.
  cbn [startswith append Ascii.eqb Bool.eqb andb].
  unfold LineStatement_consume, bind.
  rewrite (consume_line_at _ _ Hl). unfold the_line, ret.
  cbn [startswith append Ascii.eqb Bool.eqb andb String.eqb]. reflexivity.
Qed.

(** A line that starts with [return] is read as a [return]. *)
Lemma return_line fuel ctx c rest :
  nth_error (TealishCompiler.source_lines c) (TealishCompiler.line_no c)
  = Some ("return" ++ rest) ->
  Statement_consume (S fuel) ctx c
  = Return_init parse_expression ctx ("return" ++ rest)
      (at_line c (S (TealishCompiler.line_no c))).
Proof.
  intros Hl. cbn [Build.Statement_consume]. unfold Statement_dispatch.
  unfold bind at 1. rewrite peek_at, Hl. unfold the_line, bind at 1, ret at 1.
  cbn [startswith append Ascii.eqb Bool.eqb andb].
  unfold LineStatement_consume, bind.
  rewrite (consume_line_at _ _ Hl). unfold the_line, ret.
  cbn [startswith append Ascii.eqb Bool.eqb andb String.eqb]. reflexivity.
Qed.

(** What [Return.__init__] builds is a [return]. *)
Lemma Return_init_class ctx l c n c' :
  Return_init parse_expression ctx l c = inr (n, c') -> class_of n = CReturn.
Proof.
  unfold Return_init. intros H. unfold bind at 1 in H.
  destruct (init Patterns.Return l c) as [|[sg c1]]; [discriminate|].
  destruct (find_parent_Func (ancestors ctx)) as [returns|]; [|discriminate].
  cbv zeta in H. unfold bind at 1 in H.
  destruct (match group (snd sg) "args" with
            | "" => ret []
            | String _ _ => _
            end c1) as [|[es c2]]; [discriminate|].
  destruct (negb _); [discriminate|].
  inversion H; subst. reflexivity.
Qed.

(** Outside a function [Return.__init__] raises a parse error. *)
Lemma Return_init_outside ctx l c :
  find_parent_Func (ancestors ctx) = None ->
  exists message, Return_init parse_expression ctx l c = inl (ParseError message).
Proof.
  intros Hctx. unfold Return_init, bind, init, current_line_no.
  destruct (re_match Patterns.Return l) as [g|].
  - unfold ret. rewrite Hctx. eexists. reflexivity.
  - eexists. reflexivity.
Qed.

(** X9. A statement line that starts with [break] or [return] is
    read as this statement, whatever follows the keyword.  A line that
    starts with [break] and is not [break] alone raises a parse error,
    also inside a [while] loop: an assignment to a name such as
    [breaker], or a call of a function of such a name, is not accepted.
    A line that starts with [return] is built as a [return] statement
    or not at all, and raises a parse error outside a function: the
    rest of the line is taken as the arguments of the [return]. *)
Theorem keyword_takes_the_line (fuel : nat) (ctx : Ctx)
  (c : TealishCompiler.t) (l : string) :
  nth_error (TealishCompiler.source_lines c) (TealishCompiler.line_no c)
  = Some l ->
  (startswith l "break" = true -> l <> "break" -> l <> "break" ++ newline ->
   exists message,
     Statement_consume (S fuel) ctx c = inl (ParseError message))
  /\ (startswith l "return" = true ->
      (forall n c',
          Statement_consume (S fuel) ctx c = inr (n, c') ->
          class_of n = CReturn)
      /\ (find_parent_Func (ancestors ctx) = None ->
          exists message,
            Statement_consume (S fuel) ctx c = inl (ParseError message))).
Proof.
  intros Hl. split.
  - intros Hstart Hne Hnl.
    apply startswith_append in Hstart as [rest ->].
    rewrite (break_line fuel ctx c rest Hl).
    unfold Break_init, bind, init, current_line_no.
    rewrite Break_alone.
    + eexists. reflexivity.
    + intros ->. now elim Hne.
    + intros ->. now elim Hnl.
  - intros Hstart. apply startswith_append in Hstart as [rest ->].
    rewrite (return_line fuel ctx c rest Hl). split.
    + intros n c'. apply Return_init_class.
    + intros Hctx. now apply Return_init_outside.
Qed.

End WithEnv.

(** An assignment to [breaker] in a [while] loop, and one to
    [returned] at the top of a program. *)
Lemma keyword_takes_the_line_witness :
  (exists message,
      Build.Statement_consume Standin.parse_expression
        Standin.get_type_instance Standin.literal_type 1
        {| ancestors := [PWhile "l0_end"; PProgram]; scope_name := "" |}
        (at_line (Build.start ["while 1:"; "breaker = 1"; "end"]) 1)
      = inl (ParseError message))
  /\ (exists message,
         Build.Statement_consume Standin.parse_expression
           Standin.get_type_instance Standin.literal_type 1
           {| ancestors := [PProgram]; scope_name := "" |}
           (Build.start ["returned = 1"])
         = inl (ParseError message)).
Proof.
  split.
  - refine (proj1 (keyword_takes_the_line Standin.parse_expression
                     Standin.get_type_instance Standin.literal_type 0 _ _
                     "breaker = 1" _) _ _ _);
      [reflexivity | reflexivity | discriminate | discriminate].
  - refine (proj2 (proj2 (keyword_takes_the_line Standin.parse_expression
                            Standin.get_type_instance Standin.literal_type 0
                            _ _ "returned = 1" _) _) _);
      [reflexivity | reflexivity | reflexivity].
Defined.

End KeywordFacts.

(** ** Functions end with [return] *)

Module FuncFacts.
Import Gen GenFacts Build BuildFacts.

Local Open Scope string_scope.

(** The test of [Func.consume] on the children of a function: the last
    of them that is not a function, a comment or a blank line is a
    [return]. *)
Definition ends_with_return (cs : list Node) : bool :=
  match rev (filter (fun n => negb (isinstance n [CFunc; CComment; CBlank]))
               cs) with
  | Return _ _ _ _ :: _ => true
  | _ => false
  end.

(** Every function of the tree ends with a [return]. *)
Fixpoint funcs_return (n : Node) : bool :=
  match n with
  | Func _ _ cs => ends_with_return cs && forallb funcs_return cs
  | Program _ _ cs | Block _ _ _ cs | Switch _ _ cs | Router _ cs
  | Teal _ cs | InnerTxn _ cs | InnerGroup _ cs | IfThen _ _ _ cs
  | Elif _ _ _ _ _ cs | Else _ _ _ cs | IfStatement _ _ _ _ _ cs
  | WhileStatement _ _ _ _ cs | ForStatement _ _ _ _ _ _ cs
  | For_Statement _ _ _ _ cs | DecoratedFunc _ cs
  | StructDefinition _ _ cs => forallb funcs_return cs
  | _ => true
  end.

Lemma last_kept {A} (p : A -> bool) : forall cs r l,
  rev (filter p cs) = r :: l ->
  exists before after,
    cs = before +++ r :: after /\ p r = true
    /\ Forall (fun n => p n = false) after.
Proof.
  induction cs as [|x cs IH] using rev_ind; intros r l H; [discriminate|].
  rewrite filter_app in H. cbn [filter] in H.
  destruct (p x) eqn:Ex.
  - rewrite rev_app_distr in H. cbn in H. inversion H; subst.
    exists cs, []. auto.
  - rewrite app_nil_r in H. destruct (IH _ _ H) as (b & a & -> & Hr & Ha).
    exists b, (a +++ [x]). rewrite <- app_assoc. repeat split; auto.
    apply Forall_app. auto.
Qed.

Lemma ends_with_return_spec cs :
  ends_with_return cs = true ->
  exists before r after,
    cs = before +++ r :: after /\ class_of r = CReturn
    /\ Forall (fun n => isinstance n [CFunc; CComment; CBlank] = true) after.
Proof.
  unfold ends_with_return. intros H.
  destruct (rev _) as [|r l] eqn:E; [discriminate|].
  apply last_kept in E as (before & after & -> & _ & Hafter).
  exists before, r, after. repeat split.
  - destruct r; try discriminate. reflexivity.
  - eapply Forall_impl; [|exact Hafter]. intros n Hn.
    now apply negb_false_iff in Hn.
Qed.

Lemma funcs_return_set_label n l : funcs_return (set_label n l) = funcs_return n.
Proof. destruct n; reflexivity. Qed.

Lemma funcs_return_set_func ds f : funcs_return (set_func ds f) = funcs_return f.
Proof. destruct f; reflexivity. Qed.

(** The children of a step are as asked when those before it are. *)
Ltac returns_done :=
  unfold add_if_then, add_elif, add_else in *;
  cbn [funcs_return forallb app] in *;
  repeat first
    [ assumption
    | reflexivity
    | apply forallb_snoc
    | rewrite funcs_return_set_label
    | rewrite funcs_return_set_func
    | rewrite andb_true_r
    | match goal with
      | E : rev _ = Return _ _ _ _ :: _ |- _ =>
          unfold ends_with_return; rewrite E; cbn [andb]
      end
    | progress cbn [funcs_return forallb app] ].

Ltac ends_plain :=
  match goal with
  | |- builds _ (ret _) => apply builds_ret; returns_done
  | |- builds _ (raise _) => apply builds_raise
  | |- builds _ (fun _ => inl _) => apply builds_fail
  | |- builds _ (match ?x with _ => _ end) => destruct x eqn:?
  | |- builds _ (let _ := _ in _) => progress cbv zeta
  end.

Section WithEnv.

Variable parse_expression : string -> option Expression.
Variable get_type_instance : string -> option TealishType.
Variable literal_type : string -> ExprType.

(** A line statement is no function. *)
Lemma LineStatement_consume_ends ctx :
  builds (fun n => funcs_return n = true)
    (LineStatement_consume parse_expression literal_type ctx).
Proof.
  unfold LineStatement_consume, TealVersion_init, Comment_init, Blank_init,
    Const_init, Jump_init, Return_init, Break_init, VarDeclaration_init,
    BoxDeclaration_init, StructOrBoxAssignment_init, Assignment_init,
    Exit_init, Assert_init, FunctionCallStatement_init.
  repeat first [ ends_plain | builds_skip ].
Qed.

Section Loops.

Variable Statement_consume : Ctx -> B Node.
Hypothesis Statement_consume_ends :
  forall ctx,
    builds (fun n => funcs_return n = true)
      (Statement_consume ctx).

Ltac ends_child :=
  match goal with
  | |- builds _ (bind (Statement_consume ?ctx) _) =>
      eapply builds_bind;
      [ apply (Statement_consume_ends ctx) | intros ? ?; cbv beta ]
  end.

(** A step that builds a node or runs a loop, by the lemma [L]. *)
Ltac ends_via L :=
  match goal with
  | |- builds _ (bind _ _) =>
      eapply builds_bind; [ eapply L; returns_done | intros ? ?; cbv beta ]
  end.

Ltac ends_rec IH := eapply IH; returns_done.

Ltac ends_auto IH :=
  repeat first [ ends_plain | ends_child | builds_skip | ends_rec IH ].

Lemma body_loop_ends : forall fuel ctx allowed cs,
  forallb funcs_return cs = true ->
  builds (fun cs' => forallb funcs_return cs' = true)
    (body_loop Statement_consume fuel ctx allowed cs).
Proof.
  induction fuel as [|fuel IH]; intros; cbn [body_loop]; ends_auto IH.
Qed.

Lemma branch_loop_ends : forall fuel ctx stops cs,
  forallb funcs_return cs = true ->
  builds (fun cs' => forallb funcs_return cs' = true)
    (branch_loop Statement_consume fuel ctx stops cs).
Proof.
  induction fuel as [|fuel IH]; intros; cbn [branch_loop]; ends_auto IH.
Qed.

Lemma Block_loop_ends : forall fuel ctx exit_statement cs,
  forallb funcs_return cs = true ->
  builds (fun cs' => forallb funcs_return cs' = true)
    (Block_loop Statement_consume fuel ctx exit_statement cs).
Proof.
  induction fuel as [|fuel IH]; intros; cbn [Block_loop]; ends_auto IH.
Qed.

Lemma Program_loop_ends : forall fuel ctx expect exit_statement cs,
  forallb funcs_return cs = true ->
  builds (fun cs' => forallb funcs_return cs' = true)
    (Program_loop Statement_consume fuel ctx expect exit_statement cs).
Proof.
  induction fuel as [|fuel IH]; intros; cbn [Program_loop]; ends_auto IH.
Qed.

Lemma InnerGroup_loop_ends : forall fuel ctx cs,
  forallb funcs_return cs = true ->
  builds (fun cs' => forallb funcs_return cs' = true)
    (InnerGroup_loop Statement_consume fuel ctx cs).
Proof.
  induction fuel as [|fuel IH]; intros; cbn [InnerGroup_loop]; ends_auto IH.
Qed.

(** The loops whose children are not statements: no [break] there. *)
Lemma Switch_loop_ends : forall fuel cs,
  forallb funcs_return cs = true ->
  builds (fun cs' => forallb funcs_return cs' = true)
    (Switch_loop parse_expression fuel cs).
Proof.
  induction fuel as [|fuel IH]; intros; cbn [Switch_loop]; ends_auto IH.
Qed.

Lemma Router_loop_ends : forall fuel cs,
  forallb funcs_return cs = true ->
  builds (fun cs' => forallb funcs_return cs' = true) (Router_loop fuel cs).
Proof.
  induction fuel as [|fuel IH]; intros; cbn [Router_loop]; ends_auto IH.
Qed.

Lemma Teal_loop_ends : forall fuel cs,
  forallb funcs_return cs = true ->
  builds (fun cs' => forallb funcs_return cs' = true) (Teal_loop fuel cs).
Proof.
  induction fuel as [|fuel IH]; intros; cbn [Teal_loop]; ends_auto IH.
Qed.

Lemma InnerTxnFieldSetter_init_ends l :
  builds (fun n => funcs_return n = true)
    (InnerTxnFieldSetter_init parse_expression l).
Proof.
  unfold InnerTxnFieldSetter_init. repeat first [ ends_plain | builds_skip ].
Qed.

Lemma InnerTxn_loop_ends : forall fuel cs,
  forallb funcs_return cs = true ->
  builds (fun cs' => forallb funcs_return cs' = true)
    (InnerTxn_loop parse_expression fuel cs).
Proof.
  induction fuel as [|fuel IH]; intros; cbn [InnerTxn_loop];
    repeat first [ ends_plain
                 | ends_via (InnerTxnFieldSetter_init_ends)
                 | builds_skip | ends_rec IH ].
Qed.

Lemma StructDefinition_loop_ends : forall fuel cs,
  forallb funcs_return cs = true ->
  builds (fun cs' => forallb funcs_return cs' = true)
    (StructDefinition_loop fuel cs).
Proof.
  induction fuel as [|fuel IH]; intros; cbn [StructDefinition_loop];
    ends_auto IH.
Qed.

(** The branches of an [if] statement. *)
Lemma IfThen_consume_ends fuel ctx :
  builds (fun n => funcs_return n = true)
    (IfThen_consume Statement_consume fuel ctx).
Proof.
  unfold IfThen_consume.
  repeat first [ ends_plain | ends_via branch_loop_ends | builds_skip ].
Qed.

Lemma Elif_consume_ends fuel ctx :
  builds (fun n => funcs_return n = true)
    (Elif_consume parse_expression Statement_consume fuel ctx).
Proof.
  unfold Elif_consume.
  repeat first [ ends_plain | ends_via branch_loop_ends | builds_skip ].
Qed.

Lemma Else_consume_ends fuel ctx :
  builds (fun n => funcs_return n = true)
    (Else_consume Statement_consume fuel ctx).
Proof.
  unfold Else_consume.
  repeat first [ ends_plain | ends_via branch_loop_ends | builds_skip ].
Qed.

Lemma IfStatement_loop_ends : forall fuel ctx N cs,
  forallb funcs_return cs = true ->
  builds (fun cs' => forallb funcs_return cs' = true)
    (IfStatement_loop parse_expression Statement_consume fuel ctx N cs).
Proof.
  induction fuel as [|fuel IH]; intros; cbn [IfStatement_loop];
    repeat first [ ends_plain | ends_via Elif_consume_ends
                 | ends_via Else_consume_ends | builds_skip
                 | ends_rec IH ].
Qed.

(** Functions. *)
Lemma Func_consume_ends fuel ctx :
  builds (fun n => funcs_return n = true)
    (Func_consume get_type_instance Statement_consume fuel ctx).
Proof.
  unfold Func_consume.
  repeat first [ ends_plain | ends_via body_loop_ends | builds_skip ].
Qed.

Lemma Decorator_consume_ends :
  builds (fun n => funcs_return n = true) Decorator_consume.
Proof.
  unfold Decorator_consume. repeat first [ ends_plain | builds_skip ].
Qed.

Lemma DecoratedFunc_loop_ends : forall fuel ctx decorators,
  forallb funcs_return decorators = true ->
  builds (fun cs' => forallb funcs_return cs' = true)
    (DecoratedFunc_loop get_type_instance Statement_consume fuel ctx
       decorators).
Proof.
  induction fuel as [|fuel IH]; intros; cbn [DecoratedFunc_loop];
    repeat first [ ends_plain | ends_via Func_consume_ends
                 | ends_via Decorator_consume_ends
                 | builds_skip | ends_rec IH ].
Qed.

(** The compound statements. *)
Lemma Block_consume_ends fuel ctx :
  builds (fun n => funcs_return n = true)
    (Block_consume Statement_consume fuel ctx).
Proof.
  unfold Block_consume.
  repeat first [ ends_plain | ends_via Block_loop_ends | builds_skip ].
Qed.

Lemma Switch_consume_ends fuel :
  builds (fun n => funcs_return n = true) (Switch_consume parse_expression fuel).
Proof.
  unfold Switch_consume.
  repeat first [ ends_plain | ends_via (Switch_loop_ends fuel)
               | builds_skip ].
Qed.

Lemma DecoratedFunc_consume_ends fuel ctx :
  builds (fun n => funcs_return n = true)
    (DecoratedFunc_consume get_type_instance Statement_consume fuel ctx).
Proof.
  unfold DecoratedFunc_consume.
  repeat first [ ends_plain | ends_via DecoratedFunc_loop_ends
               | builds_skip ].
Qed.

Lemma IfStatement_consume_ends fuel ctx :
  builds (fun n => funcs_return n = true)
    (IfStatement_consume parse_expression Statement_consume fuel ctx).
Proof.
  unfold IfStatement_consume.
  repeat first [ ends_plain | ends_via IfThen_consume_ends
               | ends_via IfStatement_loop_ends | builds_skip ].
Qed.

Lemma WhileStatement_consume_ends fuel ctx :
  builds (fun n => funcs_return n = true)
    (WhileStatement_consume parse_expression Statement_consume fuel ctx).
Proof.
  unfold WhileStatement_consume.
  repeat first [ ends_plain | ends_via body_loop_ends | builds_skip ].
Qed.

Lemma ForStatement_consume_ends fuel ctx :
  builds (fun n => funcs_return n = true)
    (ForStatement_consume parse_expression Statement_consume fuel ctx).
Proof.
  unfold ForStatement_consume.
  repeat first [ ends_plain | ends_via body_loop_ends | builds_skip ].
Qed.

Lemma For_Statement_consume_ends fuel ctx :
  builds (fun n => funcs_return n = true)
    (For_Statement_consume parse_expression Statement_consume fuel ctx).
Proof.
  unfold For_Statement_consume.
  repeat first [ ends_plain | ends_via body_loop_ends | builds_skip ].
Qed.

Lemma Teal_consume_ends fuel :
  builds (fun n => funcs_return n = true) (Teal_consume fuel).
Proof.
  unfold Teal_consume.
  repeat first [ ends_plain | ends_via (Teal_loop_ends fuel)
               | builds_skip ].
Qed.

Lemma InnerGroup_consume_ends fuel ctx :
  builds (fun n => funcs_return n = true)
    (InnerGroup_consume Statement_consume fuel ctx).
Proof.
  unfold InnerGroup_consume.
  repeat first [ ends_plain | ends_via InnerGroup_loop_ends
               | builds_skip ].
Qed.

Lemma InnerTxn_consume_ends fuel :
  builds (fun n => funcs_return n = true)
    (InnerTxn_consume parse_expression fuel).
Proof.
  unfold InnerTxn_consume.
  repeat first [ ends_plain | ends_via (InnerTxn_loop_ends fuel)
               | builds_skip ].
Qed.

Lemma StructDefinition_consume_ends fuel ctx :
  builds (fun n => funcs_return n = true)
    (StructDefinition_consume get_type_instance fuel ctx).
Proof.
  unfold StructDefinition_consume.
  repeat first [ ends_plain
               | ends_via (StructDefinition_loop_ends fuel)
               | builds_skip ].
Qed.

Lemma Router_consume_ends fuel :
  builds (fun n => funcs_return n = true) (Router_consume fuel).
Proof.
  unfold Router_consume.
  repeat first [ ends_plain | ends_via (Router_loop_ends fuel)
               | builds_skip ].
Qed.

(** [Statement.consume] on the line it dispatches on. *)
Lemma Statement_dispatch_ends fuel ctx :
  builds (fun n => funcs_return n = true)
    (Statement_dispatch parse_expression get_type_instance literal_type
       Statement_consume fuel ctx).
Proof.
  unfold Statement_dispatch. builds_skip. builds_skip.
  repeat match goal with
         | |- builds _ (if ?b then _ else _) => destruct b
         end;
    first [ apply Block_consume_ends | apply Switch_consume_ends
          | apply Func_consume_ends | apply DecoratedFunc_consume_ends
          | apply IfStatement_consume_ends
          | apply WhileStatement_consume_ends
          | apply For_Statement_consume_ends
          | apply ForStatement_consume_ends | apply Teal_consume_ends
          | apply InnerGroup_consume_ends | apply InnerTxn_consume_ends
          | apply StructDefinition_consume_ends
          | apply Router_consume_ends
          | apply LineStatement_consume_ends ].
Qed.

End Loops.

(** Every statement the build pass makes. *)
Lemma Statement_consume_ends : forall fuel ctx,
  builds (fun n => funcs_return n = true)
    (Statement_consume parse_expression get_type_instance literal_type fuel
       ctx).
Proof.
  induction fuel as [|fuel IH]; intros ctx; cbn [Build.Statement_consume].
  - apply builds_raise.
  - now apply Statement_dispatch_ends.
Qed.

(** A program. *)
Lemma Program_consume_ends fuel fuel' :
  builds (fun n => funcs_return n = true)
    (Program_consume
       (Statement_consume parse_expression get_type_instance literal_type
          fuel')
       fuel).
Proof.
  unfold Program_consume. builds_skip.
  eapply builds_bind.
  - apply (Program_loop_ends _ (Statement_consume_ends fuel') fuel
             {| ancestors := [PProgram]; scope_name := "" |} true None []).
    reflexivity.
  - intros cs Hcs. apply builds_ret. exact Hcs.
Qed.

Variable get_block : Src -> string -> option string.
Variable lookup_func : Src -> string -> option FuncAttrs.
Variable type_name : TealishType -> string.
Variable type_str : TealishType -> string.

Local Abbreviation write_teal :=
  (Gen.write_teal get_block lookup_func type_name type_str).

(** X10. Every function of a built program ends with a [return].  In
    a tree that [Statement.consume] has built, the children of every
    [func], decorated or not, are some statements, then a [return]
    statement, and after it comments, blank lines and functions only;
    and the code of a [return] statement ends with [retsub].  So the
    statements of a function never run past its end. *)
Theorem func_ends_with_return :
  (forall fuel ctx c c' n,
      Statement_consume parse_expression get_type_instance literal_type fuel
        ctx c = inr (n, c') ->
      funcs_return n = true)
  /\ (forall source_lines program,
         build parse_expression get_type_instance literal_type source_lines
         = inr program ->
         funcs_return program = true)
  /\ (forall src attrs cs,
         funcs_return (Func src attrs cs) = true ->
         exists before r after,
           cs = before +++ r :: after /\ class_of r = CReturn
           /\ Forall (fun n => isinstance n [CFunc; CComment; CBlank] = true)
                after)
  /\ (forall r st st',
         class_of r = CReturn -> write_teal r st = Some st' ->
         exists code, texts_of st' = texts_of st +++ code +++ ["retsub"]).
Proof.
  split; [|split; [|split]].
  - intros fuel ctx c c' n H. exact (Statement_consume_ends fuel ctx c n c' H).
  - intros source_lines program H. unfold build in H.
    destruct (Program_consume _ _ (start source_lines)) as [|[n c']] eqn:E;
      [discriminate|].
    inversion H; subst n. exact (Program_consume_ends _ _ _ _ _ E).
  - intros src attrs cs H. cbn [funcs_return] in H.
    apply andb_prop in H as [H _]. now apply ends_with_return_spec.
  - intros r st st' Hr H. destruct r; try discriminate Hr.
    cbn [Gen.write_teal] in H. unfold Return_write_teal in H. seq_inv H.
    apply appends_texts in E0 as [values E0].
    + step_texts. exists ([tl src] +++ values). chain_texts. reflexivity.
    + destruct args; [apply appends_skip|].
      apply appends_sequence, Forall_map_intro. intros e.
      apply appends_write_expr.
Qed.

End WithEnv.

(** A decorated function after the exit of a program, with a comment
    after its [return]. *)
Definition function_lines : list string :=
  [ "exit(1)"; "@public()"; "func f(x: int) int:"; "return x"; "# done";
    "end" ].

Lemma func_ends_with_return_witness :
  exists program,
    Standin.build function_lines = inr program
    /\ funcs_return program = true.
Proof.
  eexists. split; [vm_compute; reflexivity|].
  refine (proj1 (proj2 (func_ends_with_return
                          Standin.parse_expression Standin.get_type_instance
                          Standin.literal_type (fun _ _ => None)
                          (fun _ _ => None) Standin.type_str Standin.type_str))
            function_lines _ _).
  vm_compute. reflexivity.
Defined.

End FuncFacts.

(** ** A property of every node of a built tree *)

Module ShapeFacts.
Import Build BuildFacts.

Local Open Scope string_scope.

Section Every.

Variable here : Node -> bool.

(** [every n]: [here] holds of the node [n] and of every node below
    it. *)
Fixpoint every (n : Node) : bool :=
  here n
  && match n with
     | Program _ _ cs | Block _ _ _ cs | Switch _ _ cs | Router _ cs
     | Teal _ cs | InnerTxn _ cs | InnerGroup _ cs | IfThen _ _ _ cs
     | Elif _ _ _ _ _ cs | Else _ _ _ cs | IfStatement _ _ _ _ _ cs
     | WhileStatement _ _ _ _ cs | ForStatement _ _ _ _ _ _ cs
     | For_Statement _ _ _ _ cs | Func _ _ cs | DecoratedFunc _ cs
     | StructDefinition _ _ cs => forallb every cs
     | _ => true
     end.

Definition below (n : Node) : bool :=
  match n with
  | Program _ _ cs | Block _ _ _ cs | Switch _ _ cs | Router _ cs
  | Teal _ cs | InnerTxn _ cs | InnerGroup _ cs | IfThen _ _ _ cs
  | Elif _ _ _ _ _ cs | Else _ _ _ cs | IfStatement _ _ _ _ _ cs
  | WhileStatement _ _ _ _ cs | ForStatement _ _ _ _ _ _ cs
  | For_Statement _ _ _ _ cs | Func _ _ cs | DecoratedFunc _ cs
  | StructDefinition _ _ cs => forallb every cs
  | _ => true
  end.

Lemma every_here_below n : every n = here n && below n.
Proof. destruct n; reflexivity. Qed.

Lemma builds_every (m : B Node) :
  builds (fun n => here n = true) m -> builds (fun n => below n = true) m ->
  builds (fun n => every n = true) m.
Proof.
  intros Hh Hb c n c' H. rewrite every_here_below.
  now rewrite (Hh _ _ _ H), (Hb _ _ _ H).
Qed.

(** [here] is a property of functions and blocks, and not of the
    attributes that the decorators of a function set. *)
Hypothesis here_other :
  forall n, isinstance n [CFunc; CBlock] = false -> here n = true.
Hypothesis here_set_func : forall ds f, here (set_func ds f) = here f.

Lemma every_set_label n l : every (set_label n l) = every n.
Proof.
  destruct n; try reflexivity; cbn [set_label every];
    now rewrite !here_other by reflexivity.
Qed.

Lemma every_set_func ds f : every (set_func ds f) = every f.
Proof.
  rewrite !every_here_below, here_set_func. destruct f; reflexivity.
Qed.

(** The children of a step are as asked when those before it are. *)
Ltac every_done :=
  unfold add_if_then, add_elif, add_else in *;
  cbn [every below forallb app] in *;
  repeat first
    [ assumption
    | reflexivity
    | apply forallb_snoc
    | rewrite every_set_label
    | rewrite every_set_func
    | rewrite andb_true_r
    | rewrite here_other by reflexivity
    | progress cbn [every below forallb app andb] ].

Ltac every_plain :=
  match goal with
  | |- builds _ (ret _) => apply builds_ret; every_done
  | |- builds _ (raise _) => apply builds_raise
  | |- builds _ (fun _ => inl _) => apply builds_fail
  | |- builds _ (match ?x with _ => _ end) => destruct x eqn:?
  | |- builds _ (let _ := _ in _) => progress cbv zeta
  end.

Variable parse_expression : string -> option Expression.
Variable get_type_instance : string -> option TealishType.
Variable literal_type : string -> ExprType.

(** What [Func.consume] and [Block.consume] return has the property,
    whatever the statements below are. *)
Hypothesis here_Func :
  forall Statement_consume fuel ctx,
    builds (fun n => here n = true)
      (Func_consume get_type_instance Statement_consume fuel ctx).
Hypothesis here_Block :
  forall Statement_consume fuel ctx,
    builds (fun n => here n = true) (Block_consume Statement_consume fuel ctx).

(** A line statement. *)
Lemma LineStatement_consume_every ctx :
  builds (fun n => every n = true)
    (LineStatement_consume parse_expression literal_type ctx).
Proof.
  unfold LineStatement_consume, TealVersion_init, Comment_init, Blank_init,
    Const_init, Jump_init, Return_init, Break_init, VarDeclaration_init,
    BoxDeclaration_init, StructOrBoxAssignment_init, Assignment_init,
    Exit_init, Assert_init, FunctionCallStatement_init.
  repeat first [ every_plain | builds_skip ].
Qed.

Section Loops.

Variable Statement_consume : Ctx -> B Node.
Hypothesis Statement_consume_every :
  forall ctx,
    builds (fun n => every n = true)
      (Statement_consume ctx).

Ltac every_child :=
  match goal with
  | |- builds _ (bind (Statement_consume ?ctx) _) =>
      eapply builds_bind;
      [ apply (Statement_consume_every ctx) | intros ? ?; cbv beta ]
  end.

(** A step that builds a node or runs a loop, by the lemma [L]. *)
Ltac every_via L :=
  match goal with
  | |- builds _ (bind _ _) =>
      eapply builds_bind; [ eapply L; every_done | intros ? ?; cbv beta ]
  end.

Ltac every_rec IH := eapply IH; every_done.

Ltac every_auto IH :=
  repeat first [ every_plain | every_child | builds_skip | every_rec IH ].

Lemma body_loop_every : forall fuel ctx allowed cs,
  forallb every cs = true ->
  builds (fun cs' => forallb every cs' = true)
    (body_loop Statement_consume fuel ctx allowed cs).
Proof.
  induction fuel as [|fuel IH]; intros; cbn [body_loop]; every_auto IH.
Qed.

Lemma branch_loop_every : forall fuel ctx stops cs,
  forallb every cs = true ->
  builds (fun cs' => forallb every cs' = true)
    (branch_loop Statement_consume fuel ctx stops cs).
Proof.
  induction fuel as [|fuel IH]; intros; cbn [branch_loop]; every_auto IH.
Qed.

Lemma Block_loop_every : forall fuel ctx exit_statement cs,
  forallb every cs = true ->
  builds (fun cs' => forallb every cs' = true)
    (Block_loop Statement_consume fuel ctx exit_statement cs).
Proof.
  induction fuel as [|fuel IH]; intros; cbn [Block_loop]; every_auto IH.
Qed.

Lemma Program_loop_every : forall fuel ctx expect exit_statement cs,
  forallb every cs = true ->
  builds (fun cs' => forallb every cs' = true)
    (Program_loop Statement_consume fuel ctx expect exit_statement cs).
Proof.
  induction fuel as [|fuel IH]; intros; cbn [Program_loop]; every_auto IH.
Qed.

Lemma InnerGroup_loop_every : forall fuel ctx cs,
  forallb every cs = true ->
  builds (fun cs' => forallb every cs' = true)
    (InnerGroup_loop Statement_consume fuel ctx cs).
Proof.
  induction fuel as [|fuel IH]; intros; cbn [InnerGroup_loop]; every_auto IH.
Qed.

(** The loops whose children are not statements: no [break] there. *)
Lemma Switch_loop_every : forall fuel cs,
  forallb every cs = true ->
  builds (fun cs' => forallb every cs' = true)
    (Switch_loop parse_expression fuel cs).
Proof.
  induction fuel as [|fuel IH]; intros; cbn [Switch_loop]; every_auto IH.
Qed.

Lemma Router_loop_every : forall fuel cs,
  forallb every cs = true ->
  builds (fun cs' => forallb every cs' = true) (Router_loop fuel cs).
Proof.
  induction fuel as [|fuel IH]; intros; cbn [Router_loop]; every_auto IH.
Qed.

Lemma Teal_loop_every : forall fuel cs,
  forallb every cs = true ->
  builds (fun cs' => forallb every cs' = true) (Teal_loop fuel cs).
Proof.
  induction fuel as [|fuel IH]; intros; cbn [Teal_loop]; every_auto IH.
Qed.

Lemma InnerTxnFieldSetter_init_every l :
  builds (fun n => every n = true)
    (InnerTxnFieldSetter_init parse_expression l).
Proof.
  unfold InnerTxnFieldSetter_init. repeat first [ every_plain | builds_skip ].
Qed.

Lemma InnerTxn_loop_every : forall fuel cs,
  forallb every cs = true ->
  builds (fun cs' => forallb every cs' = true)
    (InnerTxn_loop parse_expression fuel cs).
Proof.
  induction fuel as [|fuel IH]; intros; cbn [InnerTxn_loop];
    repeat first [ every_plain
                 | every_via (InnerTxnFieldSetter_init_every)
                 | builds_skip | every_rec IH ].
Qed.

Lemma StructDefinition_loop_every : forall fuel cs,
  forallb every cs = true ->
  builds (fun cs' => forallb every cs' = true)
    (StructDefinition_loop fuel cs).
Proof.
  induction fuel as [|fuel IH]; intros; cbn [StructDefinition_loop];
    every_auto IH.
Qed.

(** The branches of an [if] statement. *)
Lemma IfThen_consume_every fuel ctx :
  builds (fun n => every n = true)
    (IfThen_consume Statement_consume fuel ctx).
Proof.
  unfold IfThen_consume.
  repeat first [ every_plain | every_via branch_loop_every | builds_skip ].
Qed.

Lemma Elif_consume_every fuel ctx :
  builds (fun n => every n = true)
    (Elif_consume parse_expression Statement_consume fuel ctx).
Proof.
  unfold Elif_consume.
  repeat first [ every_plain | every_via branch_loop_every | builds_skip ].
Qed.

Lemma Else_consume_every fuel ctx :
  builds (fun n => every n = true)
    (Else_consume Statement_consume fuel ctx).
Proof.
  unfold Else_consume.
  repeat first [ every_plain | every_via branch_loop_every | builds_skip ].
Qed.

Lemma IfStatement_loop_every : forall fuel ctx N cs,
  forallb every cs = true ->
  builds (fun cs' => forallb every cs' = true)
    (IfStatement_loop parse_expression Statement_consume fuel ctx N cs).
Proof.
  induction fuel as [|fuel IH]; intros; cbn [IfStatement_loop];
    repeat first [ every_plain | every_via Elif_consume_every
                 | every_via Else_consume_every | builds_skip
                 | every_rec IH ].
Qed.

(** Functions. *)
Lemma Func_consume_below fuel ctx :
  builds (fun n => below n = true)
    (Func_consume get_type_instance Statement_consume fuel ctx).
Proof.
  unfold Func_consume.
  repeat first [ every_plain | every_via body_loop_every | builds_skip ].
Qed.

Lemma Func_consume_every fuel ctx :
  builds (fun n => every n = true)
    (Func_consume get_type_instance Statement_consume fuel ctx).
Proof. apply builds_every; [apply here_Func | apply Func_consume_below]. Qed.

Lemma Decorator_consume_every :
  builds (fun n => every n = true) Decorator_consume.
Proof.
  unfold Decorator_consume. repeat first [ every_plain | builds_skip ].
Qed.

Lemma DecoratedFunc_loop_every : forall fuel ctx decorators,
  forallb every decorators = true ->
  builds (fun cs' => forallb every cs' = true)
    (DecoratedFunc_loop get_type_instance Statement_consume fuel ctx
       decorators).
Proof.
  induction fuel as [|fuel IH]; intros; cbn [DecoratedFunc_loop];
    repeat first [ every_plain | every_via Func_consume_every
                 | every_via Decorator_consume_every
                 | builds_skip | every_rec IH ].
Qed.

(** The compound statements. *)
Lemma Block_consume_below fuel ctx :
  builds (fun n => below n = true)
    (Block_consume Statement_consume fuel ctx).
Proof.
  unfold Block_consume.
  repeat first [ every_plain | every_via Block_loop_every | builds_skip ].
Qed.

Lemma Block_consume_every fuel ctx :
  builds (fun n => every n = true)
    (Block_consume Statement_consume fuel ctx).
Proof. apply builds_every; [apply here_Block | apply Block_consume_below]. Qed.

Lemma Switch_consume_every fuel :
  builds (fun n => every n = true) (Switch_consume parse_expression fuel).
Proof.
  unfold Switch_consume.
  repeat first [ every_plain | every_via (Switch_loop_every fuel)
               | builds_skip ].
Qed.

Lemma DecoratedFunc_consume_every fuel ctx :
  builds (fun n => every n = true)
    (DecoratedFunc_consume get_type_instance Statement_consume fuel ctx).
Proof.
  unfold DecoratedFunc_consume.
  repeat first [ every_plain | every_via DecoratedFunc_loop_every
               | builds_skip ].
Qed.

Lemma IfStatement_consume_every fuel ctx :
  builds (fun n => every n = true)
    (IfStatement_consume parse_expression Statement_consume fuel ctx).
Proof.
  unfold IfStatement_consume.
  repeat first [ every_plain | every_via IfThen_consume_every
               | every_via IfStatement_loop_every | builds_skip ].
Qed.

Lemma WhileStatement_consume_every fuel ctx :
  builds (fun n => every n = true)
    (WhileStatement_consume parse_expression Statement_consume fuel ctx).
Proof.
  unfold WhileStatement_consume.
  repeat first [ every_plain | every_via body_loop_every | builds_skip ].
Qed.

Lemma ForStatement_consume_every fuel ctx :
  builds (fun n => every n = true)
    (ForStatement_consume parse_expression Statement_consume fuel ctx).
Proof.
  unfold ForStatement_consume.
  repeat first [ every_plain | every_via body_loop_every | builds_skip ].
Qed.

Lemma For_Statement_consume_every fuel ctx :
  builds (fun n => every n = true)
    (For_Statement_consume parse_expression Statement_consume fuel ctx).
Proof.
  unfold For_Statement_consume.
  repeat first [ every_plain | every_via body_loop_every | builds_skip ].
Qed.

Lemma Teal_consume_every fuel :
  builds (fun n => every n = true) (Teal_consume fuel).
Proof.
  unfold Teal_consume.
  repeat first [ every_plain | every_via (Teal_loop_every fuel)
               | builds_skip ].
Qed.

Lemma InnerGroup_consume_every fuel ctx :
  builds (fun n => every n = true)
    (InnerGroup_consume Statement_consume fuel ctx).
Proof.
  unfold InnerGroup_consume.
  repeat first [ every_plain | every_via InnerGroup_loop_every
               | builds_skip ].
Qed.

Lemma InnerTxn_consume_every fuel :
  builds (fun n => every n = true)
    (InnerTxn_consume parse_expression fuel).
Proof.
  unfold InnerTxn_consume.
  repeat first [ every_plain | every_via (InnerTxn_loop_every fuel)
               | builds_skip ].
Qed.

Lemma StructDefinition_consume_every fuel ctx :
  builds (fun n => every n = true)
    (StructDefinition_consume get_type_instance fuel ctx).
Proof.
  unfold StructDefinition_consume.
  repeat first [ every_plain
               | every_via (StructDefinition_loop_every fuel)
               | builds_skip ].
Qed.

Lemma Router_consume_every fuel :
  builds (fun n => every n = true) (Router_consume fuel).
Proof.
  unfold Router_consume.
  repeat first [ every_plain | every_via (Router_loop_every fuel)
               | builds_skip ].
Qed.

(** [Statement.consume] on the line it dispatches on. *)
Lemma Statement_dispatch_every fuel ctx :
  builds (fun n => every n = true)
    (Statement_dispatch parse_expression get_type_instance literal_type
       Statement_consume fuel ctx).
Proof.
  unfold Statement_dispatch. builds_skip. builds_skip.
  repeat match goal with
         | |- builds _ (if ?b then _ else _) => destruct b
         end;
    first [ apply Block_consume_every | apply Switch_consume_every
          | apply Func_consume_every | apply DecoratedFunc_consume_every
          | apply IfStatement_consume_every
          | apply WhileStatement_consume_every
          | apply For_Statement_consume_every
          | apply ForStatement_consume_every | apply Teal_consume_every
          | apply InnerGroup_consume_every | apply InnerTxn_consume_every
          | apply StructDefinition_consume_every
          | apply Router_consume_every
          | apply LineStatement_consume_every ].
Qed.

End Loops.

(** Every statement the build pass makes. *)
Lemma Statement_consume_every : forall fuel ctx,
  builds (fun n => every n = true)
    (Statement_consume parse_expression get_type_instance literal_type fuel
       ctx).
Proof.
  induction fuel as [|fuel IH]; intros ctx; cbn [Build.Statement_consume].
  - apply builds_raise.
  - now apply Statement_dispatch_every.
Qed.

(** A program. *)
Lemma Program_consume_every fuel fuel' :
  builds (fun n => every n = true)
    (Program_consume
       (Statement_consume parse_expression get_type_instance literal_type
          fuel')
       fuel).
Proof.
  unfold Program_consume. builds_skip.
  eapply builds_bind.
  - apply (Program_loop_every _ (Statement_consume_every fuel') fuel
             {| ancestors := [PProgram]; scope_name := "" |} true None []).
    reflexivity.
  - intros cs Hcs. apply builds_ret. cbn [every].
    rewrite here_other by reflexivity. exact Hcs.
Qed.

(** Every node of a built program has the property. *)
Lemma build_every source_lines program :
  build parse_expression get_type_instance literal_type source_lines
  = inr program ->
  every program = true.
Proof.
  intros H. unfold build in H.
  destruct (Program_consume _ _ (start source_lines)) as [|[n c']] eqn:E;
    [discriminate|].
  inversion H; subst n. exact (Program_consume_every _ _ _ _ _ E).
Qed.

End Every.

End ShapeFacts.

(** ** [process] keeps the shape of the tree *)

Module ProcessFacts.
Import Process.

Local Open Scope string_scope.

(** The shape of a tree: the class of every node, with the shapes of
    its children in their order. *)
#[warnings="-register-all"]
Inductive Shape := Sh (c : NodeClass) (below : list Shape).

Fixpoint shape (n : Node) : Shape :=
  match n with
  | Program _ _ cs | Block _ _ _ cs | Switch _ _ cs | Router _ cs
  | Teal _ cs | InnerTxn _ cs | InnerGroup _ cs | IfThen _ _ _ cs
  | Elif _ _ _ _ _ cs | Else _ _ _ cs | IfStatement _ _ _ _ _ cs
  | WhileStatement _ _ _ _ cs | ForStatement _ _ _ _ _ _ cs
  | For_Statement _ _ _ _ cs | Func _ _ cs | DecoratedFunc _ cs
  | StructDefinition _ _ cs => Sh (class_of n) (map shape cs)
  | _ => Sh (class_of n) []
  end.

(** [gives P m]: what the action [m] returns has the property [P]. *)
Definition gives {A} (P : A -> Prop) (m : M A) : Prop :=
  forall st x st', m st = inr (x, st') -> P x.

Lemma gives_bind {A C} (P : A -> Prop) (Q : C -> Prop) (m : M A)
  (f : A -> M C) :
  gives P m -> (forall x, P x -> gives Q (f x)) -> gives Q (bind m f).
Proof.
  intros Hm Hf st y st' H. unfold bind in H.
  destruct (m st) as [|[x s1]] eqn:E; [discriminate|].
  exact (Hf x (Hm _ _ _ E) _ _ _ H).
Qed.

Lemma gives_any {A} (m : M A) : gives (fun _ => True) m.
Proof. intros st x st' _. exact I. Qed.

Lemma gives_ret {A} (P : A -> Prop) (x : A) : P x -> gives P (ret x).
Proof. intros Hx st y st' H. inversion H; subst. exact Hx. Qed.

Lemma gives_raise {A} (P : A -> Prop) e : gives P (@raise A e).
Proof. intros st y st' H. discriminate. Qed.

Lemma gives_in_scope {A} (P : A -> Prop) n (m : M A) :
  gives P m -> gives P (in_scope n m).
Proof.
  intros Hm st x st' H. unfold in_scope in H.
  destruct (scopes st) as [|sc rest]; [discriminate|].
  destruct (m _) as [|[y s1]] eqn:E; [discriminate|].
  inversion H; subst. exact (Hm _ _ _ E).
Qed.

Lemma shape_set_next_label n l : shape (set_next_label n l) = shape n.
Proof. destruct n; reflexivity. Qed.

Lemma shapes_link_branches : forall cs,
  map shape (link_branches cs) = map shape cs.
Proof.
  induction cs as [|a cs IH]; [reflexivity|].
  destruct cs as [|b rest]; [reflexivity|].
  change (link_branches (a :: b :: rest))
    with ((if is_branch a && is_branch b
           then set_next_label a (Gen.label_of b) else a)
          :: link_branches (b :: rest)).
  cbn [map] in *. f_equal; [|exact IH].
  destruct (is_branch a && is_branch b); [apply shape_set_next_label|].
  reflexivity.
Qed.

Lemma shapes_close_last l : forall cs,
  map shape (close_last cs l) = map shape cs.
Proof.
  induction cs as [|a cs IH]; [reflexivity|].
  destruct cs as [|b rest].
  - cbn [close_last map]. f_equal.
    destruct (is_branch a); [apply shape_set_next_label | reflexivity].
  - change (close_last (a :: b :: rest) l)
      with (a :: close_last (b :: rest) l).
    cbn [map] in *. f_equal. exact IH.
Qed.

(** A child that was processed has the shape of the child it was. *)
Definition same_or_none (c : Node) (r : option Node) : Prop :=
  match r with
  | Some c' => shape c' = shape c
  | None => True
  end.

Lemma shapes_merge_processed : forall labelled cs r1 r2 r3,
  map shape labelled = map shape cs ->
  Forall2 same_or_none cs r1 -> Forall2 same_or_none cs r2 ->
  Forall2 same_or_none cs r3 ->
  map shape (merge_processed labelled r1 r2 r3) = map shape cs.
Proof.
  induction labelled as [|n labelled IH]; intros cs r1 r2 r3 Hl H1 H2 H3;
    [exact Hl|].
  destruct cs as [|c cs]; [discriminate|]. cbn [map] in Hl.
  inversion Hl as [[Hn Hrest]].
  inversion H1 as [|? a ? r1' Ha H1']; subst.
  inversion H2 as [|? b ? r2' Hb H2']; subst.
  inversion H3 as [|? d ? r3' Hd H3']; subst.
  cbn [merge_processed map]. f_equal; [|now apply IH].
  destruct a as [a|]; [|destruct b as [b|]; [|destruct d as [d|]]];
    cbn [same_or_none] in *; rewrite ?shape_set_next_label; congruence.
Qed.

Lemma gives_fail {A} (P : A -> Prop) (f : state -> Error) :
  gives P (fun st => @inl Error (A * state) (f st)).
Proof. intros st y st' H. discriminate. Qed.

Lemma gives_inr {A} (P : A -> Prop) (x : A) (g : state -> state) :
  P x -> gives P (fun st => inr (x, g st)).
Proof. intros Hx st y st' H. inversion H; subst. exact Hx. Qed.

Section WithEnv.

Variable get_type_instance : string -> option TealishType.
Variable get_struct : string -> option TealishType.
Variable can_hold : TealishType -> ExprType -> bool.
Variable can_hold_with_cast : TealishType -> ExprType -> bool.
Variable type_str : TealishType -> string.
Variable expr_type_str : ExprType -> string.
Variable lookup_func : Src -> string -> option FuncAttrs.
Variable parse_expression : string -> option Expression.

Local Abbreviation process :=
  (Process.process get_type_instance get_struct can_hold can_hold_with_cast
     type_str expr_type_str lookup_func parse_expression).

Local Abbreviation kids := (fun s => map (fun c : Node => (c, process s c))).

(** What [process] returns for a node has the shape of the node. *)
Definition keeps_shape (c : Node) : Prop :=
  forall parent, gives (fun c' => shape c' = shape c) (process parent c).

Lemma process_children_shapes s : forall cs,
  Forall keeps_shape cs ->
  gives (fun cs' => map shape cs' = map shape cs)
    (process_children (kids s cs)).
Proof.
  induction cs as [|c cs IH]; intros H; unfold process_children;
    cbn [map snd runM].
  - apply gives_ret. reflexivity.
  - apply Forall_cons_iff in H as [Hc Hcs].
    eapply gives_bind; [apply (Hc s)|]. intros c' Hc'.
    eapply gives_bind; [apply (IH Hcs)|]. intros cs' Hcs'.
    apply gives_ret. cbn [map]. congruence.
Qed.

Lemma selected_shapes s sel : forall cs k,
  Forall keeps_shape cs ->
  gives (fun r => Forall2 same_or_none cs r)
    (runM (map (fun x : nat * (Node * M Node) =>
                  let '(i, (n, m)) := x in
                  if sel i n : bool then n' <- m ;; ret (Some n')
                  else ret None)
             (combine (seq k (List.length cs)) (kids s cs)))).
Proof.
  induction cs as [|c cs IH]; intros k H; cbn [List.length seq map combine runM].
  - apply gives_ret. constructor.
  - apply Forall_cons_iff in H as [Hc Hcs].
    eapply gives_bind with (P := same_or_none c).
    + destruct (sel k c).
      * eapply gives_bind; [apply (Hc s)|]. intros c' Hc'.
        apply gives_ret. exact Hc'.
      * apply gives_ret. exact I.
    + intros r Hr. eapply gives_bind; [apply (IH (S k) Hcs)|].
      intros rs Hrs. apply gives_ret. constructor; assumption.
Qed.

Lemma process_selected_shapes s sel cs :
  Forall keeps_shape cs ->
  gives (fun r => Forall2 same_or_none cs r)
    (process_selected sel (kids s cs)).
Proof.
  intros H. unfold process_selected. rewrite length_map.
  now apply selected_shapes.
Qed.

(** The steps of a [process], each turned into what it returns. *)
Ltac gives_step K :=
  match goal with
  | |- gives _ (ret _) =>
      apply gives_ret; cbn [shape class_of fst snd]; try f_equal;
      first [ assumption | reflexivity ]
  | |- gives _ (raise _) => apply gives_raise
  | |- gives _ (fun _ => inl _) => apply gives_fail
  | |- gives _ (fun st => inr (_, _)) => apply gives_inr; reflexivity
  | |- gives _ (bind (process_children (map _ ?cs)) _) =>
      eapply gives_bind;
      [ apply process_children_shapes, K | intros ? ?; cbv beta ]
  | |- gives _ (process_children (map _ ?cs)) =>
      apply process_children_shapes, K
  | |- gives _ (bind (in_scope _ _) _) =>
      eapply gives_bind; [ apply gives_in_scope | intros ? ?; cbv beta ]
  | |- gives _ (bind _ _) =>
      eapply gives_bind; [ apply gives_any | intros ? _; cbv beta ]
  | |- gives _ (match ?x with _ => _ end) => destruct x
  | |- gives _ (let _ := _ in _) => progress cbv zeta
  end.

Lemma process_shape : forall n, keeps_shape n.
Proof.
  fix IH 1. intros n.
  assert (K : forall cs, Forall keeps_shape cs).
  { induction cs as [|c cs IHcs]; constructor; [apply IH | exact IHcs]. }
  intros parent.
  destruct n; cbn [Process.process];
    try (apply gives_ret; reflexivity);
    unfold Const_process, Exit_process, FunctionCallStatement_process,
      Assert_process, VarDeclaration_process, Assignment_process,
      Block_process, Switch_process, Route_process, Router_process,
      InnerTxn_process, InnerGroup_process, IfThen_process, Elif_process,
      Else_process, WhileStatement_process, ForStatement_process,
      For_Statement_process, Func_process, Return_process,
      DecoratedFunc_process, StructDefinition_process,
      StructOrBoxAssignment_process, BoxDeclaration_process;
    try solve [repeat gives_step K].
  - (* program *)
    unfold Program_process.
    eapply gives_bind; [apply process_children_shapes, K|].
    intros cs' Hcs' st x st' H. cbv beta zeta in H.
    repeat match type of H with
           | match ?y with _ => _ end = _ => destruct y; try discriminate
           end;
      inversion H; subst; cbn [shape class_of]; now f_equal.
  - (* if *)
    unfold IfStatement_process.
    set (p := map _ child_nodes).
    assert (Hp : p = kids src child_nodes) by reflexivity. clearbody p.
    destruct p as [|x p']; [apply gives_raise|]. cbv iota. rewrite Hp.
    unfold IfStatement_labels. cbv zeta.
    rewrite map_map. cbn [fst]. rewrite map_id.
    gives_step K.
    eapply gives_bind; [apply process_selected_shapes, K|]. intros r1 H1.
    eapply gives_bind; [apply process_selected_shapes, K|]. intros r2 H2.
    eapply gives_bind; [apply process_selected_shapes, K|]. intros r3 H3.
    apply gives_ret. cbn [shape class_of]. f_equal.
    apply shapes_merge_processed; auto.
    now rewrite shapes_close_last, shapes_link_branches.
  - (* for *)
    eapply gives_bind.
    + apply gives_in_scope
        with (P := fun r : Var * list Node =>
                     map shape (snd r) = map shape child_nodes).
      gives_step K. gives_step K. gives_step K.
      eapply gives_bind; [apply process_children_shapes, K|].
      intros cs' Hcs'. gives_step K. apply gives_ret. exact Hcs'.
    + intros r Hr. apply gives_ret. cbn [shape class_of]. now f_equal.
  - (* func *)
    eapply gives_bind.
    + apply gives_in_scope
        with (P := fun r : list (string * Var) * list Node =>
                     map shape (snd r) = map shape child_nodes).
      gives_step K.
      eapply gives_bind; [apply process_children_shapes, K|].
      intros cs' Hcs'. apply gives_ret. exact Hcs'.
    + intros r Hr. apply gives_ret. cbn [shape class_of]. now f_equal.
Qed.

(** X12. [process] only annotates the tree: the node it returns has
    the class of the node it was called on, and as many children, each
    of them with the shape of the child at its place.  No statement
    is added, dropped, moved or turned into another by the second
    pass. *)
Theorem process_keeps_shape (parent : Src) (n n' : Node)
  (st st' : state) :
  process parent n st = inr (n', st') ->
  shape n' = shape n /\ class_of n' = class_of n.
Proof.
  intros H. pose proof (process_shape n parent st n' st' H) as Hs.
  split; [exact Hs|]. destruct n, n'; cbn [shape] in Hs; congruence.
Qed.

End WithEnv.

(** A block with a loop and an [if] in it. *)
Definition number_one : Expression :=
  {| e_tealish := "1"; e_process := inr (One IntType);
     e_teal := ["pushint 1"] |}.

Definition sample_block : Node :=
  Block {| line_no := 2; line := "block main:" |} "main" "main"
    [ WhileStatement {| line_no := 3; line := "while 1:" |} None number_one 0
        [ IfStatement {| line_no := 4; line := "if 1:" |} None number_one 1 ""
            [ IfThen {| line_no := 4; line := "" |} "" ""
                [ Break {| line_no := 5; line := "break" |} "l0_end" ];
              Else {| line_no := 6; line := "else:" |} "l1_else" ""
                [ Assert {| line_no := 7; line := "assert(1)" |} number_one
                    None ] ] ];
      Exit {| line_no := 10; line := "exit(1)" |} number_one ].

Definition root_state : state :=
  {| compiler := Build.start []; scopes := [Scope.root];
     error_messages := [] |}.

Lemma process_keeps_shape_witness :
  exists n' st',
    Process.process Standin.get_type_instance Standin.get_struct
      Standin.can_hold Standin.can_hold_with_cast Standin.type_str
      Standin.expr_type_str (fun _ _ => None) Standin.parse_expression
      {| line_no := 0; line := "" |} sample_block root_state
    = inr (n', st')
    /\ n' <> sample_block
    /\ shape n' = shape sample_block /\ class_of n' = class_of sample_block.
Proof.
  do 2 eexists. split; [vm_compute; reflexivity|].
  split; [discriminate|].
  eapply (process_keeps_shape Standin.get_type_instance Standin.get_struct
            Standin.can_hold Standin.can_hold_with_cast Standin.type_str
            Standin.expr_type_str (fun _ _ => None) Standin.parse_expression
            {| line_no := 0; line := "" |} sample_block _ root_state).
  vm_compute. reflexivity.
Defined.

End ProcessFacts.

(** ** Blocks and functions are closed *)

Module ClosedFacts.
Import Gen GenFacts Build BuildFacts ShapeFacts ProcessFacts.

Local Open Scope string_scope.

(** The children of a block that is closed: one of them is an exit
    statement, and after the first exit statement stand functions,
    blocks, comments and blank lines only. *)
Fixpoint exit_then_definitions (cs : list Node) : bool :=
  match cs with
  | [] => false
  | n :: cs' =>
      if is_exit_statement n then
        forallb (fun m => isinstance m [CFunc; CBlock; CComment; CBlank]) cs'
      else exit_then_definitions cs'
  end.

(** A function ends with a [return], a block with an exit statement. *)
Definition closed_here (n : Node) : bool :=
  match n with
  | Func _ _ cs => FuncFacts.ends_with_return cs
  | Block _ _ _ cs => exit_then_definitions cs
  | _ => true
  end.

(** Every function and every block of the tree is closed. *)
Definition closed : Node -> bool := every closed_here.

Lemma closed_here_other n :
  isinstance n [CFunc; CBlock] = false -> closed_here n = true.
Proof. destruct n; try reflexivity; discriminate. Qed.

Lemma closed_here_set_func ds f : closed_here (set_func ds f) = closed_here f.
Proof. destruct f; reflexivity. Qed.

Lemma exit_then_definitions_spec : forall cs,
  exit_then_definitions cs = true ->
  exists main e rest,
    cs = main +++ e :: rest
    /\ forallb (fun n => negb (is_exit_statement n)) main = true
    /\ is_exit_statement e = true
    /\ forallb (fun m => isinstance m [CFunc; CBlock; CComment; CBlank]) rest
       = true.
Proof.
  induction cs as [|n cs IH]; [discriminate|]. cbn [exit_then_definitions].
  destruct (is_exit_statement n) eqn:En; intros H.
  - exists [], n, cs. auto.
  - destruct (IH H) as (main & e & rest & -> & Hmain & He & Hrest).
    exists (n :: main), e, rest. cbn [app forallb]. rewrite En. auto.
Qed.

Lemma exit_found : forall cs n,
  forallb (fun n => negb (is_exit_statement n)) cs = true ->
  is_exit_statement n = true ->
  exit_then_definitions (cs +++ [n]) = true.
Proof.
  induction cs as [|c cs IH]; intros n Hcs Hn; cbn [app exit_then_definitions].
  - now rewrite Hn.
  - cbn [forallb] in Hcs. apply andb_prop in Hcs as [Hc Hcs].
    apply negb_true_iff in Hc. rewrite Hc. now apply IH.
Qed.

Lemma exit_then_definitions_snoc : forall cs n,
  exit_then_definitions cs = true ->
  isinstance n [CFunc; CBlock; CComment; CBlank] = true ->
  exit_then_definitions (cs +++ [n]) = true.
Proof.
  induction cs as [|c cs IH]; intros n Hcs Hn; [discriminate|].
  cbn [app exit_then_definitions] in *.
  destruct (is_exit_statement c); [|now apply IH].
  rewrite forallb_app, Hcs. cbn [forallb]. now rewrite Hn.
Qed.

Lemma definition_is_no_exit n :
  isinstance n [CFunc; CBlock; CComment; CBlank] = true ->
  is_exit_statement n = false.
Proof. destruct n; simpl; intros H; try discriminate; reflexivity. Qed.

Lemma builds_bind_raise {A C} (Q : C -> Prop) e (f : A -> B C) :
  builds Q (bind (raise e) f).
Proof. intros c y c' H. discriminate. Qed.

Section WithEnv.

Variable parse_expression : string -> option Expression.
Variable get_type_instance : string -> option TealishType.
Variable literal_type : string -> ExprType.

(** [Func.consume] returns a function that ends with a [return]. *)
Lemma Func_consume_closed Statement_consume fuel ctx :
  builds (fun n => closed_here n = true)
    (Func_consume get_type_instance Statement_consume fuel ctx).
Proof.
  unfold Func_consume.
  repeat first
    [ builds_skip
    | progress cbv zeta
    | match goal with
      | |- builds _ (match ?x with _ => _ end) => destruct x eqn:?
      | |- builds _ (raise _) => apply builds_raise
      | |- builds _ (ret _) =>
          apply builds_ret; cbn [closed_here];
          unfold FuncFacts.ends_with_return;
          match goal with E : rev _ = _ |- _ => now rewrite E end
      end ].
Qed.

(** What the loop of [Block.consume] keeps: until the exit statement
    there is none, and after it definitions only. *)
Definition Block_kept (exit_statement : option Node) (cs : list Node)
  : Prop :=
  match exit_statement with
  | None => forallb (fun n => negb (is_exit_statement n)) cs = true
  | Some _ => exit_then_definitions cs = true
  end.

Lemma Block_loop_closed Statement_consume :
  forall fuel ctx exit_statement cs,
    Block_kept exit_statement cs ->
    builds (fun cs' => exit_then_definitions cs' = true)
      (Block_loop Statement_consume fuel ctx exit_statement cs).
Proof.
  induction fuel as [|fuel IH]; intros ctx e cs Hkept; cbn [Block_loop];
    [apply builds_raise|].
  builds_skip. match goal with |- builds _ (if ?b then _ else _) => destruct b end.
  - builds_skip. destruct e as [e|].
    + apply builds_ret. exact Hkept.
    + builds_skip. apply builds_raise.
  - eapply builds_bind; [apply builds_any | intros n _; cbv beta].
    destruct e as [e|].
    + destruct (isinstance n [CFunc; CBlock; CComment; CBlank]) eqn:Hn;
        cbn [negb]; [|apply builds_bind_raise].
      builds_skip. cbv zeta. rewrite (definition_is_no_exit n Hn).
      builds_skip. apply IH. now apply exit_then_definitions_snoc.
    + destruct (isinstance n [CFunc; CBlock]); [apply builds_bind_raise|].
      builds_skip. cbv zeta. builds_skip. apply IH.
      destruct (is_exit_statement n) eqn:En; cbn [Block_kept] in *.
      * now apply exit_found.
      * rewrite forallb_app, Hkept. cbn [forallb]. now rewrite En.
Qed.

(** [Block.consume] returns a block with an exit statement. *)
Lemma Block_consume_closed Statement_consume fuel ctx :
  builds (fun n => closed_here n = true)
    (Block_consume Statement_consume fuel ctx).
Proof.
  unfold Block_consume. builds_skip. builds_skip. cbv zeta.
  eapply builds_bind.
  - apply (Block_loop_closed Statement_consume fuel _ None []). reflexivity.
  - intros cs Hcs. apply builds_ret. exact Hcs.
Qed.

(** Every block and every function of a built program is closed. *)
Lemma build_closed source_lines program :
  build parse_expression get_type_instance literal_type source_lines
  = inr program ->
  closed program = true.
Proof.
  apply (build_every closed_here closed_here_other closed_here_set_func
           parse_expression get_type_instance literal_type
           Func_consume_closed Block_consume_closed).
Qed.

End WithEnv.

(** *** [process] keeps a tree closed *)

Lemma class_of_shape n : class_of n = match shape n with Sh c _ => c end.
Proof. destruct n; reflexivity. Qed.

Lemma classes_of_shapes : forall cs cs',
  map shape cs = map shape cs' -> map class_of cs = map class_of cs'.
Proof.
  induction cs as [|c cs IH]; intros [|c' cs'] H; try discriminate;
    [reflexivity|].
  cbn [map] in *. inversion H as [[Hc Hcs]].
  rewrite !class_of_shape, Hc. f_equal. now apply IH.
Qed.

Lemma isinstance_classes classes : forall cs cs',
  map class_of cs = map class_of cs' ->
  forallb (fun m => isinstance m classes) cs
  = forallb (fun m => isinstance m classes) cs'.
Proof.
  induction cs as [|c cs IH]; intros [|c' cs'] H; try discriminate;
    [reflexivity|].
  cbn [map forallb] in *. inversion H as [[Hc Hcs]].
  unfold isinstance at 1 3. rewrite Hc. f_equal. now apply IH.
Qed.

Lemma exit_then_definitions_classes : forall cs cs',
  map class_of cs = map class_of cs' ->
  exit_then_definitions cs = exit_then_definitions cs'.
Proof.
  induction cs as [|c cs IH]; intros [|c' cs'] H; try discriminate;
    [reflexivity|].
  cbn [map exit_then_definitions] in *. inversion H as [[Hc Hcs]].
  unfold is_exit_statement, isinstance at 1 3. rewrite Hc.
  destruct (existsb _ _); [now apply isinstance_classes | now apply IH].
Qed.

Lemma ends_with_return_classes cs cs' :
  map class_of cs = map class_of cs' ->
  FuncFacts.ends_with_return cs = FuncFacts.ends_with_return cs'.
Proof.
  intros H.
  assert (by_class : forall l,
             FuncFacts.ends_with_return l
             = match rev (filter
                            (fun c => negb (existsb (NodeClass_eqb c)
                                              [CFunc; CComment; CBlank]))
                            (map class_of l)) with
               | CReturn :: _ => true
               | _ => false
               end).
  { intros l. unfold FuncFacts.ends_with_return.
    replace (filter _ (map class_of l))
      with (map class_of
              (filter (fun n => negb (isinstance n [CFunc; CComment; CBlank]))
                 l)).
    - rewrite <- map_rev. destruct (rev _) as [|r rs]; [reflexivity|].
      destruct r; reflexivity.
    - induction l as [|x l IHl]; [reflexivity|]. cbn [map filter].
      unfold isinstance at 1.
      destruct (negb _); cbn [map]; now rewrite IHl. }
  now rewrite !by_class, H.
Qed.

(** The children of a node. *)
Definition kids_of (n : Node) : list Node :=
  match n with
  | Program _ _ cs | Block _ _ _ cs | Switch _ _ cs | Router _ cs
  | Teal _ cs | InnerTxn _ cs | InnerGroup _ cs | IfThen _ _ _ cs
  | Elif _ _ _ _ _ cs | Else _ _ _ cs | IfStatement _ _ _ _ _ cs
  | WhileStatement _ _ _ _ cs | ForStatement _ _ _ _ _ _ cs
  | For_Statement _ _ _ _ cs | Func _ _ cs | DecoratedFunc _ cs
  | StructDefinition _ _ cs => cs
  | _ => []
  end.

Lemma shape_kids n : shape n = Sh (class_of n) (map shape (kids_of n)).
Proof. destruct n; reflexivity. Qed.

Lemma below_kids n : below closed_here n = forallb closed (kids_of n).
Proof. destruct n; reflexivity. Qed.

Lemma closed_here_shape a b : shape a = shape b -> closed_here a = closed_here b.
Proof.
  intros H. rewrite !shape_kids in H. inversion H as [[Hc Hkids]].
  apply classes_of_shapes in Hkids.
  destruct a; try (destruct b; try discriminate Hc; reflexivity);
    destruct b; try discriminate Hc; cbn [closed_here kids_of] in *.
  - now apply exit_then_definitions_classes.
  - now apply ends_with_return_classes.
Qed.

(** Two trees of the same shape are closed together. *)
Lemma closed_shape : forall a b, shape a = shape b -> closed a = closed b.
Proof.
  fix IH 1. intros a.
  assert (K : forall cs cs',
             map shape cs = map shape cs' ->
             forallb closed cs = forallb closed cs').
  { induction cs as [|c cs IHcs]; intros [|c' cs'] H; try discriminate;
      [reflexivity|].
    cbn [map forallb] in *. inversion H as [[Hc Hcs]].
    rewrite (IH c c' Hc). f_equal. now apply IHcs. }
  intros b H. unfold closed. rewrite !every_here_below, !below_kids.
  rewrite (closed_here_shape a b H). f_equal.
  rewrite !shape_kids in H. inversion H as [[Hc Hkids]].
  destruct a; cbn [kids_of] in *;
    first [ now apply K
          | symmetry in Hkids; apply map_eq_nil in Hkids; now rewrite Hkids ].
Qed.

(** *** The code of a closed tree *)

(** A line that is no instruction: a comment or an empty line. *)
Definition silent (t : string) : bool :=
  startswith t "//" || String.eqb t "".

(** A line after which the run does not go on to the next line: an
    unconditional branch, [return], [retsub] or [err], or the last line
    [pushint 1; return] of a route. *)
Definition closes (t : string) : bool :=
  match Flow.kind_of t with
  | Flow.Jump _ | Flow.Stop => true
  | _ => String.eqb t "pushint 1; return"
  end.

(** The last instruction of the lines closes. *)
Definition ends_closed (l : list string) : Prop :=
  exists before last after,
    l = before +++ last :: after
    /\ closes last = true /\ forallb silent after = true.

Lemma ends_closed_last before t : closes t = true -> ends_closed (before +++ [t]).
Proof. intros H. now exists before, t, []. Qed.

Lemma ends_closed_app_r a b : ends_closed b -> ends_closed (a +++ b).
Proof.
  intros (before & t & after & -> & Ht & Hafter).
  exists (a +++ before), t, after. now rewrite <- app_assoc.
Qed.

Lemma ends_closed_app_silent a b :
  ends_closed a -> forallb silent b = true -> ends_closed (a +++ b).
Proof.
  intros (before & t & after & -> & Ht & Hafter) Hb.
  exists before, t, (after +++ b). rewrite <- app_assoc. cbn [app].
  repeat split; auto. now rewrite forallb_app, Hafter, Hb.
Qed.

(** The statements whose code closes, and those whose code is silent. *)
Definition closing (n : Node) : bool :=
  isinstance n [CFunc; CBlock; CDecoratedFunc; CExit; CJump; CSwitch; CRouter;
                CReturn].

Definition quiet (n : Node) : bool := isinstance n [CComment; CBlank].

Definition tail_ok (n : Node) (l : list string) : Prop :=
  (closing n = true -> ends_closed l)
  /\ (quiet n = true -> forallb silent l = true).

Lemma sequence_app : forall (a b : list W) st st',
  sequence (a +++ b) st = Some st' ->
  exists st1, sequence a st = Some st1 /\ sequence b st1 = Some st'.
Proof.
  induction a as [|w a IH]; intros b st st' H; cbn [app sequence] in *.
  - exists st. auto.
  - apply andThen_inv in H as (s1 & H1 & H).
    destruct (IH _ _ _ H) as (s2 & H2 & H3). exists s2. split; [|exact H3].
    unfold andThen. now rewrite H1.
Qed.

Section WithScope.

Variable get_block : Src -> string -> option string.
Variable lookup_func : Src -> string -> option FuncAttrs.
Variable type_name : TealishType -> string.
Variable type_str : TealishType -> string.

Local Abbreviation write_teal :=
  (Gen.write_teal get_block lookup_func type_name type_str).

Local Abbreviation kids := (map (fun c : Node => (c, write_teal c))).

(** What the theorem says of a node. *)
Definition code_ok (n : Node) : Prop :=
  closed n = true ->
  forall st st',
    write_teal n st = Some st' ->
    exists l, texts_of st' = texts_of st +++ l /\ tail_ok n l.

Lemma write_children_app a b st st' :
  write_children (kids (a +++ b)) st = Some st' ->
  exists st1,
    write_children (kids a) st = Some st1
    /\ write_children (kids b) st1 = Some st'.
Proof.
  unfold write_children. rewrite !map_app. apply sequence_app.
Qed.

Lemma write_children_texts cs st st' :
  write_children (kids cs) st = Some st' ->
  exists l, texts_of st' = texts_of st +++ l.
Proof.
  apply appends_texts, appends_write_children, kids_append.
Qed.

(** The code of comments, blank lines and closed definitions, one
    after the other, is silent or ends closed. *)
Lemma definitions_code : forall rest,
  Forall code_ok rest ->
  forallb closed rest = true ->
  forallb (fun c => closing c || quiet c) rest = true ->
  forall st st',
    write_children (kids rest) st = Some st' ->
    exists l,
      texts_of st' = texts_of st +++ l
      /\ (forallb silent l = true \/ ends_closed l).
Proof.
  induction rest as [|c rest IH]; intros Hok Hclosed Hkind st st' H.
  - apply skip_texts in H. exists []. rewrite app_nil_r. auto.
  - unfold write_children in H. cbn [map snd sequence] in H.
    apply andThen_inv in H as (s1 & H1 & H).
    apply Forall_cons_iff in Hok as [Hc Hok].
    cbn [forallb] in Hclosed, Hkind.
    apply andb_prop in Hclosed as [Hcc Hclosed].
    apply andb_prop in Hkind as [Hck Hkind].
    destruct (Hc Hcc _ _ H1) as (l1 & E1 & Hclosing & Hquiet).
    destruct (IH Hok Hclosed Hkind _ _ H) as (l2 & E2 & Hl2).
    exists (l1 +++ l2). split; [now rewrite E2, E1, app_assoc|].
    destruct Hl2 as [Hl2|Hl2]; [|right; now apply ends_closed_app_r].
    apply orb_prop in Hck as [Hck|Hck].
    + right. apply ends_closed_app_silent; auto.
    + left. rewrite forallb_app, (Hquiet Hck). exact Hl2.
Qed.

(** The code of children that are some statements, a statement whose
    code closes, and then comments, blank lines and definitions. *)
Lemma closed_children_code main e rest st st' :
  Forall code_ok (main +++ e :: rest) ->
  forallb closed (main +++ e :: rest) = true ->
  closing e = true ->
  forallb (fun c => closing c || quiet c) rest = true ->
  write_children (kids (main +++ e :: rest)) st = Some st' ->
  exists l, texts_of st' = texts_of st +++ l /\ ends_closed l.
Proof.
  intros Hok Hclosed He Hrest H.
  apply write_children_app in H as (s1 & Hmain & H).
  apply write_children_texts in Hmain as [l0 E0].
  apply Forall_app in Hok as [_ Hok].
  rewrite forallb_app in Hclosed. apply andb_prop in Hclosed as [_ Hclosed].
  unfold write_children in H. cbn [map snd sequence] in H.
  apply andThen_inv in H as (s2 & He2 & H).
  apply Forall_cons_iff in Hok as [Hce Hok].
  cbn [forallb] in Hclosed. apply andb_prop in Hclosed as [Hec Hclosed].
  destruct (Hce Hec _ _ He2) as (l1 & E1 & Hclosing & _).
  destruct (definitions_code rest Hok Hclosed Hrest _ _ H) as (l2 & E2 & Hl2).
  exists (l0 +++ l1 +++ l2). split; [now rewrite E2, E1, E0, !app_assoc|].
  apply ends_closed_app_r. destruct Hl2 as [Hl2|Hl2].
  - apply ends_closed_app_silent; auto.
  - now apply ends_closed_app_r.
Qed.

Lemma closes_branch l : closes ("b " ++ l) = true.
Proof. reflexivity. Qed.

Lemma leaves_closes t : ExitFacts.leaves t -> closes t = true.
Proof.
  unfold ExitFacts.leaves, closes. destruct (Flow.kind_of t); tauto.
Qed.

(** The code of a route ends with [pushint 1; return]. *)
Lemma route_ends src r st st' :
  Router_write_route lookup_func type_name src r st = Some st' ->
  exists l, texts_of st' = texts_of st +++ l +++ ["pushint 1; return"].
Proof.
  unfold Router_write_route. destruct r; try discriminate.
  match goal with
  | |- context [lookup_func src ?n] =>
      destruct (lookup_func src n) as [func|]; [|discriminate]
  end.
  destruct (assoc "public" (f_attributes func)) as [public|];
    [|discriminate].
  cbv zeta.
  match goal with
  | |- sequence [?a; ?b; ?c; ?d; ?e; ?f; ?g; ?h] _ = _ -> _ =>
      change (sequence [a; b; c; d; e; f; g; h])
        with (sequence ([a; b; c; d; e; f] +++ [g; h]))
  end.
  intros Hrun. apply sequence_app in Hrun as (s1 & Hpre & Hrun).
  apply appends_texts in Hpre as [l Hl]; [|appends_auto].
  seq_inv Hrun. step_texts. exists l. chain_texts. reflexivity.
Qed.

(** The code of a router ends with the last line of its last route,
    or, without a route, with [err]. *)
Lemma Router_ends src routes st st' :
  Router_write_teal lookup_func type_name src routes st = Some st' ->
  exists l, texts_of st' = texts_of st +++ l /\ ends_closed l.
Proof.
  unfold Router_write_teal. cbv zeta. intros H. seq_inv H.
  apply appends_texts in E0 as [names E0];
    [|apply appends_sequence, Forall_map_intro; intros r; apply appends_write].
  destruct routes as [|r rs _] using rev_ind.
  - cbn [map sequence] in E4. step_texts.
    match type of E2 with
    | texts_of _ = _ +++ [?m] =>
        exists ([tl src] +++ names +++ ["txna ApplicationArgs 0"; m]
                +++ ["err // unexpected value"])
    end.
    split; [chain_texts; reflexivity|].
    rewrite !app_assoc. now apply ends_closed_last.
  - rewrite map_app in E4. apply sequence_app in E4 as (sa & Hrs & Hr).
    apply appends_texts in Hrs as [lrs Hrs];
      [|apply appends_sequence, Forall_map_intro; intros x;
        apply appends_Router_write_route].
    cbn [map sequence] in Hr. apply andThen_inv in Hr as (sb & Hr & Hskip).
    apply route_ends in Hr as [lr Hr]. step_texts.
    match type of E2 with
    | texts_of _ = _ +++ [?m] =>
        exists ([tl src] +++ names
                +++ ["txna ApplicationArgs 0"; m; "err // unexpected value"]
                +++ lrs +++ lr +++ ["pushint 1; return"])
    end.
    split.
    + rewrite H, Hskip, Hr, Hrs. chain_texts. reflexivity.
    + rewrite !app_assoc. now apply ends_closed_last.
Qed.

Lemma exit_is_closing e : is_exit_statement e = true -> closing e = true.
Proof. destruct e; simpl; intros H; try discriminate; reflexivity. Qed.

Lemma definitions_kinds rest :
  forallb (fun m => isinstance m [CFunc; CBlock; CComment; CBlank]) rest = true ->
  forallb (fun c => closing c || quiet c) rest = true.
Proof.
  intros H. rewrite forallb_forall in *. intros c Hc. specialize (H c Hc).
  destruct c; simpl in H; try discriminate; reflexivity.
Qed.

Lemma after_return_kinds after :
  Forall (fun n => isinstance n [CFunc; CComment; CBlank] = true) after ->
  forallb (fun c => closing c || quiet c) after = true.
Proof.
  intros H. apply forallb_forall. intros c Hc. rewrite Forall_forall in H.
  specialize (H c Hc). destruct c; simpl in H; try discriminate; reflexivity.
Qed.

Lemma return_is_closing r : class_of r = CReturn -> closing r = true.
Proof. destruct r; simpl; intros H; try discriminate; reflexivity. Qed.

(** The function that a decorated function writes. *)
Lemma last_of_class c cs x w :
  last (map Some (of_class c (kids cs))) None = Some (x, w) ->
  In x cs /\ w = write_teal x /\ class_of x = c.
Proof.
  intros H. apply last_Some_In in H. unfold of_class in H.
  apply filter_In in H as [Hin Hc]. apply in_map_iff in Hin as (y & E & Hy).
  inversion E; subst. cbn [fst] in Hc. repeat split; auto.
  destruct (class_of x), c; try discriminate; reflexivity.
Qed.

(** The code of every closed tree. *)
Lemma write_teal_code : forall n, code_ok n.
Proof.
  fix IH 1. intros n.
  assert (K : forall cs, Forall code_ok cs).
  { induction cs as [|c cs IHcs]; constructor; [apply IH | exact IHcs]. }
  intros Hclosed st st' Hrun.
  destruct n;
    try (destruct (appends_texts _ _ _
                     (write_teal_appends get_block lookup_func type_name
                        type_str _) Hrun) as [l Hl];
         exists l; split; [exact Hl | split; intros Hk; discriminate Hk]);
    cbn [Gen.write_teal] in Hrun.
  - (* comment *)
    apply write_texts in Hrun. exists ["//" ++ comment].
    split; [exact Hrun | split; [discriminate | reflexivity]].
  - (* blank *)
    apply write_texts in Hrun. exists [""].
    split; [exact Hrun | split; [discriminate | reflexivity]].
  - (* jump *)
    unfold Jump_write_teal in Hrun. apply andThen_inv in Hrun as (s1 & H1 & H2).
    destruct (get_block src block_name) as [label|]; [|discriminate].
    step_texts. exists ([tl src] +++ ["b " ++ label]).
    split; [chain_texts; reflexivity | split; [|discriminate]].
    intros _. apply ends_closed_last, closes_branch.
  - (* exit *)
    unfold Exit_write_teal in Hrun. seq_inv Hrun. step_texts.
    exists (([tl src] +++ e_teal expression) +++ ["return"]).
    split; [chain_texts; reflexivity | split; [|discriminate]].
    intros _. now apply ends_closed_last.
  - (* block *)
    pose proof (K child_nodes) as Hok. clear K.
    unfold Block_write_teal in Hrun. seq_inv Hrun.
    unfold closed in Hclosed. cbn [every] in Hclosed.
    apply andb_prop in Hclosed as [Hhere Hkids]. cbn [closed_here] in Hhere.
    apply exit_then_definitions_spec in Hhere
      as (main & e & rest & -> & _ & He & Hrest).
    apply closed_children_code in E2 as (l & El & Hl);
      [|exact Hok | exact Hkids | now apply exit_is_closing
       |now apply definitions_kinds].
    step_texts.
    match type of E with
    | _ = _ +++ [?first] => exists ([first; label ++ ":"] +++ l)
    end.
    split; [chain_texts; reflexivity | split; [|discriminate]].
    intros _. now apply ends_closed_app_r.
  - (* switch *)
    apply ExitFacts.Switch_ends in Hrun as (before & last & E & Hlast).
    exists (before +++ [last]). split; [exact E | split; [|discriminate]].
    intros _. now apply ends_closed_last, leaves_closes.
  - (* router *)
    apply Router_ends in Hrun as (l & E & Hl).
    exists l. split; [exact E | split; [auto | discriminate]].
  - (* func *)
    pose proof (K child_nodes) as Hok. clear K.
    unfold Func_write_teal in Hrun. seq_inv Hrun.
    unfold closed in Hclosed. cbn [every] in Hclosed.
    apply andb_prop in Hclosed as [Hhere Hkids]. cbn [closed_here] in Hhere.
    apply FuncFacts.ends_with_return_spec in Hhere
      as (before & r & after & -> & Hr & Hafter).
    apply closed_children_code in E3 as (l & El & Hl);
      [|exact Hok | exact Hkids | now apply return_is_closing
       |now apply after_return_kinds].
    apply appends_texts in E2 as [stores E2]; [|appends_auto].
    step_texts.
    exists ([tl src; f_label attrs ++ ":"] +++ stores +++ l).
    split; [chain_texts; reflexivity | split; [|discriminate]].
    intros _. rewrite app_assoc. now apply ends_closed_app_r.
  - (* return *)
    unfold Return_write_teal in Hrun. seq_inv Hrun.
    apply appends_texts in E0 as [values E0].
    + step_texts. exists (([tl src] +++ values) +++ ["retsub"]).
      split; [chain_texts; reflexivity | split; [|discriminate]].
      intros _. now apply ends_closed_last.
    + destruct args; [apply appends_skip|].
      apply appends_sequence, Forall_map_intro. intros e.
      apply appends_write_expr.
  - (* decorated function *)
    pose proof (K child_nodes) as Hok. clear K.
    unfold DecoratedFunc_write_teal in Hrun.
    destruct (last _ None) as [[f w]|] eqn:E; [|discriminate].
    apply last_of_class in E as (Hin & -> & Hf).
    unfold closed in Hclosed. cbn [every] in Hclosed.
    apply andb_prop in Hclosed as [_ Hkids].
    rewrite forallb_forall in Hkids.
    rewrite Forall_forall in Hok.
    destruct (Hok f Hin (Hkids f Hin) _ _ Hrun) as (l & El & Hclosing & _).
    exists l. split; [exact El | split; [|discriminate]].
    intros _. apply Hclosing. destruct f; try discriminate Hf. reflexivity.
Qed.

End WithScope.

Section Claim.

Variable parse_expression : string -> option Expression.
Variable get_type_instance : string -> option TealishType.
Variable literal_type : string -> ExprType.
Variable get_struct : string -> option TealishType.
Variable can_hold : TealishType -> ExprType -> bool.
Variable can_hold_with_cast : TealishType -> ExprType -> bool.
Variable expr_type_str : ExprType -> string.
Variable get_block : Src -> string -> option string.
Variable lookup_func : Src -> string -> option FuncAttrs.
Variable type_name : TealishType -> string.
Variable type_str : TealishType -> string.

(** X11. A run does not go past the end of a block or of a function
    into the code that follows it.  In every program that the build
    pass makes, every block has an exit statement among its children,
    with functions, blocks, comments and blank lines only after the
    first one, and every function has a [return] with functions,
    comments and blank lines only after it; [process] keeps a tree of
    this shape in this shape.  For every tree of this shape, the
    lines that [write_teal] writes for a block, a function or a
    decorated function end, apart from comment lines and empty lines,
    with a line that does not fall through: an unconditional branch,
    [return], [retsub], [err], or the [pushint 1; return] of a
    route. *)
Theorem definitions_are_closed :
  (forall source_lines program,
      build parse_expression get_type_instance literal_type source_lines
      = inr program ->
      closed program = true)
  /\ (forall src block_name label cs,
         closed (Block src block_name label cs) = true ->
         exists main e rest,
           cs = main +++ e :: rest
           /\ forallb (fun n => negb (is_exit_statement n)) main = true
           /\ is_exit_statement e = true
           /\ forallb
                (fun m => isinstance m [CFunc; CBlock; CComment; CBlank]) rest
              = true)
  /\ (forall src attrs cs,
         closed (Func src attrs cs) = true ->
         exists before r after,
           cs = before +++ r :: after /\ class_of r = CReturn
           /\ Forall (fun n => isinstance n [CFunc; CComment; CBlank] = true)
                after)
  /\ (forall parent n st n' st',
         closed n = true ->
         Process.process get_type_instance get_struct can_hold
           can_hold_with_cast type_str expr_type_str lookup_func
           parse_expression parent n st = inr (n', st') ->
         closed n' = true)
  /\ (forall n st st',
         closed n = true ->
         isinstance n [CFunc; CBlock; CDecoratedFunc] = true ->
         Gen.write_teal get_block lookup_func type_name type_str n st
         = Some st' ->
         exists l, texts_of st' = texts_of st +++ l /\ ends_closed l).
Proof.
  split; [|split; [|split; [|split]]].
  - apply build_closed.
  - intros src block_name label cs H. unfold closed in H. cbn [every] in H.
    apply andb_prop in H as [H _]. now apply exit_then_definitions_spec.
  - intros src attrs cs H. unfold closed in H. cbn [every] in H.
    apply andb_prop in H as [H _]. now apply FuncFacts.ends_with_return_spec.
  - intros parent n st n' st' Hclosed H.
    apply process_shape in H. now rewrite (closed_shape n' n H).
  - intros n st st' Hclosed Hn H.
    destruct (write_teal_code get_block lookup_func type_name type_str n
                Hclosed st st' H) as (l & E & Hclosing & _).
    exists l. split; [exact E|]. apply Hclosing.
    destruct n; try discriminate Hn; reflexivity.
Qed.

End Claim.

(** A block that jumps to itself, with a function after the jump. *)
Definition literal_one : Expression :=
  {| e_tealish := "1"; e_process := inr (One IntType);
     e_teal := ["pushint 1"] |}.

Definition main_block : Node :=
  Block {| line_no := 2; line := "block main:" |} "main" "main"
    [ Assert {| line_no := 3; line := "assert(1)" |} literal_one None;
      Jump {| line_no := 4; line := "jump main" |} "main";
      Func {| line_no := 5; line := "func f() int:" |}
        {| f_name := "f"; f_args := []; f_returns := [IntType];
           f_label := "main__func__f"; f_vars := []; f_attributes := [] |}
        [ Return {| line_no := 6; line := "return 1" |} "1" [literal_one]
            [IntType];
          Comment {| line_no := 7; line := "# done" |} " done" ] ].

Definition closed_lines : list string :=
  [ "exit(1)"; "block main:"; "assert(1)"; "jump main"; "func f() int:";
    "return 1"; "# done"; "end"; "end" ].

Example closed_lines_built :
  Standin.build closed_lines
  = inr (Program {| line_no := 0; line := "" |} Scope.root
           [ Exit {| line_no := 1; line := "exit(1)" |} literal_one;
             main_block ]).
Proof. vm_compute. reflexivity. Qed.

Lemma definitions_are_closed_witness :
  closed main_block = true
  /\ exists st',
       Gen.write_teal (fun _ n => Some n) (fun _ _ => None) Standin.type_str
         Standin.type_str main_block
         {| compiler := Build.start []; writer := TealWriter.empty |}
       = Some st'
       /\ texts_of st'
          = [ "// block main"; "main:"; "// tl:3: assert(1)"; "pushint 1";
              "assert"; "// tl:4: jump main"; "b main";
              "// tl:5: func f() int:"; "main__func__f:";
              "// tl:6: return 1"; "pushint 1"; "retsub"; "// done" ]
       /\ exists l,
            texts_of st'
            = texts_of {| compiler := Build.start [];
                          writer := TealWriter.empty |} +++ l
            /\ ends_closed l.
Proof.
  split; [reflexivity|]. eexists. split; [vm_compute; reflexivity|].
  split; [reflexivity|].
  refine (proj2 (proj2 (proj2 (proj2
            (definitions_are_closed
               Standin.parse_expression Standin.get_type_instance
               Standin.literal_type Standin.get_struct Standin.can_hold
               Standin.can_hold_with_cast Standin.expr_type_str
               (fun _ n => Some n) (fun _ _ => None) Standin.type_str
               Standin.type_str))))
            main_block _ _ _ _ _).
  - reflexivity.
  - reflexivity.
  - vm_compute. reflexivity.
Defined.

End ClosedFacts.
